(** * B+tree index over a page-oriented buffer pool

    Shallow embedding of [src/storage/index/b_plus_tree.cpp] and the
    properties of its search, insert, remove and iterator entry points.

    Conventions of the embedding.
    - C++ [int] values (sizes, slot indices, page ids) are [Z]; page
      capacities are a few hundred slots, far away from the 32-bit range.
    - The slot array of a page ends with the page: a slot index at or
      beyond the capacity of the page is outside the page.
    - Keys are the integers that [SetFromInteger] stores in a [GenericKey];
      the comparator returns -1, 0 or 1.
    - The buffer pool is a finite map from page ids to page contents plus the
      allocation counter.  The header page holds a single field, the root
      page id, and is kept as a field of the tree state.
    - A page guard is the id of the page it latches.  A write guard gives
      exclusive access, so a block of code that works on several latched
      pages reads them from the pool, works on the values and stores them
      back; fetching a write guard on a page the operation already latched
      never returns and is the error [Deadlock].
    - Undefined behaviour (slot index outside the page, dereference of an
      empty optional, a page viewed at the wrong type) is an explicit
      error. *)

From Stdlib Require Import ZArith List Lia Bool.
From stdpp Require Import base option list gmap sorting.

Local Open Scope Z_scope.

(** ** Errors *)

Inductive Error : Type :=
  | NullHeaderGuard   (* dereference of [ctx.header_page_] while it is nullopt *)
  | PageFault         (* a page id that the pool never allocated *)
  | BadCast           (* a leaf viewed as internal page or the reverse *)
  | Deadlock          (* write latch requested on a page latched by this operation *)
  | OutOfBounds       (* slot index outside the page, or guard index outside the deque *)
  | DanglingPage      (* write through a page pointer whose guard was released *)
  | Diverge.          (* a loop that does not terminate *)

Inductive Result (A : Type) : Type :=
  | Ok (a : A)
  | Err (e : Error).
Arguments Ok {A} a.
Arguments Err {A} e.

#[global] Instance Result_ret : MRet Result := fun A a => Ok a.
#[global] Instance Result_bind : MBind Result :=
  fun A B f m => match m with Ok a => f a | Err e => Err e end.

Abbreviation KeyType := Z (only parsing).
Abbreviation ValueType := Z (only parsing).
Abbreviation page_id_t := Z (only parsing).
Abbreviation MappingType := (Z * Z)%type (only parsing).

Definition INVALID_PAGE_ID : page_id_t := -1.

(** [GenericComparator] on integer keys. *)
Definition comparator_ (a b : KeyType) : Z :=
  match a ?= b with
  | Lt => -1
  | Eq => 0
  | Gt => 1
  end.

(** ** Slot arrays

    The flexible array member of a page: a zeroed block of [capacity] slots
    read and written by index.  The list holds the prefix written so far,
    the rest reads as zero.  An index below 0 or not below [capacity] is
    outside the page. *)

Definition zero_slot : MappingType := (0, 0).

Fixpoint write_nth (n : nat) (x : MappingType) (a : list MappingType) : list MappingType :=
  match n, a with
  | O, [] => [x]
  | O, _ :: a' => x :: a'
  | S n', [] => zero_slot :: write_nth n' x []
  | S n', y :: a' => y :: write_nth n' x a'
  end.

Definition array_get (capacity : Z) (a : list MappingType) (i : Z) : Result MappingType :=
  if (i <? 0) || (capacity <=? i) then Err OutOfBounds
  else Ok (nth (Z.to_nat i) a zero_slot).

Definition array_set (capacity : Z) (a : list MappingType) (i : Z) (x : MappingType)
    : Result (list MappingType) :=
  if (i <? 0) || (capacity <=? i) then Err OutOfBounds
  else Ok (write_nth (Z.to_nat i) x a).

(** ** Counted loops

    [for_up lo hi body] is [for (i = lo; i < hi; ++i) body(i)],
    [for_down hi lo body] is [for (i = hi; i > lo; --i) body(i)].  The bounds
    of every loop of the source are fixed while the loop runs. *)

Fixpoint for_up_n {S : Type} (n : nat) (i : Z) (body : Z -> S -> Result S) (s : S) : Result S :=
  match n with
  | O => Ok s
  | S n' => s' ← body i s; for_up_n n' (i + 1) body s'
  end.

Definition for_up {S : Type} (lo hi : Z) (body : Z -> S -> Result S) (s : S) : Result S :=
  for_up_n (Z.to_nat (hi - lo)) lo body s.

Fixpoint for_down_n {S : Type} (n : nat) (i : Z) (body : Z -> S -> Result S) (s : S) : Result S :=
  match n with
  | O => Ok s
  | S n' => s' ← body i s; for_down_n n' (i - 1) body s'
  end.

Definition for_down {S : Type} (hi lo : Z) (body : Z -> S -> Result S) (s : S) : Result S :=
  for_down_n (Z.to_nat (hi - lo)) hi body s.

(** ** Page views *)

(** Modelled from the spec: the page classes live in headers that are not
    part of the source file.  [GetMinSize] is the ceiling of half of the
    maximum size for both page kinds (spec, section 3). *)
Definition min_size_of (max_size : Z) : Z := (max_size + 1) / 2.

(** Modelled from the spec: a page is a fixed-size byte block (spec,
    section 3), so the slot array of a page has a fixed number of slots.
    The numbers are those of a 4096-byte page with 8-byte keys: a leaf has
    a 16-byte header and 16-byte slots (key and record id), an internal page
    a 12-byte header and 12-byte slots (key and page id).  The proofs use
    the two capacities through the bounds on [leaf_max_size] and
    [internal_max_size] only. *)
Definition BUSTUB_PAGE_SIZE : Z := 4096.
Definition LEAF_PAGE_HEADER_SIZE : Z := 16.
Definition INTERNAL_PAGE_HEADER_SIZE : Z := 12.
Definition LEAF_PAGE_SIZE : Z :=
  Eval cbv in (BUSTUB_PAGE_SIZE - LEAF_PAGE_HEADER_SIZE) / 16.
Definition INTERNAL_PAGE_SIZE : Z :=
  Eval cbv in (BUSTUB_PAGE_SIZE - INTERNAL_PAGE_HEADER_SIZE) / 12.
#[global] Arguments LEAF_PAGE_SIZE : simpl never.
#[global] Arguments INTERNAL_PAGE_SIZE : simpl never.

Module LeafPage.

Record t : Type := mk {
  size_ : Z;
  max_size_ : Z;
  next_page_id_ : page_id_t;
  array_ : list MappingType
}.

(** Modelled from the spec: [Init] zeroes the size and sets the maximum;
    a fresh leaf has no successor. *)
Definition Init (max_size : Z) : t :=
  {| size_ := 0; max_size_ := max_size; next_page_id_ := INVALID_PAGE_ID; array_ := [] |}.

Definition GetSize (p : t) : Z := size_ p.
Definition GetMaxSize (p : t) : Z := max_size_ p.
Definition GetMinSize (p : t) : Z := min_size_of (max_size_ p).
Definition GetNextPageId (p : t) : page_id_t := next_page_id_ p.

Definition SetSize (p : t) (n : Z) : t :=
  {| size_ := n; max_size_ := max_size_ p; next_page_id_ := next_page_id_ p; array_ := array_ p |}.
Definition IncreaseSize (p : t) (d : Z) : t := SetSize p (size_ p + d).
Definition SetNextPageId (p : t) (id : page_id_t) : t :=
  {| size_ := size_ p; max_size_ := max_size_ p; next_page_id_ := id; array_ := array_ p |}.

Definition KeyAt (p : t) (i : Z) : Result KeyType :=
  kv ← array_get LEAF_PAGE_SIZE (array_ p) i; Ok (fst kv).
Definition ValueAt (p : t) (i : Z) : Result ValueType :=
  kv ← array_get LEAF_PAGE_SIZE (array_ p) i; Ok (snd kv).
Definition SetAt (p : t) (i : Z) (k : KeyType) (v : ValueType) : Result t :=
  a ← array_set LEAF_PAGE_SIZE (array_ p) i (k, v);
  Ok {| size_ := size_ p; max_size_ := max_size_ p; next_page_id_ := next_page_id_ p; array_ := a |}.

End LeafPage.

Module InternalPage.

Record t : Type := mk {
  size_ : Z;
  max_size_ : Z;
  array_ : list MappingType
}.

(** Modelled from the spec: [Init] zeroes the size and sets the maximum. *)
Definition Init (max_size : Z) : t :=
  {| size_ := 0; max_size_ := max_size; array_ := [] |}.

Definition GetSize (p : t) : Z := size_ p.
Definition GetMaxSize (p : t) : Z := max_size_ p.
Definition GetMinSize (p : t) : Z := min_size_of (max_size_ p).

Definition SetSize (p : t) (n : Z) : t :=
  {| size_ := n; max_size_ := max_size_ p; array_ := array_ p |}.
Definition IncreaseSize (p : t) (d : Z) : t := SetSize p (size_ p + d).

Definition KeyAt (p : t) (i : Z) : Result KeyType :=
  kv ← array_get INTERNAL_PAGE_SIZE (array_ p) i; Ok (fst kv).
Definition ValueAt (p : t) (i : Z) : Result page_id_t :=
  kv ← array_get INTERNAL_PAGE_SIZE (array_ p) i; Ok (snd kv).
Definition SetKeyAt (p : t) (i : Z) (k : KeyType) : Result t :=
  kv ← array_get INTERNAL_PAGE_SIZE (array_ p) i;
  a ← array_set INTERNAL_PAGE_SIZE (array_ p) i (k, snd kv);
  Ok {| size_ := size_ p; max_size_ := max_size_ p; array_ := a |}.
Definition SetValueAt (p : t) (i : Z) (v : page_id_t) : Result t :=
  kv ← array_get INTERNAL_PAGE_SIZE (array_ p) i;
  a ← array_set INTERNAL_PAGE_SIZE (array_ p) i (fst kv, v);
  Ok {| size_ := size_ p; max_size_ := max_size_ p; array_ := a |}.

(** Modelled from the spec: [ValueIndex] is a linear search for the slot
    whose child is the given page, -1 when there is none. *)
Fixpoint ValueIndex_from (n : nat) (i : Z) (a : list MappingType) (child : page_id_t) : Z :=
  match n with
  | O => -1
  | S n' =>
      if snd (nth (Z.to_nat i) a zero_slot) =? child then i
      else ValueIndex_from n' (i + 1) a child
  end.
Definition ValueIndex (p : t) (child : page_id_t) : Z :=
  ValueIndex_from (Z.to_nat (size_ p)) 0 (array_ p) child.

End InternalPage.

Inductive Page : Type :=
  | Leaf (p : LeafPage.t)
  | Internal (p : InternalPage.t).

Definition IsLeafPage (p : Page) : bool :=
  match p with Leaf _ => true | Internal _ => false end.
Definition GetSize (p : Page) : Z :=
  match p with Leaf l => LeafPage.GetSize l | Internal i => InternalPage.GetSize i end.
Definition GetMaxSize (p : Page) : Z :=
  match p with Leaf l => LeafPage.GetMaxSize l | Internal i => InternalPage.GetMaxSize i end.
Definition GetMinSize (p : Page) : Z :=
  match p with Leaf l => LeafPage.GetMinSize l | Internal i => InternalPage.GetMinSize i end.

Definition AsLeaf (p : Page) : Result LeafPage.t :=
  match p with Leaf l => Ok l | Internal _ => Err BadCast end.
Definition AsInternal (p : Page) : Result InternalPage.t :=
  match p with Internal i => Ok i | Leaf _ => Err BadCast end.

(** ** Buffer pool, header page and operation context *)

(** The pool as the tree sees it: the pages allocated so far, the
    allocation counter, and the content of the header page. *)
Record BufferPool : Type := mkPool {
  pages_ : gmap Z Page;
  next_page_id_ : page_id_t;
  header_root_page_id_ : page_id_t
}.

Definition set_pages (s : BufferPool) (m : gmap Z Page) : BufferPool :=
  {| pages_ := m; next_page_id_ := next_page_id_ s; header_root_page_id_ := header_root_page_id_ s |}.
Definition set_root (s : BufferPool) (r : page_id_t) : BufferPool :=
  {| pages_ := pages_ s; next_page_id_ := next_page_id_ s; header_root_page_id_ := r |}.
Definition put_page (s : BufferPool) (id : page_id_t) (p : Page) : BufferPool :=
  set_pages s (<[id := p]> (pages_ s)).

(** Modelled from the spec: [NewPageGuarded] hands out a fresh page id. *)
Definition NewPageGuarded (s : BufferPool) : BufferPool * page_id_t :=
  ({| pages_ := pages_ s; next_page_id_ := next_page_id_ s + 1;
      header_root_page_id_ := header_root_page_id_ s |}, next_page_id_ s).

(** Access through a guard that is already held. *)
Definition guarded_page (s : BufferPool) (id : page_id_t) : Result Page :=
  match pages_ s !! id with
  | Some p => Ok p
  | None => Err PageFault
  end.

Definition FetchPageRead (s : BufferPool) (id : page_id_t) : Result Page := guarded_page s id.

(** [held] lists the pages whose write latch the operation owns. *)
Definition FetchPageWrite (s : BufferPool) (held : list page_id_t) (id : page_id_t) : Result Page :=
  if bool_decide (id ∈ held) then Err Deadlock else guarded_page s id.

Inductive Operation : Type := Search | OpInsert | OpRemove.

Record Context : Type := mkCtx {
  header_page_ : option page_id_t;
  root_page_id_ : page_id_t;
  write_set_ : list page_id_t;
  read_set_ : list page_id_t
}.

Definition set_write_set (ctx : Context) (ws : list page_id_t) : Context :=
  {| header_page_ := header_page_ ctx; root_page_id_ := root_page_id_ ctx;
     write_set_ := ws; read_set_ := read_set_ ctx |}.
Definition set_read_set (ctx : Context) (rs : list page_id_t) : Context :=
  {| header_page_ := header_page_ ctx; root_page_id_ := root_page_id_ ctx;
     write_set_ := write_set_ ctx; read_set_ := rs |}.
Definition release_header (ctx : Context) : Context :=
  {| header_page_ := None; root_page_id_ := root_page_id_ ctx;
     write_set_ := write_set_ ctx; read_set_ := read_set_ ctx |}.

Definition IsRootPage (ctx : Context) (id : page_id_t) : bool := id =? root_page_id_ ctx.

(** [deque::back()] and [deque::operator[]]. *)
Definition back (q : list page_id_t) : Result page_id_t :=
  match last q with
  | Some x => Ok x
  | None => Err OutOfBounds
  end.
Definition guard_at (q : list page_id_t) (i : nat) : Result page_id_t :=
  match q !! i with
  | Some x => Ok x
  | None => Err OutOfBounds
  end.

(** [while (ctx.write_set_.size() > 1) ctx.write_set_.pop_front();] *)
Fixpoint pop_front_to_one (q : list page_id_t) : list page_id_t :=
  match q with
  | _ :: ((_ :: _) as q') => pop_front_to_one q'
  | _ => q
  end.

(** [ctx.header_page_->AsMut<BPlusTreeHeaderPage>()] *)
Definition header_deref (ctx : Context) : Result page_id_t :=
  match header_page_ ctx with
  | Some h => Ok h
  | None => Err NullHeaderGuard
  end.

(** ** Search primitives *)

Fixpoint BinaryFind_loop (fuel : nat) (key_at : Z -> Result KeyType) (key : KeyType)
    (l r : Z) : Result Z :=
  if l <? r then
    match fuel with
    | O => Err Diverge
    | S fuel' =>
        let mid := Z.shiftr (l + r + 1) 1 in
        k ← key_at mid;
        if negb (comparator_ k key =? 1)
        then BinaryFind_loop fuel' key_at key mid r
        else BinaryFind_loop fuel' key_at key l (mid - 1)
    end
  else Ok r.

Definition BinaryFind_leaf (leaf_page : LeafPage.t) (key : KeyType) : Result Z :=
  let l := 0 in
  let r := LeafPage.GetSize leaf_page - 1 in
  r ← BinaryFind_loop (Z.to_nat (r - l)) (LeafPage.KeyAt leaf_page) key l r;
  if 0 <=? r then
    k ← LeafPage.KeyAt leaf_page r;
    if comparator_ k key =? 1 then Ok (-1) else Ok r
  else Ok r.

Definition BinaryFind_internal (internal_page : InternalPage.t) (key : KeyType) : Result Z :=
  let l := 1 in
  let r := InternalPage.GetSize internal_page - 1 in
  r ← BinaryFind_loop (Z.to_nat (r - l)) (InternalPage.KeyAt internal_page) key l r;
  if r =? -1 then Ok 0
  else
    k ← InternalPage.KeyAt internal_page r;
    if comparator_ k key =? 1 then Ok 0 else Ok r.

Definition IsSafePage (tree_page : Page) (op : Operation) (isRootPage : bool) : bool :=
  match op with
  | Search => true
  | OpInsert =>
      if IsLeafPage tree_page
      then GetSize tree_page + 1 <? GetMaxSize tree_page
      else GetSize tree_page <? GetMaxSize tree_page
  | OpRemove =>
      if isRootPage then
        if IsLeafPage tree_page then 1 <? GetSize tree_page else 2 <? GetSize tree_page
      else GetMinSize tree_page <? GetSize tree_page
  end.

(** ** Descent *)

(** [FindLeafPage] for [Operation::Search]: every read guard is kept. *)
Fixpoint FindLeafPage_read (fuel : nat) (s : BufferPool) (key : KeyType) (ctx : Context)
    : Result Context :=
  id ← back (read_set_ ctx);
  page ← guarded_page s id;
  match page with
  | Leaf _ => Ok ctx
  | Internal internal =>
      match fuel with
      | O => Err Diverge
      | S fuel' =>
          slot ← BinaryFind_internal internal key;
          next_page_id ← InternalPage.ValueAt internal slot;
          _ ← FetchPageRead s next_page_id;
          FindLeafPage_read fuel' s key (set_read_set ctx (read_set_ ctx ++ [next_page_id]))
      end
  end.

(** [FindLeafPage] for [Operation::Insert] and [Operation::Remove]. *)
Fixpoint FindLeafPage_write (fuel : nat) (s : BufferPool) (key : KeyType) (op : Operation)
    (ctx : Context) : Result Context :=
  id ← back (write_set_ ctx);
  page ← guarded_page s id;
  match page with
  | Leaf _ => Ok ctx
  | Internal internal =>
      match fuel with
      | O => Err Diverge
      | S fuel' =>
          slot ← BinaryFind_internal internal key;
          next_page_id ← InternalPage.ValueAt internal slot;
          child ← FetchPageWrite s (write_set_ ctx) next_page_id;
          let ws := write_set_ ctx ++ [next_page_id] in
          let ws := if IsSafePage child op false then pop_front_to_one ws else ws in
          FindLeafPage_write fuel' s key op (set_write_set ctx ws)
      end
  end.

Definition FindLeafPage (fuel : nat) (s : BufferPool) (key : KeyType) (op : Operation)
    (ctx : Context) : Result Context :=
  match op with
  | Search => FindLeafPage_read fuel s key ctx
  | _ => FindLeafPage_write fuel s key op ctx
  end.

(** A descent visits no page twice unless the page graph has a cycle, in
    which case the loop of the source never ends. *)
Definition descent_fuel (s : BufferPool) : nat := S (size (pages_ s)).

(** ** Search *)

Definition GetValue (s : BufferPool) (key : KeyType) (result : list ValueType)
    : Result (bool * list ValueType) :=
  if header_root_page_id_ s =? INVALID_PAGE_ID then Ok (false, result)
  else
    let root := header_root_page_id_ s in
    _ ← FetchPageRead s root;
    let ctx := {| header_page_ := None; root_page_id_ := root;
                  write_set_ := []; read_set_ := [root] |} in
    ctx ← FindLeafPage (descent_fuel s) s key Search ctx;
    id ← back (read_set_ ctx);
    page ← guarded_page s id;
    leaf_page ← AsLeaf page;
    index ← BinaryFind_leaf leaf_page key;
    if index =? -1 then Ok (false, result)
    else
      k ← LeafPage.KeyAt leaf_page index;
      if negb (comparator_ k key =? 0) then Ok (false, result)
      else
        v ← LeafPage.ValueAt leaf_page index;
        Ok (true, result ++ [v]).

(** ** Slot moves used by the insert and remove engines *)

(** [dst->SetAt(i, src->KeyAt(j), src->ValueAt(j))] *)
Definition copy_leaf_slot (src : LeafPage.t) (j : Z) (dst : LeafPage.t) (i : Z) : Result LeafPage.t :=
  k ← LeafPage.KeyAt src j;
  v ← LeafPage.ValueAt src j;
  LeafPage.SetAt dst i k v.

(** [p->SetAt(i, p->KeyAt(j), p->ValueAt(j))] *)
Definition move_leaf_slot (p : LeafPage.t) (j i : Z) : Result LeafPage.t :=
  copy_leaf_slot p j p i.

(** [dst->SetKeyAt(i, src->KeyAt(j)); dst->SetValueAt(i, src->ValueAt(j));] *)
Definition copy_internal_slot (src : InternalPage.t) (j : Z) (dst : InternalPage.t) (i : Z)
    : Result InternalPage.t :=
  k ← InternalPage.KeyAt src j;
  dst ← InternalPage.SetKeyAt dst i k;
  v ← InternalPage.ValueAt src j;
  InternalPage.SetValueAt dst i v.

(** [p->SetKeyAt(i, p->KeyAt(j)); p->SetValueAt(i, p->ValueAt(j));] *)
Definition move_internal_slot (p : InternalPage.t) (j i : Z) : Result InternalPage.t :=
  k ← InternalPage.KeyAt p j;
  p ← InternalPage.SetKeyAt p i k;
  v ← InternalPage.ValueAt p j;
  InternalPage.SetValueAt p i v.

(** [p->SetKeyAt(i, k); p->SetValueAt(i, v);] *)
Definition set_internal_slot (p : InternalPage.t) (i : Z) (k : KeyType) (v : page_id_t)
    : Result InternalPage.t :=
  p ← InternalPage.SetKeyAt p i k;
  InternalPage.SetValueAt p i v.

(** [int64_t], the type of the keys that the test drivers read. *)
Definition INT64_MIN : Z := Eval cbv in - 2 ^ 63.
Definition INT64_MAX : Z := Eval cbv in 2 ^ 63 - 1.
Definition fits_int64 (n : Z) : bool := (INT64_MIN <=? n) && (n <=? INT64_MAX).

Section BPlusTree.

Variable leaf_max_size_ : Z.
Variable internal_max_size_ : Z.
Variable header_page_id_ : page_id_t.

(** The constructor: the header page records an empty tree. *)
Definition BPlusTree_new (s : BufferPool) : BufferPool := set_root s INVALID_PAGE_ID.

Definition IsEmpty (s : BufferPool) : bool := header_root_page_id_ s =? INVALID_PAGE_ID.

Definition GetRootPageId (s : BufferPool) : page_id_t := header_root_page_id_ s.

(** ** Insertion *)

(** Lines 182-187 of the source: open a gap at [index] and fill it. *)
Definition leaf_insert_at (leaf_page : LeafPage.t) (index : Z) (key : KeyType) (value : ValueType)
    : Result LeafPage.t :=
  let leaf_page := LeafPage.IncreaseSize leaf_page 1 in
  leaf_page ← for_down (LeafPage.GetSize leaf_page) index
                (fun i p => move_leaf_slot p (i - 1) i) leaf_page;
  LeafPage.SetAt leaf_page index key value.

(** Lines 199-207: the statements of the leaf split, in source order. *)
Definition leaf_split (leaf_page : LeafPage.t) (new_page_id : page_id_t)
    : Result (LeafPage.t * LeafPage.t) :=
  let leaf_page := LeafPage.SetNextPageId leaf_page new_page_id in
  let new_leaf_page := LeafPage.Init leaf_max_size_ in
  let new_leaf_page :=
    LeafPage.SetSize new_leaf_page (LeafPage.GetSize leaf_page - LeafPage.GetMinSize leaf_page) in
  let new_leaf_page := LeafPage.SetNextPageId new_leaf_page (LeafPage.GetNextPageId leaf_page) in
  new_leaf_page ← for_up (LeafPage.GetMinSize leaf_page) (LeafPage.GetSize leaf_page)
                    (fun i np => copy_leaf_slot leaf_page i np (i - LeafPage.GetMinSize leaf_page))
                    new_leaf_page;
  let leaf_page := LeafPage.SetSize leaf_page (LeafPage.GetMinSize leaf_page) in
  Ok (leaf_page, new_leaf_page).

(** Lines 236-243: insertion into a parent that has room. *)
Definition internal_insert (parent_page : InternalPage.t) (key : KeyType) (new_child_id : page_id_t)
    : Result InternalPage.t :=
  slot ← BinaryFind_internal parent_page key;
  let index := slot + 1 in
  let parent_page := InternalPage.IncreaseSize parent_page 1 in
  parent_page ← for_down (InternalPage.GetSize parent_page - 1) index
                  (fun i p => move_internal_slot p (i - 1) i) parent_page;
  set_internal_slot parent_page index key new_child_id.

(** Lines 252-290: the split of a full parent, in its three cases. *)
Definition internal_split (parent_page : InternalPage.t) (key : KeyType) (new_child_id : page_id_t)
    : Result (InternalPage.t * InternalPage.t) :=
  let m := InternalPage.GetMinSize parent_page in
  let new_parent_page := InternalPage.Init internal_max_size_ in
  let new_parent_page :=
    InternalPage.SetSize new_parent_page (InternalPage.GetMaxSize parent_page + 1 - m) in
  slot ← BinaryFind_internal parent_page key;
  let pos := slot + 1 in
  '(parent_page, new_parent_page) ←
    (if pos <? m then
       new_parent_page ← for_up m (InternalPage.GetSize parent_page)
                           (fun i np => copy_internal_slot parent_page i np (i - m + 1))
                           new_parent_page;
       new_parent_page ← copy_internal_slot parent_page (m - 1) new_parent_page 0;
       parent_page ← for_down (m - 1) pos
                       (fun i p => move_internal_slot p (i - 1) i) parent_page;
       parent_page ← set_internal_slot parent_page pos key new_child_id;
       Ok (parent_page, new_parent_page)
     else if pos =? m then
       new_parent_page ← for_up m (InternalPage.GetSize parent_page)
                           (fun i np => copy_internal_slot parent_page i np (i - m + 1))
                           new_parent_page;
       new_parent_page ← InternalPage.SetValueAt new_parent_page 0 new_child_id;
       new_parent_page ← InternalPage.SetKeyAt new_parent_page 0 key;
       Ok (parent_page, new_parent_page)
     else
       new_parent_page ← for_up m (InternalPage.GetSize parent_page)
                           (fun i np => copy_internal_slot parent_page i np (i - m))
                           new_parent_page;
       let pos := pos - m in
       new_parent_page ← for_down (InternalPage.GetSize new_parent_page - 1) pos
                           (fun i np => move_internal_slot np (i - 1) i) new_parent_page;
       new_parent_page ← set_internal_slot new_parent_page pos key new_child_id;
       Ok (parent_page, new_parent_page));
  let parent_page := InternalPage.SetSize parent_page m in
  Ok (parent_page, new_parent_page).

(** Lines 219-230: a new root above the old one. *)
Definition new_root_page (old_root_id : page_id_t) (key : KeyType) (new_child_id : page_id_t)
    : Result InternalPage.t :=
  let new_root_page := InternalPage.Init internal_max_size_ in
  let new_root_page := InternalPage.SetSize new_root_page 2 in
  new_root_page ← InternalPage.SetValueAt new_root_page 0 old_root_id;
  new_root_page ← InternalPage.SetKeyAt new_root_page 1 key;
  InternalPage.SetValueAt new_root_page 1 new_child_id.

(** [InsertIntoParent(key, new_child_id, ctx, index)], by recursion on
    [index + 1]: the first branch is [index < 0]. *)
Fixpoint InsertIntoParent (index_plus_1 : nat) (s : BufferPool) (key : KeyType)
    (new_child_id : page_id_t) (ctx : Context) : Result BufferPool :=
  match index_plus_1 with
  | O =>
      let '(s, new_root_page_id) := NewPageGuarded s in
      old_root_id ← guard_at (write_set_ ctx) 0;
      new_root_page ← new_root_page old_root_id key new_child_id;
      let s := put_page s new_root_page_id (Internal new_root_page) in
      _ ← header_deref ctx;
      Ok (set_root s new_root_page_id)
  | S index =>
      parent_id ← guard_at (write_set_ ctx) index;
      page ← guarded_page s parent_id;
      parent_page ← AsInternal page;
      if negb (InternalPage.GetSize parent_page =? InternalPage.GetMaxSize parent_page) then
        parent_page ← internal_insert parent_page key new_child_id;
        Ok (put_page s parent_id (Internal parent_page))
      else
        let '(s, new_parent_page_id) := NewPageGuarded s in
        '(parent_page, new_parent_page) ← internal_split parent_page key new_child_id;
        let s := put_page s parent_id (Internal parent_page) in
        let s := put_page s new_parent_page_id (Internal new_parent_page) in
        up_key ← InternalPage.KeyAt new_parent_page 0;
        InsertIntoParent index s up_key new_parent_page_id ctx
  end.

Definition Insert (s : BufferPool) (key : KeyType) (value : ValueType) : Result (bool * BufferPool) :=
  let ctx := {| header_page_ := Some header_page_id_; root_page_id_ := 0;
                write_set_ := []; read_set_ := [] |} in
  if header_root_page_id_ s =? INVALID_PAGE_ID then
    let '(s, root_id) := NewPageGuarded s in
    let s := set_root s root_id in
    let leaf_page := LeafPage.Init leaf_max_size_ in
    let leaf_page := LeafPage.SetSize leaf_page 1 in
    leaf_page ← LeafPage.SetAt leaf_page 0 key value;
    Ok (true, put_page s root_id (Leaf leaf_page))
  else
    let root := header_root_page_id_ s in
    root_page ← FetchPageWrite s [] root;
    let ctx := {| header_page_ := header_page_ ctx; root_page_id_ := root;
                  write_set_ := [root]; read_set_ := [] |} in
    let ctx := if IsSafePage root_page OpInsert true then release_header ctx else ctx in
    ctx ← FindLeafPage (descent_fuel s) s key OpInsert ctx;
    leaf_id ← back (write_set_ ctx);
    page ← guarded_page s leaf_id;
    leaf_page ← AsLeaf page;
    index ← BinaryFind_leaf leaf_page key;
    found ← (if index =? -1 then Ok false
             else k ← LeafPage.KeyAt leaf_page index; Ok (comparator_ k key =? 0));
    if found : bool then Ok (false, s)
    else
      let index := index + 1 in
      leaf_page ← leaf_insert_at leaf_page index key value;
      if LeafPage.GetSize leaf_page <? LeafPage.GetMaxSize leaf_page then
        Ok (true, put_page s leaf_id (Leaf leaf_page))
      else
        let '(s, new_page_id) := NewPageGuarded s in
        '(leaf_page, new_leaf_page) ← leaf_split leaf_page new_page_id;
        let s := put_page s leaf_id (Leaf leaf_page) in
        let s := put_page s new_page_id (Leaf new_leaf_page) in
        split_key ← LeafPage.KeyAt new_leaf_page 0;
        s ← InsertIntoParent (length (write_set_ ctx) - 1) s split_key new_page_id ctx;
        Ok (true, s).

(** ** Removal *)

(** Lines 327-330: close the gap at [pos]. *)
Definition leaf_remove_at (leaf_page : LeafPage.t) (pos : Z) : Result LeafPage.t :=
  leaf_page ← for_up (pos + 1) (LeafPage.GetSize leaf_page)
                (fun i p => move_leaf_slot p i (i - 1)) leaf_page;
  Ok (LeafPage.SetSize leaf_page (LeafPage.GetSize leaf_page - 1)).

(** Lines 359-364 and 386-391: [right] is appended to [left]. *)
Definition leaf_merge (left right : LeafPage.t) (merge_size : Z) : Result LeafPage.t :=
  let s := LeafPage.GetSize left in
  let left := LeafPage.SetSize left merge_size in
  left ← for_up 0 (LeafPage.GetSize right)
           (fun i l => copy_leaf_slot right i l (i + s)) left;
  Ok (LeafPage.SetNextPageId left (LeafPage.GetNextPageId right)).

(** Lines 369-374: the first slot of the right brother moves over. *)
Definition leaf_borrow_right (leaf_page right_brother_page : LeafPage.t)
    : Result (LeafPage.t * LeafPage.t) :=
  let leaf_page := LeafPage.IncreaseSize leaf_page 1 in
  leaf_page ← copy_leaf_slot right_brother_page 0 leaf_page (LeafPage.GetSize leaf_page - 1);
  right_brother_page ← for_up 0 (LeafPage.GetSize right_brother_page - 1)
                         (fun i p => move_leaf_slot p (i + 1) i) right_brother_page;
  let right_brother_page :=
    LeafPage.SetSize right_brother_page (LeafPage.GetSize right_brother_page - 1) in
  Ok (leaf_page, right_brother_page).

(** Lines 395-400: the last slot of the left brother moves over. *)
Definition leaf_borrow_left (leaf_page left_brother_page : LeafPage.t)
    : Result (LeafPage.t * LeafPage.t) :=
  let leaf_page := LeafPage.IncreaseSize leaf_page 1 in
  leaf_page ← for_down (LeafPage.GetSize leaf_page - 1) 0
                (fun i p => move_leaf_slot p (i - 1) i) leaf_page;
  leaf_page ← copy_leaf_slot left_brother_page (LeafPage.GetSize left_brother_page - 1) leaf_page 0;
  let left_brother_page :=
    LeafPage.SetSize left_brother_page (LeafPage.GetSize left_brother_page - 1) in
  Ok (leaf_page, left_brother_page).

(** Lines 411-415: slot [valueIndex] leaves the page. *)
Definition internal_remove_at (page : InternalPage.t) (valueIndex : Z) : Result InternalPage.t :=
  page ← for_up (valueIndex + 1) (InternalPage.GetSize page)
           (fun i p => move_internal_slot p i (i - 1)) page;
  Ok (InternalPage.SetSize page (InternalPage.GetSize page - 1)).

(** Lines 440-445 and 468-473. *)
Definition internal_merge (left right : InternalPage.t) (merge_size : Z) : Result InternalPage.t :=
  let s := InternalPage.GetSize left in
  let left := InternalPage.SetSize left merge_size in
  for_up 0 (InternalPage.GetSize right)
    (fun i l => copy_internal_slot right i l (i + s)) left.

(** Lines 449-456. *)
Definition internal_borrow_right (page right_brother_page : InternalPage.t)
    : Result (InternalPage.t * InternalPage.t) :=
  let page := InternalPage.IncreaseSize page 1 in
  page ← copy_internal_slot right_brother_page 0 page (InternalPage.GetSize page - 1);
  right_brother_page ← for_up 0 (InternalPage.GetSize right_brother_page - 1)
                         (fun i p => move_internal_slot p (i + 1) i) right_brother_page;
  let right_brother_page :=
    InternalPage.SetSize right_brother_page (InternalPage.GetSize right_brother_page - 1) in
  Ok (page, right_brother_page).

(** Lines 477-484. *)
Definition internal_borrow_left (page left_brother_page : InternalPage.t)
    : Result (InternalPage.t * InternalPage.t) :=
  let page := InternalPage.IncreaseSize page 1 in
  page ← for_down (InternalPage.GetSize page - 1) 0
           (fun i p => move_internal_slot p (i - 1) i) page;
  page ← copy_internal_slot left_brother_page (InternalPage.GetSize left_brother_page - 1) page 0;
  let left_brother_page :=
    InternalPage.SetSize left_brother_page (InternalPage.GetSize left_brother_page - 1) in
  Ok (page, left_brother_page).

(** [RemoveFromParent(valueIndex, ctx, index)], by recursion on [index].
    [held] lists the brother guards that the callers still own. *)
Fixpoint RemoveFromParent (index : nat) (s : BufferPool) (valueIndex : Z) (ctx : Context)
    (held : list page_id_t) : Result BufferPool :=
  page_id ← guard_at (write_set_ ctx) index;
  page ← guarded_page s page_id;
  page ← AsInternal page;
  page ← internal_remove_at page valueIndex;
  let s := put_page s page_id (Internal page) in
  if InternalPage.GetMinSize page <=? InternalPage.GetSize page then Ok s
  else if IsRootPage ctx page_id then
    if InternalPage.GetSize page =? 1 then
      _ ← header_deref ctx;
      child ← InternalPage.ValueAt page 0;
      Ok (set_root s child)
    else Ok s
  else
    match index with
    | O => Err OutOfBounds
    | S parent_index =>
        parent_id ← guard_at (write_set_ ctx) parent_index;
        parent ← guarded_page s parent_id;
        parent_page ← AsInternal parent;
        let pos := InternalPage.ValueIndex parent_page page_id in
        if pos <? InternalPage.GetSize parent_page - 1 then
          right_brother_page_id ← InternalPage.ValueAt parent_page (pos + 1);
          right ← FetchPageWrite s (write_set_ ctx ++ held) right_brother_page_id;
          right_brother_page ← AsInternal right;
          let merge_size := InternalPage.GetSize right_brother_page + InternalPage.GetSize page in
          if merge_size <=? InternalPage.GetMaxSize page then
            page ← internal_merge page right_brother_page merge_size;
            let s := put_page s page_id (Internal page) in
            RemoveFromParent parent_index s (pos + 1) ctx (right_brother_page_id :: held)
          else
            '(page, right_brother_page) ← internal_borrow_right page right_brother_page;
            k ← InternalPage.KeyAt right_brother_page 0;
            parent_page ← InternalPage.SetKeyAt parent_page (pos + 1) k;
            let s := put_page s page_id (Internal page) in
            let s := put_page s right_brother_page_id (Internal right_brother_page) in
            Ok (put_page s parent_id (Internal parent_page))
        else
          left_brother_page_id ← InternalPage.ValueAt parent_page (pos - 1);
          left ← FetchPageWrite s (write_set_ ctx ++ held) left_brother_page_id;
          left_brother_page ← AsInternal left;
          let merge_size := InternalPage.GetSize left_brother_page + InternalPage.GetSize page in
          if merge_size <=? InternalPage.GetMaxSize left_brother_page then
            left_brother_page ← internal_merge left_brother_page page merge_size;
            let s := put_page s left_brother_page_id (Internal left_brother_page) in
            RemoveFromParent parent_index s pos ctx (left_brother_page_id :: held)
          else
            '(page, left_brother_page) ← internal_borrow_left page left_brother_page;
            k ← InternalPage.KeyAt page 0;
            parent_page ← InternalPage.SetKeyAt parent_page pos k;
            let s := put_page s page_id (Internal page) in
            let s := put_page s left_brother_page_id (Internal left_brother_page) in
            Ok (put_page s parent_id (Internal parent_page))
    end.

Definition Remove (s : BufferPool) (key : KeyType) : Result BufferPool :=
  let ctx := {| header_page_ := Some header_page_id_; root_page_id_ := 0;
                write_set_ := []; read_set_ := [] |} in
  if header_root_page_id_ s =? INVALID_PAGE_ID then Ok s
  else
    let root := header_root_page_id_ s in
    root_page ← FetchPageWrite s [] root;
    let ctx := {| header_page_ := header_page_ ctx; root_page_id_ := root;
                  write_set_ := [root]; read_set_ := [] |} in
    let ctx := if IsSafePage root_page OpRemove true then release_header ctx else ctx in
    ctx ← FindLeafPage (descent_fuel s) s key OpRemove ctx;
    leaf_id ← back (write_set_ ctx);
    page ← guarded_page s leaf_id;
    leaf_page ← AsLeaf page;
    pos ← BinaryFind_leaf leaf_page key;
    found ← (if pos =? -1 then Ok false
             else k ← LeafPage.KeyAt leaf_page pos; Ok (comparator_ k key =? 0));
    if negb found then Ok s
    else
      leaf_page ← leaf_remove_at leaf_page pos;
      let s := put_page s leaf_id (Leaf leaf_page) in
      if LeafPage.GetMinSize leaf_page <=? LeafPage.GetSize leaf_page then Ok s
      else if IsRootPage ctx leaf_id then
        if LeafPage.GetSize leaf_page =? 0 then
          match header_page_ ctx with
          | Some _ => Ok (set_root s INVALID_PAGE_ID)
          | None => Err DanglingPage
          end
        else Ok s
      else
        match length (write_set_ ctx) with
        | S (S parent_index) =>
            parent_id ← guard_at (write_set_ ctx) parent_index;
            parent ← guarded_page s parent_id;
            parent_page ← AsInternal parent;
            index ← BinaryFind_internal parent_page key;
            if index <? InternalPage.GetSize parent_page - 1 then
              right_brother_page_id ← InternalPage.ValueAt parent_page (index + 1);
              right ← FetchPageWrite s (write_set_ ctx) right_brother_page_id;
              right_brother_page ← AsLeaf right;
              let merge_size := LeafPage.GetSize right_brother_page + LeafPage.GetSize leaf_page in
              if merge_size <? LeafPage.GetMaxSize leaf_page then
                leaf_page ← leaf_merge leaf_page right_brother_page merge_size;
                let s := put_page s leaf_id (Leaf leaf_page) in
                RemoveFromParent parent_index s (index + 1) ctx [right_brother_page_id]
              else
                '(leaf_page, right_brother_page) ← leaf_borrow_right leaf_page right_brother_page;
                k ← LeafPage.KeyAt right_brother_page 0;
                parent_page ← InternalPage.SetKeyAt parent_page (index + 1) k;
                let s := put_page s leaf_id (Leaf leaf_page) in
                let s := put_page s right_brother_page_id (Leaf right_brother_page) in
                Ok (put_page s parent_id (Internal parent_page))
            else
              left_brother_page_id ← InternalPage.ValueAt parent_page (index - 1);
              left ← FetchPageWrite s (write_set_ ctx) left_brother_page_id;
              left_brother_page ← AsLeaf left;
              let merge_size := LeafPage.GetSize left_brother_page + LeafPage.GetSize leaf_page in
              if merge_size <? LeafPage.GetMaxSize left_brother_page then
                left_brother_page ← leaf_merge left_brother_page leaf_page merge_size;
                let s := put_page s left_brother_page_id (Leaf left_brother_page) in
                RemoveFromParent parent_index s index ctx [left_brother_page_id]
              else
                '(leaf_page, left_brother_page) ← leaf_borrow_left leaf_page left_brother_page;
                k ← LeafPage.KeyAt leaf_page 0;
                parent_page ← InternalPage.SetKeyAt parent_page index k;
                let s := put_page s leaf_id (Leaf leaf_page) in
                let s := put_page s left_brother_page_id (Leaf left_brother_page) in
                Ok (put_page s parent_id (Internal parent_page))
        | _ => Err OutOfBounds
        end.

(** ** Iterator entry points *)

Record IndexIterator : Type := mkIter { iter_page_id : page_id_t; iter_index : Z }.

Definition End : IndexIterator := {| iter_page_id := -1; iter_index := -1 |}.

(** The descent loop of [Begin(key)]: [inl] is the early [return End()]. *)
Fixpoint Begin_key_loop (fuel : nat) (s : BufferPool) (key : KeyType) (id : page_id_t)
    : Result (IndexIterator + (page_id_t * LeafPage.t)) :=
  page ← guarded_page s id;
  match page with
  | Leaf leaf_page => Ok (inr (id, leaf_page))
  | Internal internal =>
      match fuel with
      | O => Err Diverge
      | S fuel' =>
          slot_num ← BinaryFind_internal internal key;
          if slot_num =? -1 then Ok (inl End)
          else
            next ← InternalPage.ValueAt internal slot_num;
            _ ← FetchPageRead s next;
            Begin_key_loop fuel' s key next
      end
  end.

Definition Begin_key (s : BufferPool) (key : KeyType) : Result IndexIterator :=
  if header_root_page_id_ s =? INVALID_PAGE_ID then Ok End
  else
    _ ← FetchPageRead s (header_root_page_id_ s);
    r ← Begin_key_loop (descent_fuel s) s key (header_root_page_id_ s);
    match r with
    | inl it => Ok it
    | inr (id, leaf_page) =>
        slot_num ← BinaryFind_leaf leaf_page key;
        if negb (slot_num =? -1) then Ok {| iter_page_id := id; iter_index := slot_num |}
        else Ok End
    end.

(** The descent loop of [Begin()]: always slot 0. *)
Fixpoint Begin_loop (fuel : nat) (s : BufferPool) (id : page_id_t) : Result page_id_t :=
  page ← guarded_page s id;
  match page with
  | Leaf _ => Ok id
  | Internal internal =>
      match fuel with
      | O => Err Diverge
      | S fuel' =>
          next ← InternalPage.ValueAt internal 0;
          _ ← FetchPageRead s next;
          Begin_loop fuel' s next
      end
  end.

Definition Begin (s : BufferPool) : Result IndexIterator :=
  if header_root_page_id_ s =? INVALID_PAGE_ID then Ok End
  else
    _ ← FetchPageRead s (header_root_page_id_ s);
    id ← Begin_loop (descent_fuel s) s (header_root_page_id_ s);
    Ok {| iter_page_id := id; iter_index := 0 |}.

(** ** Test drivers *)

(** [InsertFromFile] and [RemoveFromFile].  The file is given as the list
    of the numbers that its decimal numerals denote, from the start of the
    file to its end or to the first field that is not a numeral, where
    [while (input >> key)] ends.  The loop reads the numerals one by one
    into an [int64_t]; the read of a numeral that does not fit fails and
    ends the loop as well, whatever follows in the file.  The value of a
    key is the record id made from the same integer. *)
Fixpoint InsertFromFile (file : list Z) (s : BufferPool) : Result BufferPool :=
  match file with
  | [] => Ok s
  | key :: file' =>
      if fits_int64 key then '(_, s') ← Insert s key key; InsertFromFile file' s'
      else Ok s
  end.

Fixpoint RemoveFromFile (file : list Z) (s : BufferPool) : Result BufferPool :=
  match file with
  | [] => Ok s
  | key :: file' =>
      if fits_int64 key then s' ← Remove s key; RemoveFromFile file' s'
      else Ok s
  end.

End BPlusTree.

(** A pool in which only the header page (id 0) has been allocated, and
    the tree constructed over it. *)
Definition fresh_pool : BufferPool :=
  {| pages_ := ∅; next_page_id_ := 1; header_root_page_id_ := 0 |}.
Definition fresh_tree : BufferPool := BPlusTree_new fresh_pool.

(** Successor of a leaf in the leaf list, and [n] steps along the list. *)
Definition next_leaf (s : BufferPool) (id : page_id_t) : Result page_id_t :=
  page ← guarded_page s id;
  leaf_page ← AsLeaf page;
  Ok (LeafPage.GetNextPageId leaf_page).

Fixpoint walk_leaves (n : nat) (s : BufferPool) (id : page_id_t) : Result page_id_t :=
  match n with
  | O => Ok id
  | S n' => next ← next_leaf s id; walk_leaves n' s next
  end.

(** * Properties *)

(** ** The error monad *)

Lemma bind_Ok {A B : Type} (m : Result A) (f : A -> Result B) (b : B) :
  (m ≫= f) = Ok b -> exists a, m = Ok a /\ f a = Ok b.
Proof. destruct m as [a|e]; simpl; intros H; [eauto | discriminate]. Qed.

Lemma bind_Ok_l {A B : Type} (a : A) (f : A -> Result B) : (Ok a ≫= f) = f a.
Proof. reflexivity. Qed.

(** ** Slot arrays *)

Definition get (a : list MappingType) (i : Z) : MappingType := nth (Z.to_nat i) a zero_slot.

Lemma nth_write_nth (n j : nat) (x : MappingType) (a : list MappingType) :
  nth j (write_nth n x a) zero_slot = if Nat.eqb n j then x else nth j a zero_slot.
Proof.
  revert j a. induction n as [|n IH]; intros j a.
  - destruct a, j; simpl; try reflexivity. destruct j; reflexivity.
  - destruct a as [|y a], j as [|j]; simpl; try reflexivity.
    + rewrite IH. destruct (Nat.eqb n j); [reflexivity | destruct j; reflexivity].
    + apply IH.
Qed.

Lemma get_write (i j : Z) (x : MappingType) (a : list MappingType) :
  0 <= i -> 0 <= j ->
  get (write_nth (Z.to_nat i) x a) j = if i =? j then x else get a j.
Proof.
  intros Hi Hj. unfold get. rewrite nth_write_nth.
  destruct (Z.eqb_spec i j) as [->|Hne].
  - rewrite Nat.eqb_refl. reflexivity.
  - destruct (Nat.eqb_spec (Z.to_nat i) (Z.to_nat j)) as [E|_]; [lia | reflexivity].
Qed.

Lemma array_get_Ok (capacity : Z) (a : list MappingType) (i : Z) :
  0 <= i < capacity -> array_get capacity a i = Ok (get a i).
Proof.
  intros H. unfold array_get.
  destruct (Z.ltb_spec i 0); [lia|]. destruct (Z.leb_spec capacity i); [lia | reflexivity].
Qed.

Lemma array_set_Ok (capacity : Z) (a : list MappingType) (i : Z) (x : MappingType) :
  0 <= i < capacity -> array_set capacity a i x = Ok (write_nth (Z.to_nat i) x a).
Proof.
  intros H. unfold array_set.
  destruct (Z.ltb_spec i 0); [lia|]. destruct (Z.leb_spec capacity i); [lia | reflexivity].
Qed.

Lemma array_get_inv (capacity : Z) (a : list MappingType) (i : Z) (x : MappingType) :
  array_get capacity a i = Ok x -> 0 <= i < capacity /\ x = get a i.
Proof.
  unfold array_get. destruct (Z.ltb_spec i 0); [discriminate|].
  destruct (Z.leb_spec capacity i); [discriminate|]. intros E. injection E as <-.
  split; [lia | reflexivity].
Qed.

Lemma array_set_inv (capacity : Z) (a a' : list MappingType) (i : Z) (x : MappingType) :
  array_set capacity a i x = Ok a' -> 0 <= i < capacity /\ a' = write_nth (Z.to_nat i) x a.
Proof.
  unfold array_set. destruct (Z.ltb_spec i 0); [discriminate|].
  destruct (Z.leb_spec capacity i); [discriminate|]. intros E. injection E as <-.
  split; [lia | reflexivity].
Qed.

Lemma write_nth_twice (n : nat) (x y : MappingType) (a : list MappingType) :
  write_nth n x (write_nth n y a) = write_nth n x a.
Proof.
  revert a. induction n as [|n IH]; intros [|z a]; simpl; try reflexivity.
  - f_equal. apply IH.
  - f_equal. apply IH.
Qed.

(** [slice a lo n] is the list of the slots [lo .. lo+n-1]; the logical
    content of a page is the slice of its first [size] slots. *)
Definition slice (a : list MappingType) (lo n : Z) : list MappingType :=
  map (fun j => get a (lo + Z.of_nat j)) (seq 0 (Z.to_nat n)).

Definition slots (a : list MappingType) (n : Z) : list MappingType := slice a 0 n.

Lemma length_slice (a : list MappingType) (lo n : Z) : length (slice a lo n) = Z.to_nat n.
Proof. unfold slice. rewrite length_map, length_seq. reflexivity. Qed.

Lemma lookup_slice (a : list MappingType) (lo n : Z) (j : nat) :
  (j < Z.to_nat n)%nat -> slice a lo n !! j = Some (get a (lo + Z.of_nat j)).
Proof.
  intros H. unfold slice. rewrite list_lookup_fmap.
  rewrite lookup_seq_lt by exact H. reflexivity.
Qed.

Lemma slice_ext (a b : list MappingType) (lo lo' n : Z) :
  (forall j, 0 <= j < n -> get a (lo + j) = get b (lo' + j)) -> slice a lo n = slice b lo' n.
Proof.
  intros H. unfold slice. apply map_ext_in. intros j Hj. apply in_seq in Hj.
  apply H. lia.
Qed.

Lemma slice_nil (a : list MappingType) (lo n : Z) : n <= 0 -> slice a lo n = [].
Proof. intros H. unfold slice. replace (Z.to_nat n) with 0%nat by lia. reflexivity. Qed.

Lemma slice_one (a : list MappingType) (lo : Z) : slice a lo 1 = [get a lo].
Proof. unfold slice. simpl. rewrite Z.add_0_r. reflexivity. Qed.

Lemma slice_app (a : list MappingType) (lo n m : Z) :
  0 <= n -> 0 <= m -> slice a lo (n + m) = slice a lo n ++ slice a (lo + n) m.
Proof.
  intros Hn Hm. unfold slice. rewrite Z2Nat.inj_add by lia.
  rewrite seq_app, map_app. f_equal. simpl.
  assert (E : seq (Z.to_nat n) (Z.to_nat m) = map (Nat.add (Z.to_nat n)) (seq 0 (Z.to_nat m))).
  { pose proof (fmap_add_seq (Z.to_nat n) 0 (Z.to_nat m)) as E.
    rewrite Nat.add_0_r in E. symmetry. exact E. }
  rewrite E, map_map. apply map_ext. intros j. f_equal. lia.
Qed.

Lemma take_slice (a : list MappingType) (lo n i : Z) :
  0 <= i <= n -> take (Z.to_nat i) (slice a lo n) = slice a lo i.
Proof.
  intros H. replace n with (i + (n - i)) by lia. rewrite slice_app by lia.
  rewrite take_app_length' by (rewrite length_slice; reflexivity). reflexivity.
Qed.

Lemma drop_slice (a : list MappingType) (lo n i : Z) :
  0 <= i <= n -> drop (Z.to_nat i) (slice a lo n) = slice a (lo + i) (n - i).
Proof.
  intros H. replace n with (i + (n - i)) at 1 by lia. rewrite slice_app by lia.
  rewrite drop_app_length' by (rewrite length_slice; reflexivity). reflexivity.
Qed.

Lemma length_slots (a : list MappingType) (n : Z) : length (slots a n) = Z.to_nat n.
Proof. apply length_slice. Qed.

Lemma lookup_slots (a : list MappingType) (n j : Z) :
  0 <= j < n -> slots a n !! Z.to_nat j = Some (get a j).
Proof.
  intros H. unfold slots. rewrite lookup_slice by lia. rewrite Z2Nat.id by lia.
  reflexivity.
Qed.

Lemma slots_ext (a b : list MappingType) (n : Z) :
  (forall j, 0 <= j < n -> get a j = get b j) -> slots a n = slots b n.
Proof. intros H. apply slice_ext. intros j Hj. simpl. auto. Qed.

#[global] Arguments write_nth : simpl never.
#[global] Arguments get : simpl never.
#[global] Arguments slice : simpl never.
#[global] Arguments slots : simpl never.

(** ** Counted loops over arrays *)

(** [a[i] = a[j]] *)
Definition arr_move (a : list MappingType) (j i : Z) : list MappingType :=
  write_nth (Z.to_nat i) (get a j) a.

Lemma for_up_n_ext {S : Type} (n : nat) (i : Z) (f g : Z -> S -> Result S) (s : S) :
  (forall j x, i <= j < i + Z.of_nat n -> f j x = g j x) ->
  for_up_n n i f s = for_up_n n i g s.
Proof.
  revert i s. induction n as [|n IH]; intros i s H; simpl; [reflexivity|].
  rewrite H by lia. destruct (g i s) as [s'|e]; simpl; [|reflexivity].
  apply IH. intros j x Hj. apply H. lia.
Qed.

Lemma for_down_n_ext {S : Type} (n : nat) (i : Z) (f g : Z -> S -> Result S) (s : S) :
  (forall j x, i - Z.of_nat n < j <= i -> f j x = g j x) ->
  for_down_n n i f s = for_down_n n i g s.
Proof.
  revert i s. induction n as [|n IH]; intros i s H; simpl; [reflexivity|].
  rewrite H by lia. destruct (g i s) as [s'|e]; simpl; [|reflexivity].
  apply IH. intros j x Hj. apply H. lia.
Qed.

(** Case analysis on every integer comparison of the goal. *)
Ltac zbool :=
  repeat match goal with
    | |- context [?a <? ?b] => destruct (Z.ltb_spec a b)
    | |- context [?a <=? ?b] => destruct (Z.leb_spec a b)
    | |- context [?a =? ?b] => destruct (Z.eqb_spec a b)
    end;
  simpl.

Ltac zbool_solve :=
  zbool; try reflexivity; try lia; try (f_equal; lia); try (subst; reflexivity).

(** The bounds of a concrete configuration. *)
Ltac config := unfold LEAF_PAGE_SIZE, INTERNAL_PAGE_SIZE; lia.

(** Linear arithmetic after the lengths of appended lists are spelled
    out. *)
Ltac len_lia :=
  repeat match goal with
    | H : context [length (_ ++ _)] |- _ =>
        progress (rewrite !length_app in H; simpl length in H)
    | H : context [length (_ :: _)] |- _ => progress (simpl length in H)
    end;
  rewrite ?length_app; simpl length; lia.

(** Shift to the right: slots [lo .. hi-1] move to [lo+1 .. hi]. *)
Lemma shift_right_spec (n : nat) (hi : Z) (a : list MappingType) :
  0 <= hi - Z.of_nat n ->
  exists a', for_down_n n hi (fun i a => Ok (arr_move a (i - 1) i)) a = Ok a' /\
    forall j, 0 <= j ->
      get a' j = if (hi - Z.of_nat n <? j) && (j <=? hi) then get a (j - 1) else get a j.
Proof.
  revert hi a. induction n as [|n IH]; intros hi a Hlo.
  - exists a. split; [reflexivity|]. intros j Hj. zbool_solve.
  - simpl for_down_n.
    destruct (IH (hi - 1) (arr_move a (hi - 1) hi)) as (a' & Hrun & Hget); [lia|].
    exists a'. split; [exact Hrun|]. intros j Hj. rewrite Hget by lia.
    unfold arr_move. zbool; rewrite ?get_write by lia; zbool_solve.
Qed.

(** Shift to the left: slots [lo .. hi-1] move to [lo-1 .. hi-2]. *)
Lemma shift_left_spec (n : nat) (lo : Z) (a : list MappingType) :
  1 <= lo ->
  exists a', for_up_n n lo (fun i a => Ok (arr_move a i (i - 1))) a = Ok a' /\
    forall j, 0 <= j ->
      get a' j = if (lo - 1 <=? j) && (j <? lo - 1 + Z.of_nat n) then get a (j + 1) else get a j.
Proof.
  revert lo a. induction n as [|n IH]; intros lo a Hlo.
  - exists a. split; [reflexivity|]. intros j Hj. zbool_solve.
  - simpl for_up_n.
    destruct (IH (lo + 1) (arr_move a lo (lo - 1))) as (a' & Hrun & Hget); [lia|].
    exists a'. split; [exact Hrun|]. intros j Hj. rewrite Hget by lia.
    unfold arr_move. zbool; rewrite ?get_write by lia; zbool_solve.
Qed.

(** Copy [n] slots of [src], from [from] on, to [dst], from [to] on. *)
Lemma copy_spec (n : nat) (from to : Z) (src dst : list MappingType) :
  0 <= from -> 0 <= to ->
  exists a', for_up_n n from (fun i d => Ok (write_nth (Z.to_nat (i - from + to)) (get src i) d)) dst
             = Ok a' /\
    forall j, 0 <= j ->
      get a' j = if (to <=? j) && (j <? to + Z.of_nat n) then get src (j - to + from) else get dst j.
Proof.
  revert from to dst. induction n as [|n IH]; intros from to dst Hf Ht.
  - exists dst. split; [reflexivity|]. intros j Hj. zbool_solve.
  - simpl for_up_n.
    destruct (IH (from + 1) (to + 1) (write_nth (Z.to_nat (from - from + to)) (get src from) dst))
      as (a' & Hrun & Hget); [lia | lia |].
    exists a'. split.
    + rewrite <- Hrun. apply for_up_n_ext. intros j x Hj. do 3 f_equal. lia.
    + intros j Hj. rewrite Hget by lia. zbool; rewrite ?get_write by lia; zbool_solve.
Qed.

(** ** From arrays to pages *)

Definition leaf_with_array (p : LeafPage.t) (a : list MappingType) : LeafPage.t :=
  LeafPage.mk (LeafPage.size_ p) (LeafPage.max_size_ p) (LeafPage.next_page_id_ p) a.

Definition internal_with_array (p : InternalPage.t) (a : list MappingType) : InternalPage.t :=
  InternalPage.mk (InternalPage.size_ p) (InternalPage.max_size_ p) a.

Lemma for_up_n_lift {S T : Type} (proj : S -> T) (upd : S -> T -> S) (g : Z -> T -> T)
    (n : nat) (lo : Z) (body : Z -> S -> Result S) (s : S) (t : T) :
  (forall s, upd s (proj s) = s) ->
  (forall s t, proj (upd s t) = t) ->
  (forall s t t', upd (upd s t) t' = upd s t') ->
  (forall i s, lo <= i < lo + Z.of_nat n -> body i s = Ok (upd s (g i (proj s)))) ->
  for_up_n n lo (fun i t => Ok (g i t)) (proj s) = Ok t ->
  for_up_n n lo body s = Ok (upd s t).
Proof.
  intros L1 L2 L3. revert lo s. induction n as [|n IH]; intros lo s Hb Hrun; simpl in *.
  - injection Hrun as <-. rewrite L1. reflexivity.
  - rewrite Hb by lia. simpl.
    rewrite (IH (lo + 1) (upd s (g lo (proj s)))).
    + rewrite L3. reflexivity.
    + intros i s' Hi. apply Hb. lia.
    + rewrite L2. exact Hrun.
Qed.

Lemma for_down_n_lift {S T : Type} (proj : S -> T) (upd : S -> T -> S) (g : Z -> T -> T)
    (n : nat) (hi : Z) (body : Z -> S -> Result S) (s : S) (t : T) :
  (forall s, upd s (proj s) = s) ->
  (forall s t, proj (upd s t) = t) ->
  (forall s t t', upd (upd s t) t' = upd s t') ->
  (forall i s, hi - Z.of_nat n < i <= hi -> body i s = Ok (upd s (g i (proj s)))) ->
  for_down_n n hi (fun i t => Ok (g i t)) (proj s) = Ok t ->
  for_down_n n hi body s = Ok (upd s t).
Proof.
  intros L1 L2 L3. revert hi s. induction n as [|n IH]; intros hi s Hb Hrun; simpl in *.
  - injection Hrun as <-. rewrite L1. reflexivity.
  - rewrite Hb by lia. simpl.
    rewrite (IH (hi - 1) (upd s (g hi (proj s)))).
    + rewrite L3. reflexivity.
    + intros i s' Hi. apply Hb. lia.
    + rewrite L2. exact Hrun.
Qed.

Lemma pair_eta (x : MappingType) : (fst x, snd x) = x.
Proof. destruct x; reflexivity. Qed.

Lemma copy_leaf_slot_Ok (src : LeafPage.t) (j : Z) (dst : LeafPage.t) (i : Z) :
  0 <= j < LEAF_PAGE_SIZE -> 0 <= i < LEAF_PAGE_SIZE ->
  copy_leaf_slot src j dst i
  = Ok (leaf_with_array dst (write_nth (Z.to_nat i) (get (LeafPage.array_ src) j) (LeafPage.array_ dst))).
Proof.
  intros Hj Hi. unfold copy_leaf_slot, LeafPage.KeyAt, LeafPage.ValueAt, LeafPage.SetAt.
  rewrite array_get_Ok by lia. simpl. rewrite array_set_Ok by lia. simpl.
  rewrite pair_eta. reflexivity.
Qed.

Lemma move_leaf_slot_Ok (p : LeafPage.t) (j i : Z) :
  0 <= j < LEAF_PAGE_SIZE -> 0 <= i < LEAF_PAGE_SIZE ->
  move_leaf_slot p j i = Ok (leaf_with_array p (arr_move (LeafPage.array_ p) j i)).
Proof. intros. unfold move_leaf_slot. rewrite copy_leaf_slot_Ok by lia. reflexivity. Qed.

Lemma LeafPage_SetAt_Ok (p : LeafPage.t) (i : Z) (k v : Z) :
  0 <= i < LEAF_PAGE_SIZE ->
  LeafPage.SetAt p i k v = Ok (leaf_with_array p (write_nth (Z.to_nat i) (k, v) (LeafPage.array_ p))).
Proof. intros. unfold LeafPage.SetAt. rewrite array_set_Ok by lia. reflexivity. Qed.

Lemma LeafPage_KeyAt_Ok (p : LeafPage.t) (i : Z) :
  0 <= i < LEAF_PAGE_SIZE -> LeafPage.KeyAt p i = Ok (fst (get (LeafPage.array_ p) i)).
Proof. intros. unfold LeafPage.KeyAt. rewrite array_get_Ok by lia. reflexivity. Qed.

Lemma LeafPage_ValueAt_Ok (p : LeafPage.t) (i : Z) :
  0 <= i < LEAF_PAGE_SIZE -> LeafPage.ValueAt p i = Ok (snd (get (LeafPage.array_ p) i)).
Proof. intros. unfold LeafPage.ValueAt. rewrite array_get_Ok by lia. reflexivity. Qed.

Lemma InternalPage_KeyAt_Ok (p : InternalPage.t) (i : Z) :
  0 <= i < INTERNAL_PAGE_SIZE -> InternalPage.KeyAt p i = Ok (fst (get (InternalPage.array_ p) i)).
Proof. intros. unfold InternalPage.KeyAt. rewrite array_get_Ok by lia. reflexivity. Qed.

Lemma InternalPage_ValueAt_Ok (p : InternalPage.t) (i : Z) :
  0 <= i < INTERNAL_PAGE_SIZE -> InternalPage.ValueAt p i = Ok (snd (get (InternalPage.array_ p) i)).
Proof. intros. unfold InternalPage.ValueAt. rewrite array_get_Ok by lia. reflexivity. Qed.

Lemma InternalPage_SetKeyAt_Ok (p : InternalPage.t) (i : Z) (k : Z) :
  0 <= i < INTERNAL_PAGE_SIZE ->
  InternalPage.SetKeyAt p i k
  = Ok (internal_with_array p
          (write_nth (Z.to_nat i) (k, snd (get (InternalPage.array_ p) i)) (InternalPage.array_ p))).
Proof.
  intros. unfold InternalPage.SetKeyAt. rewrite array_get_Ok by lia. simpl.
  rewrite array_set_Ok by lia. reflexivity.
Qed.

Lemma InternalPage_SetValueAt_Ok (p : InternalPage.t) (i : Z) (v : Z) :
  0 <= i < INTERNAL_PAGE_SIZE ->
  InternalPage.SetValueAt p i v
  = Ok (internal_with_array p
          (write_nth (Z.to_nat i) (fst (get (InternalPage.array_ p) i), v) (InternalPage.array_ p))).
Proof.
  intros. unfold InternalPage.SetValueAt. rewrite array_get_Ok by lia. simpl.
  rewrite array_set_Ok by lia. reflexivity.
Qed.

Lemma get_write_same (i : Z) (x : MappingType) (a : list MappingType) :
  0 <= i -> get (write_nth (Z.to_nat i) x a) i = x.
Proof. intros. rewrite get_write by lia. rewrite Z.eqb_refl. reflexivity. Qed.

Lemma set_internal_slot_Ok (p : InternalPage.t) (i : Z) (k v : Z) :
  0 <= i < INTERNAL_PAGE_SIZE ->
  set_internal_slot p i k v
  = Ok (internal_with_array p (write_nth (Z.to_nat i) (k, v) (InternalPage.array_ p))).
Proof.
  intros. unfold set_internal_slot. rewrite InternalPage_SetKeyAt_Ok by lia. simpl.
  rewrite InternalPage_SetValueAt_Ok by lia. simpl.
  rewrite get_write_same by lia. simpl. rewrite write_nth_twice. reflexivity.
Qed.

Lemma copy_internal_slot_Ok (src : InternalPage.t) (j : Z) (dst : InternalPage.t) (i : Z) :
  0 <= j < INTERNAL_PAGE_SIZE -> 0 <= i < INTERNAL_PAGE_SIZE ->
  copy_internal_slot src j dst i
  = Ok (internal_with_array dst
          (write_nth (Z.to_nat i) (get (InternalPage.array_ src) j) (InternalPage.array_ dst))).
Proof.
  intros Hj Hi. unfold copy_internal_slot.
  rewrite InternalPage_KeyAt_Ok by lia. simpl.
  rewrite InternalPage_SetKeyAt_Ok by lia. simpl.
  rewrite InternalPage_ValueAt_Ok by lia. simpl.
  rewrite InternalPage_SetValueAt_Ok by lia. simpl.
  rewrite get_write_same by lia. simpl. rewrite write_nth_twice, pair_eta. reflexivity.
Qed.

Lemma move_internal_slot_Ok (p : InternalPage.t) (j i : Z) :
  0 <= j < INTERNAL_PAGE_SIZE -> 0 <= i < INTERNAL_PAGE_SIZE ->
  move_internal_slot p j i = Ok (internal_with_array p (arr_move (InternalPage.array_ p) j i)).
Proof.
  intros Hj Hi. unfold move_internal_slot.
  rewrite InternalPage_KeyAt_Ok by lia. simpl.
  rewrite InternalPage_SetKeyAt_Ok by lia. simpl.
  rewrite InternalPage_ValueAt_Ok by lia. simpl.
  rewrite InternalPage_SetValueAt_Ok by lia. simpl.
  rewrite get_write_same by lia. simpl. rewrite write_nth_twice.
  unfold arr_move. f_equal. f_equal. f_equal.
  rewrite get_write by lia. destruct (Z.eqb_spec i j) as [->|_]; simpl.
  - apply pair_eta.
  - apply pair_eta.
Qed.

Lemma for_up_n_shift {S : Type} (n : nat) (lo c : Z) (f : Z -> S -> Result S) (s : S) :
  for_up_n n lo (fun i => f (i + c)) s = for_up_n n (lo + c) f s.
Proof.
  revert lo s. induction n as [|n IH]; intros lo s; simpl; [reflexivity|].
  destruct (f (lo + c) s) as [s'|e]; simpl; [|reflexivity].
  rewrite IH. f_equal. lia.
Qed.

(** The three loop shapes of the source, for any page type whose slot
    array is read by [proj] and replaced by [upd]. *)
Section PageLoops.

Context {S : Type} (proj : S -> list MappingType) (upd : S -> list MappingType -> S).
Context (move : S -> Z -> Z -> Result S) (copy : S -> Z -> S -> Z -> Result S).
Context (capacity : Z).
Hypothesis upd_proj : forall s, upd s (proj s) = s.
Hypothesis proj_upd : forall s t, proj (upd s t) = t.
Hypothesis upd_upd : forall s t t', upd (upd s t) t' = upd s t'.
Hypothesis move_Ok : forall p j i, 0 <= j < capacity -> 0 <= i < capacity ->
  move p j i = Ok (upd p (arr_move (proj p) j i)).
Hypothesis copy_Ok : forall src j dst i, 0 <= j < capacity -> 0 <= i < capacity ->
  copy src j dst i = Ok (upd dst (write_nth (Z.to_nat i) (get (proj src) j) (proj dst))).

Lemma page_shift_right (p : S) (hi lo : Z) :
  0 <= lo -> hi < capacity ->
  exists a', for_down hi lo (fun i p => move p (i - 1) i) p = Ok (upd p a') /\
    forall j, 0 <= j ->
      get a' j = if (lo <? j) && (j <=? hi) then get (proj p) (j - 1) else get (proj p) j.
Proof.
  intros Hlo Hcap. unfold for_down.
  destruct (Z.le_gt_cases lo hi) as [Hle|Hgt].
  - destruct (shift_right_spec (Z.to_nat (hi - lo)) hi (proj p)) as (a' & Hrun & Hget); [lia|].
    exists a'. split.
    + apply (for_down_n_lift proj upd (fun i a => arr_move a (i - 1) i)); auto.
      intros i s Hi. apply move_Ok; lia.
    + intros j Hj. rewrite Hget by lia. replace (hi - Z.of_nat (Z.to_nat (hi - lo))) with lo by lia.
      reflexivity.
  - exists (proj p). replace (Z.to_nat (hi - lo)) with 0%nat by lia. simpl.
    rewrite upd_proj. split; [reflexivity|]. intros j Hj. zbool_solve.
Qed.

Lemma page_shift_left (p : S) (lo hi : Z) :
  1 <= lo -> hi <= capacity ->
  exists a', for_up lo hi (fun i p => move p i (i - 1)) p = Ok (upd p a') /\
    forall j, 0 <= j ->
      get a' j = if (lo - 1 <=? j) && (j <? hi - 1) then get (proj p) (j + 1) else get (proj p) j.
Proof.
  intros Hlo Hcap. unfold for_up.
  destruct (Z.le_gt_cases lo hi) as [Hle|Hgt].
  - destruct (shift_left_spec (Z.to_nat (hi - lo)) lo (proj p)) as (a' & Hrun & Hget); [lia|].
    exists a'. split.
    + apply (for_up_n_lift proj upd (fun i a => arr_move a i (i - 1))); auto.
      intros i s Hi. apply move_Ok; lia.
    + intros j Hj. rewrite Hget by lia.
      replace (lo - 1 + Z.of_nat (Z.to_nat (hi - lo))) with (hi - 1) by lia. reflexivity.
  - exists (proj p). replace (Z.to_nat (hi - lo)) with 0%nat by lia. simpl.
    rewrite upd_proj. split; [reflexivity|]. intros j Hj. zbool_solve.
Qed.

(** The same loop written with [i + 1] as source index (lines 371 and 452). *)
Lemma page_shift_left' (p : S) (n : Z) :
  n < capacity ->
  exists a', for_up 0 n (fun i p => move p (i + 1) i) p = Ok (upd p a') /\
    forall j, 0 <= j ->
      get a' j = if j <? n then get (proj p) (j + 1) else get (proj p) j.
Proof.
  intros Hcap.
  destruct (page_shift_left p 1 (n + 1)) as (a' & Hrun & Hget); [lia | lia |].
  exists a'. split.
  - rewrite <- Hrun. unfold for_up. replace (n + 1 - 1) with (n - 0) by lia.
    rewrite <- (for_up_n_shift _ 0 1). apply for_up_n_ext.
    intros j x Hj. f_equal. lia.
  - intros j Hj. rewrite Hget by lia. zbool_solve.
Qed.

Lemma page_copy (src dst : S) (from hi to : Z) (e : Z -> Z) :
  0 <= from -> 0 <= to -> hi <= capacity -> to + (hi - from) <= capacity ->
  (forall i, from <= i < hi -> e i = i - from + to) ->
  exists a', for_up from hi (fun i d => copy src i d (e i)) dst = Ok (upd dst a') /\
    forall j, 0 <= j ->
      get a' j = if (to <=? j) && (j <? to + (hi - from)) then get (proj src) (j - to + from)
                 else get (proj dst) j.
Proof.
  intros Hf Ht Hcap Hcap' He. unfold for_up.
  destruct (copy_spec (Z.to_nat (hi - from)) from to (proj src) (proj dst)) as (a' & Hrun & Hget);
    [lia | lia |].
  exists a'. split.
  - apply (for_up_n_lift proj upd
             (fun i d => write_nth (Z.to_nat (i - from + to)) (get (proj src) i) d)); auto.
    intros i s Hi. rewrite He by lia. apply copy_Ok; lia.
  - intros j Hj. rewrite Hget by lia.
    destruct (Z.le_gt_cases from hi).
    + replace (to + Z.of_nat (Z.to_nat (hi - from))) with (to + (hi - from)) by lia. reflexivity.
    + replace (Z.to_nat (hi - from)) with 0%nat by lia. zbool_solve.
Qed.

End PageLoops.

Lemma leaf_upd_proj (p : LeafPage.t) : leaf_with_array p (LeafPage.array_ p) = p.
Proof. destruct p; reflexivity. Qed.

Lemma internal_upd_proj (p : InternalPage.t) : internal_with_array p (InternalPage.array_ p) = p.
Proof. destruct p; reflexivity. Qed.

Definition leaf_shift_right :=
  page_shift_right LeafPage.array_ leaf_with_array move_leaf_slot LEAF_PAGE_SIZE
    leaf_upd_proj (fun _ _ => eq_refl) (fun _ _ _ => eq_refl) move_leaf_slot_Ok.
Definition leaf_shift_left :=
  page_shift_left LeafPage.array_ leaf_with_array move_leaf_slot LEAF_PAGE_SIZE
    leaf_upd_proj (fun _ _ => eq_refl) (fun _ _ _ => eq_refl) move_leaf_slot_Ok.
Definition leaf_shift_left' :=
  page_shift_left' LeafPage.array_ leaf_with_array move_leaf_slot LEAF_PAGE_SIZE
    leaf_upd_proj (fun _ _ => eq_refl) (fun _ _ _ => eq_refl) move_leaf_slot_Ok.
Definition leaf_copy :=
  page_copy LeafPage.array_ leaf_with_array copy_leaf_slot LEAF_PAGE_SIZE
    leaf_upd_proj (fun _ _ => eq_refl) (fun _ _ _ => eq_refl) copy_leaf_slot_Ok.

Definition internal_shift_right :=
  page_shift_right InternalPage.array_ internal_with_array move_internal_slot INTERNAL_PAGE_SIZE
    internal_upd_proj (fun _ _ => eq_refl) (fun _ _ _ => eq_refl) move_internal_slot_Ok.
Definition internal_shift_left :=
  page_shift_left InternalPage.array_ internal_with_array move_internal_slot INTERNAL_PAGE_SIZE
    internal_upd_proj (fun _ _ => eq_refl) (fun _ _ _ => eq_refl) move_internal_slot_Ok.
Definition internal_shift_left' :=
  page_shift_left' InternalPage.array_ internal_with_array move_internal_slot INTERNAL_PAGE_SIZE
    internal_upd_proj (fun _ _ => eq_refl) (fun _ _ _ => eq_refl) move_internal_slot_Ok.
Definition internal_copy :=
  page_copy InternalPage.array_ internal_with_array copy_internal_slot INTERNAL_PAGE_SIZE
    internal_upd_proj (fun _ _ => eq_refl) (fun _ _ _ => eq_refl) copy_internal_slot_Ok.

(** ** The page operations on logical contents *)

Definition leaf_slots (p : LeafPage.t) : list MappingType :=
  slots (LeafPage.array_ p) (LeafPage.size_ p).

Definition internal_slots (p : InternalPage.t) : list MappingType :=
  slots (InternalPage.array_ p) (InternalPage.size_ p).

(** Pointwise facts about an array turn into an equation between slices. *)
Ltac slice_pointwise H :=
  apply slice_ext; intros ? ?; rewrite ?Z.add_0_l;
  rewrite ?get_write by lia; rewrite ?H by lia; zbool_solve.

Lemma slots_insert (a a' : list MappingType) (n i : Z) (x : MappingType) :
  0 <= i <= n ->
  (forall j, 0 <= j <= n ->
     get a' j = if j <? i then get a j else if j =? i then x else get a (j - 1)) ->
  slots a' (n + 1) = take (Z.to_nat i) (slots a n) ++ x :: drop (Z.to_nat i) (slots a n).
Proof.
  intros Hi H. unfold slots. rewrite take_slice, drop_slice by lia.
  replace (n + 1) with (i + (1 + (n - i))) by lia. rewrite !slice_app by lia.
  f_equal; [|rewrite slice_one; simpl; f_equal].
  - apply slice_ext. intros j Hj. rewrite H by lia. zbool_solve.
  - rewrite H by lia. zbool_solve.
  - apply slice_ext. intros j Hj. rewrite H by lia. zbool_solve.
Qed.

Lemma slots_delete (a a' : list MappingType) (n i : Z) :
  0 <= i < n ->
  (forall j, 0 <= j < n - 1 -> get a' j = if j <? i then get a j else get a (j + 1)) ->
  slots a' (n - 1) = take (Z.to_nat i) (slots a n) ++ drop (Z.to_nat (i + 1)) (slots a n).
Proof.
  intros Hi H. unfold slots. rewrite take_slice, drop_slice by lia.
  replace (n - 1) with (i + (n - (i + 1))) at 1 by lia. rewrite !slice_app by lia.
  f_equal.
  - apply slice_ext. intros j Hj. rewrite H by lia. zbool_solve.
  - apply slice_ext. intros j Hj. rewrite H by lia. zbool_solve.
Qed.

Lemma slots_take (a a' : list MappingType) (n m : Z) :
  0 <= m <= n ->
  (forall j, 0 <= j < m -> get a' j = get a j) ->
  slots a' m = take (Z.to_nat m) (slots a n).
Proof.
  intros Hm H. unfold slots. rewrite take_slice by lia.
  apply slice_ext. intros j Hj. simpl. auto.
Qed.

Lemma slots_drop (a a' : list MappingType) (n m : Z) :
  0 <= m <= n ->
  (forall j, 0 <= j < n - m -> get a' j = get a (j + m)) ->
  slots a' (n - m) = drop (Z.to_nat m) (slots a n).
Proof.
  intros Hm H. unfold slots. rewrite drop_slice by lia.
  apply slice_ext. intros j Hj. rewrite H by lia. f_equal. lia.
Qed.

Lemma slots_app (a a1 a2 : list MappingType) (n1 n2 : Z) :
  0 <= n1 -> 0 <= n2 ->
  (forall j, 0 <= j < n1 + n2 -> get a j = if j <? n1 then get a1 j else get a2 (j - n1)) ->
  slots a (n1 + n2) = slots a1 n1 ++ slots a2 n2.
Proof.
  intros H1 H2 H. unfold slots. rewrite slice_app by lia. f_equal.
  - apply slice_ext. intros j Hj. rewrite H by lia. zbool_solve.
  - apply slice_ext. intros j Hj. rewrite H by lia. zbool_solve.
Qed.

Lemma leaf_insert_at_spec (p : LeafPage.t) (index k v : Z) :
  0 <= index <= LeafPage.size_ p -> LeafPage.size_ p + 1 < LEAF_PAGE_SIZE ->
  exists p', leaf_insert_at p index k v = Ok p' /\
    LeafPage.size_ p' = LeafPage.size_ p + 1 /\
    LeafPage.max_size_ p' = LeafPage.max_size_ p /\
    LeafPage.next_page_id_ p' = LeafPage.next_page_id_ p /\
    leaf_slots p' = take (Z.to_nat index) (leaf_slots p) ++ (k, v) :: drop (Z.to_nat index) (leaf_slots p).
Proof.
  intros Hi Hcap. unfold leaf_insert_at.
  destruct (leaf_shift_right (LeafPage.IncreaseSize p 1)
              (LeafPage.GetSize (LeafPage.IncreaseSize p 1)) index) as (a' & Hrun & Hget);
    [lia | exact Hcap |].
  rewrite Hrun. simpl. rewrite LeafPage_SetAt_Ok by lia. simpl.
  eexists. split; [reflexivity|]. simpl. repeat split.
  unfold leaf_slots. simpl. apply slots_insert; [lia|].
  intros j Hj. rewrite get_write by lia. zbool; rewrite ?Hget by lia; simpl in *; zbool_solve.
Qed.

Lemma leaf_split_spec (leaf_max_size_ : Z) (p : LeafPage.t) (new_page_id : Z) :
  0 <= LeafPage.GetMinSize p <= LeafPage.size_ p -> LeafPage.size_ p <= LEAF_PAGE_SIZE ->
  exists l r, leaf_split leaf_max_size_ p new_page_id = Ok (l, r) /\
    LeafPage.size_ l = LeafPage.GetMinSize p /\
    LeafPage.max_size_ l = LeafPage.max_size_ p /\
    LeafPage.next_page_id_ l = new_page_id /\
    leaf_slots l = take (Z.to_nat (LeafPage.GetMinSize p)) (leaf_slots p) /\
    LeafPage.size_ r = LeafPage.size_ p - LeafPage.GetMinSize p /\
    LeafPage.max_size_ r = leaf_max_size_ /\
    LeafPage.next_page_id_ r = new_page_id /\
    leaf_slots r = drop (Z.to_nat (LeafPage.GetMinSize p)) (leaf_slots p).
Proof.
  intros Hm Hcap. unfold leaf_split.
  set (p1 := LeafPage.SetNextPageId p new_page_id).
  set (r0 := LeafPage.SetNextPageId _ _).
  destruct (leaf_copy p1 r0 (LeafPage.GetMinSize p1) (LeafPage.GetSize p1) 0
              (fun i => i - LeafPage.GetMinSize p1)) as (a' & Hrun & Hget);
    [exact (proj1 Hm) | lia | exact Hcap
    | change (LeafPage.GetMinSize p1) with (LeafPage.GetMinSize p);
      change (LeafPage.GetSize p1) with (LeafPage.size_ p); lia
    | intros; lia |].
  rewrite Hrun. simpl. eexists _, _. split; [reflexivity|]. simpl.
  repeat split.
  - unfold leaf_slots. simpl. apply slots_take; [exact Hm | reflexivity].
  - unfold leaf_slots. simpl. apply slots_drop; [exact Hm|].
    intros j Hj. rewrite Hget by lia. subst p1. simpl.
    change (LeafPage.GetMinSize (LeafPage.SetNextPageId p new_page_id)) with (LeafPage.GetMinSize p).
    unfold LeafPage.GetSize. simpl. zbool_solve.
Qed.

Lemma leaf_remove_at_spec (p : LeafPage.t) (pos : Z) :
  0 <= pos < LeafPage.size_ p -> LeafPage.size_ p <= LEAF_PAGE_SIZE ->
  exists p', leaf_remove_at p pos = Ok p' /\
    LeafPage.size_ p' = LeafPage.size_ p - 1 /\
    LeafPage.max_size_ p' = LeafPage.max_size_ p /\
    LeafPage.next_page_id_ p' = LeafPage.next_page_id_ p /\
    leaf_slots p' = take (Z.to_nat pos) (leaf_slots p) ++ drop (Z.to_nat (pos + 1)) (leaf_slots p).
Proof.
  intros Hp Hcap. unfold leaf_remove_at.
  destruct (leaf_shift_left p (pos + 1) (LeafPage.GetSize p)) as (a' & Hrun & Hget);
    [lia | exact Hcap |].
  rewrite Hrun. simpl. eexists. split; [reflexivity|]. simpl. repeat split.
  unfold leaf_slots. simpl. apply slots_delete; [lia|].
  intros j Hj. rewrite Hget by lia. unfold LeafPage.GetSize. zbool_solve.
Qed.

Lemma leaf_merge_spec (l r : LeafPage.t) :
  0 <= LeafPage.size_ l -> 0 <= LeafPage.size_ r ->
  LeafPage.size_ l + LeafPage.size_ r <= LEAF_PAGE_SIZE ->
  exists p', leaf_merge l r (LeafPage.size_ r + LeafPage.size_ l) = Ok p' /\
    LeafPage.size_ p' = LeafPage.size_ l + LeafPage.size_ r /\
    LeafPage.max_size_ p' = LeafPage.max_size_ l /\
    LeafPage.next_page_id_ p' = LeafPage.next_page_id_ r /\
    leaf_slots p' = leaf_slots l ++ leaf_slots r.
Proof.
  intros Hl Hr Hcap. unfold leaf_merge.
  destruct (leaf_copy r (LeafPage.SetSize l (LeafPage.size_ r + LeafPage.size_ l))
              0 (LeafPage.GetSize r) (LeafPage.GetSize l) (fun i => i + LeafPage.GetSize l))
    as (a' & Hrun & Hget);
    [lia | exact Hl | unfold LeafPage.GetSize; lia | unfold LeafPage.GetSize; lia
    | intros; lia |].
  rewrite Hrun. simpl. eexists. split; [reflexivity|]. simpl. repeat split; [lia|].
  unfold leaf_slots. simpl. rewrite (Z.add_comm (LeafPage.size_ r)).
  apply slots_app; [lia | lia |].
  intros j Hj. rewrite Hget by lia. unfold LeafPage.GetSize. simpl. zbool_solve.
Qed.

Lemma leaf_borrow_right_spec (p r : LeafPage.t) :
  0 <= LeafPage.size_ p < LEAF_PAGE_SIZE -> 1 <= LeafPage.size_ r <= LEAF_PAGE_SIZE ->
  exists p' r', leaf_borrow_right p r = Ok (p', r') /\
    LeafPage.size_ p' = LeafPage.size_ p + 1 /\
    LeafPage.max_size_ p' = LeafPage.max_size_ p /\
    LeafPage.next_page_id_ p' = LeafPage.next_page_id_ p /\
    leaf_slots p' = leaf_slots p ++ take 1 (leaf_slots r) /\
    LeafPage.size_ r' = LeafPage.size_ r - 1 /\
    LeafPage.max_size_ r' = LeafPage.max_size_ r /\
    LeafPage.next_page_id_ r' = LeafPage.next_page_id_ r /\
    leaf_slots r' = drop 1 (leaf_slots r).
Proof.
  intros Hp Hr. unfold leaf_borrow_right.
  rewrite copy_leaf_slot_Ok by (unfold LeafPage.GetSize; simpl; lia). simpl.
  destruct (leaf_shift_left' r (LeafPage.GetSize r - 1)) as (a' & Hrun & Hget);
    [unfold LeafPage.GetSize; lia|].
  rewrite Hrun. simpl. eexists _, _. split; [reflexivity|]. simpl. repeat split.
  - unfold leaf_slots. simpl.
    change 1%nat with (Z.to_nat 1). unfold slots at 3. rewrite take_slice by lia.
    apply slots_app; [lia | lia |].
    intros j Hj. unfold LeafPage.GetSize. simpl.
    rewrite get_write by lia. zbool_solve.
  - unfold leaf_slots. simpl. change 1%nat with (Z.to_nat 1). apply slots_drop; [lia|].
    intros j Hj. rewrite Hget by lia. unfold LeafPage.GetSize. zbool_solve.
Qed.

Lemma leaf_borrow_left_spec (p l : LeafPage.t) :
  0 <= LeafPage.size_ p < LEAF_PAGE_SIZE -> 1 <= LeafPage.size_ l <= LEAF_PAGE_SIZE ->
  exists p' l', leaf_borrow_left p l = Ok (p', l') /\
    LeafPage.size_ p' = LeafPage.size_ p + 1 /\
    LeafPage.max_size_ p' = LeafPage.max_size_ p /\
    LeafPage.next_page_id_ p' = LeafPage.next_page_id_ p /\
    leaf_slots p' = drop (Z.to_nat (LeafPage.size_ l - 1)) (leaf_slots l) ++ leaf_slots p /\
    LeafPage.size_ l' = LeafPage.size_ l - 1 /\
    LeafPage.max_size_ l' = LeafPage.max_size_ l /\
    LeafPage.next_page_id_ l' = LeafPage.next_page_id_ l /\
    leaf_slots l' = take (Z.to_nat (LeafPage.size_ l - 1)) (leaf_slots l).
Proof.
  intros Hp Hl. unfold leaf_borrow_left.
  destruct (leaf_shift_right (LeafPage.IncreaseSize p 1)
              (LeafPage.GetSize (LeafPage.IncreaseSize p 1) - 1) 0) as (a' & Hrun & Hget);
    [lia | unfold LeafPage.GetSize; simpl; lia |].
  rewrite Hrun. simpl. rewrite copy_leaf_slot_Ok by (unfold LeafPage.GetSize; simpl; lia). simpl.
  eexists _, _. split; [reflexivity|]. simpl. repeat split.
  - unfold leaf_slots. simpl. unfold slots at 2. rewrite drop_slice by lia.
    replace (LeafPage.size_ l - (LeafPage.size_ l - 1)) with 1 by lia.
    rewrite (Z.add_comm (LeafPage.size_ p)). unfold slots. rewrite slice_app by lia.
    f_equal.
    + rewrite !slice_one. f_equal. rewrite get_write_same by lia.
      unfold LeafPage.GetSize. f_equal.
    + apply slice_ext. intros j Hj. rewrite get_write by lia.
      zbool; rewrite ?Hget by lia; unfold LeafPage.GetSize; simpl; zbool_solve.
  - unfold leaf_slots. simpl. apply slots_take; [lia | reflexivity].
Qed.

(** ** Binary search *)

Lemma comparator_gt (a b : Z) : (comparator_ a b =? 1) = (b <? a).
Proof.
  unfold comparator_. destruct (Z.compare_spec a b); zbool_solve.
Qed.

Lemma comparator_eq (a b : Z) : (comparator_ a b =? 0) = (a =? b).
Proof.
  unfold comparator_. destruct (Z.compare_spec a b); zbool_solve.
Qed.

Lemma shiftr_mid (l r : Z) : l < r -> l < Z.shiftr (l + r + 1) 1 <= r.
Proof.
  intros H. rewrite Z.shiftr_div_pow2 by lia. change (2 ^ 1) with 2.
  pose proof (Z.div_mod (l + r + 1) 2 ltac:(lia)) as E.
  pose proof (Z.mod_pos_bound (l + r + 1) 2 ltac:(lia)) as B.
  lia.
Qed.

Lemma BinaryFind_loop_spec (fuel : nat) (kf : Z -> Z) (key_at : Z -> Result Z) (key l r : Z) :
  (forall i, l < i <= r -> key_at i = Ok (kf i)) ->
  (Z.to_nat (r - l) <= fuel)%nat ->
  exists r', BinaryFind_loop fuel key_at key l r = Ok r' /\
    (l <= r -> l <= r' <= r) /\ (r < l -> r' = r) /\
    (l < r' -> kf r' <= key) /\
    (forall i, r' < i <= r -> exists m, r' < m <= i /\ key < kf m).
Proof.
  revert l r. induction fuel as [|fuel IH]; intros l r Hk Hf.
  - exists r. simpl. destruct (Z.ltb_spec l r); [lia|].
    split; [reflexivity|]. repeat split; intros; lia.
  - simpl. destruct (Z.ltb_spec l r) as [Hlt|Hge].
    + pose proof (shiftr_mid l r Hlt) as Hmid.
      set (mid := Z.shiftr (l + r + 1) 1) in *.
      rewrite Hk by lia. simpl. rewrite comparator_gt.
      destruct (Z.ltb_spec key (kf mid)) as [Hgt|Hle]; simpl.
      * destruct (IH l (mid - 1)) as (r' & Hrun & H1 & H2 & H3 & H4).
        { intros i Hi. apply Hk. lia. }
        { lia. }
        exists r'. split; [exact Hrun|].
        refine (conj _ (conj _ (conj H3 _))); [lia | lia |].
        intros i Hi. destruct (Z.le_gt_cases i (mid - 1)).
        -- apply H4. lia.
        -- exists mid. split; [lia | exact Hgt].
      * destruct (IH mid r) as (r' & Hrun & H1 & H2 & H3 & H4).
        { intros i Hi. apply Hk. lia. }
        { lia. }
        exists r'. split; [exact Hrun|].
        refine (conj _ (conj _ (conj _ H4))); [lia | lia |].
        intros _. destruct (Z.eq_dec r' mid) as [->|Hne]; [exact Hle | apply H3; lia].
    + exists r. split; [reflexivity|]. repeat split; intros; lia.
Qed.

Definition leaf_key (p : LeafPage.t) (i : Z) : Z := fst (get (LeafPage.array_ p) i).
Definition internal_key (p : InternalPage.t) (i : Z) : Z := fst (get (InternalPage.array_ p) i).
Definition internal_child (p : InternalPage.t) (i : Z) : Z := snd (get (InternalPage.array_ p) i).

Lemma BinaryFind_leaf_spec (p : LeafPage.t) (key : Z) :
  0 <= LeafPage.size_ p <= LEAF_PAGE_SIZE ->
  exists r, BinaryFind_leaf p key = Ok r /\
    -1 <= r < LeafPage.size_ p /\
    (0 <= r -> leaf_key p r <= key) /\
    (forall i, r < i < LeafPage.size_ p -> exists m, r < m <= i /\ 0 <= m /\ key < leaf_key p m).
Proof.
  intros Hs. unfold BinaryFind_leaf, LeafPage.GetSize.
  destruct (BinaryFind_loop_spec (Z.to_nat (LeafPage.size_ p - 1 - 0)) (leaf_key p)
              (LeafPage.KeyAt p) key 0 (LeafPage.size_ p - 1)) as (r' & Hrun & H1 & H2 & H3 & H4).
  { intros i Hi. apply LeafPage_KeyAt_Ok. lia. }
  { lia. }
  rewrite Hrun. simpl.
  destruct (Z.leb_spec 0 r') as [Hr|Hr].
  - rewrite LeafPage_KeyAt_Ok by lia. simpl. rewrite comparator_gt.
    fold (leaf_key p r').
    assert (0 <= LeafPage.size_ p - 1) by lia.
    destruct (Z.ltb_spec key (leaf_key p r')) as [Hgt|Hle].
    + exists (-1). split; [reflexivity|]. split; [lia|]. split; [lia|].
      assert (r' = 0) as -> by lia.
      intros i Hi. destruct (Z.eq_dec i 0) as [->|Hne].
      * exists 0. split; [lia|]. split; [lia | exact Hgt].
      * destruct (H4 i) as (m & Hm & Hkm); [lia|]. exists m. split; [lia|]. split; [lia | exact Hkm].
    + exists r'. split; [reflexivity|]. split; [lia|]. split; [intros _; exact Hle|].
      intros i Hi. destruct (H4 i) as (m & Hm & Hkm); [lia|]. exists m. split; [lia|]. split; [lia | exact Hkm].
  - exists r'. split; [reflexivity|].
    assert (r' = LeafPage.size_ p - 1) as -> by lia.
    split; [lia|]. split; [lia|]. intros; lia.
Qed.

Lemma BinaryFind_internal_spec (p : InternalPage.t) (key : Z) :
  0 <= InternalPage.size_ p <= INTERNAL_PAGE_SIZE ->
  exists r, BinaryFind_internal p key = Ok r /\
    0 <= r /\ (r < InternalPage.size_ p \/ r = 0) /\
    (1 <= r -> internal_key p r <= key) /\
    (forall i, r < i < InternalPage.size_ p ->
       exists m, r < m <= i /\ key < internal_key p m).
Proof.
  intros Hs. unfold BinaryFind_internal, InternalPage.GetSize.
  destruct (BinaryFind_loop_spec (Z.to_nat (InternalPage.size_ p - 1 - 1)) (internal_key p)
              (InternalPage.KeyAt p) key 1 (InternalPage.size_ p - 1)) as (r' & Hrun & H1 & H2 & H3 & H4).
  { intros i Hi. apply InternalPage_KeyAt_Ok. lia. }
  { lia. }
  rewrite Hrun. simpl.
  destruct (Z.eqb_spec r' (-1)) as [->|Hne].
  - exists 0. split; [reflexivity|]. repeat split; intros; lia.
  - assert (0 <= r') by lia.
    rewrite InternalPage_KeyAt_Ok by lia. simpl. rewrite comparator_gt.
    fold (internal_key p r').
    destruct (Z.ltb_spec key (internal_key p r')) as [Hgt|Hle].
    + exists 0. split; [reflexivity|]. split; [lia|]. split; [lia|]. split; [lia|].
      assert (r' <= 1) by lia.
      intros i Hi. destruct (Z.eq_dec i r') as [->|Hne'].
      * exists r'. split; [lia | exact Hgt].
      * destruct (H4 i) as (m & Hm & Hkm); [lia|]. exists m. split; [lia | exact Hkm].
    + exists r'. split; [reflexivity|]. split; [lia|]. split; [lia|]. split; [intros _; exact Hle|].
      intros i Hi. apply H4. lia.
Qed.

Lemma internal_remove_at_spec (p : InternalPage.t) (valueIndex : Z) :
  0 <= valueIndex < InternalPage.size_ p -> InternalPage.size_ p <= INTERNAL_PAGE_SIZE ->
  exists p', internal_remove_at p valueIndex = Ok p' /\
    InternalPage.size_ p' = InternalPage.size_ p - 1 /\
    InternalPage.max_size_ p' = InternalPage.max_size_ p /\
    internal_slots p' = take (Z.to_nat valueIndex) (internal_slots p)
                        ++ drop (Z.to_nat (valueIndex + 1)) (internal_slots p).
Proof.
  intros Hp Hcap. unfold internal_remove_at.
  destruct (internal_shift_left p (valueIndex + 1) (InternalPage.GetSize p)) as (a' & Hrun & Hget);
    [lia | exact Hcap |].
  rewrite Hrun. simpl. eexists. split; [reflexivity|]. simpl. repeat split.
  unfold internal_slots. simpl. apply slots_delete; [lia|].
  intros j Hj. rewrite Hget by lia. unfold InternalPage.GetSize. zbool_solve.
Qed.

Lemma internal_merge_spec (l r : InternalPage.t) :
  0 <= InternalPage.size_ l -> 0 <= InternalPage.size_ r ->
  InternalPage.size_ l + InternalPage.size_ r <= INTERNAL_PAGE_SIZE ->
  exists p', internal_merge l r (InternalPage.size_ r + InternalPage.size_ l) = Ok p' /\
    InternalPage.size_ p' = InternalPage.size_ l + InternalPage.size_ r /\
    InternalPage.max_size_ p' = InternalPage.max_size_ l /\
    internal_slots p' = internal_slots l ++ internal_slots r.
Proof.
  intros Hl Hr Hcap. unfold internal_merge.
  destruct (internal_copy r (InternalPage.SetSize l (InternalPage.size_ r + InternalPage.size_ l))
              0 (InternalPage.GetSize r) (InternalPage.GetSize l)
              (fun i => i + InternalPage.GetSize l))
    as (a' & Hrun & Hget);
    [lia | exact Hl | unfold InternalPage.GetSize; lia | unfold InternalPage.GetSize; lia
    | intros; lia |].
  rewrite Hrun. simpl. eexists. split; [reflexivity|]. simpl. repeat split; [lia|].
  unfold internal_slots. simpl. rewrite (Z.add_comm (InternalPage.size_ r)).
  apply slots_app; [lia | lia |].
  intros j Hj. rewrite Hget by lia. unfold InternalPage.GetSize. simpl. zbool_solve.
Qed.

Lemma internal_borrow_right_spec (p r : InternalPage.t) :
  0 <= InternalPage.size_ p < INTERNAL_PAGE_SIZE ->
  1 <= InternalPage.size_ r <= INTERNAL_PAGE_SIZE ->
  exists p' r', internal_borrow_right p r = Ok (p', r') /\
    InternalPage.size_ p' = InternalPage.size_ p + 1 /\
    InternalPage.max_size_ p' = InternalPage.max_size_ p /\
    internal_slots p' = internal_slots p ++ take 1 (internal_slots r) /\
    InternalPage.size_ r' = InternalPage.size_ r - 1 /\
    InternalPage.max_size_ r' = InternalPage.max_size_ r /\
    internal_slots r' = drop 1 (internal_slots r).
Proof.
  intros Hp Hr. unfold internal_borrow_right.
  rewrite copy_internal_slot_Ok by (unfold InternalPage.GetSize; simpl; lia). simpl.
  destruct (internal_shift_left' r (InternalPage.GetSize r - 1)) as (a' & Hrun & Hget);
    [unfold InternalPage.GetSize; lia|].
  rewrite Hrun. simpl. eexists _, _. split; [reflexivity|]. simpl. repeat split.
  - unfold internal_slots. simpl.
    change 1%nat with (Z.to_nat 1). unfold slots at 3. rewrite take_slice by lia.
    apply slots_app; [lia | lia |].
    intros j Hj. unfold InternalPage.GetSize. simpl.
    rewrite get_write by lia. zbool_solve.
  - unfold internal_slots. simpl. change 1%nat with (Z.to_nat 1). apply slots_drop; [lia|].
    intros j Hj. rewrite Hget by lia. unfold InternalPage.GetSize. zbool_solve.
Qed.

Lemma internal_borrow_left_spec (p l : InternalPage.t) :
  0 <= InternalPage.size_ p < INTERNAL_PAGE_SIZE ->
  1 <= InternalPage.size_ l <= INTERNAL_PAGE_SIZE ->
  exists p' l', internal_borrow_left p l = Ok (p', l') /\
    InternalPage.size_ p' = InternalPage.size_ p + 1 /\
    InternalPage.max_size_ p' = InternalPage.max_size_ p /\
    internal_slots p' = drop (Z.to_nat (InternalPage.size_ l - 1)) (internal_slots l)
                        ++ internal_slots p /\
    InternalPage.size_ l' = InternalPage.size_ l - 1 /\
    InternalPage.max_size_ l' = InternalPage.max_size_ l /\
    internal_slots l' = take (Z.to_nat (InternalPage.size_ l - 1)) (internal_slots l).
Proof.
  intros Hp Hl. unfold internal_borrow_left.
  destruct (internal_shift_right (InternalPage.IncreaseSize p 1)
              (InternalPage.GetSize (InternalPage.IncreaseSize p 1) - 1) 0) as (a' & Hrun & Hget);
    [lia | unfold InternalPage.GetSize; simpl; lia |].
  rewrite Hrun. simpl.
  rewrite copy_internal_slot_Ok by (unfold InternalPage.GetSize; simpl; lia). simpl.
  eexists _, _. split; [reflexivity|]. simpl. repeat split.
  - unfold internal_slots. simpl. unfold slots at 2. rewrite drop_slice by lia.
    replace (InternalPage.size_ l - (InternalPage.size_ l - 1)) with 1 by lia.
    rewrite (Z.add_comm (InternalPage.size_ p)). unfold slots. rewrite slice_app by lia.
    f_equal.
    + rewrite !slice_one. f_equal. rewrite get_write_same by lia.
      unfold InternalPage.GetSize. f_equal.
    + apply slice_ext. intros j Hj. rewrite get_write by lia.
      zbool; rewrite ?Hget by lia; unfold InternalPage.GetSize; simpl; zbool_solve.
  - unfold internal_slots. simpl. apply slots_take; [lia | reflexivity].
Qed.

Lemma new_root_page_spec (internal_max_size_ old_root_id key new_child_id : Z) :
  exists p, new_root_page internal_max_size_ old_root_id key new_child_id = Ok p /\
    InternalPage.size_ p = 2 /\
    InternalPage.max_size_ p = internal_max_size_ /\
    internal_slots p = [(0, old_root_id); (key, new_child_id)].
Proof. eexists. split; [reflexivity|]. repeat split. Qed.

(** The slot sequence of a page with one more entry at position [pos]. *)
Definition insert_slot (l : list MappingType) (pos : Z) (x : MappingType) : list MappingType :=
  take (Z.to_nat pos) l ++ x :: drop (Z.to_nat pos) l.

Lemma internal_insert_spec (p : InternalPage.t) (key new_child_id : Z) :
  1 <= InternalPage.size_ p < INTERNAL_PAGE_SIZE ->
  exists r p', BinaryFind_internal p key = Ok r /\
    internal_insert p key new_child_id = Ok p' /\
    InternalPage.size_ p' = InternalPage.size_ p + 1 /\
    InternalPage.max_size_ p' = InternalPage.max_size_ p /\
    internal_slots p' = insert_slot (internal_slots p) (r + 1) (key, new_child_id).
Proof.
  intros Hs. unfold internal_insert.
  destruct (BinaryFind_internal_spec p key) as (r & Hr & Hr0 & Hr1 & _); [lia|].
  rewrite Hr, bind_Ok_l. cbv beta zeta.
  destruct (internal_shift_right (InternalPage.IncreaseSize p 1)
              (InternalPage.GetSize (InternalPage.IncreaseSize p 1) - 1) (r + 1))
    as (a' & Hrun & Hget); [lia | unfold InternalPage.GetSize; simpl; lia |].
  rewrite Hrun, bind_Ok_l. rewrite set_internal_slot_Ok by lia. simpl.
  eexists _, _. split; [reflexivity|]. split; [reflexivity|]. simpl. repeat split.
  unfold internal_slots, insert_slot. simpl. apply slots_insert; [lia|].
  intros j Hj. rewrite get_write by lia.
  zbool; rewrite ?Hget by lia; unfold InternalPage.GetSize; simpl; zbool_solve.
Qed.

Lemma combined_array (a : list MappingType) (n pos : Z) (x : MappingType) :
  0 <= pos <= n ->
  exists c,
    (forall j, 0 <= j <= n ->
       get c j = if j <? pos then get a j else if j =? pos then x else get a (j - 1)) /\
    slots c (n + 1) = insert_slot (slots a n) pos x.
Proof.
  intros Hp.
  destruct (shift_right_spec (Z.to_nat (n - pos)) n a) as (a' & _ & Hget); [lia|].
  assert (Hc : forall j, 0 <= j <= n ->
            get (write_nth (Z.to_nat pos) x a') j
            = if j <? pos then get a j else if j =? pos then x else get a (j - 1)).
  { intros j Hj. rewrite get_write by lia. zbool; rewrite ?Hget by lia; zbool_solve. }
  exists (write_nth (Z.to_nat pos) x a'). split; [exact Hc|].
  apply slots_insert; [lia | exact Hc].
Qed.

Lemma min_size_of_bounds (max_size : Z) : 1 <= max_size -> 1 <= min_size_of max_size <= max_size.
Proof.
  intros H. unfold min_size_of.
  pose proof (Z.div_mod (max_size + 1) 2 ltac:(lia)).
  pose proof (Z.mod_pos_bound (max_size + 1) 2 ltac:(lia)). lia.
Qed.

Lemma set_value_then_key_Ok (p : InternalPage.t) (i k v : Z) :
  0 <= i < INTERNAL_PAGE_SIZE ->
  (p' ← InternalPage.SetValueAt p i v; InternalPage.SetKeyAt p' i k)
  = Ok (internal_with_array p (write_nth (Z.to_nat i) (k, v) (InternalPage.array_ p))).
Proof.
  intros. rewrite InternalPage_SetValueAt_Ok, bind_Ok_l by lia.
  rewrite InternalPage_SetKeyAt_Ok by lia. simpl.
  rewrite get_write_same by lia. simpl. rewrite write_nth_twice. reflexivity.
Qed.

Lemma internal_split_spec (internal_max_size_ : Z) (p : InternalPage.t) (key new_child_id : Z) :
  1 <= InternalPage.max_size_ p <= INTERNAL_PAGE_SIZE ->
  InternalPage.size_ p = InternalPage.max_size_ p ->
  exists r p1 p2,
    BinaryFind_internal p key = Ok r /\
    internal_split internal_max_size_ p key new_child_id = Ok (p1, p2) /\
    InternalPage.size_ p1 = InternalPage.GetMinSize p /\
    InternalPage.max_size_ p1 = InternalPage.max_size_ p /\
    internal_slots p1
    = take (Z.to_nat (InternalPage.GetMinSize p))
        (insert_slot (internal_slots p) (r + 1) (key, new_child_id)) /\
    InternalPage.size_ p2 = InternalPage.max_size_ p + 1 - InternalPage.GetMinSize p /\
    InternalPage.max_size_ p2 = internal_max_size_ /\
    internal_slots p2
    = drop (Z.to_nat (InternalPage.GetMinSize p))
        (insert_slot (internal_slots p) (r + 1) (key, new_child_id)).
Proof.
  intros Hmax Hsize.
  destruct (BinaryFind_internal_spec p key) as (r & Hr & Hr0 & Hr1 & _); [lia|].
  pose proof (min_size_of_bounds _ (proj1 Hmax)) as Hm.
  destruct (combined_array (InternalPage.array_ p) (InternalPage.size_ p) (r + 1)
              (key, new_child_id)) as (c & Hc & Hcs); [lia|].
  fold (internal_slots p) in Hcs.
  exists r. unfold internal_split. rewrite Hr, bind_Ok_l. cbv beta zeta.
  unfold InternalPage.GetMinSize, InternalPage.GetMaxSize, InternalPage.GetSize in *.
  set (m := min_size_of (InternalPage.max_size_ p)) in *.
  set (np0 := InternalPage.SetSize (InternalPage.Init internal_max_size_)
                (InternalPage.max_size_ p + 1 - m)).
  rewrite <- Hcs.
  destruct (Z.ltb_spec (r + 1) m) as [Hlt|Hge].
  - destruct (internal_copy p np0 m (InternalPage.size_ p) 1 (fun i => i - m + 1))
      as (a1 & Hrun1 & Hget1); [lia | lia | lia | lia | intros; lia |].
    rewrite Hrun1, bind_Ok_l.
    rewrite copy_internal_slot_Ok, bind_Ok_l by lia.
    destruct (internal_shift_right p (m - 1) (r + 1)) as (a2 & Hrun2 & Hget2); [lia | lia |].
    rewrite Hrun2, bind_Ok_l. rewrite set_internal_slot_Ok, bind_Ok_l by lia.
    simpl. eexists _, _. split; [reflexivity|]. simpl. repeat split.
    + unfold internal_slots. simpl. apply slots_take; [lia|].
      intros j Hj. rewrite Hc by lia. rewrite get_write by lia.
      zbool; rewrite ?Hget2 by lia; zbool_solve.
    + unfold internal_slots. simpl.
      replace (InternalPage.max_size_ p + 1 - m) with (InternalPage.size_ p + 1 - m) by lia.
      apply slots_drop; [lia|].
      intros j Hj. rewrite Hc by lia. rewrite get_write by lia.
      zbool; rewrite ?Hget1 by lia; zbool_solve.
  - destruct (Z.eqb_spec (r + 1) m) as [Heq|Hne].
    + destruct (internal_copy p np0 m (InternalPage.size_ p) 1 (fun i => i - m + 1))
        as (a1 & Hrun1 & Hget1); [lia | lia | lia | lia | intros; lia |].
      rewrite Hrun1, bind_Ok_l.
      pose proof (set_value_then_key_Ok (internal_with_array np0 a1) 0 key new_child_id
                    ltac:(lia)) as Hset.
      destruct (InternalPage.SetValueAt (internal_with_array np0 a1) 0 new_child_id) as [q|e];
        [|discriminate Hset].
      rewrite bind_Ok_l in Hset. rewrite bind_Ok_l. rewrite Hset, bind_Ok_l.
      simpl. eexists _, _. split; [reflexivity|]. simpl. repeat split.
      * unfold internal_slots. simpl. apply slots_take; [lia|].
        intros j Hj. rewrite Hc by lia. zbool_solve.
      * unfold internal_slots. simpl.
        replace (InternalPage.max_size_ p + 1 - m) with (InternalPage.size_ p + 1 - m) by lia.
        apply slots_drop; [lia|].
        intros j Hj. rewrite Hc by lia. rewrite get_write by lia.
        zbool; rewrite ?Hget1 by lia; zbool_solve.
    + destruct (internal_copy p np0 m (InternalPage.size_ p) 0 (fun i => i - m))
        as (a1 & Hrun1 & Hget1); [lia | lia | lia | lia | intros; lia |].
      rewrite Hrun1, bind_Ok_l. cbv zeta.
      destruct (internal_shift_right (internal_with_array np0 a1)
                  (InternalPage.size_ (internal_with_array np0 a1) - 1) (r + 1 - m))
        as (a2 & Hrun2 & Hget2); [lia | simpl; lia |].
      rewrite Hrun2, bind_Ok_l. rewrite set_internal_slot_Ok, bind_Ok_l by lia.
      simpl. eexists _, _. split; [reflexivity|]. simpl. repeat split.
      * unfold internal_slots. simpl. apply slots_take; [lia|].
        intros j Hj. rewrite Hc by lia. zbool_solve.
      * unfold internal_slots. simpl.
        replace (InternalPage.max_size_ p + 1 - m) with (InternalPage.size_ p + 1 - m) by lia.
        apply slots_drop; [lia|].
        intros j Hj. rewrite Hc by lia. rewrite get_write by lia.
        simpl in Hget2.
        zbool; rewrite ?Hget2 by lia; zbool; rewrite ?Hget1 by lia; zbool_solve.
Qed.

(** ** Guards and pages *)

Lemma guard_at_Ok (q : list page_id_t) (i : nat) (x : page_id_t) :
  q !! i = Some x -> guard_at q i = Ok x.
Proof. intros H. unfold guard_at. rewrite H. reflexivity. Qed.

Lemma guarded_page_Ok (s : BufferPool) (id : page_id_t) (p : Page) :
  pages_ s !! id = Some p -> guarded_page s id = Ok p.
Proof. intros H. unfold guarded_page. rewrite H. reflexivity. Qed.

Lemma InsertIntoParent_S (internal_max_size_ : Z) (index : nat) (s : BufferPool)
    (key new_child_id : Z) (ctx : Context) :
  InsertIntoParent internal_max_size_ (S index) s key new_child_id ctx
  = (parent_id ← guard_at (write_set_ ctx) index;
     page ← guarded_page s parent_id;
     parent_page ← AsInternal page;
     if negb (InternalPage.GetSize parent_page =? InternalPage.GetMaxSize parent_page) then
       parent_page ← internal_insert parent_page key new_child_id;
       Ok (put_page s parent_id (Internal parent_page))
     else
       let '(s, new_parent_page_id) := NewPageGuarded s in
       '(parent_page, new_parent_page) ← internal_split internal_max_size_ parent_page key new_child_id;
       let s := put_page s parent_id (Internal parent_page) in
       let s := put_page s new_parent_page_id (Internal new_parent_page) in
       up_key ← InternalPage.KeyAt new_parent_page 0;
       InsertIntoParent internal_max_size_ index s up_key new_parent_page_id ctx).
Proof. reflexivity. Qed.

(** ** Guards kept by the descent *)

Lemma pop_front_to_one_snoc (q : list page_id_t) (x : page_id_t) :
  pop_front_to_one (q ++ [x]) = [x].
Proof.
  induction q as [|y q IH]; simpl; [reflexivity|].
  destruct (q ++ [x]) as [|z q'] eqn:E.
  - destruct q; discriminate E.
  - exact IH.
Qed.

Lemma FindLeafPage_write_header (fuel : nat) (s : BufferPool) (key : Z) (op : Operation)
    (ctx ctx' : Context) :
  FindLeafPage_write fuel s key op ctx = Ok ctx' ->
  header_page_ ctx' = header_page_ ctx /\ root_page_id_ ctx' = root_page_id_ ctx.
Proof.
  revert ctx. induction fuel as [|fuel IH]; intros ctx H; simpl in H.
  - destruct (back (write_set_ ctx)) as [id|]; simpl in H; [|discriminate].
    destruct (guarded_page s id) as [[l|i]|]; simpl in H; try discriminate.
    injection H as <-. split; reflexivity.
  - destruct (back (write_set_ ctx)) as [id|]; simpl in H; [|discriminate].
    destruct (guarded_page s id) as [[l|i]|]; simpl in H; try discriminate.
    + injection H as <-. split; reflexivity.
    + destruct (BinaryFind_internal i key) as [slot|]; simpl in H; [|discriminate].
      destruct (InternalPage.ValueAt i slot) as [next|]; simpl in H; [|discriminate].
      destruct (FetchPageWrite s (write_set_ ctx) next) as [child|]; simpl in H; [|discriminate].
      apply IH in H. exact H.
Qed.

(** * The tree behind the pages *)

(** The tree that a set of pages stands for: a leaf with its page id and
    its entries, or an internal node with its page id and its slots, each a
    key and a subtree. *)
#[warnings="-register-all"] Inductive tree : Type :=
  | TLeaf (id : page_id_t) (kvs : list MappingType)
  | TNode (id : page_id_t) (sl : list (Z * tree)).

Definition tid (t : tree) : page_id_t :=
  match t with TLeaf id _ => id | TNode id _ => id end.

(** Entries of a tree, from left to right. *)
Fixpoint t_kvs (t : tree) : list MappingType :=
  match t with
  | TLeaf _ kvs => kvs
  | TNode _ sl => flat_map (fun kc => t_kvs (snd kc)) sl
  end.

(** Page ids of a tree. *)
Fixpoint ids (t : tree) : list page_id_t :=
  match t with
  | TLeaf id _ => [id]
  | TNode id sl => id :: flat_map (fun kc => ids (snd kc)) sl
  end.

Definition kvs_of (sl : list (Z * tree)) : list MappingType :=
  flat_map (fun kc => t_kvs (snd kc)) sl.
Definition ids_of (sl : list (Z * tree)) : list page_id_t :=
  flat_map (fun kc => ids (snd kc)) sl.

Definition slot_of (kc : Z * tree) : MappingType := (fst kc, tid (snd kc)).

(** [lo <= k < hi], an absent bound being infinite. *)
Definition in_range (lo hi : option Z) (k : Z) : Prop :=
  match lo with Some l => l <= k | None => True end /\
  match hi with Some u => k < u | None => True end.

Definition next_bound (hi : option Z) (rest : list (Z * tree)) : option Z :=
  match rest with
  | [] => hi
  | kc :: _ => Some (fst kc)
  end.

(** The children of a node cover consecutive key ranges: the first starts
    at [lo], every other one at its own key, and each ends where the next
    begins, the last at [hi]. *)
Fixpoint chain (P : option Z -> option Z -> tree -> Prop) (lo hi : option Z)
    (sl : list (Z * tree)) : Prop :=
  match sl with
  | [] => True
  | kc :: rest => P lo (next_bound hi rest) (snd kc) /\ chain P (next_bound hi rest) hi rest
  end.

(** The key of slot 0 is the lower bound of the node, when it has one. *)
Definition key0_ok (lo : option Z) (sl : list (Z * tree)) : Prop :=
  match lo, sl with
  | Some l, kc :: _ => fst kc = l
  | _, _ => True
  end.

Definition keys_ord (lo hi : option Z) (kvs : list MappingType) : Prop :=
  StronglySorted Z.lt (kvs.*1) /\ Forall (fun kv => in_range lo hi (fst kv)) kvs.

Section Invariant.

Variable leaf_max_size_ : Z.
Variable internal_max_size_ : Z.

(** Most entries of a leaf and most slots of an internal page: a leaf
    stays below its maximum size, and below the capacity of the page by
    two slots, since the insertion into a leaf writes the slot behind the
    new last entry (line 184 of the source); an internal page goes up to
    its maximum size and to the capacity of the page. *)
Local Abbreviation leaf_room := (Z.min (leaf_max_size_ - 1) (LEAF_PAGE_SIZE - 2)).
Local Abbreviation internal_room := (Z.min internal_max_size_ INTERNAL_PAGE_SIZE).

(** Order and fan-out of a tree of height [h] whose keys lie in
    [lo, hi). *)
Fixpoint good (h : nat) (lo hi : option Z) (t : tree) : Prop :=
  match h, t with
  | O, TLeaf _ kvs =>
      keys_ord lo hi kvs /\ 1 <= Z.of_nat (length kvs) <= leaf_room
  | S h', TNode _ sl =>
      key0_ok lo sl /\ chain (good h') lo hi sl /\
      2 <= Z.of_nat (length sl) <= internal_room
  | _, _ => False
  end.

(** The same with the lower size bound of the top node dropped by one: a
    node that has just lost an entry. *)
Definition weak (h : nat) (lo hi : option Z) (t : tree) : Prop :=
  match h, t with
  | O, TLeaf _ kvs =>
      keys_ord lo hi kvs /\ 0 <= Z.of_nat (length kvs) <= leaf_room
  | S h', TNode _ sl =>
      key0_ok lo sl /\ chain (good h') lo hi sl /\
      1 <= Z.of_nat (length sl) <= internal_room
  | _, _ => False
  end.

(** The pages of the pool hold the tree. *)
Fixpoint rep (m : gmap Z Page) (h : nat) (t : tree) : Prop :=
  match h, t with
  | O, TLeaf id kvs =>
      exists p, m !! id = Some (Leaf p) /\
        LeafPage.max_size_ p = leaf_max_size_ /\
        LeafPage.size_ p = Z.of_nat (length kvs) /\
        leaf_slots p = kvs
  | S h', TNode id sl =>
      exists p, m !! id = Some (Internal p) /\
        InternalPage.max_size_ p = internal_max_size_ /\
        InternalPage.size_ p = Z.of_nat (length sl) /\
        internal_slots p = map slot_of sl /\
        Forall (fun kc => rep m h' (snd kc)) sl
  | _, _ => False
  end.

(** Every allocated page id is below the allocation counter. *)
Definition pool_ok (s : BufferPool) : Prop :=
  0 <= next_page_id_ s /\
  forall id p, pages_ s !! id = Some p -> 0 <= id < next_page_id_ s.

(** The representation invariant: the header names no root and the tree is
    empty, or it names the root page of a well-formed tree whose entries are
    those of the finite map [M]. *)
Definition Inv (s : BufferPool) (M : gmap Z Z) : Prop :=
  pool_ok s /\
  ((header_root_page_id_ s = INVALID_PAGE_ID /\ M = ∅) \/
   exists h t, header_root_page_id_ s = tid t /\
     rep (pages_ s) h t /\ good h None None t /\ NoDup (ids t) /\
     list_to_map (t_kvs t) = M).

End Invariant.

(** ** Lists of slots *)

Lemma insert_slot_middle (l1 l2 : list MappingType) (x y : MappingType) :
  insert_slot (l1 ++ x :: l2) (Z.of_nat (length l1) + 1) y = l1 ++ x :: y :: l2.
Proof.
  unfold insert_slot.
  replace (Z.to_nat (Z.of_nat (length l1) + 1)) with (length (l1 ++ [x]))
    by (rewrite length_app; simpl; lia).
  replace (l1 ++ x :: l2) with ((l1 ++ [x]) ++ l2) by (rewrite <- app_assoc; reflexivity).
  rewrite take_app_length, drop_app_length. rewrite <- app_assoc. reflexivity.
Qed.

Lemma delete_middle (l1 l2 : list MappingType) (x : MappingType) :
  take (length l1) (l1 ++ x :: l2) ++ drop (S (length l1)) (l1 ++ x :: l2) = l1 ++ l2.
Proof.
  rewrite take_app_length.
  replace (l1 ++ x :: l2) with ((l1 ++ [x]) ++ l2) by (rewrite <- app_assoc; reflexivity).
  replace (S (length l1)) with (length (l1 ++ [x])) by (rewrite length_app; simpl; lia).
  rewrite drop_app_length. reflexivity.
Qed.

Lemma in_range_weaken_hi (lo hi : option Z) (u k : Z) :
  in_range lo (Some u) k -> match hi with Some v => u <= v | None => True end ->
  in_range lo hi k.
Proof. unfold in_range. destruct lo, hi; intros [? ?] ?; split; auto; lia. Qed.

Lemma in_range_weaken_lo (lo hi : option Z) (l k : Z) :
  in_range (Some l) hi k -> match lo with Some v => v <= l | None => True end ->
  in_range lo hi k.
Proof. unfold in_range. destruct lo, hi; intros [? ?] ?; split; auto; lia. Qed.

(** ** Consecutive ranges *)

Lemma next_bound_app (hi : option Z) (l1 l2 : list (Z * tree)) :
  next_bound hi (l1 ++ l2) = next_bound (next_bound hi l2) l1.
Proof. destruct l1; reflexivity. Qed.

(** Lower bound of the slot that follows the slots [pre]. *)
Definition lbound (lo : option Z) (pre : list (Z * tree)) (kc : Z * tree) : option Z :=
  match pre with
  | [] => lo
  | _ => Some (fst kc)
  end.

Lemma chain_app (P : option Z -> option Z -> tree -> Prop) (lo hi : option Z)
    (l1 l2 : list (Z * tree)) :
  chain P lo hi (l1 ++ l2) <->
  chain P lo (next_bound hi l2) l1 /\
  chain P (match l1 with [] => lo | _ => next_bound hi l2 end) hi l2.
Proof.
  revert lo. induction l1 as [|kc l1 IH]; intros lo; simpl.
  - tauto.
  - rewrite IH. rewrite next_bound_app.
    destruct l1 as [|kc' l1]; simpl; tauto.
Qed.

Lemma chain_middle (P : option Z -> option Z -> tree -> Prop) (lo hi : option Z)
    (pre post : list (Z * tree)) (kc : Z * tree) :
  chain P lo hi (pre ++ kc :: post) <->
  chain P lo (Some (fst kc)) pre /\
  P (lbound lo pre kc) (next_bound hi post) (snd kc) /\
  chain P (next_bound hi post) hi post.
Proof.
  rewrite chain_app. simpl. unfold lbound. destruct pre; tauto.
Qed.

Lemma chain_split (P : option Z -> option Z -> tree -> Prop) (lo hi : option Z)
    (l1 l2 : list (Z * tree)) (kd : Z * tree) :
  l1 <> [] ->
  chain P lo hi (l1 ++ kd :: l2) <->
  chain P lo (Some (fst kd)) l1 /\ chain P (Some (fst kd)) hi (kd :: l2).
Proof.
  intros Hne. rewrite chain_app. simpl next_bound. destruct l1; [congruence | tauto].
Qed.

Lemma chain_impl (P Q : option Z -> option Z -> tree -> Prop) (lo hi : option Z)
    (sl : list (Z * tree)) :
  (forall lo hi kc, kc ∈ sl -> P lo hi (snd kc) -> Q lo hi (snd kc)) ->
  chain P lo hi sl -> chain Q lo hi sl.
Proof.
  revert lo. induction sl as [|kc sl IH]; intros lo HPQ; simpl; [tauto|].
  intros [H1 H2]. split.
  - apply HPQ; [left | exact H1].
  - apply IH; [|exact H2]. intros lo' hi' kc' Hin. apply HPQ. right. exact Hin.
Qed.

(** ** Keys of a well-formed tree *)

Lemma keys_ord_app (lo hi : option Z) (m : Z) (l1 l2 : list MappingType) :
  keys_ord lo (Some m) l1 -> keys_ord (Some m) hi l2 -> l1 <> [] -> l2 <> [] ->
  keys_ord lo hi (l1 ++ l2).
Proof.
  intros [S1 R1] [S2 R2] N1 N2. split.
  - rewrite fmap_app. apply StronglySorted_app_2; [|exact S1 | exact S2].
    intros x1 x2 H1 H2.
    apply list_elem_of_fmap in H1 as (kv1 & -> & H1).
    apply list_elem_of_fmap in H2 as (kv2 & -> & H2).
    rewrite Forall_forall in R1, R2.
    destruct (R1 _ H1) as [_ ?]. destruct (R2 _ H2) as [? _]. lia.
  - apply Forall_app. split.
    + destruct l2 as [|kv2 l2]; [congruence|].
      apply Forall_inv in R2. destruct R2 as [Hm Hh].
      eapply Forall_impl; [exact R1|]. intros kv Hr. simpl in Hr.
      eapply in_range_weaken_hi; [exact Hr|]. destruct hi; [lia|exact I].
    + destruct l1 as [|kv1 l1]; [congruence|].
      apply Forall_inv in R1. destruct R1 as [Hl Hm].
      eapply Forall_impl; [exact R2|]. intros kv Hr. simpl in Hr.
      eapply in_range_weaken_lo; [exact Hr|]. destruct lo; [lia|exact I].
Qed.

Lemma chain_keys_ord (P : option Z -> option Z -> tree -> Prop) (lo hi : option Z)
    (sl : list (Z * tree)) :
  (forall lo hi kc, kc ∈ sl -> P lo hi (snd kc) ->
     keys_ord lo hi (t_kvs (snd kc)) /\ t_kvs (snd kc) <> []) ->
  chain P lo hi sl -> sl <> [] ->
  keys_ord lo hi (kvs_of sl) /\ kvs_of sl <> [].
Proof.
  revert lo. induction sl as [|kc sl IH]; intros lo HP Hc Hne; [congruence|].
  simpl in Hc. destruct Hc as [H1 H2].
  destruct (HP _ _ kc ltac:(left) H1) as [K1 N1].
  unfold kvs_of. simpl. fold (kvs_of sl).
  destruct sl as [|kc' sl].
  - simpl in *. rewrite app_nil_r. split; assumption.
  - destruct (IH (Some (fst kc'))) as [K2 N2].
    + intros lo' hi' kc'' Hin. apply HP. right. exact Hin.
    + exact H2.
    + discriminate.
    + split.
      * eapply keys_ord_app; eassumption.
      * intros E. apply app_eq_nil in E. tauto.
Qed.

Section InvariantFacts.

Variable leaf_max_size_ : Z.
Variable internal_max_size_ : Z.

Local Abbreviation good := (good leaf_max_size_ internal_max_size_).
Local Abbreviation weak := (weak leaf_max_size_ internal_max_size_).
Local Abbreviation rep := (rep leaf_max_size_ internal_max_size_).

Lemma good_keys (h : nat) (lo hi : option Z) (t : tree) :
  good h lo hi t -> keys_ord lo hi (t_kvs t) /\ t_kvs t <> [].
Proof.
  revert lo hi t. induction h as [|h IH]; intros lo hi [id kvs|id sl] H; simpl in H; try tauto.
  - destruct H as [Hk Hl]. split; [exact Hk|]. destruct kvs; simpl in *; [lia | discriminate].
  - destruct H as (_ & Hc & Hl). simpl. apply (chain_keys_ord (good h)); [| exact Hc |].
    + intros. apply IH. assumption.
    + destruct sl; simpl in *; [lia | discriminate].
Qed.

Lemma good_weak (h : nat) (lo hi : option Z) (t : tree) : good h lo hi t -> weak h lo hi t.
Proof.
  destruct h, t; simpl; try tauto.
  - intros [? ?]. split; [assumption | lia].
  - intros (? & ? & ?). repeat split; try assumption; lia.
Qed.

Lemma weak_keys (h : nat) (lo hi : option Z) (t : tree) :
  weak h lo hi t -> keys_ord lo hi (t_kvs t).
Proof.
  destruct h as [|h], t as [id kvs|id sl]; simpl; try tauto.
  intros (_ & Hc & Hl). apply (chain_keys_ord (good h)); [| exact Hc |].
  - intros. eapply good_keys. eassumption.
  - destruct sl; simpl in *; [lia | discriminate].
Qed.

(** A non-empty range: the bounds of a well-formed tree are apart. *)
Lemma good_bounds (h : nat) (lo hi : option Z) (t : tree) :
  good h lo hi t -> exists k, in_range lo hi k /\ k ∈ (t_kvs t).*1.
Proof.
  intros H. destruct (good_keys _ _ _ _ H) as [[_ Hr] Hne].
  destruct (t_kvs t) as [|kv l]; [congruence|].
  exists (fst kv). split; [apply (Forall_inv Hr) | simpl; left].
Qed.

End InvariantFacts.

Section RepFacts.

Variable leaf_max_size_ : Z.
Variable internal_max_size_ : Z.

Local Abbreviation good := (good leaf_max_size_ internal_max_size_).
Local Abbreviation weak := (weak leaf_max_size_ internal_max_size_).
Local Abbreviation rep := (rep leaf_max_size_ internal_max_size_).

Lemma tid_in_ids (t : tree) : tid t ∈ ids t.
Proof. destruct t; simpl; left. Qed.

Lemma ids_of_app (l1 l2 : list (Z * tree)) : ids_of (l1 ++ l2) = ids_of l1 ++ ids_of l2.
Proof. apply flat_map_app. Qed.

Lemma kvs_of_app (l1 l2 : list (Z * tree)) : kvs_of (l1 ++ l2) = kvs_of l1 ++ kvs_of l2.
Proof. apply flat_map_app. Qed.

Lemma ids_of_cons (kc : Z * tree) (l : list (Z * tree)) : ids_of (kc :: l) = ids (snd kc) ++ ids_of l.
Proof. reflexivity. Qed.

Lemma kvs_of_cons (kc : Z * tree) (l : list (Z * tree)) : kvs_of (kc :: l) = t_kvs (snd kc) ++ kvs_of l.
Proof. reflexivity. Qed.

Lemma elem_of_ids_of (x : Z) (sl : list (Z * tree)) :
  x ∈ ids_of sl <-> exists kc, kc ∈ sl /\ x ∈ ids (snd kc).
Proof.
  unfold ids_of. rewrite list_elem_of_In, in_flat_map. split.
  - intros (kc & H1 & H2). exists kc. rewrite !list_elem_of_In. tauto.
  - intros (kc & H1 & H2). exists kc. rewrite <- !list_elem_of_In. tauto.
Qed.

Lemma rep_frame (m m' : gmap Z Page) (h : nat) (t : tree) :
  (forall id, id ∈ ids t -> m' !! id = m !! id) -> rep m h t -> rep m' h t.
Proof.
  revert t. induction h as [|h IH]; intros [id kvs|id sl] Hf H; simpl in *; try tauto.
  - destruct H as (p & Hp & H). exists p. rewrite Hf by left. tauto.
  - destruct H as (p & Hp & Hm & Hs & Hsl & Hc). exists p. rewrite Hf by left.
    repeat split; try assumption.
    rewrite Forall_forall in *. intros kc Hin. apply IH; [|apply Hc; exact Hin].
    intros x Hx. apply Hf. right. apply elem_of_ids_of. exists kc. tauto.
Qed.

Lemma rep_in_dom (m : gmap Z Page) (h : nat) (t : tree) (x : Z) :
  rep m h t -> x ∈ ids t -> is_Some (m !! x).
Proof.
  revert t. induction h as [|h IH]; intros [id kvs|id sl] H Hx; simpl in *; try tauto.
  - destruct H as (p & Hp & _). apply list_elem_of_singleton in Hx as ->. eauto.
  - destruct H as (p & Hp & _ & _ & _ & Hc).
    apply elem_of_cons in Hx as [->|Hx]; [eauto|].
    apply elem_of_ids_of in Hx as (kc & Hin & Hx).
    rewrite Forall_forall in Hc. eapply IH; [apply Hc; exact Hin | exact Hx].
Qed.

Lemma rep_leaf_inv (m : gmap Z Page) (h : nat) (t : tree) (p : LeafPage.t) :
  rep m h t -> m !! tid t = Some (Leaf p) ->
  h = O /\ exists kvs, t = TLeaf (tid t) kvs /\
    LeafPage.max_size_ p = leaf_max_size_ /\
    LeafPage.size_ p = Z.of_nat (length kvs) /\ leaf_slots p = kvs.
Proof.
  destruct h, t as [id kvs|id sl]; simpl; try tauto.
  - intros (p' & Hp' & H) Hp. rewrite Hp' in Hp. injection Hp as ->. split; [reflexivity|].
    exists kvs. tauto.
  - intros (p' & Hp' & H) Hp. rewrite Hp' in Hp. discriminate.
Qed.

Lemma rep_internal_inv (m : gmap Z Page) (h : nat) (t : tree) (p : InternalPage.t) :
  rep m h t -> m !! tid t = Some (Internal p) ->
  exists h' sl, h = S h' /\ t = TNode (tid t) sl /\
    InternalPage.max_size_ p = internal_max_size_ /\
    InternalPage.size_ p = Z.of_nat (length sl) /\
    internal_slots p = map slot_of sl /\
    Forall (fun kc => rep m h' (snd kc)) sl.
Proof.
  destruct h as [|h'], t as [id kvs|id sl]; simpl; try tauto.
  - intros (p' & Hp' & H) Hp. rewrite Hp' in Hp. discriminate.
  - intros (p' & Hp' & H) Hp. rewrite Hp' in Hp. injection Hp as ->.
    exists h', sl. tauto.
Qed.

(** Slots of the page of a node. *)
Lemma node_slot (p : InternalPage.t) (sl : list (Z * tree)) (i : nat) (kc : Z * tree) :
  InternalPage.size_ p = Z.of_nat (length sl) ->
  internal_slots p = map slot_of sl ->
  sl !! i = Some kc ->
  get (InternalPage.array_ p) (Z.of_nat i) = slot_of kc.
Proof.
  intros Hs Hsl Hi.
  assert (Hlt : (i < length sl)%nat) by (eapply lookup_lt_Some; exact Hi).
  pose proof (lookup_slots (InternalPage.array_ p) (InternalPage.size_ p) (Z.of_nat i)
                ltac:(lia)) as E.
  fold (internal_slots p) in E. rewrite Hsl, Nat2Z.id in E.
  change (map slot_of sl) with (slot_of <$> sl) in E.
  rewrite list_lookup_fmap, Hi in E. simpl in E. congruence.
Qed.

Lemma leaf_slot (p : LeafPage.t) (kvs : list MappingType) (i : nat) (kv : MappingType) :
  LeafPage.size_ p = Z.of_nat (length kvs) ->
  leaf_slots p = kvs ->
  kvs !! i = Some kv ->
  get (LeafPage.array_ p) (Z.of_nat i) = kv.
Proof.
  intros Hs Hsl Hi.
  assert (Hlt : (i < length kvs)%nat) by (eapply lookup_lt_Some; exact Hi).
  pose proof (lookup_slots (LeafPage.array_ p) (LeafPage.size_ p) (Z.of_nat i)
                ltac:(lia)) as E.
  fold (leaf_slots p) in E. rewrite Hsl, Nat2Z.id in E. congruence.
Qed.

(** ** Routing *)

Lemma chain_head_le (h : nat) (l : Z) (hi : option Z) (rest : list (Z * tree)) :
  chain (good h) (Some l) hi rest ->
  (forall kc, head rest = Some kc -> fst kc = l) ->
  forall j kj, rest !! j = Some kj -> l <= fst kj.
Proof.
  revert l. induction rest as [|kc rest IH]; intros l Hc Hh j kj Hj; [discriminate|].
  destruct j as [|j]; simpl in Hj.
  - injection Hj as <-. rewrite (Hh kc eq_refl). lia.
  - simpl in Hc. destruct Hc as [H1 H2].
    destruct rest as [|kc' rest]; [discriminate|]. simpl in H1, H2.
    destruct (good_bounds _ _ _ _ _ _ H1) as (k & [Hl Hu] & _).
    assert (fst kc' <= fst kj).
    { eapply (IH (fst kc')); [exact H2 | | exact Hj]. intros kc0 E. injection E as <-. reflexivity. }
    lia.
Qed.

Lemma sep_mono (h : nat) (lo hi : option Z) (sl : list (Z * tree)) (i j : nat) (ki kj : Z * tree) :
  chain (good h) lo hi sl -> (1 <= i <= j)%nat ->
  sl !! i = Some ki -> sl !! j = Some kj -> fst ki <= fst kj.
Proof.
  intros Hc Hij Hi Hj.
  rewrite <- (take_drop i sl) in Hc. apply chain_app in Hc as [_ Hc].
  assert (Hd : drop i sl !! 0%nat = Some ki) by (rewrite lookup_drop, Nat.add_0_r; exact Hi).
  destruct (take i sl) as [|x pre] eqn:Et.
  { apply (f_equal length) in Et. rewrite length_take in Et. simpl in Et.
    apply lookup_lt_Some in Hi. lia. }
  destruct (drop i sl) as [|kc rest] eqn:Ed; [discriminate|].
  simpl in Hd. injection Hd as ->. simpl next_bound in Hc.
  eapply (chain_head_le h (fst ki) hi (ki :: rest) Hc).
  - intros kc E. injection E as <-. reflexivity.
  - rewrite <- Ed. rewrite lookup_drop. replace (i + (j - i))%nat with j by lia. exact Hj.
Qed.

Lemma app_lookup_middle {A : Type} (pre post : list A) (x : A) :
  (pre ++ x :: post) !! length pre = Some x.
Proof. rewrite lookup_app_r by lia. rewrite Nat.sub_diag. reflexivity. Qed.

Lemma route_spec (p : InternalPage.t) (h : nat) (lo hi : option Z) (sl : list (Z * tree))
    (key : Z) :
  InternalPage.size_ p = Z.of_nat (length sl) ->
  InternalPage.size_ p <= INTERNAL_PAGE_SIZE ->
  internal_slots p = map slot_of sl ->
  sl <> [] ->
  in_range lo hi key ->
  exists pre kc post,
    sl = pre ++ kc :: post /\
    BinaryFind_internal p key = Ok (Z.of_nat (length pre)) /\
    in_range (lbound lo pre kc) (next_bound hi post) key.
Proof.
  intros Hs Hcap Hsl Hne Hr.
  destruct (BinaryFind_internal_spec p key) as (r & Hrun & Hr0 & Hr1 & Hle & Hgt); [lia|].
  assert (Hlt : (Z.to_nat r < length sl)%nat).
  { destruct sl; [congruence|]. simpl in *. lia. }
  destruct (lookup_lt_is_Some_2 _ _ Hlt) as [kc Hkc].
  exists (take (Z.to_nat r) sl), kc, (drop (S (Z.to_nat r)) sl).
  split; [symmetry; apply take_drop_middle; exact Hkc|].
  assert (Hlen : length (take (Z.to_nat r) sl) = Z.to_nat r) by (rewrite length_take; lia).
  split; [rewrite Hlen, Z2Nat.id by lia; exact Hrun|].
  destruct Hr as [Hlo Hhi]. split.
  - unfold lbound. destruct (take (Z.to_nat r) sl) eqn:E; [exact Hlo|].
    assert (1 <= r) by (simpl in Hlen; lia).
    specialize (Hle ltac:(lia)). unfold internal_key in Hle.
    pose proof (node_slot p sl _ _ Hs Hsl Hkc) as G. rewrite Z2Nat.id in G by lia.
    rewrite G in Hle. exact Hle.
  - destruct (drop (S (Z.to_nat r)) sl) as [|kc' post] eqn:E; [exact Hhi|]. simpl.
    assert (Hkc' : sl !! S (Z.to_nat r) = Some kc').
    { pose proof (lookup_drop sl (S (Z.to_nat r)) 0) as L. rewrite E, Nat.add_0_r in L.
      simpl in L. congruence. }
    assert (Hlt' : (S (Z.to_nat r) < length sl)%nat) by (eapply lookup_lt_Some; exact Hkc').
    destruct (Hgt (r + 1) ltac:(lia)) as (m & Hm & Hkm).
    assert (m = r + 1) as -> by lia.
    unfold internal_key in Hkm.
    pose proof (node_slot p sl _ _ Hs Hsl Hkc') as G.
    replace (Z.of_nat (S (Z.to_nat r))) with (r + 1) in G by lia.
    rewrite G in Hkm. exact Hkm.
Qed.

Lemma route_unique (p : InternalPage.t) (h : nat) (lo hi : option Z)
    (pre post : list (Z * tree)) (kc : Z * tree) (key : Z) :
  InternalPage.size_ p = Z.of_nat (length (pre ++ kc :: post)) ->
  InternalPage.size_ p <= INTERNAL_PAGE_SIZE ->
  internal_slots p = map slot_of (pre ++ kc :: post) ->
  chain (good h) lo hi (pre ++ kc :: post) ->
  in_range (lbound lo pre kc) (next_bound hi post) key ->
  BinaryFind_internal p key = Ok (Z.of_nat (length pre)).
Proof.
  intros Hs Hcap Hsl Hc [Hlo Hhi].
  destruct (BinaryFind_internal_spec p key) as (r & Hrun & Hr0 & Hr1 & Hle & Hgt); [lia|].
  rewrite Hrun. f_equal.
  set (sl := pre ++ kc :: post) in *.
  assert (Hkc : sl !! length pre = Some kc) by apply app_lookup_middle.
  assert (Hlen : length sl = S (length pre + length post)).
  { unfold sl. rewrite length_app. simpl. lia. }
  assert (Hlt : (Z.to_nat r < length sl)%nat) by lia.
  destruct (lookup_lt_is_Some_2 _ _ Hlt) as [kr Hkr].
  pose proof (node_slot p sl _ _ Hs Hsl Hkr) as Gr. rewrite Z2Nat.id in Gr by lia.
  destruct (Z.lt_trichotomy r (Z.of_nat (length pre))) as [Hlt1|[Heq|Hgt1]]; [|exact Heq|].
  - exfalso. destruct (Hgt (Z.of_nat (length pre)) ltac:(lia)) as (m & Hm & Hkm).
    assert (Hltm : (Z.to_nat m < length sl)%nat) by lia.
    destruct (lookup_lt_is_Some_2 _ _ Hltm) as [km Hkm'].
    pose proof (node_slot p sl _ _ Hs Hsl Hkm') as Gm. rewrite Z2Nat.id in Gm by lia.
    unfold internal_key in Hkm. rewrite Gm in Hkm. simpl in Hkm.
    pose proof (sep_mono h lo hi sl (Z.to_nat m) (length pre) km kc Hc ltac:(lia) Hkm' Hkc).
    unfold lbound in Hlo. destruct pre; [simpl in *; lia|]. simpl in Hlo. lia.
  - exfalso. specialize (Hle ltac:(lia)). unfold internal_key in Hle. rewrite Gr in Hle.
    simpl in Hle.
    destruct post as [|kc' post]; [simpl in *; lia|]. simpl in Hhi.
    assert (Hkc' : sl !! S (length pre) = Some kc').
    { unfold sl. rewrite lookup_app_r by lia.
      replace (S (length pre) - length pre)%nat with 1%nat by lia. reflexivity. }
    pose proof (sep_mono h lo hi sl (S (length pre)) (Z.to_nat r) kc' kr Hc ltac:(lia) Hkc' Hkr).
    lia.
Qed.

Lemma route_member (h : nat) (lo hi : option Z) (pre post : list (Z * tree)) (kc : Z * tree)
    (key : Z) :
  chain (good h) lo hi (pre ++ kc :: post) ->
  in_range (lbound lo pre kc) (next_bound hi post) key ->
  key ∈ (kvs_of (pre ++ kc :: post)).*1 <-> key ∈ (t_kvs (snd kc)).*1.
Proof.
  intros Hc [Hlo Hhi]. apply chain_middle in Hc as (Hpre & Hkc & Hpost).
  rewrite kvs_of_app, kvs_of_cons, !fmap_app, !elem_of_app.
  split; [|tauto]. intros [Hin|[Hin|Hin]]; [exfalso | exact Hin | exfalso].
  - destruct pre as [|x pre]; [inversion Hin|]. simpl in Hlo.
    destruct (chain_keys_ord (good h) lo (Some (fst kc)) (x :: pre)) as [[_ Hr] _];
      [| exact Hpre | discriminate |].
    { intros. eapply good_keys. eassumption. }
    apply list_elem_of_fmap in Hin as (kv & -> & Hin).
    rewrite Forall_forall in Hr. destruct (Hr _ Hin) as [_ ?]. lia.
  - destruct post as [|x post]; [inversion Hin|]. simpl in Hhi.
    destruct (chain_keys_ord (good h) (Some (fst x)) hi (x :: post)) as [[_ Hr] _];
      [| exact Hpost | discriminate |].
    { intros. eapply good_keys. eassumption. }
    apply list_elem_of_fmap in Hin as (kv & -> & Hin).
    rewrite Forall_forall in Hr. destruct (Hr _ Hin) as [? _]. lia.
Qed.

End RepFacts.

(** ** Search in a leaf *)

Lemma StronglySorted_lookup_lt (l : list Z) (i j : nat) (x y : Z) :
  StronglySorted Z.lt l -> (i < j)%nat -> l !! i = Some x -> l !! j = Some y -> x < y.
Proof.
  intros Hs Hij Hi Hj. rewrite <- (take_drop j l) in Hs.
  eapply StronglySorted_app_1_elem_of; [exact Hs | |].
  - apply list_elem_of_lookup. exists i. rewrite lookup_take_lt by lia. exact Hi.
  - apply list_elem_of_lookup. exists 0%nat. rewrite lookup_drop, Nat.add_0_r. exact Hj.
Qed.

Lemma leaf_search (p : LeafPage.t) (kvs : list MappingType) (key : Z) :
  LeafPage.size_ p = Z.of_nat (length kvs) ->
  LeafPage.size_ p <= LEAF_PAGE_SIZE ->
  leaf_slots p = kvs ->
  StronglySorted Z.lt (kvs.*1) ->
  exists r, BinaryFind_leaf p key = Ok r /\ -1 <= r < Z.of_nat (length kvs) /\
    (r = -1 \/ exists kv, 0 <= r /\ kvs !! Z.to_nat r = Some kv /\
                          LeafPage.KeyAt p r = Ok (fst kv) /\
                          LeafPage.ValueAt p r = Ok (snd kv) /\ fst kv <= key) /\
    Forall (fun kv => fst kv <= key) (take (Z.to_nat (r + 1)) kvs) /\
    Forall (fun kv => key < fst kv) (drop (Z.to_nat (r + 1)) kvs).
Proof.
  intros Hs Hcap Hsl Hsort.
  destruct (BinaryFind_leaf_spec p key) as (r & Hrun & Hr & Hle & Hgt); [lia|].
  exists r. split; [exact Hrun|]. split; [lia|].
  assert (Hkey : forall i kv, kvs !! i = Some kv -> leaf_key p (Z.of_nat i) = fst kv).
  { intros i kv Hi. unfold leaf_key. rewrite (leaf_slot p kvs i kv Hs Hsl Hi). reflexivity. }
  assert (Hfst : forall i kv, kvs !! i = Some kv -> kvs.*1 !! i = Some (fst kv)).
  { intros i kv Hi. rewrite list_lookup_fmap, Hi. reflexivity. }
  split; [|split].
  - destruct (Z.eq_dec r (-1)) as [->|Hne]; [left; reflexivity | right].
    assert (Hlt : (Z.to_nat r < length kvs)%nat) by lia.
    destruct (lookup_lt_is_Some_2 _ _ Hlt) as [kv Hkv]. exists kv.
    pose proof (leaf_slot p kvs _ _ Hs Hsl Hkv) as G. rewrite Z2Nat.id in G by lia.
    split; [lia|]. split; [exact Hkv|].
    split; [rewrite LeafPage_KeyAt_Ok by lia; rewrite G; reflexivity|].
    split; [rewrite LeafPage_ValueAt_Ok by lia; rewrite G; reflexivity|].
    specialize (Hle ltac:(lia)). unfold leaf_key in Hle. rewrite G in Hle. exact Hle.
  - apply Forall_forall. intros kv Hin. apply list_elem_of_lookup in Hin as [i Hi].
    apply lookup_take_Some in Hi as [Hi Hlt].
    destruct (Z.eq_dec r (-1)) as [->|Hne]; [simpl in Hlt; lia|].
    assert (Hltr : (Z.to_nat r < length kvs)%nat) by lia.
    destruct (lookup_lt_is_Some_2 _ _ Hltr) as [kr Hkr].
    specialize (Hle ltac:(lia)). rewrite <- (Z2Nat.id r), (Hkey _ _ Hkr) in Hle by lia.
    destruct (decide (i = Z.to_nat r)) as [->|Hir]; [congruence|].
    pose proof (StronglySorted_lookup_lt _ i (Z.to_nat r) _ _ Hsort ltac:(lia)
                  (Hfst _ _ Hi) (Hfst _ _ Hkr)). lia.
  - apply Forall_forall. intros kv Hin. apply list_elem_of_lookup in Hin as [i Hi].
    rewrite lookup_drop in Hi.
    assert (Hlt : (Z.to_nat (r + 1) + i < length kvs)%nat) by (eapply lookup_lt_Some; exact Hi).
    destruct (Hgt (Z.of_nat (Z.to_nat (r + 1) + i)) ltac:(lia)) as (m & Hm & Hm0 & Hkm).
    assert (Hltm : (Z.to_nat m < length kvs)%nat) by lia.
    destruct (lookup_lt_is_Some_2 _ _ Hltm) as [km Hkm'].
    rewrite <- (Z2Nat.id m), (Hkey _ _ Hkm') in Hkm by lia.
    destruct (decide (Z.to_nat m = (Z.to_nat (r + 1) + i)%nat)) as [E|Hne].
    + rewrite E in Hkm'. congruence.
    + pose proof (StronglySorted_lookup_lt _ (Z.to_nat m) (Z.to_nat (r + 1) + i) _ _ Hsort
                    ltac:(lia) (Hfst _ _ Hkm') (Hfst _ _ Hi)). lia.
Qed.

Lemma elem_of_take_1 {A : Type} (n : nat) (l : list A) (x : A) : x ∈ take n l -> x ∈ l.
Proof. intros H. rewrite <- (take_drop n l). apply elem_of_app. left. exact H. Qed.

Lemma elem_of_drop_1 {A : Type} (n : nat) (l : list A) (x : A) : x ∈ drop n l -> x ∈ l.
Proof. intros H. rewrite <- (take_drop n l). apply elem_of_app. right. exact H. Qed.

(** ** Ordered entry lists *)

Definition ble_lo (lo : option Z) (m : Z) : Prop :=
  match lo with Some l => l <= m | None => True end.
Definition ble_hi (m : Z) (hi : option Z) : Prop :=
  match hi with Some u => m <= u | None => True end.

Lemma keys_ord_nil (lo hi : option Z) : keys_ord lo hi [].
Proof. split; constructor. Qed.

Lemma keys_ord_join (lo hi : option Z) (m : Z) (l1 l2 : list MappingType) :
  keys_ord lo (Some m) l1 -> keys_ord (Some m) hi l2 -> ble_lo lo m -> ble_hi m hi ->
  keys_ord lo hi (l1 ++ l2).
Proof.
  intros [S1 R1] [S2 R2] Hlo Hhi. split.
  - rewrite fmap_app. apply StronglySorted_app_2; [|exact S1 | exact S2].
    intros x1 x2 H1 H2.
    apply list_elem_of_fmap in H1 as (kv1 & -> & H1).
    apply list_elem_of_fmap in H2 as (kv2 & -> & H2).
    rewrite Forall_forall in R1, R2.
    destruct (R1 _ H1) as [_ ?]. destruct (R2 _ H2) as [? _]. lia.
  - apply Forall_app. split.
    + eapply Forall_impl; [exact R1|]. intros kv Hr. simpl in Hr.
      eapply in_range_weaken_hi; [exact Hr|]. exact Hhi.
    + eapply Forall_impl; [exact R2|]. intros kv Hr. simpl in Hr.
      eapply in_range_weaken_lo; [exact Hr|]. exact Hlo.
Qed.

Lemma keys_ord_split (lo hi : option Z) (l1 l2 : list MappingType) (kv : MappingType) :
  keys_ord lo hi (l1 ++ kv :: l2) ->
  keys_ord lo (Some (fst kv)) l1 /\ keys_ord (Some (fst kv)) hi (kv :: l2).
Proof.
  intros [S R]. rewrite fmap_app in S. apply StronglySorted_app in S as (H12 & S1 & S2).
  apply Forall_app in R as [R1 R2]. split; split.
  - exact S1.
  - apply Forall_forall. intros x Hx. rewrite Forall_forall in R1.
    destruct (R1 _ Hx) as [Hl _]. split; [exact Hl|].
    apply H12; [apply list_elem_of_fmap; eauto | simpl; left].
  - exact S2.
  - apply Forall_forall. intros x Hx. rewrite Forall_forall in R2.
    destruct (R2 _ Hx) as [_ Hu]. split; [|exact Hu].
    apply elem_of_cons in Hx as [->|Hx]; [simpl; lia|].
    simpl in S2. apply StronglySorted_cons in S2 as [Hall _].
    rewrite Forall_forall in Hall. simpl.
    assert (fst kv < fst x) by (apply Hall; apply list_elem_of_fmap; eauto). lia.
Qed.

Lemma keys_ord_insert (lo hi : option Z) (l1 l2 : list MappingType) (key value : Z) :
  keys_ord lo hi (l1 ++ l2) -> in_range lo hi key ->
  Forall (fun kv => fst kv < key) l1 -> Forall (fun kv => key < fst kv) l2 ->
  keys_ord lo hi (l1 ++ (key, value) :: l2).
Proof.
  intros [S R] Hr H1 H2. rewrite fmap_app in S. apply StronglySorted_app in S as (H12 & S1 & S2).
  apply Forall_app in R as [R1 R2]. split.
  - rewrite fmap_app. simpl. apply StronglySorted_app_2; [| exact S1 |].
    + intros x1 x2 Hx1 Hx2.
      apply list_elem_of_fmap in Hx1 as (kv1 & -> & Hx1).
      rewrite Forall_forall in H1. specialize (H1 _ Hx1).
      apply elem_of_cons in Hx2 as [->|Hx2]; [exact H1|].
      apply list_elem_of_fmap in Hx2 as (kv2 & -> & Hx2).
      rewrite Forall_forall in H2. specialize (H2 _ Hx2). lia.
    + apply StronglySorted_cons. split; [|exact S2].
      apply Forall_fmap. eapply Forall_impl; [exact H2|]. intros kv Hkv. exact Hkv.
  - apply Forall_app. split; [exact R1|]. constructor; [exact Hr | exact R2].
Qed.

Lemma keys_ord_remove (lo hi : option Z) (l1 l2 : list MappingType) (kv : MappingType) :
  keys_ord lo hi (l1 ++ kv :: l2) -> keys_ord lo hi (l1 ++ l2).
Proof.
  intros [S R]. rewrite fmap_app in S. apply StronglySorted_app in S as (H12 & S1 & S2).
  apply Forall_app in R as [R1 R2]. simpl in S2. apply StronglySorted_cons in S2 as [_ S2].
  split.
  - rewrite fmap_app. apply StronglySorted_app_2; [| exact S1 | exact S2].
    intros x1 x2 Hx1 Hx2. apply H12; [exact Hx1 | simpl; right; exact Hx2].
  - apply Forall_app. split; [exact R1 | exact (Forall_inv_tail R2)].
Qed.

Lemma keys_ord_NoDup (lo hi : option Z) (l : list MappingType) :
  keys_ord lo hi l -> NoDup (l.*1).
Proof.
  intros [S _]. induction S as [|x l' S IH Hx]; constructor; [|exact IH].
  intros Hin. rewrite Forall_forall in Hx. specialize (Hx _ Hin). lia.
Qed.

(** * Insertion keeps the invariant *)

(** Lines 173-213 of the source: what [Insert] does once the descent has
    returned. *)
Definition Insert_at_leaf (leaf_max_size_ internal_max_size_ : Z) (s : BufferPool)
    (key value : Z) (ctx : Context) : Result (bool * BufferPool) :=
  leaf_id ← back (write_set_ ctx);
  page ← guarded_page s leaf_id;
  leaf_page ← AsLeaf page;
  index ← BinaryFind_leaf leaf_page key;
  found ← (if index =? -1 then Ok false
           else k ← LeafPage.KeyAt leaf_page index; Ok (comparator_ k key =? 0));
  if found : bool then Ok (false, s)
  else
    let index := index + 1 in
    leaf_page ← leaf_insert_at leaf_page index key value;
    if LeafPage.GetSize leaf_page <? LeafPage.GetMaxSize leaf_page then
      Ok (true, put_page s leaf_id (Leaf leaf_page))
    else
      let '(s, new_page_id) := NewPageGuarded s in
      '(leaf_page, new_leaf_page) ← leaf_split leaf_max_size_ leaf_page new_page_id;
      let s := put_page s leaf_id (Leaf leaf_page) in
      let s := put_page s new_page_id (Leaf new_leaf_page) in
      split_key ← LeafPage.KeyAt new_leaf_page 0;
      s ← InsertIntoParent internal_max_size_ (length (write_set_ ctx) - 1) s split_key new_page_id ctx;
      Ok (true, s).

Definition insert_from (leaf_max_size_ internal_max_size_ : Z) (fuel : nat) (s : BufferPool)
    (key value : Z) (ctx : Context) : Result (bool * BufferPool) :=
  ctx ← FindLeafPage_write fuel s key OpInsert ctx;
  Insert_at_leaf leaf_max_size_ internal_max_size_ s key value ctx.

Lemma Insert_unfold (leaf_max_size_ internal_max_size_ header_page_id_ : Z) (s : BufferPool)
    (key value : Z) :
  Insert leaf_max_size_ internal_max_size_ header_page_id_ s key value
  = if header_root_page_id_ s =? INVALID_PAGE_ID then
      let '(s, root_id) := NewPageGuarded s in
      let s := set_root s root_id in
      let leaf_page := LeafPage.Init leaf_max_size_ in
      let leaf_page := LeafPage.SetSize leaf_page 1 in
      leaf_page ← LeafPage.SetAt leaf_page 0 key value;
      Ok (true, put_page s root_id (Leaf leaf_page))
    else
      let root := header_root_page_id_ s in
      root_page ← FetchPageWrite s [] root;
      let ctx := {| header_page_ := Some header_page_id_; root_page_id_ := root;
                    write_set_ := [root]; read_set_ := [] |} in
      let ctx := if IsSafePage root_page OpInsert true then release_header ctx else ctx in
      insert_from leaf_max_size_ internal_max_size_ (descent_fuel s) s key value ctx.
Proof. reflexivity. Qed.

(** What an operation leaves alone: the header, every page outside [X]
    that existed before, and the discipline of the allocator. *)
Definition frame (X : list Z) (s s' : BufferPool) : Prop :=
  header_root_page_id_ s' = header_root_page_id_ s /\
  next_page_id_ s <= next_page_id_ s' /\
  (forall id, id ∉ X -> id < next_page_id_ s -> pages_ s' !! id = pages_ s !! id) /\
  pool_ok s'.

Section InsertProof.

Variable leaf_max_size_ : Z.
Variable internal_max_size_ : Z.
Hypothesis leaf_max_ge : (2 <=? leaf_max_size_) && (leaf_max_size_ <? LEAF_PAGE_SIZE) = true.
Hypothesis internal_max_ge :
  (3 <=? internal_max_size_) && (internal_max_size_ <=? INTERNAL_PAGE_SIZE) = true.

Local Abbreviation good := (good leaf_max_size_ internal_max_size_).
Local Abbreviation rep := (rep leaf_max_size_ internal_max_size_).

(** The subtree [t] took the entry and kept its root page. *)
Definition ins_done (s s' : BufferPool) (h : nat) (lo hi : option Z) (t : tree)
    (key value : Z) : Prop :=
  exists t', rep (pages_ s') h t' /\ tid t' = tid t /\ good h lo hi t' /\ NoDup (ids t') /\
    (forall x, x ∈ ids t' -> x ∈ ids t \/ next_page_id_ s <= x) /\
    t_kvs t' ≡ₚ (key, value) :: t_kvs t /\
    frame (ids t) s s'.

(** The subtree [t] took the entry and split: [t1] on the old root page,
    [t2] on a fresh page, [sk] between them. *)
Definition ins_split (s s1 : BufferPool) (h : nat) (lo hi : option Z) (t : tree)
    (key value : Z) (sk : Z) (t2 : tree) : Prop :=
  exists t1, rep (pages_ s1) h t1 /\ rep (pages_ s1) h t2 /\ tid t1 = tid t /\
    good h lo (Some sk) t1 /\ good h (Some sk) hi t2 /\
    NoDup (ids t1 ++ ids t2) /\
    (forall x, x ∈ ids t1 ++ ids t2 -> x ∈ ids t \/ next_page_id_ s <= x) /\
    next_page_id_ s <= tid t2 /\
    t_kvs t1 ++ t_kvs t2 ≡ₚ (key, value) :: t_kvs t /\
    frame (ids t) s s1.

Lemma back_snoc (q : list Z) (x : Z) : back (q ++ [x]) = Ok x.
Proof. unfold back. rewrite last_snoc. reflexivity. Qed.

Lemma min_size_leaf : 1 <= min_size_of leaf_max_size_ <= leaf_max_size_ - 1.
Proof.
  unfold min_size_of.
  pose proof (Z.div_mod (leaf_max_size_ + 1) 2 ltac:(lia)).
  pose proof (Z.mod_pos_bound (leaf_max_size_ + 1) 2 ltac:(lia)). lia.
Qed.

Lemma min_size_internal :
  2 <= min_size_of internal_max_size_ /\
  2 <= internal_max_size_ + 1 - min_size_of internal_max_size_ <= internal_max_size_.
Proof.
  unfold min_size_of.
  pose proof (Z.div_mod (internal_max_size_ + 1) 2 ltac:(lia)).
  pose proof (Z.mod_pos_bound (internal_max_size_ + 1) 2 ltac:(lia)). lia.
Qed.

Lemma leaf_search_found (p : LeafPage.t) (kvs : list (Z * Z)) (key r : Z) :
  StronglySorted Z.lt (kvs.*1) ->
  Forall (fun kv => fst kv <= key) (take (Z.to_nat (r + 1)) kvs) ->
  Forall (fun kv => key < fst kv) (drop (Z.to_nat (r + 1)) kvs) ->
  (r = -1 \/ exists kv, 0 <= r /\ kvs !! Z.to_nat r = Some kv /\ fst kv <= key) ->
  (key ∈ kvs.*1 <-> exists kv, 0 <= r /\ kvs !! Z.to_nat r = Some kv /\ fst kv = key).
Proof.
  intros Hs Htake Hdrop Hr. split.
  - intros Hin. apply list_elem_of_fmap in Hin as (kv & -> & Hin).
    rewrite <- (take_drop (Z.to_nat (r + 1)) kvs) in Hin.
    apply elem_of_app in Hin as [Hin|Hin].
    + destruct Hr as [->|(kr & Hr0 & Hkr & Hle)]; [simpl in Hin; inversion Hin|].
      exists kr. split; [exact Hr0|]. split; [exact Hkr|].
      apply list_elem_of_lookup in Hin as [i Hi]. apply lookup_take_Some in Hi as [Hi Hlt].
      destruct (decide (i = Z.to_nat r)) as [->|Hne]; [congruence|].
      assert (fst kv < fst kr).
      { eapply (StronglySorted_lookup_lt (kvs.*1) i (Z.to_nat r)); [exact Hs | lia | |].
        - rewrite list_lookup_fmap, Hi. reflexivity.
        - rewrite list_lookup_fmap, Hkr. reflexivity. }
      rewrite Forall_forall in Htake.
      assert (fst kr <= fst kv); [|lia].
      lia.
    + rewrite Forall_forall in Hdrop. specialize (Hdrop _ Hin). lia.
  - intros (kv & _ & Hkv & <-). apply list_elem_of_fmap. exists kv. split; [reflexivity|].
    apply list_elem_of_lookup. eauto.
Qed.

Lemma FindLeafPage_write_leaf (fuel : nat) (s : BufferPool) (key : Z) (op : Operation)
    (ctx : Context) (id : Z) (p : LeafPage.t) :
  back (write_set_ ctx) = Ok id -> pages_ s !! id = Some (Leaf p) ->
  FindLeafPage_write fuel s key op ctx = Ok ctx.
Proof.
  intros Hb Hp. destruct fuel; simpl; rewrite Hb; simpl;
    rewrite (guarded_page_Ok _ _ _ Hp); reflexivity.
Qed.

(** The two ways an insertion below the write-set prefix [pre] can end. *)
Definition insert_outcome (fuel : nat) (s : BufferPool) (key value : Z)
    (hdr : option Z) (root : Z) (pre : list Z) (h : nat) (lo hi : option Z) (t : tree) : Prop :=
  let ctx := {| header_page_ := hdr; root_page_id_ := root;
                write_set_ := pre ++ [tid t]; read_set_ := [] |} in
  (key ∈ (t_kvs t).*1 ->
     insert_from leaf_max_size_ internal_max_size_ fuel s key value ctx = Ok (false, s)) /\
  (key ∉ (t_kvs t).*1 ->
     (exists s', insert_from leaf_max_size_ internal_max_size_ fuel s key value ctx = Ok (true, s') /\
        ins_done s s' h lo hi t key value) \/
     (exists s1 sk t2 rest page,
        pages_ s !! tid t = Some page /\ IsSafePage page OpInsert false = false /\
        insert_from leaf_max_size_ internal_max_size_ fuel s key value ctx
        = (s2 ← InsertIntoParent internal_max_size_ (length pre) s1 sk (tid t2)
                  {| header_page_ := hdr; root_page_id_ := root;
                     write_set_ := pre ++ tid t :: rest; read_set_ := [] |};
           Ok (true, s2)) /\
        ins_split s s1 h lo hi t key value sk t2)).

Lemma pool_ok_put (s : BufferPool) (id : Z) (p : Page) :
  pool_ok s -> 0 <= id < next_page_id_ s -> pool_ok (put_page s id p).
Proof.
  intros [H0 H] Hid. split; [exact H0|]. intros x q Hx. simpl in *.
  destruct (decide (id = x)) as [->|Hne].
  - exact Hid.
  - rewrite lookup_insert_ne in Hx by exact Hne. eapply H. exact Hx.
Qed.

Lemma pool_ok_lookup (s : BufferPool) (id : Z) (p : Page) :
  pool_ok s -> pages_ s !! id = Some p -> 0 <= id < next_page_id_ s.
Proof. intros [_ H]. apply H. Qed.

Lemma insert_leaf_spec (fuel : nat) (s : BufferPool) (key value : Z) (hdr : option Z) (root : Z)
    (pre : list Z) (lo hi : option Z) (id : Z) (kvs : list (Z * Z)) :
  pool_ok s -> rep (pages_ s) 0 (TLeaf id kvs) -> good 0 lo hi (TLeaf id kvs) ->
  in_range lo hi key ->
  insert_outcome fuel s key value hdr root pre 0 lo hi (TLeaf id kvs).
Proof.
  intros Hpool (p & Hp & Hmax & Hsize & Hslots) [[Hsort Hrange] Hlen] Hkey.
  unfold insert_outcome. simpl tid. simpl t_kvs. cbv zeta.
  set (ctx := {| header_page_ := hdr; root_page_id_ := root;
                 write_set_ := pre ++ [id]; read_set_ := [] |}).
  assert (Hback : back (write_set_ ctx) = Ok id) by apply back_snoc.
  destruct (leaf_search p kvs key Hsize ltac:(lia) Hslots Hsort) as (r & Hfind & Hr & Hat & Htake & Hdrop).
  assert (Hat' : r = -1 \/ exists kv, 0 <= r /\ kvs !! Z.to_nat r = Some kv /\ fst kv <= key).
  { destruct Hat as [->|(kv & ? & ? & _ & _ & ?)]; [left; reflexivity | right; eauto]. }
  pose proof (leaf_search_found p kvs key r Hsort Htake Hdrop Hat') as Hfound.
  assert (Hrun : insert_from leaf_max_size_ internal_max_size_ fuel s key value ctx
                 = (found ← (if r =? -1 then Ok false
                             else k ← LeafPage.KeyAt p r; Ok (comparator_ k key =? 0));
                    if found : bool then Ok (false, s)
                    else
                      let index := r + 1 in
                      leaf_page ← leaf_insert_at p index key value;
                      if LeafPage.GetSize leaf_page <? LeafPage.GetMaxSize leaf_page then
                        Ok (true, put_page s id (Leaf leaf_page))
                      else
                        let '(s, new_page_id) := NewPageGuarded s in
                        '(leaf_page, new_leaf_page) ← leaf_split leaf_max_size_ leaf_page new_page_id;
                        let s := put_page s id (Leaf leaf_page) in
                        let s := put_page s new_page_id (Leaf new_leaf_page) in
                        split_key ← LeafPage.KeyAt new_leaf_page 0;
                        s ← InsertIntoParent internal_max_size_ (length (write_set_ ctx) - 1) s
                              split_key new_page_id ctx;
                        Ok (true, s))).
  { unfold insert_from. rewrite (FindLeafPage_write_leaf fuel s key OpInsert ctx id p Hback Hp).
    rewrite bind_Ok_l. unfold Insert_at_leaf. rewrite Hback, bind_Ok_l.
    rewrite (guarded_page_Ok _ _ _ Hp), bind_Ok_l. simpl AsLeaf. rewrite bind_Ok_l.
    rewrite Hfind, bind_Ok_l. reflexivity. }
  rewrite Hrun. clear Hrun. split.
  - intros Hin. apply Hfound in Hin as (kv & Hr0 & Hkv & Hk).
    destruct Hat as [->|(kv' & _ & Hkv' & HK & _)]; [lia|].
    assert (kv' = kv) as -> by congruence.
    destruct (Z.eqb_spec r (-1)); [lia|]. rewrite HK, bind_Ok_l.
    rewrite comparator_eq, Hk, Z.eqb_refl. reflexivity.
  - intros Hnin.
    assert (Hf : (if r =? -1 then Ok false
                  else k ← LeafPage.KeyAt p r; Ok (comparator_ k key =? 0)) = Ok false).
    { destruct (Z.eqb_spec r (-1)); [reflexivity|].
      destruct Hat as [->|(kv' & Hr0 & Hkv' & HK & _)]; [lia|].
      rewrite HK, bind_Ok_l, comparator_eq. f_equal. apply Z.eqb_neq. intros E.
      apply Hnin. apply Hfound. exists kv'. tauto. }
    rewrite Hf, bind_Ok_l. cbv beta iota zeta. clear Hf.
    destruct (leaf_insert_at_spec p (r + 1) key value) as (p' & Hins & Hs' & Hm' & Hn' & Hsl');
      [lia | lia |].
    rewrite Hmax in Hm'. rewrite Hsize in Hs'.
    rewrite Hins, bind_Ok_l. unfold LeafPage.GetSize, LeafPage.GetMaxSize.
    rewrite Hs', Hm'.
    set (kvs' := take (Z.to_nat (r + 1)) kvs ++ (key, value) :: drop (Z.to_nat (r + 1)) kvs) in *.
    rewrite Hslots in Hsl'. fold kvs' in Hsl'.
    assert (Hlen' : Z.of_nat (length kvs') = Z.of_nat (length kvs) + 1).
    { unfold kvs'. rewrite length_app. simpl. rewrite length_take, length_drop. lia. }
    assert (Hord' : keys_ord lo hi kvs').
    { apply keys_ord_insert; [rewrite take_drop; split; assumption | exact Hkey | | exact Hdrop].
      apply Forall_forall. intros kv Hin. rewrite Forall_forall in Htake.
      specialize (Htake _ Hin). assert (fst kv <> key); [|lia].
      intros E. apply Hnin. apply list_elem_of_fmap. exists kv. split; [auto|].
      eapply elem_of_take_1. exact Hin. }
    assert (Hperm : kvs' ≡ₚ (key, value) :: kvs).
    { unfold kvs'. rewrite <- Permutation_middle. rewrite take_drop. reflexivity. }
    pose proof (pool_ok_lookup _ _ _ Hpool Hp) as Hid.
    destruct (Z.ltb_spec (Z.of_nat (length kvs) + 1) leaf_max_size_) as [Hroom|Hfull].
    + left. eexists. split; [reflexivity|].
      exists (TLeaf id kvs'). simpl. split.
      { exists p'. simpl. rewrite lookup_insert_eq. repeat split; try assumption; lia. }
      split; [reflexivity|]. split; [split; [exact Hord' | lia]|].
      split; [apply NoDup_singleton|].
      split; [intros x Hx; left; exact Hx|]. split; [exact Hperm|].
      split; [reflexivity|]. split; [simpl; lia|]. split.
      * intros x Hx _. simpl. apply lookup_insert_ne. intros ->. apply Hx. left.
      * apply pool_ok_put; assumption.
    + right.
      pose proof min_size_leaf as Hmin.
      unfold NewPageGuarded. cbv beta iota zeta.
      destruct (leaf_split_spec leaf_max_size_ p' (next_page_id_ s))
        as (l & q & Hsplit & Hls & Hlm & Hln & Hlsl & Hqs & Hqm & Hqn & Hqsl).
      { unfold LeafPage.GetMinSize. rewrite Hm', Hs'. lia. }
      { lia. }
      unfold LeafPage.GetMinSize in *. rewrite Hm' in *.
      set (m := min_size_of leaf_max_size_) in *.
      rewrite Hsplit, bind_Ok_l. cbv beta iota zeta.
      rewrite LeafPage_KeyAt_Ok, bind_Ok_l by len_lia.
      rewrite Hsl' in Hlsl, Hqsl.
      assert (Hdm : exists kv rest', drop (Z.to_nat m) kvs' = kv :: rest').
      { destruct (drop (Z.to_nat m) kvs') as [|kv rest'] eqn:E; [|eauto].
        apply (f_equal length) in E. rewrite length_drop in E. simpl in E. lia. }
      destruct Hdm as (kv & rest' & Hdm).
      assert (Hk0 : get (LeafPage.array_ q) 0 = kv).
      { apply (leaf_slot q (kv :: rest') 0 kv).
        - rewrite Hqs, Hs'. rewrite <- Hdm, length_drop. lia.
        - rewrite Hqsl. exact Hdm.
        - reflexivity. }
      rewrite Hk0.
      exists (put_page (put_page
                {| pages_ := pages_ s; next_page_id_ := next_page_id_ s + 1;
                   header_root_page_id_ := header_root_page_id_ s |} id (Leaf l))
                (next_page_id_ s) (Leaf q)),
        (fst kv), (TLeaf (next_page_id_ s) (drop (Z.to_nat m) kvs')), [], (Leaf p).
      split; [exact Hp|]. split.
      { simpl. unfold LeafPage.GetSize, LeafPage.GetMaxSize. rewrite Hmax, Hsize.
        apply Z.ltb_ge. lia. }
      split.
      { simpl write_set_. rewrite length_app. simpl length.
        replace (length pre + 1 - 1)%nat with (length pre) by lia. reflexivity. }
      exists (TLeaf id (take (Z.to_nat m) kvs')). simpl.
      assert (Hne : id <> next_page_id_ s) by lia.
      split.
      { exists l. rewrite lookup_insert_ne by lia. rewrite lookup_insert_eq.
        repeat split; try assumption; try congruence; rewrite ?Hls, ?length_take; lia. }
      split.
      { exists q. rewrite lookup_insert_eq. repeat split; try assumption; try congruence.
        rewrite Hqs, Hs', length_drop. lia. }
      split; [reflexivity|].
      assert (Hsplit_ord : keys_ord lo (Some (fst kv)) (take (Z.to_nat m) kvs') /\
                           keys_ord (Some (fst kv)) hi (drop (Z.to_nat m) kvs')).
      { rewrite Hdm. apply keys_ord_split. rewrite <- Hdm, take_drop. exact Hord'. }
      split; [split; [apply Hsplit_ord | rewrite length_take; lia]|].
      split; [split; [apply Hsplit_ord | rewrite length_drop; lia]|].
      split.
      { apply NoDup_cons. split; [|apply NoDup_singleton].
        intros Hin. apply list_elem_of_singleton in Hin. lia. }
      split.
      { intros x Hx. apply elem_of_cons in Hx as [->|Hx]; [left; left|].
        apply list_elem_of_singleton in Hx as ->. right. lia. }
      split; [lia|]. split; [rewrite take_drop; exact Hperm|].
      split; [reflexivity|]. split; [simpl; lia|]. split.
      * intros x Hx Hlt. simpl. rewrite !lookup_insert_ne; [reflexivity | | lia].
        intros ->. apply Hx. left.
      * split; [simpl; destruct Hpool; lia|]. intros x px Hx. simpl in Hx |- *.
        destruct (decide (x = next_page_id_ s)) as [->|Hx1]; [destruct Hpool; lia|].
        rewrite lookup_insert_ne in Hx by congruence.
        destruct (decide (x = id)) as [->|Hx2]; [lia|].
        rewrite lookup_insert_ne in Hx by congruence.
        pose proof (pool_ok_lookup _ _ _ Hpool Hx). lia.
Qed.

(** ** A node around an updated child *)

Lemma NoDup_replace_middle (A C C' B : list Z) :
  NoDup (A ++ C ++ B) -> NoDup C' ->
  (forall x, x ∈ C' -> x ∈ C \/ ((x ∉ A) /\ (x ∉ B))) ->
  NoDup (A ++ C' ++ B).
Proof.
  intros H HC' Hsub.
  apply NoDup_app in H as (HA & HACB & HCB).
  apply NoDup_app in HCB as (HC & HCB & HB).
  apply NoDup_app. split; [exact HA|]. split.
  - intros x HxA Hx. apply elem_of_app in Hx as [Hx|Hx].
    + destruct (Hsub x Hx) as [HxC|[HnA _]]; [|tauto].
      apply (HACB x HxA). apply elem_of_app. left. exact HxC.
    + apply (HACB x HxA). apply elem_of_app. right. exact Hx.
  - apply NoDup_app. split; [exact HC'|]. split; [|exact HB].
    intros x Hx HxB. destruct (Hsub x Hx) as [HxC|[_ HnB]]; [|tauto].
    apply (HCB x HxC HxB).
Qed.

Lemma ids_node_middle (id : Z) (spre spost : list (Z * tree)) (kc : Z * tree) :
  ids (TNode id (spre ++ kc :: spost)) = (id :: ids_of spre) ++ ids (snd kc) ++ ids_of spost.
Proof. simpl. fold (ids_of (spre ++ kc :: spost)). rewrite ids_of_app, ids_of_cons. reflexivity. Qed.

Lemma kvs_node_middle (id : Z) (spre spost : list (Z * tree)) (kc : Z * tree) :
  t_kvs (TNode id (spre ++ kc :: spost)) = kvs_of spre ++ t_kvs (snd kc) ++ kvs_of spost.
Proof. simpl. fold (kvs_of (spre ++ kc :: spost)). rewrite kvs_of_app, kvs_of_cons. reflexivity. Qed.

Lemma rep_old_ids (s : BufferPool) (h : nat) (t : tree) (x : Z) :
  pool_ok s -> rep (pages_ s) h t -> x ∈ ids t -> 0 <= x < next_page_id_ s.
Proof.
  intros Hpool Hrep Hx. destruct (rep_in_dom _ _ _ _ _ _ Hrep Hx) as [p Hp].
  eapply pool_ok_lookup; eassumption.
Qed.

Lemma frame_weaken (X Y : list Z) (s s' : BufferPool) :
  (forall x, x ∈ X -> x ∈ Y) -> frame X s s' -> frame Y s s'.
Proof.
  intros Hsub (H1 & H2 & H3 & H4). split; [exact H1|]. split; [exact H2|]. split; [|exact H4].
  intros id Hid Hlt. apply H3; [|exact Hlt]. intros Hx. apply Hid. apply Hsub. exact Hx.
Qed.

(** The facts about a node of height [S h] on page [id] that the proofs
    about its children use. *)
Record node_at (s : BufferPool) (h : nat) (lo hi : option Z) (id : Z)
    (spre : list (Z * tree)) (kc : Z * tree) (spost : list (Z * tree)) (P : InternalPage.t)
    : Prop := {
  na_pool : pool_ok s;
  na_page : pages_ s !! id = Some (Internal P);
  na_max : InternalPage.max_size_ P = internal_max_size_;
  na_size : InternalPage.size_ P = Z.of_nat (length (spre ++ kc :: spost));
  na_slots : internal_slots P = map slot_of (spre ++ kc :: spost);
  na_children : Forall (fun kc => rep (pages_ s) h (snd kc)) (spre ++ kc :: spost);
  na_key0 : key0_ok lo (spre ++ kc :: spost);
  na_chain : chain (good h) lo hi (spre ++ kc :: spost);
  na_len : 2 <= Z.of_nat (length (spre ++ kc :: spost))
           <= Z.min internal_max_size_ INTERNAL_PAGE_SIZE;
  na_nodup : NoDup (ids (TNode id (spre ++ kc :: spost)))
}.

Lemma node_at_intro (s : BufferPool) (h : nat) (lo hi : option Z) (id : Z)
    (spre : list (Z * tree)) (kc : Z * tree) (spost : list (Z * tree)) :
  pool_ok s ->
  rep (pages_ s) (S h) (TNode id (spre ++ kc :: spost)) ->
  good (S h) lo hi (TNode id (spre ++ kc :: spost)) ->
  NoDup (ids (TNode id (spre ++ kc :: spost))) ->
  exists P, node_at s h lo hi id spre kc spost P.
Proof.
  intros Hpool (P & Hp & Hm & Hs & Hsl & Hc) (Hk0 & Hch & Hlen) Hnd.
  exists P. constructor; assumption.
Qed.

Lemma node_child_facts (s : BufferPool) (h : nat) (lo hi : option Z) (id : Z)
    (spre : list (Z * tree)) (kc : Z * tree) (spost : list (Z * tree)) (P : InternalPage.t) :
  node_at s h lo hi id spre kc spost P ->
  rep (pages_ s) h (snd kc) /\
  good h (lbound lo spre kc) (next_bound hi spost) (snd kc) /\
  NoDup (ids (snd kc)) /\
  (id ∉ ids (snd kc)) /\
  (forall x, x ∈ ids (snd kc) -> x ∈ ids (TNode id (spre ++ kc :: spost))) /\
  (forall x, x ∈ ids (snd kc) -> (x ∉ id :: ids_of spre) /\ (x ∉ ids_of spost)) /\
  InternalPage.ValueAt P (Z.of_nat (length spre)) = Ok (tid (snd kc)).
Proof.
  intros N. destruct N as [Hpool Hpage Hmax Hsize Hslots Hchildren Hkey0 Hchain Hlen Hnodup].
  pose proof Hnodup as Hnd. rewrite ids_node_middle in Hnd.
  apply NoDup_app in Hnd as (HA & HACB & HCB).
  apply NoDup_app in HCB as (HC & HCB & HB).
  split.
  { rewrite Forall_forall in Hchildren. apply Hchildren.
    apply elem_of_app. right. left. }
  split; [apply chain_middle in Hchain; tauto|].
  split; [exact HC|]. split.
  { intros Hin. apply (HACB id); [left | apply elem_of_app; left; exact Hin]. }
  split.
  { intros x Hx. rewrite ids_node_middle. apply elem_of_app. right. apply elem_of_app. left.
    exact Hx. }
  split.
  { intros x Hx. split.
    - intros HxA. apply (HACB x HxA). apply elem_of_app. left. exact Hx.
    - intros HxB. apply (HCB x Hx HxB). }
  rewrite InternalPage_ValueAt_Ok by (rewrite length_app in Hlen; simpl in Hlen; lia).
  rewrite (node_slot P _ _ kc Hsize Hslots (app_lookup_middle _ _ _)). reflexivity.
Qed.

Lemma slot_of_same_id (k : Z) (c c' : tree) : tid c' = tid c -> slot_of (k, c') = slot_of (k, c).
Proof. unfold slot_of. simpl. intros ->. reflexivity. Qed.

Lemma lbound_fst (lo : option Z) (spre : list (Z * tree)) (kc kc' : Z * tree) :
  fst kc' = fst kc -> lbound lo spre kc' = lbound lo spre kc.
Proof. unfold lbound. destruct spre; [reflexivity | intros ->; reflexivity]. Qed.

Lemma key0_ok_middle (lo : option Z) (spre spost spost' : list (Z * tree)) (kc kc' : Z * tree) :
  fst kc' = fst kc -> key0_ok lo (spre ++ kc :: spost) -> key0_ok lo (spre ++ kc' :: spost').
Proof.
  unfold key0_ok. destruct lo; [|tauto]. destruct spre; simpl; [intros ->|]; tauto.
Qed.

(** Children that the operation did not touch are still there. *)
Lemma siblings_kept (s s' : BufferPool) (h : nat) (lo hi : option Z) (id : Z)
    (spre : list (Z * tree)) (kc : Z * tree) (spost : list (Z * tree)) (P : InternalPage.t) :
  node_at s h lo hi id spre kc spost P ->
  frame (ids (snd kc)) s s' ->
  pages_ s' !! id = Some (Internal P) /\
  Forall (fun kc => rep (pages_ s') h (snd kc)) spre /\
  Forall (fun kc => rep (pages_ s') h (snd kc)) spost.
Proof.
  intros N (_ & _ & Hfr & _).
  destruct (node_child_facts _ _ _ _ _ _ _ _ _ N) as (_ & _ & _ & Hid & _ & Hdisj & _).
  destruct N as [Hpool Hpage Hmax Hsize Hslots Hchildren Hkey0 Hchain Hlen Hnodup].
  assert (Hold : forall x, x ∈ ids (TNode id (spre ++ kc :: spost)) -> x < next_page_id_ s).
  { intros x Hx.
    assert (Hrep : rep (pages_ s) (S h) (TNode id (spre ++ kc :: spost))).
    { exists P. repeat split; assumption. }
    apply (rep_old_ids _ _ _ _ Hpool Hrep Hx). }
  split.
  { rewrite Hfr; [exact Hpage | exact Hid | apply Hold; left]. }
  apply Forall_app in Hchildren as [Hcpre Hcpost]. apply Forall_inv_tail in Hcpost.
  split.
  - rewrite Forall_forall in *. intros kc' Hin. eapply rep_frame; [|apply Hcpre; exact Hin].
    intros x Hx. apply Hfr.
    + intros Hxc. apply (proj1 (Hdisj x Hxc)). right. apply elem_of_ids_of. eauto.
    + apply Hold. rewrite ids_node_middle. apply elem_of_app. left. right.
      apply elem_of_ids_of. eauto.
  - rewrite Forall_forall in *. intros kc' Hin. eapply rep_frame; [|apply Hcpost; exact Hin].
    intros x Hx. apply Hfr.
    + intros Hxc. apply (proj2 (Hdisj x Hxc)). apply elem_of_ids_of. eauto.
    + apply Hold. rewrite ids_node_middle. apply elem_of_app. right. apply elem_of_app. right.
      apply elem_of_ids_of. eauto.
Qed.

(** A child replaced by a well-formed tree on the same page. *)
Lemma node_update (s s' : BufferPool) (h : nat) (lo hi : option Z) (id : Z)
    (spre : list (Z * tree)) (kc : Z * tree) (spost : list (Z * tree)) (P : InternalPage.t)
    (c' : tree) :
  node_at s h lo hi id spre kc spost P ->
  rep (pages_ s') h c' -> tid c' = tid (snd kc) ->
  good h (lbound lo spre kc) (next_bound hi spost) c' -> NoDup (ids c') ->
  (forall x, x ∈ ids c' -> x ∈ ids (snd kc) \/ next_page_id_ s <= x) ->
  frame (ids (snd kc)) s s' ->
  rep (pages_ s') (S h) (TNode id (spre ++ (fst kc, c') :: spost)) /\
  good (S h) lo hi (TNode id (spre ++ (fst kc, c') :: spost)) /\
  NoDup (ids (TNode id (spre ++ (fst kc, c') :: spost))) /\
  (forall x, x ∈ ids (TNode id (spre ++ (fst kc, c') :: spost)) ->
     x ∈ ids (TNode id (spre ++ kc :: spost)) \/ next_page_id_ s <= x) /\
  frame (ids (TNode id (spre ++ kc :: spost))) s s'.
Proof.
  intros N Hrep' Htid Hgood' Hnd' Hsub Hframe.
  destruct (siblings_kept _ _ _ _ _ _ _ _ _ _ N Hframe) as (Hp' & Hcpre & Hcpost).
  destruct (node_child_facts _ _ _ _ _ _ _ _ _ N) as (_ & _ & _ & Hid & Hin & Hdisj & _).
  pose proof N as [Hpool Hpage Hmax Hsize Hslots Hchildren Hkey0 Hchain Hlen Hnodup].
  assert (Hrep : rep (pages_ s) (S h) (TNode id (spre ++ kc :: spost))).
  { exists P. repeat split; assumption. }
  split.
  { exists P. split; [exact Hp'|]. split; [exact Hmax|].
    split; [rewrite Hsize, !length_app; reflexivity|].
    split.
    { rewrite Hslots, !map_app. simpl. rewrite (slot_of_same_id _ _ _ Htid).
      destruct kc; reflexivity. }
    apply Forall_app. split; [exact Hcpre|]. constructor; [exact Hrep' | exact Hcpost]. }
  split.
  { split; [eapply key0_ok_middle; [|exact Hkey0]; reflexivity|].
    split.
    - apply chain_middle. apply chain_middle in Hchain as (H1 & H2 & H3).
      split; [exact H1|]. split; [|exact H3]. simpl.
      rewrite (lbound_fst lo spre kc (fst kc, c')) by reflexivity. exact Hgood'.
    - rewrite !length_app in *. simpl in *. exact Hlen. }
  split.
  { rewrite ids_node_middle. simpl snd.
    apply (NoDup_replace_middle _ (ids (snd kc))); [rewrite <- ids_node_middle; exact Hnodup
                                                    | exact Hnd' |].
    intros x Hx. destruct (Hsub x Hx) as [Hold|Hnew]; [left; exact Hold | right].
    assert (Hfresh : forall y, y ∈ ids (TNode id (spre ++ kc :: spost)) -> y <> x).
    { intros y Hy ->. pose proof (rep_old_ids _ _ _ _ Hpool Hrep Hy). lia. }
    split; intros Hx'; eapply Hfresh; try reflexivity; rewrite ids_node_middle.
    - apply elem_of_app. left. exact Hx'.
    - apply elem_of_app. right. apply elem_of_app. right. exact Hx'. }
  split.
  { intros x Hx. rewrite ids_node_middle in Hx. simpl snd in Hx.
    rewrite ids_node_middle.
    rewrite !elem_of_app in *. destruct Hx as [Hx|[Hx|Hx]]; [tauto | | tauto].
    destruct (Hsub x Hx); tauto. }
  eapply frame_weaken; [|exact Hframe]. exact Hin.
Qed.

Lemma ins_done_lift (s s' : BufferPool) (h : nat) (lo hi : option Z) (id : Z)
    (spre : list (Z * tree)) (kc : Z * tree) (spost : list (Z * tree)) (P : InternalPage.t)
    (key value : Z) :
  node_at s h lo hi id spre kc spost P ->
  ins_done s s' h (lbound lo spre kc) (next_bound hi spost) (snd kc) key value ->
  ins_done s s' (S h) lo hi (TNode id (spre ++ kc :: spost)) key value.
Proof.
  intros N (c' & Hrep' & Htid & Hgood' & Hnd' & Hsub & Hperm & Hframe).
  destruct (node_update s s' h lo hi id spre kc spost P c' N Hrep' Htid Hgood' Hnd' Hsub Hframe)
    as (H1 & H2 & H3 & H4 & H5).
  exists (TNode id (spre ++ (fst kc, c') :: spost)).
  split; [exact H1|]. split; [reflexivity|]. split; [exact H2|]. split; [exact H3|].
  split; [exact H4|]. split; [|exact H5].
  rewrite !kvs_node_middle. simpl snd. rewrite Hperm. simpl.
  rewrite <- Permutation_middle. reflexivity.
Qed.

(** ** A node around a split child *)

Lemma rep_put_other (s : BufferPool) (h : nat) (t : tree) (id : Z) (p : Page) :
  id ∉ ids t -> rep (pages_ s) h t -> rep (pages_ (put_page s id p)) h t.
Proof.
  intros Hid. apply rep_frame. intros x Hx. simpl. apply lookup_insert_ne.
  intros ->. exact (Hid Hx).
Qed.

Lemma Forall_rep_put_other (s : BufferPool) (h : nat) (sl : list (Z * tree)) (id : Z) (p : Page) :
  id ∉ ids_of sl ->
  Forall (fun kc => rep (pages_ s) h (snd kc)) sl ->
  Forall (fun kc => rep (pages_ (put_page s id p)) h (snd kc)) sl.
Proof.
  intros Hid H. rewrite Forall_forall in *. intros kc Hin. apply rep_put_other; [|auto].
  intros Hx. apply Hid. apply elem_of_ids_of. eauto.
Qed.

Lemma Forall_rep_in_dom (s : BufferPool) (h : nat) (sl : list (Z * tree)) (x : Z) :
  pool_ok s -> Forall (fun kc => rep (pages_ s) h (snd kc)) sl -> x ∈ ids_of sl ->
  0 <= x < next_page_id_ s.
Proof.
  intros Hpool H Hx. apply elem_of_ids_of in Hx as (kc & Hin & Hx).
  rewrite Forall_forall in H. eapply rep_old_ids; [exact Hpool | apply H; exact Hin | exact Hx].
Qed.

(** The slot list of the node once the child [kc] has split in two. *)
Definition split_slots (spre : list (Z * tree)) (kc : Z * tree) (spost : list (Z * tree))
    (c1 : tree) (sk : Z) (c2 : tree) : list (Z * tree) :=
  spre ++ (fst kc, c1) :: (sk, c2) :: spost.

Lemma split_child_facts (s s1 : BufferPool) (h : nat) (lo hi : option Z) (id : Z)
    (spre : list (Z * tree)) (kc : Z * tree) (spost : list (Z * tree)) (P : InternalPage.t)
    (key value sk : Z) (c1 c2 : tree) :
  node_at s h lo hi id spre kc spost P ->
  rep (pages_ s1) h c1 -> rep (pages_ s1) h c2 -> tid c1 = tid (snd kc) ->
  good h (lbound lo spre kc) (Some sk) c1 -> good h (Some sk) (next_bound hi spost) c2 ->
  NoDup (ids c1 ++ ids c2) ->
  (forall x, x ∈ ids c1 ++ ids c2 -> x ∈ ids (snd kc) \/ next_page_id_ s <= x) ->
  t_kvs c1 ++ t_kvs c2 ≡ₚ (key, value) :: t_kvs (snd kc) ->
  frame (ids (snd kc)) s s1 ->
  let sl' := split_slots spre kc spost c1 sk c2 in
  pages_ s1 !! id = Some (Internal P) /\
  Forall (fun kc => rep (pages_ s1) h (snd kc)) sl' /\
  BinaryFind_internal P sk = Ok (Z.of_nat (length spre)) /\
  key0_ok lo sl' /\ chain (good h) lo hi sl' /\
  map slot_of sl' = insert_slot (internal_slots P) (Z.of_nat (length spre) + 1) (sk, tid c2) /\
  NoDup (id :: ids_of sl') /\
  (forall x, x ∈ id :: ids_of sl' ->
     x ∈ ids (TNode id (spre ++ kc :: spost)) \/ next_page_id_ s <= x) /\
  kvs_of sl' ≡ₚ (key, value) :: t_kvs (TNode id (spre ++ kc :: spost)) /\
  Z.of_nat (length sl') = Z.of_nat (length (spre ++ kc :: spost)) + 1 /\
  frame (ids (TNode id (spre ++ kc :: spost))) s s1.
Proof.
  intros N Hrep1 Hrep2 Htid Hg1 Hg2 Hnd12 Hsub Hperm Hframe sl'.
  destruct (siblings_kept _ _ _ _ _ _ _ _ _ _ N Hframe) as (Hp' & Hcpre & Hcpost).
  destruct (node_child_facts _ _ _ _ _ _ _ _ _ N) as (_ & _ & _ & Hid & Hin & Hdisj & _).
  pose proof N as [Hpool Hpage Hmax Hsize Hslots Hchildren Hkey0 Hchain Hlen Hnodup].
  assert (Hrep : rep (pages_ s) (S h) (TNode id (spre ++ kc :: spost))).
  { exists P. repeat split; assumption. }
  split; [exact Hp'|]. split.
  { unfold sl', split_slots. apply Forall_app. split; [exact Hcpre|].
    constructor; [exact Hrep1|]. constructor; [exact Hrep2 | exact Hcpost]. }
  split.
  { apply (route_unique leaf_max_size_ internal_max_size_ P h lo hi spre spost kc sk Hsize ltac:(lia) Hslots Hchain).
    destruct (good_bounds _ _ _ _ _ _ Hg1) as (k1 & [Hl1 Hu1] & _).
    destruct (good_bounds _ _ _ _ _ _ Hg2) as (k2 & [Hl2 Hu2] & _).
    split.
    - destruct (lbound lo spre kc); [lia | exact I].
    - destruct (next_bound hi spost); [lia | exact I]. }
  split; [unfold sl', split_slots; eapply key0_ok_middle; [|exact Hkey0]; reflexivity|].
  split.
  { unfold sl', split_slots. apply chain_middle.
    apply chain_middle in Hchain as (H1 & H2 & H3).
    split; [exact H1|]. split.
    - simpl. rewrite (lbound_fst lo spre kc (fst kc, c1)) by reflexivity. exact Hg1.
    - simpl. split; [exact Hg2 | exact H3]. }
  split.
  { rewrite Hslots, map_app. simpl. rewrite <- (length_map slot_of spre).
    rewrite insert_slot_middle. unfold sl', split_slots. rewrite map_app. simpl.
    rewrite (slot_of_same_id _ _ _ Htid). destruct kc; reflexivity. }
  assert (Hfresh : forall y x, y ∈ ids (TNode id (spre ++ kc :: spost)) ->
                               next_page_id_ s <= x -> y <> x).
  { intros y x Hy Hx ->. pose proof (rep_old_ids _ _ _ _ Hpool Hrep Hy). lia. }
  assert (Hids' : id :: ids_of sl' = (id :: ids_of spre) ++ (ids c1 ++ ids c2) ++ ids_of spost).
  { unfold sl', split_slots. rewrite ids_of_app, !ids_of_cons. simpl.
    rewrite <- !app_assoc. reflexivity. }
  split.
  { rewrite Hids'.
    apply (NoDup_replace_middle _ (ids (snd kc))); [rewrite <- ids_node_middle; exact Hnodup
                                                    | exact Hnd12 |].
    intros x Hx. destruct (Hsub x Hx) as [Hold|Hnew]; [left; exact Hold | right].
    split; intros Hx'; eapply (Hfresh x x); try reflexivity; try exact Hnew;
      rewrite ids_node_middle.
    - apply elem_of_app. left. exact Hx'.
    - apply elem_of_app. right. apply elem_of_app. right. exact Hx'. }
  split.
  { intros x Hx. rewrite Hids' in Hx. rewrite ids_node_middle.
    rewrite !elem_of_app in Hx. rewrite !elem_of_app.
    destruct Hx as [Hx|[Hx|Hx]]; [tauto | | tauto].
    destruct (Hsub x); [rewrite elem_of_app; tauto | tauto | tauto]. }
  split.
  { unfold sl', split_slots. rewrite kvs_node_middle, kvs_of_app, !kvs_of_cons. simpl.
    rewrite (app_assoc (t_kvs c1)), Hperm. simpl. rewrite <- Permutation_middle. reflexivity. }
  split; [unfold sl', split_slots; rewrite !length_app; simpl; lia|].
  eapply frame_weaken; [|exact Hframe]. exact Hin.
Qed.

Lemma frame_put (X : list Z) (s s1 : BufferPool) (id : Z) (p : Page) :
  frame X s s1 -> id ∈ X -> 0 <= id < next_page_id_ s1 -> frame X s (put_page s1 id p).
Proof.
  intros (H1 & H2 & H3 & H4) Hid Hlt. split; [exact H1|]. split; [exact H2|].
  split; [|apply pool_ok_put; assumption].
  intros x Hx Hxlt. simpl. rewrite lookup_insert_ne; [apply H3; assumption|].
  intros ->. exact (Hx Hid).
Qed.

Lemma frame_put_new (X : list Z) (s s1 : BufferPool) (id : Z) (p : Page) :
  frame X s s1 -> next_page_id_ s <= id -> 0 <= id < next_page_id_ s1 ->
  frame X s (put_page s1 id p).
Proof.
  intros (H1 & H2 & H3 & H4) Hid Hlt. split; [exact H1|]. split; [exact H2|].
  split; [|apply pool_ok_put; assumption].
  intros x Hx Hxlt. simpl. rewrite lookup_insert_ne; [apply H3; assumption|]. lia.
Qed.

Lemma frame_alloc (X : list Z) (s s1 : BufferPool) :
  frame X s s1 ->
  frame X s {| pages_ := pages_ s1; next_page_id_ := next_page_id_ s1 + 1;
               header_root_page_id_ := header_root_page_id_ s1 |}.
Proof.
  intros (H1 & H2 & H3 & [H4 H5]). split; [exact H1|]. split; [simpl; lia|].
  split; [exact H3|]. split; [simpl; lia|]. intros x q Hx. simpl in *.
  specialize (H5 _ _ Hx). lia.
Qed.

Lemma ins_split_lift (s s1 : BufferPool) (h : nat) (lo hi : option Z) (id : Z)
    (spre : list (Z * tree)) (kc : Z * tree) (spost : list (Z * tree)) (P : InternalPage.t)
    (key value sk : Z) (c2 : tree) (n : nat) (ctx : Context) :
  node_at s h lo hi id spre kc spost P ->
  ins_split s s1 h (lbound lo spre kc) (next_bound hi spost) (snd kc) key value sk c2 ->
  write_set_ ctx !! n = Some id ->
  (exists s', InsertIntoParent internal_max_size_ (S n) s1 sk (tid c2) ctx = Ok s' /\
     ins_done s s' (S h) lo hi (TNode id (spre ++ kc :: spost)) key value) \/
  (IsSafePage (Internal P) OpInsert false = false /\
   exists s2 sk' t2,
     InsertIntoParent internal_max_size_ (S n) s1 sk (tid c2) ctx
     = InsertIntoParent internal_max_size_ n s2 sk' (tid t2) ctx /\
     ins_split s s2 (S h) lo hi (TNode id (spre ++ kc :: spost)) key value sk' t2).
Proof.
  intros N (c1 & Hrep1 & Hrep2 & Htid & Hg1 & Hg2 & Hnd12 & Hsub & Hnew2 & Hperm & Hframe) Hws.
  destruct (split_child_facts s s1 h lo hi id spre kc spost P key value sk c1 c2
              N Hrep1 Hrep2 Htid Hg1 Hg2 Hnd12 Hsub Hperm Hframe)
    as (Hp1 & Hch1 & Hroute & Hk0' & Hchain' & Hslots' & Hnd' & Hsub' & Hperm' & Hlen' & Hframe').
  set (sl' := split_slots spre kc spost c1 sk c2) in *.
  pose proof N as [Hpool Hpage Hmax Hsize Hslots Hchildren Hkey0 Hchain Hlen Hnodup].
  pose proof Hframe' as (Hroot1 & Hnext1 & Hpages1 & Hpool1).
  pose proof (pool_ok_lookup _ _ _ Hpool1 Hp1) as Hid1.
  apply NoDup_cons in Hnd' as [Hidn Hndsl].
  rewrite InsertIntoParent_S.
  rewrite (guard_at_Ok _ _ _ Hws), bind_Ok_l.
  rewrite (guarded_page_Ok _ _ _ Hp1), bind_Ok_l. simpl AsInternal. rewrite bind_Ok_l.
  unfold InternalPage.GetSize, InternalPage.GetMaxSize. rewrite Hmax, Hsize.
  destruct (Z.eqb_spec (Z.of_nat (length (spre ++ kc :: spost))) internal_max_size_) as [Hfull|Hroom];
    simpl negb; cbv iota.
  - right. split.
    { simpl. unfold InternalPage.GetSize, InternalPage.GetMaxSize. rewrite Hmax, Hsize.
      apply Z.ltb_ge. lia. }
    unfold NewPageGuarded. cbv beta iota zeta.
    destruct (internal_split_spec internal_max_size_ P sk (tid c2))
      as (r & P1 & P2 & Hr & Hsplit & Hs1 & Hm1 & Hsl1 & Hs2 & Hm2 & Hsl2); [lia | lia |].
    assert (r = Z.of_nat (length spre)) as -> by congruence.
    unfold InternalPage.GetMinSize in *. rewrite Hmax in *.
    pose proof min_size_internal as Hmin.
    set (m := min_size_of internal_max_size_) in *.
    rewrite <- Hslots' in Hsl1, Hsl2.
    change (map slot_of sl') with (slot_of <$> sl') in Hsl1, Hsl2.
    rewrite <- fmap_take in Hsl1. rewrite <- fmap_drop in Hsl2.
    rewrite Hsplit, bind_Ok_l. cbv beta iota zeta.
    rewrite InternalPage_KeyAt_Ok, bind_Ok_l by len_lia.
    assert (Hdm : exists kd rest', drop (Z.to_nat m) sl' = kd :: rest').
    { destruct (drop (Z.to_nat m) sl') as [|kd rest'] eqn:E; [|eauto].
      apply (f_equal length) in E. rewrite length_drop in E. simpl in E. lia. }
    destruct Hdm as (kd & rest' & Hdm).
    assert (Htm : exists kt rest'', take (Z.to_nat m) sl' = kt :: rest'').
    { destruct (take (Z.to_nat m) sl') as [|kt rest''] eqn:E; [|eauto].
      apply (f_equal length) in E. rewrite length_take in E. simpl in E. lia. }
    destruct Htm as (kt & rest'' & Htm).
    assert (Hk0 : get (InternalPage.array_ P2) 0 = slot_of kd).
    { apply (node_slot P2 (kd :: rest') 0 kd).
      - rewrite Hs2, <- Hdm, length_drop. lia.
      - rewrite Hsl2, Hdm. reflexivity.
      - reflexivity. }
    rewrite Hk0. simpl fst.
    set (s2 := put_page (put_page
                 {| pages_ := pages_ s1; next_page_id_ := next_page_id_ s1 + 1;
                    header_root_page_id_ := header_root_page_id_ s1 |} id (Internal P1))
                 (next_page_id_ s1) (Internal P2)).
    assert (Hfresh : forall x, x ∈ ids_of sl' -> x <> next_page_id_ s1 /\ x <> id).
    { intros x Hx. pose proof (Forall_rep_in_dom _ _ _ _ Hpool1 Hch1 Hx). split; [lia|].
      intros ->. exact (Hidn Hx). }
    assert (Hch2 : Forall (fun kc => rep (pages_ s2) h (snd kc)) sl').
    { rewrite Forall_forall in *. intros kc' Hin. eapply rep_frame; [|apply Hch1; exact Hin].
      intros x Hx. unfold s2. simpl.
      destruct (Hfresh x) as [? ?]; [apply elem_of_ids_of; eauto|].
      rewrite !lookup_insert_ne by congruence. reflexivity. }
    rewrite <- (take_drop (Z.to_nat m) sl') in Hch2, Hchain', Hperm', Hndsl, Hsub'.
    apply Forall_app in Hch2 as [Hch2a Hch2b].
    rewrite Hdm in Hchain'. apply chain_split in Hchain' as [Hca Hcb]; [|rewrite Htm; discriminate].
    rewrite <- Hdm in Hcb.
    exists s2, (fst kd), (TNode (next_page_id_ s1) (drop (Z.to_nat m) sl')).
    split; [reflexivity|].
    exists (TNode id (take (Z.to_nat m) sl')).
    split.
    { exists P1. unfold s2. simpl.
      rewrite lookup_insert_ne by lia. rewrite lookup_insert_eq.
      split; [reflexivity|]. split; [congruence|].
      split; [rewrite Hs1, length_take; lia|]. split; [exact Hsl1 | exact Hch2a]. }
    split.
    { exists P2. unfold s2. simpl. rewrite lookup_insert_eq.
      split; [reflexivity|]. split; [congruence|].
      split; [rewrite Hs2, length_drop; lia|]. split; [exact Hsl2 | exact Hch2b]. }
    split; [reflexivity|].
    split.
    { split.
      - rewrite Htm. unfold key0_ok in *. destruct lo; [|exact I].
        assert (E : head sl' = Some kt).
        { rewrite <- (take_drop (Z.to_nat m) sl'), Htm. reflexivity. }
        destruct sl' as [|k0 sl'']; [discriminate|]. simpl in E. injection E as ->. exact Hk0'.
      - split; [exact Hca | rewrite length_take; lia]. }
    split.
    { split; [rewrite Hdm; reflexivity|]. split; [exact Hcb | rewrite length_drop; lia]. }
    split.
    { simpl ids. fold (ids_of (take (Z.to_nat m) sl')) (ids_of (drop (Z.to_nat m) sl')).
      rewrite ids_of_app in Hndsl.
      assert (Hp : (id :: ids_of (take (Z.to_nat m) sl'))
                     ++ next_page_id_ s1 :: ids_of (drop (Z.to_nat m) sl')
                   ≡ₚ next_page_id_ s1 :: id
                        :: (ids_of (take (Z.to_nat m) sl') ++ ids_of (drop (Z.to_nat m) sl'))).
      { rewrite <- Permutation_middle. reflexivity. }
      rewrite Hp. apply NoDup_cons. split.
      - intros Hin. apply elem_of_cons in Hin as [E|Hin]; [lia|].
        rewrite <- ids_of_app, take_drop in Hin. destruct (Hfresh _ Hin). congruence.
      - apply NoDup_cons. split; [|exact Hndsl].
        rewrite <- ids_of_app, take_drop. exact Hidn. }
    split.
    { simpl ids. fold (ids_of (take (Z.to_nat m) sl')) (ids_of (drop (Z.to_nat m) sl')).
      intros x Hx. rewrite ids_of_app in Hsub'.
      apply elem_of_app in Hx as [Hx|Hx].
      - apply Hsub'. apply elem_of_cons in Hx as [->|Hx]; [left|right].
        apply elem_of_app. left. exact Hx.
      - apply elem_of_cons in Hx as [->|Hx]; [right; lia|].
        apply Hsub'. right. apply elem_of_app. right. exact Hx. }
    split; [simpl; lia|].
    split.
    { simpl t_kvs at 1 2. fold (kvs_of (take (Z.to_nat m) sl')) (kvs_of (drop (Z.to_nat m) sl')).
      rewrite <- kvs_of_app. exact Hperm'. }
    unfold s2. apply frame_put_new; [apply frame_put; [apply frame_alloc; exact Hframe' | left |]
                                     | lia |]; simpl; lia.
  - left.
    destruct (internal_insert_spec P sk (tid c2)) as (r & p' & Hr & Hins & Hs' & Hm' & Hsl');
      [lia|].
    assert (r = Z.of_nat (length spre)) as -> by congruence.
    rewrite <- Hslots' in Hsl'.
    rewrite Hins, bind_Ok_l.
    eexists. split; [reflexivity|].
    exists (TNode id sl').
    split.
    { exists p'. simpl. rewrite lookup_insert_eq.
      split; [reflexivity|]. split; [congruence|]. split; [lia|]. split; [exact Hsl'|].
      apply Forall_rep_put_other; assumption. }
    split; [reflexivity|].
    split; [split; [exact Hk0'|]; split; [exact Hchain' | lia]|].
    split; [apply NoDup_cons; split; assumption|].
    split; [exact Hsub'|]. split; [exact Hperm'|].
    apply frame_put; [exact Hframe' | left | exact Hid1].
Qed.

(** ** The descent step *)

Lemma FindLeafPage_write_step (fuel : nat) (s : BufferPool) (key : Z) (op : Operation)
    (hdr : option Z) (root : Z) (pre : list Z) (h : nat) (lo hi : option Z) (id : Z)
    (spre : list (Z * tree)) (kc : Z * tree) (spost : list (Z * tree)) (P : InternalPage.t) :
  node_at s h lo hi id spre kc spost P ->
  BinaryFind_internal P key = Ok (Z.of_nat (length spre)) ->
  (forall x, x ∈ pre -> x ∉ ids (TNode id (spre ++ kc :: spost))) ->
  exists pc, pages_ s !! tid (snd kc) = Some pc /\
    FindLeafPage_write (S fuel) s key op
      {| header_page_ := hdr; root_page_id_ := root; write_set_ := pre ++ [id]; read_set_ := [] |}
    = FindLeafPage_write fuel s key op
        {| header_page_ := hdr; root_page_id_ := root;
           write_set_ := (if IsSafePage pc op false then [] else pre ++ [id]) ++ [tid (snd kc)];
           read_set_ := [] |}.
Proof.
  intros N Hroute Hpre.
  destruct (node_child_facts _ _ _ _ _ _ _ _ _ N) as (Hrepc & _ & _ & Hid & Hin & _ & Hval).
  pose proof N as [Hpool Hpage Hmax Hsize Hslots Hchildren Hkey0 Hchain Hlen Hnodup].
  destruct (rep_in_dom _ _ _ _ _ _ Hrepc (tid_in_ids _)) as [pc Hpc].
  exists pc. split; [exact Hpc|].
  simpl FindLeafPage_write. rewrite back_snoc, bind_Ok_l.
  rewrite (guarded_page_Ok _ _ _ Hpage), bind_Ok_l.
  rewrite Hroute, bind_Ok_l. rewrite Hval, bind_Ok_l.
  unfold FetchPageWrite. simpl write_set_.
  rewrite bool_decide_eq_false_2.
  2:{ intros Hx. apply elem_of_app in Hx as [Hx|Hx].
      - apply (Hpre _ Hx). apply Hin. apply tid_in_ids.
      - apply list_elem_of_singleton in Hx. apply Hid. rewrite <- Hx. apply tid_in_ids. }
  rewrite (guarded_page_Ok _ _ _ Hpc), bind_Ok_l.
  unfold set_write_set. simpl.
  destruct (IsSafePage pc op false); [rewrite pop_front_to_one_snoc|]; reflexivity.
Qed.

Lemma insert_from_spec (h : nat) :
  forall (fuel : nat) (s : BufferPool) (key value : Z) (hdr : option Z) (root : Z)
         (pre : list Z) (lo hi : option Z) (t : tree),
  (h <= fuel)%nat -> pool_ok s -> rep (pages_ s) h t -> good h lo hi t -> NoDup (ids t) ->
  in_range lo hi key -> (forall x, x ∈ pre -> x ∉ ids t) ->
  insert_outcome fuel s key value hdr root pre h lo hi t.
Proof.
  induction h as [|h IH]; intros fuel s key value hdr root pre lo hi t Hfuel Hpool Hrep Hgood Hnd Hkey Hpre.
  - destruct t as [id kvs|id sl]; [|simpl in Hrep; tauto].
    apply insert_leaf_spec; assumption.
  - destruct t as [id kvs|id sl]; [simpl in Hrep; tauto|].
    destruct fuel as [|fuel]; [lia|].
    assert (Hne : sl <> []).
    { destruct Hgood as (_ & _ & Hlen). destruct sl; [simpl in Hlen; lia | discriminate]. }
    pose proof Hrep as (P0 & Hp0 & _ & Hs0 & Hsl0 & _).
    destruct (route_spec P0 h lo hi sl key Hs0 ltac:(destruct Hgood as (_ & _ & ?); lia)
                Hsl0 Hne Hkey)
      as (spre & kc & spost & -> & Hroute & Hrange).
    destruct (node_at_intro s h lo hi id spre kc spost Hpool Hrep Hgood Hnd) as (P & N).
    assert (P0 = P) as -> by (destruct N; congruence).
    destruct (node_child_facts _ _ _ _ _ _ _ _ _ N) as (Hrepc & Hgoodc & Hndc & Hid & Hin & Hdisj & _).
    destruct (FindLeafPage_write_step fuel s key OpInsert hdr root pre h lo hi id spre kc spost P
                N Hroute Hpre) as (pc & Hpc & Hstep).
    pose proof (route_member leaf_max_size_ internal_max_size_ h lo hi spre spost kc key
                  ltac:(destruct N; assumption) Hrange) as Hmem.
    unfold insert_outcome. simpl tid. cbv zeta.
    change ((t_kvs (TNode id (spre ++ kc :: spost))).*1)
      with ((kvs_of (spre ++ kc :: spost)).*1).
    unfold insert_from at 1 2 3. rewrite Hstep.
    fold (insert_from leaf_max_size_ internal_max_size_ fuel s key value
            {| header_page_ := hdr; root_page_id_ := root;
               write_set_ := (if IsSafePage pc OpInsert false then [] else pre ++ [id])
                             ++ [tid (snd kc)];
               read_set_ := [] |}).
    assert (Hpre' : forall x, x ∈ (if IsSafePage pc OpInsert false then [] else pre ++ [id]) ->
                              x ∉ ids (snd kc)).
    { intros x Hx Hxc. destruct (IsSafePage pc OpInsert false); [inversion Hx|].
      apply elem_of_app in Hx as [Hx|Hx].
      - apply (Hpre _ Hx). apply Hin. exact Hxc.
      - apply list_elem_of_singleton in Hx as ->. exact (Hid Hxc). }
    destruct (IH fuel s key value hdr root
                (if IsSafePage pc OpInsert false then [] else pre ++ [id])
                (lbound lo spre kc) (next_bound hi spost) (snd kc)
                ltac:(lia) Hpool Hrepc Hgoodc Hndc Hrange Hpre') as [Hfound Hnew].
    split.
    + intros Hk. apply Hfound. apply Hmem. exact Hk.
    + intros Hk. destruct Hnew as [(s' & Hrun & Hdone)|(s1 & sk & c2 & rest & page & Hpage & Hunsafe & Hrun & Hsplit)].
      * intros Hkc. apply Hk. apply Hmem. exact Hkc.
      * left. exists s'. split; [exact Hrun|]. eapply ins_done_lift; eassumption.
      * assert (page = pc) as -> by congruence. rewrite Hunsafe in *.
        rewrite Hrun. rewrite length_app. simpl length.
        replace (length pre + 1)%nat with (S (length pre)) by lia.
        destruct (ins_split_lift s s1 h lo hi id spre kc spost P key value sk c2 (length pre)
                    {| header_page_ := hdr; root_page_id_ := root;
                       write_set_ := (pre ++ [id]) ++ tid (snd kc) :: rest; read_set_ := [] |}
                    N Hsplit)
          as [(s' & Hrun' & Hdone)|(Hfull & s2 & sk' & t2 & Hrun' & Hsplit')].
        { simpl. rewrite <- app_assoc. apply app_lookup_middle. }
        -- left. exists s'. rewrite Hrun', bind_Ok_l. split; [reflexivity | exact Hdone].
        -- right. exists s2, sk', t2, (tid (snd kc) :: rest), (Internal P).
           split; [destruct N; assumption|]. split; [exact Hfull|].
           split; [|exact Hsplit'].
           rewrite Hrun'. rewrite <- app_assoc. reflexivity.
Qed.

End InsertProof.

(** * Insert on a well-formed tree *)

Section InsertTop.

Variable leaf_max_size_ : Z.
Variable internal_max_size_ : Z.
Variable header_page_id_ : Z.
Hypothesis leaf_max_ge : (2 <=? leaf_max_size_) && (leaf_max_size_ <? LEAF_PAGE_SIZE) = true.
Hypothesis internal_max_ge :
  (3 <=? internal_max_size_) && (internal_max_size_ <=? INTERNAL_PAGE_SIZE) = true.

Local Abbreviation good := (good leaf_max_size_ internal_max_size_).
Local Abbreviation rep := (rep leaf_max_size_ internal_max_size_).
Local Abbreviation Inv := (Inv leaf_max_size_ internal_max_size_).

(** A tree of height [h] has a path of [h + 1] pages. *)
Lemma height_lt_ids (m : gmap Z Page) (h : nat) (lo hi : option Z) (t : tree) :
  good h lo hi t -> (h < length (ids t))%nat.
Proof.
  revert lo hi t. induction h as [|h IH]; intros lo hi [id kvs|id sl] Hg;
    try (simpl in Hg; tauto); [simpl; lia|].
  destruct Hg as (_ & Hc & Hlen).
  destruct sl as [|kc sl]; [simpl in Hlen; lia|]. simpl in Hc. destruct Hc as [Hc _].
  specialize (IH _ _ _ Hc).
  change (ids (TNode id (kc :: sl))) with (id :: ids (snd kc) ++ ids_of sl).
  cbn [length]. rewrite length_app. lia.
Qed.

Lemma ids_le_size (m : gmap Z Page) (h : nat) (t : tree) :
  rep m h t -> NoDup (ids t) -> (length (ids t) <= size m)%nat.
Proof.
  intros Hrep Hnd. rewrite <- (size_dom (D := gset Z)).
  unfold size, set_size. simpl. apply submseteq_length. apply NoDup_submseteq; [exact Hnd|].
  intros x Hx. apply elem_of_elements, elem_of_dom. eapply rep_in_dom; eassumption.
Qed.

Lemma descent_fuel_enough (s : BufferPool) (h : nat) (lo hi : option Z) (t : tree) :
  rep (pages_ s) h t -> good h lo hi t -> NoDup (ids t) -> (h <= descent_fuel s)%nat.
Proof.
  intros Hrep Hg Hnd. unfold descent_fuel.
  pose proof (height_lt_ids (pages_ s) h lo hi t Hg).
  pose proof (ids_le_size _ _ _ Hrep Hnd). lia.
Qed.

Lemma kvs_lookup (lo hi : option Z) (h : nat) (t : tree) (key : Z) :
  good h lo hi t ->
  (key ∈ (t_kvs t).*1 <-> is_Some ((list_to_map (t_kvs t) : gmap Z Z) !! key)).
Proof.
  intros Hg. rewrite <- not_eq_None_Some. rewrite <- not_elem_of_list_to_map.
  split; [tauto|]. intros H. destruct (decide (key ∈ (t_kvs t).*1)); tauto.
Qed.

Lemma kvs_insert (lo hi : option Z) (h : nat) (t t' : tree) (key value : Z) :
  good h lo hi t' -> t_kvs t' ≡ₚ (key, value) :: t_kvs t ->
  (list_to_map (t_kvs t') : gmap Z Z) = <[key := value]> (list_to_map (t_kvs t)).
Proof.
  intros Hg Hperm. rewrite <- list_to_map_cons. apply list_to_map_proper; [|exact Hperm].
  eapply keys_ord_NoDup. eapply good_keys. exact Hg.
Qed.

Lemma IsSafePage_insert_root (p : Page) (b : bool) :
  IsSafePage p OpInsert b = IsSafePage p OpInsert false.
Proof. reflexivity. Qed.

Lemma InsertIntoParent_O (s : BufferPool) (key new_child_id : Z) (ctx : Context) :
  InsertIntoParent internal_max_size_ 0 s key new_child_id ctx
  = (let '(s, new_root_page_id) := NewPageGuarded s in
     old_root_id ← guard_at (write_set_ ctx) 0;
     new_root_page ← new_root_page internal_max_size_ old_root_id key new_child_id;
     let s := put_page s new_root_page_id (Internal new_root_page) in
     _ ← header_deref ctx;
     Ok (set_root s new_root_page_id)).
Proof. reflexivity. Qed.

Lemma Insert_nonempty (s : BufferPool) (key value : Z) (rp : Page) :
  header_root_page_id_ s <> INVALID_PAGE_ID ->
  pages_ s !! header_root_page_id_ s = Some rp ->
  Insert leaf_max_size_ internal_max_size_ header_page_id_ s key value
  = insert_from leaf_max_size_ internal_max_size_ (descent_fuel s) s key value
      {| header_page_ := if IsSafePage rp OpInsert false then None else Some header_page_id_;
         root_page_id_ := header_root_page_id_ s;
         write_set_ := [] ++ [header_root_page_id_ s]; read_set_ := [] |}.
Proof.
  intros Hne Hrp. rewrite Insert_unfold.
  destruct (Z.eqb_spec (header_root_page_id_ s) INVALID_PAGE_ID) as [E|_]; [contradiction|].
  cbv zeta. unfold FetchPageWrite. rewrite bool_decide_eq_false_2 by (intros H; inversion H).
  rewrite (guarded_page_Ok _ _ _ Hrp), bind_Ok_l.
  rewrite IsSafePage_insert_root.
  destruct (IsSafePage rp OpInsert false); reflexivity.
Qed.

Lemma Inv_root (s : BufferPool) (h : nat) (t : tree) :
  pool_ok s -> rep (pages_ s) h t ->
  tid t <> INVALID_PAGE_ID /\ exists rp, pages_ s !! tid t = Some rp.
Proof.
  intros Hpool Hrep.
  destruct (rep_in_dom _ _ _ _ _ _ Hrep (tid_in_ids t)) as [rp Hrp].
  pose proof (pool_ok_lookup _ _ _ Hpool Hrp) as Hid.
  split; [unfold INVALID_PAGE_ID; lia | eauto].
Qed.

Theorem Insert_dup (s : BufferPool) (M : gmap Z Z) (key value : Z) :
  Inv s M -> is_Some (M !! key) ->
  Insert leaf_max_size_ internal_max_size_ header_page_id_ s key value = Ok (false, s).
Proof.
  intros [Hpool [[Hroot ->]|(h & t & Hroot & Hrep & Hgood & Hnd & HM)]] Hk.
  { rewrite lookup_empty in Hk. destruct Hk; discriminate. }
  destruct (Inv_root s h t Hpool Hrep) as (Hne & rp & Hrp). rewrite <- Hroot in Hne, Hrp.
  rewrite (Insert_nonempty s key value rp Hne Hrp). rewrite Hroot.
  destruct (insert_from_spec leaf_max_size_ internal_max_size_ leaf_max_ge internal_max_ge h
              (descent_fuel s) s key value
              (if IsSafePage rp OpInsert false then None else Some header_page_id_)
              (tid t) [] None None t
              (descent_fuel_enough _ _ _ _ _ Hrep Hgood Hnd) Hpool Hrep Hgood Hnd
              (conj I I) ltac:(intros x Hx; inversion Hx)) as [Hfound _].
  apply Hfound. apply (kvs_lookup None None h); [exact Hgood|]. rewrite HM. exact Hk.
Qed.

Lemma new_tree_Inv (s : BufferPool) (key value : Z) :
  pool_ok s ->
  Inv (put_page
         (set_root {| pages_ := pages_ s; next_page_id_ := next_page_id_ s + 1;
                      header_root_page_id_ := header_root_page_id_ s |} (next_page_id_ s))
         (next_page_id_ s)
         (Leaf (LeafPage.mk 1 leaf_max_size_ INVALID_PAGE_ID [(key, value)])))
      (<[key := value]> ∅).
Proof.
  intros [Hp0 Hpl]. split.
  - split; [simpl; lia|]. intros x q Hx. simpl in *.
    destruct (decide (x = next_page_id_ s)) as [->|Hne]; [lia|].
    rewrite lookup_insert_ne in Hx by congruence. specialize (Hpl _ _ Hx). lia.
  - right. exists 0%nat, (TLeaf (next_page_id_ s) [(key, value)]).
    split; [reflexivity|]. split.
    { eexists. simpl. rewrite lookup_insert_eq. split; [reflexivity|]. repeat split. }
    split.
    { split; [|simpl; lia]. split; [repeat constructor|]. repeat constructor. }
    split; [apply NoDup_singleton|]. reflexivity.
Qed.

Theorem Insert_new (s : BufferPool) (M : gmap Z Z) (key value : Z) :
  Inv s M -> M !! key = None ->
  exists s', Insert leaf_max_size_ internal_max_size_ header_page_id_ s key value = Ok (true, s') /\
    Inv s' (<[key := value]> M).
Proof.
  intros [Hpool [[Hroot ->]|(h & t & Hroot & Hrep & Hgood & Hnd & HM)]] Hk.
  { rewrite Insert_unfold, Hroot. simpl. eexists. split; [reflexivity|].
    apply new_tree_Inv. exact Hpool. }
  destruct (Inv_root s h t Hpool Hrep) as (Hne & rp & Hrp). rewrite <- Hroot in Hne, Hrp.
  rewrite (Insert_nonempty s key value rp Hne Hrp). rewrite Hroot.
  destruct (insert_from_spec leaf_max_size_ internal_max_size_ leaf_max_ge internal_max_ge h
              (descent_fuel s) s key value
              (if IsSafePage rp OpInsert false then None else Some header_page_id_)
              (tid t) [] None None t
              (descent_fuel_enough _ _ _ _ _ Hrep Hgood Hnd) Hpool Hrep Hgood Hnd
              (conj I I) ltac:(intros x Hx; inversion Hx)) as [_ Hnew].
  destruct Hnew as [(s' & Hrun & Hdone)|(s1 & sk & t2 & rest & page & Hpage & Hunsafe & Hrun & Hsplit)].
  { intros Hin. apply (kvs_lookup None None h) in Hin; [|exact Hgood].
    rewrite HM, Hk in Hin. destruct Hin; discriminate. }
  - exists s'. split; [exact Hrun|].
    destruct Hdone as (t' & Hrep' & Htid & Hgood' & Hnd' & _ & Hperm & Hframe).
    destruct Hframe as (Hroot' & _ & _ & Hpool').
    split; [exact Hpool'|]. right. exists h, t'.
    split; [congruence|]. split; [exact Hrep'|]. split; [exact Hgood'|]. split; [exact Hnd'|].
    rewrite <- HM. eapply kvs_insert; eassumption.
  - rewrite Hroot in Hrp. assert (page = rp) as -> by congruence. rewrite Hunsafe in Hrun |- *.
    rewrite Hrun. clear Hrun.
    destruct Hsplit as (t1 & Hrep1 & Hrep2 & Htid1 & Hg1 & Hg2 & Hnd12 & _ & Hnew2 & Hperm & Hframe).
    destruct Hframe as (Hroot1 & Hnext1 & _ & Hpool1).
    rewrite InsertIntoParent_O. unfold NewPageGuarded. cbv beta iota zeta.
    unfold guard_at. simpl lookup. cbv iota. rewrite bind_Ok_l.
    destruct (new_root_page_spec internal_max_size_ (tid t) sk (tid t2))
      as (np & Hnp & Hnps & Hnpm & Hnpsl).
    rewrite Hnp, bind_Ok_l. unfold header_deref. cbv beta iota zeta. simpl header_page_.
    cbv beta iota. rewrite ?bind_Ok_l.
    eexists. split; [reflexivity|].
    assert (Hold : forall x, x ∈ ids t1 ++ ids t2 -> x <> next_page_id_ s1).
    { intros x Hx. assert (0 <= x < next_page_id_ s1); [|lia].
      apply elem_of_app in Hx as [Hx|Hx].
      - exact (rep_old_ids _ _ _ _ _ _ Hpool1 Hrep1 Hx).
      - exact (rep_old_ids _ _ _ _ _ _ Hpool1 Hrep2 Hx). }
    split.
    { destruct Hpool1 as [Hp0 Hpl]. split; [simpl; lia|]. intros x q Hx. simpl in *.
      destruct (decide (x = next_page_id_ s1)) as [->|Hx1]; [lia|].
      rewrite lookup_insert_ne in Hx by congruence. specialize (Hpl _ _ Hx). lia. }
    right. exists (S h), (TNode (next_page_id_ s1) [(0, t1); (sk, t2)]).
    split; [reflexivity|]. split.
    { exists np. simpl. rewrite lookup_insert_eq. split; [reflexivity|].
      split; [exact Hnpm|]. split; [exact Hnps|].
      split; [rewrite Hnpsl; unfold slot_of; simpl; rewrite Htid1; reflexivity|].
      constructor; [|constructor; [|constructor]]; simpl;
        (eapply rep_frame; [|eassumption]); intros x Hx; simpl;
        apply lookup_insert_ne; intros E; symmetry in E; revert E; apply Hold;
        apply elem_of_app; [left | right]; exact Hx. }
    split.
    { split; [exact I|]. split; [simpl; tauto | simpl; lia]. }
    split.
    { simpl. rewrite app_nil_r. apply NoDup_cons. split; [|exact Hnd12].
      intros Hin. exact (Hold _ Hin eq_refl). }
    rewrite <- HM. simpl t_kvs. rewrite app_nil_r.
    rewrite <- list_to_map_cons. apply list_to_map_proper; [|exact Hperm].
    eapply keys_ord_NoDup.
    destruct (good_keys _ _ _ _ _ _ Hg1) as [K1 N1]. destruct (good_keys _ _ _ _ _ _ Hg2) as [K2 N2].
    eapply (keys_ord_app None None sk); eassumption.
Qed.

End InsertTop.

(** * Removal keeps the invariant *)

(** Lines 337-403 of [Remove]: the leaf has fewer entries than its minimum. *)
Definition leaf_underflow (s : BufferPool) (key : Z) (ctx : Context) (leaf_id : Z)
    (leaf_page : LeafPage.t) : Result BufferPool :=
  if IsRootPage ctx leaf_id then
    if LeafPage.GetSize leaf_page =? 0 then
      match header_page_ ctx with
      | Some _ => Ok (set_root s INVALID_PAGE_ID)
      | None => Err DanglingPage
      end
    else Ok s
  else
    match length (write_set_ ctx) with
    | S (S parent_index) =>
        parent_id ← guard_at (write_set_ ctx) parent_index;
        parent ← guarded_page s parent_id;
        parent_page ← AsInternal parent;
        index ← BinaryFind_internal parent_page key;
        if index <? InternalPage.GetSize parent_page - 1 then
          right_brother_page_id ← InternalPage.ValueAt parent_page (index + 1);
          right ← FetchPageWrite s (write_set_ ctx) right_brother_page_id;
          right_brother_page ← AsLeaf right;
          let merge_size := LeafPage.GetSize right_brother_page + LeafPage.GetSize leaf_page in
          if merge_size <? LeafPage.GetMaxSize leaf_page then
            leaf_page ← leaf_merge leaf_page right_brother_page merge_size;
            let s := put_page s leaf_id (Leaf leaf_page) in
            RemoveFromParent parent_index s (index + 1) ctx [right_brother_page_id]
          else
            '(leaf_page, right_brother_page) ← leaf_borrow_right leaf_page right_brother_page;
            k ← LeafPage.KeyAt right_brother_page 0;
            parent_page ← InternalPage.SetKeyAt parent_page (index + 1) k;
            let s := put_page s leaf_id (Leaf leaf_page) in
            let s := put_page s right_brother_page_id (Leaf right_brother_page) in
            Ok (put_page s parent_id (Internal parent_page))
        else
          left_brother_page_id ← InternalPage.ValueAt parent_page (index - 1);
          left ← FetchPageWrite s (write_set_ ctx) left_brother_page_id;
          left_brother_page ← AsLeaf left;
          let merge_size := LeafPage.GetSize left_brother_page + LeafPage.GetSize leaf_page in
          if merge_size <? LeafPage.GetMaxSize left_brother_page then
            left_brother_page ← leaf_merge left_brother_page leaf_page merge_size;
            let s := put_page s left_brother_page_id (Leaf left_brother_page) in
            RemoveFromParent parent_index s index ctx [left_brother_page_id]
          else
            '(leaf_page, left_brother_page) ← leaf_borrow_left leaf_page left_brother_page;
            k ← LeafPage.KeyAt leaf_page 0;
            parent_page ← InternalPage.SetKeyAt parent_page index k;
            let s := put_page s leaf_id (Leaf leaf_page) in
            let s := put_page s left_brother_page_id (Leaf left_brother_page) in
            Ok (put_page s parent_id (Internal parent_page))
    | _ => Err OutOfBounds
    end.

(** Lines 319-404 of [Remove]: what happens once the leaf is latched. *)
Definition Remove_at_leaf (s : BufferPool) (key : Z) (ctx : Context) : Result BufferPool :=
  leaf_id ← back (write_set_ ctx);
  page ← guarded_page s leaf_id;
  leaf_page ← AsLeaf page;
  pos ← BinaryFind_leaf leaf_page key;
  found ← (if pos =? -1 then Ok false
           else k ← LeafPage.KeyAt leaf_page pos; Ok (comparator_ k key =? 0));
  if negb found then Ok s
  else
    leaf_page ← leaf_remove_at leaf_page pos;
    let s := put_page s leaf_id (Leaf leaf_page) in
    if LeafPage.GetMinSize leaf_page <=? LeafPage.GetSize leaf_page then Ok s
    else leaf_underflow s key ctx leaf_id leaf_page.

Definition remove_from (fuel : nat) (s : BufferPool) (key : Z) (ctx : Context)
    : Result BufferPool :=
  ctx ← FindLeafPage_write fuel s key OpRemove ctx;
  Remove_at_leaf s key ctx.

Lemma Remove_unfold (header_page_id_ : Z) (s : BufferPool) (key : Z) :
  Remove header_page_id_ s key
  = if header_root_page_id_ s =? INVALID_PAGE_ID then Ok s
    else
      root_page ← FetchPageWrite s [] (header_root_page_id_ s);
      let ctx := {| header_page_ := Some header_page_id_;
                    root_page_id_ := header_root_page_id_ s;
                    write_set_ := [header_root_page_id_ s]; read_set_ := [] |} in
      remove_from (descent_fuel s) s key
        (if IsSafePage root_page OpRemove true then release_header ctx else ctx).
Proof. reflexivity. Qed.

(** Lines 420-487 of [RemoveFromParent]: the internal page has fewer slots
    than its minimum. *)
Definition internal_underflow (index : nat) (s : BufferPool) (ctx : Context)
    (held : list Z) (page_id : Z) (page : InternalPage.t) : Result BufferPool :=
  if IsRootPage ctx page_id then
    if InternalPage.GetSize page =? 1 then
      _ ← header_deref ctx;
      child ← InternalPage.ValueAt page 0;
      Ok (set_root s child)
    else Ok s
  else
    match index with
    | O => Err OutOfBounds
    | S parent_index =>
        parent_id ← guard_at (write_set_ ctx) parent_index;
        parent ← guarded_page s parent_id;
        parent_page ← AsInternal parent;
        let pos := InternalPage.ValueIndex parent_page page_id in
        if pos <? InternalPage.GetSize parent_page - 1 then
          right_brother_page_id ← InternalPage.ValueAt parent_page (pos + 1);
          right ← FetchPageWrite s (write_set_ ctx ++ held) right_brother_page_id;
          right_brother_page ← AsInternal right;
          let merge_size := InternalPage.GetSize right_brother_page + InternalPage.GetSize page in
          if merge_size <=? InternalPage.GetMaxSize page then
            page ← internal_merge page right_brother_page merge_size;
            let s := put_page s page_id (Internal page) in
            RemoveFromParent parent_index s (pos + 1) ctx (right_brother_page_id :: held)
          else
            '(page, right_brother_page) ← internal_borrow_right page right_brother_page;
            k ← InternalPage.KeyAt right_brother_page 0;
            parent_page ← InternalPage.SetKeyAt parent_page (pos + 1) k;
            let s := put_page s page_id (Internal page) in
            let s := put_page s right_brother_page_id (Internal right_brother_page) in
            Ok (put_page s parent_id (Internal parent_page))
        else
          left_brother_page_id ← InternalPage.ValueAt parent_page (pos - 1);
          left ← FetchPageWrite s (write_set_ ctx ++ held) left_brother_page_id;
          left_brother_page ← AsInternal left;
          let merge_size := InternalPage.GetSize left_brother_page + InternalPage.GetSize page in
          if merge_size <=? InternalPage.GetMaxSize left_brother_page then
            left_brother_page ← internal_merge left_brother_page page merge_size;
            let s := put_page s left_brother_page_id (Internal left_brother_page) in
            RemoveFromParent parent_index s pos ctx (left_brother_page_id :: held)
          else
            '(page, left_brother_page) ← internal_borrow_left page left_brother_page;
            k ← InternalPage.KeyAt page 0;
            parent_page ← InternalPage.SetKeyAt parent_page pos k;
            let s := put_page s page_id (Internal page) in
            let s := put_page s left_brother_page_id (Internal left_brother_page) in
            Ok (put_page s parent_id (Internal parent_page))
    end.

Lemma RemoveFromParent_unfold (index : nat) (s : BufferPool) (valueIndex : Z) (ctx : Context)
    (held : list Z) :
  RemoveFromParent index s valueIndex ctx held
  = (page_id ← guard_at (write_set_ ctx) index;
     page ← guarded_page s page_id;
     page ← AsInternal page;
     page ← internal_remove_at page valueIndex;
     let s := put_page s page_id (Internal page) in
     if InternalPage.GetMinSize page <=? InternalPage.GetSize page then Ok s
     else internal_underflow index s ctx held page_id page).
Proof. destruct index; reflexivity. Qed.

(** The continuation of a removal whose page [id] has underflowed. *)
Definition underflow (n : nat) (s : BufferPool) (key : Z) (ctx : Context) (held : list Z)
    (id : Z) (page : Page) : Result BufferPool :=
  match page with
  | Leaf p => leaf_underflow s key ctx id p
  | Internal p => internal_underflow n s ctx held id p
  end.

Lemma frame_refl (X : list Z) (s : BufferPool) : pool_ok s -> frame X s s.
Proof. intros H. split; [reflexivity|]. split; [lia|]. split; [reflexivity | exact H]. Qed.

Lemma frame_trans (X : list Z) (s s1 s2 : BufferPool) :
  frame X s s1 -> frame X s1 s2 -> frame X s s2.
Proof.
  intros (H1 & H2 & H3 & H4) (G1 & G2 & G3 & G4).
  split; [congruence|]. split; [lia|]. split; [|exact G4].
  intros id Hid Hlt. rewrite G3 by (try assumption; lia). apply H3; assumption.
Qed.

(** ** Facts about slot lists *)

Lemma slots_write (a : list (Z * Z)) (n i : Z) (x : Z * Z) :
  0 <= i < n -> slots (write_nth (Z.to_nat i) x a) n = <[Z.to_nat i := x]> (slots a n).
Proof.
  intros Hi. apply list_eq. intros j.
  destruct (decide (j < Z.to_nat n)%nat) as [Hj|Hj].
  - replace j with (Z.to_nat (Z.of_nat j)) at 1 by lia.
    rewrite lookup_slots by lia. rewrite get_write by lia.
    destruct (Z.eqb_spec i (Z.of_nat j)) as [E|E].
    + subst i. rewrite Nat2Z.id. rewrite list_lookup_insert_eq; [reflexivity|].
      rewrite length_slots. lia.
    + rewrite list_lookup_insert_ne by lia.
      replace j with (Z.to_nat (Z.of_nat j)) at 2 by lia.
      rewrite lookup_slots by lia. reflexivity.
  - rewrite !lookup_ge_None_2; [reflexivity | |].
    + rewrite length_insert, length_slots. lia.
    + rewrite length_slots. lia.
Qed.

Lemma insert_second {A : Type} (l1 l2 : list A) (x y z : A) :
  <[S (length l1) := z]> (l1 ++ x :: y :: l2) = l1 ++ x :: z :: l2.
Proof.
  rewrite insert_app_r_alt by lia. replace (S (length l1) - length l1)%nat with 1%nat by lia.
  reflexivity.
Qed.

Lemma delete_second {A : Type} (l1 l2 : list A) (x y : A) :
  take (S (length l1)) (l1 ++ x :: y :: l2) ++ drop (S (S (length l1))) (l1 ++ x :: y :: l2)
  = l1 ++ x :: l2.
Proof.
  rewrite take_app_ge by lia. rewrite drop_app_ge by lia.
  replace (S (length l1) - length l1)%nat with 1%nat by lia.
  replace (S (S (length l1)) - length l1)%nat with 2%nat by lia.
  simpl. rewrite <- app_assoc. reflexivity.
Qed.

Lemma NoDup_child_ids (sl : list (Z * tree)) :
  NoDup (ids_of sl) -> NoDup (map (fun kc => tid (snd kc)) sl).
Proof.
  induction sl as [|kc sl IH]; intros H; [constructor|].
  rewrite ids_of_cons in H. apply NoDup_app in H as (H1 & H2 & H3).
  simpl. apply NoDup_cons. split; [|apply IH; exact H3].
  intros Hin. apply list_elem_of_fmap in Hin as (kc' & E & Hin).
  apply (H2 (tid (snd kc))); [apply tid_in_ids|].
  apply elem_of_ids_of. exists kc'. split; [exact Hin|]. rewrite E. apply tid_in_ids.
Qed.

Lemma ValueIndex_from_spec (a : list (Z * Z)) (child : Z) (i : Z) (n : nat) (j : Z) :
  0 <= j <= i -> i < j + Z.of_nat n ->
  snd (get a i) = child ->
  (forall j', j <= j' < i -> snd (get a j') <> child) ->
  InternalPage.ValueIndex_from n j a child = i.
Proof.
  revert j. induction n as [|n IH]; intros j Hj Hi Hat Hbefore; [lia|].
  simpl. fold (get a j).
  destruct (Z.eqb_spec (snd (get a j)) child) as [E|E].
  - destruct (decide (j = i)) as [->|Hne]; [reflexivity|].
    exfalso. apply (Hbefore j); [lia | exact E].
  - apply IH; [|lia | exact Hat | intros; apply Hbefore; lia].
    destruct (decide (j = i)) as [->|Hne]; [congruence | lia].
Qed.

Lemma ValueIndex_spec (P : InternalPage.t) (spre spost : list (Z * tree)) (kc : Z * tree) :
  InternalPage.size_ P = Z.of_nat (length (spre ++ kc :: spost)) ->
  internal_slots P = map slot_of (spre ++ kc :: spost) ->
  NoDup (ids_of (spre ++ kc :: spost)) ->
  InternalPage.ValueIndex P (tid (snd kc)) = Z.of_nat (length spre).
Proof.
  intros Hsize Hslots Hnd. unfold InternalPage.ValueIndex.
  pose proof Hsize as Hsize'. rewrite length_app in Hsize'. simpl in Hsize'.
  apply NoDup_child_ids in Hnd.
  apply ValueIndex_from_spec; [lia | rewrite Hsize'; lia | |].
  - rewrite (node_slot P _ _ kc Hsize Hslots (app_lookup_middle _ _ _)).
    reflexivity.
  - intros j' Hj' E.
    assert (Hl : (spre ++ kc :: spost) !! Z.to_nat j' = spre !! Z.to_nat j').
    { apply lookup_app_l. lia. }
    destruct (spre !! Z.to_nat j') as [kc'|] eqn:Hkc'.
    2:{ apply lookup_ge_None in Hkc'. lia. }
    pose proof (node_slot P _ _ kc' Hsize Hslots Hl) as Hg.
    rewrite Z2Nat.id in Hg by lia. rewrite Hg in E. simpl in E.
    assert (Z.to_nat j' = length spre); [|lia].
    eapply (NoDup_lookup _ _ _ (tid (snd kc)) Hnd).
    + rewrite list_lookup_fmap, Hl. simpl. rewrite E. reflexivity.
    + rewrite list_lookup_fmap, app_lookup_middle. reflexivity.
Qed.

Section RemoveProof.

Variable leaf_max_size_ : Z.
Variable internal_max_size_ : Z.
Hypothesis leaf_max_ge : (2 <=? leaf_max_size_) && (leaf_max_size_ <? LEAF_PAGE_SIZE) = true.
Hypothesis internal_max_ge :
  (3 <=? internal_max_size_) && (internal_max_size_ <=? INTERNAL_PAGE_SIZE) = true.

Local Abbreviation good := (good leaf_max_size_ internal_max_size_).
Local Abbreviation weak := (weak leaf_max_size_ internal_max_size_).
Local Abbreviation rep := (rep leaf_max_size_ internal_max_size_).
Local Abbreviation node_at := (node_at leaf_max_size_ internal_max_size_).

(** The tree [t'] on the pages of [s'] is the subtree [t] of [s] without
    the entry of [key]. *)
Definition rem_core (s s' : BufferPool) (h : nat) (t : tree) (key : Z) (t' : tree) : Prop :=
  rep (pages_ s') h t' /\ tid t' = tid t /\ NoDup (ids t') /\
  (forall x, x ∈ ids t' -> x ∈ ids t) /\
  (exists v, t_kvs t ≡ₚ (key, v) :: t_kvs t') /\
  frame (ids t) s s'.

(** The subtree [t] lost the entry of [key] and is still well-formed. *)
Definition rem_done (s s' : BufferPool) (h : nat) (lo hi : option Z) (t : tree) (key : Z)
    : Prop :=
  exists t', rem_core s s' h t key t' /\ good h lo hi t'.

(** The subtree [t] lost the entry of [key]; its root page, now [page1]
    holding [t1], is below its minimum size. *)
Definition rem_under (s s1 : BufferPool) (h : nat) (lo hi : option Z) (t : tree) (key : Z)
    (t1 : tree) (page1 : Page) : Prop :=
  rem_core s s1 h t key t1 /\ weak h lo hi t1 /\
  pages_ s1 !! tid t = Some page1 /\ GetSize page1 < GetMinSize page1.

(** The ways a removal below the write-set prefix [pre] can end. *)
Definition remove_outcome (fuel : nat) (s : BufferPool) (key : Z)
    (hdr : option Z) (root : Z) (pre : list Z) (h : nat) (lo hi : option Z) (t : tree) : Prop :=
  let ctx := {| header_page_ := hdr; root_page_id_ := root;
                write_set_ := pre ++ [tid t]; read_set_ := [] |} in
  (key ∉ (t_kvs t).*1 -> remove_from fuel s key ctx = Ok s) /\
  (key ∈ (t_kvs t).*1 ->
     (exists s', remove_from fuel s key ctx = Ok s' /\ rem_done s s' h lo hi t key) \/
     (exists s1 t1 rest held page page1,
        pages_ s !! tid t = Some page /\ IsSafePage page OpRemove false = false /\
        remove_from fuel s key ctx
        = underflow (length pre) s1 key
            {| header_page_ := hdr; root_page_id_ := root;
               write_set_ := pre ++ tid t :: rest; read_set_ := [] |} held (tid t) page1 /\
        rem_under s s1 h lo hi t key t1 page1 /\
        GetSize page1 = GetSize page - 1 /\
        (h = O -> rest = []) /\
        (forall x, x ∈ rest ++ held -> x ∈ ids t /\ x <> tid t))).

Lemma remove_leaf_spec (fuel : nat) (s : BufferPool) (key : Z) (hdr : option Z) (root : Z)
    (pre : list Z) (lo hi : option Z) (id : Z) (kvs : list (Z * Z)) :
  pool_ok s -> rep (pages_ s) 0 (TLeaf id kvs) -> good 0 lo hi (TLeaf id kvs) ->
  remove_outcome fuel s key hdr root pre 0 lo hi (TLeaf id kvs).
Proof.
  intros Hpool (p & Hp & Hmax & Hsize & Hslots) [[Hsort Hrange] Hlen].
  unfold remove_outcome. simpl tid. simpl t_kvs. cbv zeta.
  set (ctx := {| header_page_ := hdr; root_page_id_ := root;
                 write_set_ := pre ++ [id]; read_set_ := [] |}).
  assert (Hback : back (write_set_ ctx) = Ok id) by apply back_snoc.
  destruct (leaf_search p kvs key Hsize ltac:(lia) Hslots Hsort) as (r & Hfind & Hr & Hat & Htake & Hdrop).
  assert (Hat' : r = -1 \/ exists kv, 0 <= r /\ kvs !! Z.to_nat r = Some kv /\ fst kv <= key).
  { destruct Hat as [->|(kv & ? & ? & _ & _ & ?)]; [left; reflexivity | right; eauto]. }
  pose proof (leaf_search_found p kvs key r Hsort Htake Hdrop Hat') as Hfound.
  assert (Hrun : remove_from fuel s key ctx
                 = (found ← (if r =? -1 then Ok false
                             else k ← LeafPage.KeyAt p r; Ok (comparator_ k key =? 0));
                    if negb found then Ok s
                    else
                      leaf_page ← leaf_remove_at p r;
                      let s := put_page s id (Leaf leaf_page) in
                      if LeafPage.GetMinSize leaf_page <=? LeafPage.GetSize leaf_page then Ok s
                      else leaf_underflow s key ctx id leaf_page)).
  { unfold remove_from. rewrite (FindLeafPage_write_leaf fuel s key OpRemove ctx id p Hback Hp).
    rewrite bind_Ok_l. unfold Remove_at_leaf. rewrite Hback, bind_Ok_l.
    rewrite (guarded_page_Ok _ _ _ Hp), bind_Ok_l. simpl AsLeaf. rewrite bind_Ok_l.
    rewrite Hfind, bind_Ok_l. reflexivity. }
  rewrite Hrun. clear Hrun. split.
  - intros Hnin.
    assert (Hf : (if r =? -1 then Ok false
                  else k ← LeafPage.KeyAt p r; Ok (comparator_ k key =? 0)) = Ok false).
    { destruct (Z.eqb_spec r (-1)); [reflexivity|].
      destruct Hat as [->|(kv' & Hr0 & Hkv' & HK & _)]; [lia|].
      rewrite HK, bind_Ok_l, comparator_eq. f_equal. apply Z.eqb_neq. intros E.
      apply Hnin. apply Hfound. exists kv'. tauto. }
    rewrite Hf, bind_Ok_l. reflexivity.
  - intros Hin. apply Hfound in Hin as (kv & Hr0 & Hkv & Hk).
    destruct Hat as [->|(kv' & _ & Hkv' & HK & _)]; [lia|].
    assert (kv' = kv) as -> by congruence.
    destruct (Z.eqb_spec r (-1)); [lia|]. rewrite HK, bind_Ok_l.
    rewrite comparator_eq, Hk, Z.eqb_refl, bind_Ok_l. simpl negb. cbv iota.
    destruct (leaf_remove_at_spec p r) as (p' & Hrem & Hs' & Hm' & Hn' & Hsl'); [lia | lia |].
    rewrite Hrem, bind_Ok_l. cbv beta zeta.
    rewrite Hslots in Hsl'. rewrite Hsize in Hs'. rewrite Hmax in Hm'.
    set (kvs' := take (Z.to_nat r) kvs ++ drop (Z.to_nat (r + 1)) kvs) in *.
    assert (Hsplit : kvs = take (Z.to_nat r) kvs ++ kv :: drop (Z.to_nat (r + 1)) kvs).
    { replace (Z.to_nat (r + 1)) with (S (Z.to_nat r)) by lia.
      symmetry. apply take_drop_middle. exact Hkv. }
    assert (Hlen' : Z.of_nat (length kvs') = Z.of_nat (length kvs) - 1).
    { unfold kvs'. rewrite length_app, length_take, length_drop. lia. }
    assert (Hord' : keys_ord lo hi kvs').
    { apply (keys_ord_remove lo hi _ _ kv). rewrite <- Hsplit. split; assumption. }
    assert (Hperm : kvs ≡ₚ (key, snd kv) :: kvs').
    { rewrite Hsplit at 1. rewrite <- Permutation_middle. rewrite <- Hk.
      destruct kv; reflexivity. }
    pose proof (pool_ok_lookup _ _ _ Hpool Hp) as Hid.
    pose proof min_size_leaf leaf_max_size_ leaf_max_ge as Hmin.
    assert (Hrep' : rep (pages_ (put_page s id (Leaf p'))) 0 (TLeaf id kvs')).
    { exists p'. simpl. rewrite lookup_insert_eq. repeat split; try assumption; lia. }
    assert (Hframe : frame [id] s (put_page s id (Leaf p'))).
    { apply frame_put; [apply frame_refl; exact Hpool | left | exact Hid]. }
    assert (Hcore : rem_core s (put_page s id (Leaf p')) 0 (TLeaf id kvs) key (TLeaf id kvs')).
    { split; [exact Hrep'|]. split; [reflexivity|]. split; [apply NoDup_singleton|].
      split; [intros x Hx; exact Hx|]. split; [exists (snd kv); exact Hperm | exact Hframe]. }
    unfold LeafPage.GetMinSize, LeafPage.GetSize. rewrite Hm', Hs'.
    destruct (Z.leb_spec (min_size_of leaf_max_size_) (Z.of_nat (length kvs) - 1)) as [Hok|Hlow].
    + left. eexists. split; [reflexivity|].
      exists (TLeaf id kvs'). split; [exact Hcore|]. split; [exact Hord' | lia].
    + right. exists (put_page s id (Leaf p')), (TLeaf id kvs'), [], [], (Leaf p), (Leaf p').
      split; [exact Hp|]. split.
      { simpl. unfold LeafPage.GetSize, LeafPage.GetMinSize. rewrite Hmax, Hsize.
        apply Z.ltb_ge. lia. }
      split; [reflexivity|]. split.
      { split; [exact Hcore|]. split; [split; [exact Hord' | lia]|].
        split; [simpl; apply lookup_insert_eq|].
        simpl. unfold LeafPage.GetSize, LeafPage.GetMinSize. rewrite Hm', Hs'. lia. }
      split; [simpl; unfold LeafPage.GetSize; lia|].
      split; [reflexivity|]. intros x Hx. inversion Hx.
Qed.

(** ** Two neighbouring children of a node *)

(** The node on page [id] of [s1] whose slots are [A], then the
    neighbours [L] and [R], then [B]: all children are well-formed except
    that [L] and [R] may be one entry short. *)
Record pair_at (s1 : BufferPool) (h : nat) (lo hi : option Z) (id : Z)
    (A : list (Z * tree)) (kL : Z) (L : tree) (kR : Z) (R : tree) (B : list (Z * tree))
    (P : InternalPage.t) : Prop := {
  pa_pool : pool_ok s1;
  pa_page : pages_ s1 !! id = Some (Internal P);
  pa_max : InternalPage.max_size_ P = internal_max_size_;
  pa_size : InternalPage.size_ P = Z.of_nat (length (A ++ (kL, L) :: (kR, R) :: B));
  pa_slots : internal_slots P = map slot_of (A ++ (kL, L) :: (kR, R) :: B);
  pa_repA : Forall (fun kc => rep (pages_ s1) h (snd kc)) A;
  pa_repL : rep (pages_ s1) h L;
  pa_repR : rep (pages_ s1) h R;
  pa_repB : Forall (fun kc => rep (pages_ s1) h (snd kc)) B;
  pa_key0 : key0_ok lo (A ++ (kL, L) :: (kR, R) :: B);
  pa_chainA : chain (good h) lo (Some kL) A;
  pa_weakL : weak h (lbound lo A (kL, L)) (Some kR) L;
  pa_weakR : weak h (Some kR) (next_bound hi B) R;
  pa_chainB : chain (good h) (next_bound hi B) hi B;
  pa_lo : ble_lo (lbound lo A (kL, L)) kR;
  pa_hi : ble_hi kR (next_bound hi B);
  pa_some : good h (lbound lo A (kL, L)) (Some kR) L \/ good h (Some kR) (next_bound hi B) R;
  pa_len : 2 <= Z.of_nat (length (A ++ (kL, L) :: (kR, R) :: B))
           <= Z.min internal_max_size_ INTERNAL_PAGE_SIZE;
  pa_nodup : NoDup (id :: ids_of (A ++ (kL, L) :: (kR, R) :: B))
}.

Lemma ids_of_pair (A B : list (Z * tree)) (kL kR : Z) (L R : tree) :
  ids_of (A ++ (kL, L) :: (kR, R) :: B) = ids_of A ++ (ids L ++ ids R) ++ ids_of B.
Proof. rewrite ids_of_app, !ids_of_cons. simpl. rewrite <- app_assoc. reflexivity. Qed.

Lemma kvs_of_pair (A B : list (Z * tree)) (kL kR : Z) (L R : tree) :
  kvs_of (A ++ (kL, L) :: (kR, R) :: B) = kvs_of A ++ (t_kvs L ++ t_kvs R) ++ kvs_of B.
Proof. rewrite kvs_of_app, !kvs_of_cons. simpl. rewrite <- app_assoc. reflexivity. Qed.

(** What the pages outside the pair look like once the pair has changed. *)
Lemma pair_outside (s1 s2 : BufferPool) (h : nat) (lo hi : option Z) (id : Z)
    (A : list (Z * tree)) (kL : Z) (L : tree) (kR : Z) (R : tree) (B : list (Z * tree))
    (P : InternalPage.t) :
  pair_at s1 h lo hi id A kL L kR R B P ->
  frame (ids L ++ ids R) s1 s2 ->
  pages_ s2 !! id = Some (Internal P) /\
  0 <= id < next_page_id_ s2 /\
  Forall (fun kc => rep (pages_ s2) h (snd kc)) A /\
  Forall (fun kc => rep (pages_ s2) h (snd kc)) B /\
  (id ∉ ids_of A) /\ (id ∉ ids L ++ ids R) /\ (id ∉ ids_of B) /\
  NoDup ((id :: ids_of A) ++ (ids L ++ ids R) ++ ids_of B).
Proof.
  intros [Hpool Hpage Hmax Hsize Hslots HrA HrL HrR HrB Hk0 HcA HwL HwR HcB Hlo Hhi Hsome Hlen Hnd]
         (Hroot & Hnext & Hpages & Hpool2).
  rewrite ids_of_pair in Hnd.
  pose proof Hnd as Hnd'. apply NoDup_cons in Hnd' as [Hid Hnd'].
  apply NoDup_app in Hnd' as (HndA & HAC & Hnd').
  apply NoDup_app in Hnd' as (HndC & HCB & HndB).
  pose proof (pool_ok_lookup _ _ _ Hpool Hpage) as Hidlt.
  rewrite !elem_of_app in Hid.
  assert (Hp2 : pages_ s2 !! id = Some (Internal P)).
  { rewrite Hpages; [exact Hpage | rewrite elem_of_app; tauto | lia]. }
  split; [exact Hp2|]. split; [exact (pool_ok_lookup _ _ _ Hpool2 Hp2)|].
  split.
  { rewrite Forall_forall in *. intros kc Hin. eapply rep_frame; [|apply HrA; exact Hin].
    intros x Hx. assert (HxA : x ∈ ids_of A) by (apply elem_of_ids_of; eauto).
    apply Hpages.
    - intros HxC. apply (HAC x HxA). apply elem_of_app. left. exact HxC.
    - apply (Forall_rep_in_dom leaf_max_size_ internal_max_size_ s1 h A x Hpool);
        [apply Forall_forall; exact HrA | exact HxA]. }
  split.
  { rewrite Forall_forall in *. intros kc Hin. eapply rep_frame; [|apply HrB; exact Hin].
    intros x Hx. assert (HxB : x ∈ ids_of B) by (apply elem_of_ids_of; eauto).
    apply Hpages.
    - intros HxC. apply (HCB x HxC HxB).
    - apply (Forall_rep_in_dom leaf_max_size_ internal_max_size_ s1 h B x Hpool);
        [apply Forall_forall; exact HrB | exact HxB]. }
  split; [tauto|]. split; [rewrite !elem_of_app in *; tauto|]. split; [tauto|].
  exact Hnd.
Qed.

(** The right neighbour has been folded into the left one: slot
    [length A + 1] leaves the node. *)
Lemma merge_parent (s1 s2 : BufferPool) (h : nat) (lo hi : option Z) (id : Z)
    (A : list (Z * tree)) (kL : Z) (L : tree) (kR : Z) (R : tree) (B : list (Z * tree))
    (P : InternalPage.t) (cm : tree) (n : nat) (ctx : Context) (held : list Z) :
  pair_at s1 h lo hi id A kL L kR R B P ->
  frame (ids L ++ ids R) s1 s2 ->
  rep (pages_ s2) h cm -> tid cm = tid L ->
  good h (lbound lo A (kL, L)) (next_bound hi B) cm ->
  NoDup (ids cm) -> (forall x, x ∈ ids cm -> x ∈ ids L ++ ids R) ->
  t_kvs cm = t_kvs L ++ t_kvs R ->
  write_set_ ctx !! n = Some id ->
  exists P',
    rep (pages_ (put_page s2 id (Internal P'))) (S h) (TNode id (A ++ (kL, cm) :: B)) /\
    weak (S h) lo hi (TNode id (A ++ (kL, cm) :: B)) /\
    NoDup (ids (TNode id (A ++ (kL, cm) :: B))) /\
    (forall x, x ∈ ids (TNode id (A ++ (kL, cm) :: B)) ->
       x ∈ id :: ids_of (A ++ (kL, L) :: (kR, R) :: B)) /\
    t_kvs (TNode id (A ++ (kL, cm) :: B)) = kvs_of (A ++ (kL, L) :: (kR, R) :: B) /\
    frame (id :: ids_of (A ++ (kL, L) :: (kR, R) :: B)) s1 (put_page s2 id (Internal P')) /\
    InternalPage.size_ P' = InternalPage.size_ P - 1 /\
    InternalPage.max_size_ P' = internal_max_size_ /\
    RemoveFromParent n s2 (Z.of_nat (length A) + 1) ctx held
    = if min_size_of internal_max_size_ <=? InternalPage.size_ P'
      then Ok (put_page s2 id (Internal P'))
      else internal_underflow n (put_page s2 id (Internal P')) ctx held id P'.
Proof.
  intros PA Hframe Hrcm Htid Hgcm Hndcm Hsub Hkvs Hws.
  destruct (pair_outside _ _ _ _ _ _ _ _ _ _ _ _ _ PA Hframe)
    as (Hp2 & Hid2 & HrA2 & HrB2 & HidA & HidC & HidB & Hnd).
  destruct PA as [Hpool Hpage Hmax Hsize Hslots HrA HrL HrR HrB Hk0 HcA HwL HwR HcB Hlo Hhi Hsome Hlen _].
  rewrite length_app in Hsize, Hlen. simpl in Hsize, Hlen.
  destruct (internal_remove_at_spec P (Z.of_nat (length A) + 1)) as (P' & Hrem & Hs' & Hm' & Hsl');
    [lia | lia |].
  exists P'.
  assert (Hslots' : internal_slots P' = map slot_of (A ++ (kL, cm) :: B)).
  { rewrite Hsl', Hslots.
    replace (Z.to_nat (Z.of_nat (length A) + 1)) with (S (length (map slot_of A)))
      by (rewrite length_map; lia).
    replace (Z.to_nat (Z.of_nat (length A) + 1 + 1)) with (S (S (length (map slot_of A))))
      by (rewrite length_map; lia).
    rewrite !map_app. simpl map. rewrite delete_second.
    rewrite (slot_of_same_id kL L cm Htid). reflexivity. }
  assert (Hidcm : id ∉ ids cm) by (intros Hx; apply HidC; apply Hsub; exact Hx).
  split.
  { exists P'. simpl. rewrite lookup_insert_eq. split; [reflexivity|].
    split; [congruence|]. split; [rewrite Hs', Hsize, length_app; simpl; lia|].
    split; [exact Hslots'|].
    apply Forall_rep_put_other.
    - rewrite ids_of_app, ids_of_cons. simpl snd. rewrite !elem_of_app. tauto.
    - apply Forall_app. split; [exact HrA2|]. constructor; [exact Hrcm | exact HrB2]. }
  split.
  { split; [eapply (key0_ok_middle lo A _ _ (kL, L)); [|exact Hk0]; reflexivity|].
    split.
    - apply chain_middle. split; [exact HcA|]. split; [|exact HcB].
      simpl. rewrite (lbound_fst lo A (kL, L) (kL, cm)) by reflexivity. exact Hgcm.
    - rewrite length_app. simpl. lia. }
  split.
  { rewrite ids_node_middle. simpl snd.
    apply (NoDup_replace_middle _ (ids L ++ ids R)); [exact Hnd | exact Hndcm |].
    intros x Hx. left. apply Hsub. exact Hx. }
  split.
  { intros x Hx. rewrite ids_node_middle in Hx. simpl snd in Hx. rewrite ids_of_pair.
    change (id :: ids_of A ++ (ids L ++ ids R) ++ ids_of B)
      with ((id :: ids_of A) ++ (ids L ++ ids R) ++ ids_of B).
    rewrite !elem_of_app in *. destruct Hx as [Hx|[Hx|Hx]]; [tauto | | tauto].
    apply Hsub in Hx. rewrite elem_of_app in Hx. tauto. }
  split.
  { rewrite kvs_node_middle, kvs_of_pair. simpl snd. rewrite Hkvs. reflexivity. }
  split.
  { apply frame_put; [| left | exact Hid2].
    eapply frame_weaken; [|exact Hframe]. intros x Hx. right. rewrite ids_of_pair.
    rewrite !elem_of_app in *. tauto. }
  split; [exact Hs'|]. split; [congruence|].
  rewrite RemoveFromParent_unfold.
  rewrite (guard_at_Ok _ _ _ Hws), bind_Ok_l.
  rewrite (guarded_page_Ok _ _ _ Hp2), bind_Ok_l. simpl AsInternal. rewrite bind_Ok_l.
  rewrite Hrem, bind_Ok_l. cbv beta zeta.
  unfold InternalPage.GetMinSize, InternalPage.GetSize. rewrite Hm', Hmax. reflexivity.
Qed.

(** An entry has moved between the neighbours: the key of slot
    [length A + 1] becomes the first key of the right one. *)
Lemma borrow_parent (s1 s2 : BufferPool) (h : nat) (lo hi : option Z) (id : Z)
    (A : list (Z * tree)) (kL : Z) (L : tree) (kR : Z) (R : tree) (B : list (Z * tree))
    (P : InternalPage.t) (L' R' : tree) (k' : Z) :
  pair_at s1 h lo hi id A kL L kR R B P ->
  frame (ids L ++ ids R) s1 s2 ->
  rep (pages_ s2) h L' -> rep (pages_ s2) h R' -> tid L' = tid L -> tid R' = tid R ->
  good h (lbound lo A (kL, L)) (Some k') L' -> good h (Some k') (next_bound hi B) R' ->
  NoDup (ids L' ++ ids R') -> (forall x, x ∈ ids L' ++ ids R' -> x ∈ ids L ++ ids R) ->
  t_kvs L' ++ t_kvs R' = t_kvs L ++ t_kvs R ->
  exists P', InternalPage.SetKeyAt P (Z.of_nat (length A) + 1) k' = Ok P' /\
    rep (pages_ (put_page s2 id (Internal P'))) (S h) (TNode id (A ++ (kL, L') :: (k', R') :: B)) /\
    good (S h) lo hi (TNode id (A ++ (kL, L') :: (k', R') :: B)) /\
    NoDup (ids (TNode id (A ++ (kL, L') :: (k', R') :: B))) /\
    (forall x, x ∈ ids (TNode id (A ++ (kL, L') :: (k', R') :: B)) ->
       x ∈ id :: ids_of (A ++ (kL, L) :: (kR, R) :: B)) /\
    t_kvs (TNode id (A ++ (kL, L') :: (k', R') :: B)) = kvs_of (A ++ (kL, L) :: (kR, R) :: B) /\
    frame (id :: ids_of (A ++ (kL, L) :: (kR, R) :: B)) s1 (put_page s2 id (Internal P')).
Proof.
  intros PA Hframe HrL' HrR' HtL HtR HgL HgR Hnd' Hsub Hkvs.
  destruct (pair_outside _ _ _ _ _ _ _ _ _ _ _ _ _ PA Hframe)
    as (Hp2 & Hid2 & HrA2 & HrB2 & HidA & HidC & HidB & Hnd).
  destruct PA as [Hpool Hpage Hmax Hsize Hslots HrA HrL HrR HrB Hk0 HcA HwL HwR HcB Hlo Hhi Hsome Hlen _].
  pose proof Hsize as Hsize0. pose proof Hlen as Hlen0.
  rewrite length_app in Hsize, Hlen. simpl in Hsize, Hlen.
  rewrite InternalPage_SetKeyAt_Ok by len_lia.
  eexists. split; [reflexivity|].
  assert (Hval : snd (get (InternalPage.array_ P) (Z.of_nat (length A) + 1)) = tid R).
  { replace (Z.of_nat (length A) + 1) with (Z.of_nat (S (length A))) by lia.
    rewrite (node_slot P _ _ (kR, R) Hsize0 Hslots); [reflexivity|].
    rewrite lookup_app_r by lia. replace (S (length A) - length A)%nat with 1%nat by lia.
    reflexivity. }
  rewrite Hval.
  assert (HidC' : id ∉ ids L' ++ ids R') by (intros Hx; apply HidC; apply Hsub; exact Hx).
  split.
  { eexists. simpl pages_. rewrite lookup_insert_eq. split; [reflexivity|].
    simpl. split; [exact Hmax|]. split; [rewrite Hsize, !length_app; simpl; lia|].
    split.
    { unfold internal_slots. simpl. rewrite slots_write by lia.
      fold (internal_slots P). rewrite Hslots.
      replace (Z.to_nat (Z.of_nat (length A) + 1)) with (S (length (map slot_of A)))
        by (rewrite length_map; lia).
      rewrite !map_app. simpl map. rewrite insert_second.
      rewrite (slot_of_same_id kL L L' HtL). unfold slot_of. simpl. rewrite HtR.
      reflexivity. }
    apply Forall_rep_put_other.
    - rewrite ids_of_pair. rewrite !elem_of_app in *. tauto.
    - apply Forall_app. split; [exact HrA2|]. constructor; [exact HrL'|].
      constructor; [exact HrR' | exact HrB2]. }
  split.
  { split; [eapply (key0_ok_middle lo A _ _ (kL, L)); [|exact Hk0]; reflexivity|].
    split.
    - apply chain_middle. split; [exact HcA|]. split.
      + simpl. rewrite (lbound_fst lo A (kL, L) (kL, L')) by reflexivity. exact HgL.
      + simpl. split; [exact HgR | exact HcB].
    - rewrite length_app. simpl. lia. }
  split.
  { simpl ids. fold (ids_of (A ++ (kL, L') :: (k', R') :: B)). rewrite ids_of_pair.
    change (id :: ids_of A ++ (ids L' ++ ids R') ++ ids_of B)
      with ((id :: ids_of A) ++ (ids L' ++ ids R') ++ ids_of B).
    apply (NoDup_replace_middle _ (ids L ++ ids R)); [exact Hnd | exact Hnd' |].
    intros x Hx. left. apply Hsub. exact Hx. }
  split.
  { intros x Hx. simpl ids in Hx. fold (ids_of (A ++ (kL, L') :: (k', R') :: B)) in Hx.
    rewrite ids_of_pair in Hx. rewrite ids_of_pair.
    apply elem_of_cons in Hx as [->|Hx]; [left|]. right.
    rewrite !elem_of_app in Hx. rewrite (elem_of_app (ids_of A)), (elem_of_app _ (ids_of B)).
    destruct Hx as [Hx|[Hx|Hx]]; [tauto | | tauto].
    right. left. apply Hsub. rewrite elem_of_app. exact Hx. }
  split.
  { simpl t_kvs. fold (kvs_of (A ++ (kL, L') :: (k', R') :: B)). rewrite !kvs_of_pair.
    rewrite Hkvs. reflexivity. }
  apply frame_put; [| left | exact Hid2].
  eapply frame_weaken; [|exact Hframe]. intros x Hx. right. rewrite ids_of_pair.
  rewrite !elem_of_app in *. tauto.
Qed.

(** ** From a node and its shrunken child to a pair *)

Lemma pair_intro (s s1 : BufferPool) (h : nat) (lo hi : option Z) (id : Z)
    (A : list (Z * tree)) (kL : Z) (L : tree) (kR : Z) (R : tree) (B : list (Z * tree))
    (L1 R1 : tree) (P : InternalPage.t) :
  node_at s h lo hi id A (kL, L) ((kR, R) :: B) P ->
  frame (ids L ++ ids R) s s1 ->
  rep (pages_ s1) h L1 -> rep (pages_ s1) h R1 -> tid L1 = tid L -> tid R1 = tid R ->
  weak h (lbound lo A (kL, L)) (Some kR) L1 -> weak h (Some kR) (next_bound hi B) R1 ->
  good h (lbound lo A (kL, L)) (Some kR) L1 \/ good h (Some kR) (next_bound hi B) R1 ->
  NoDup (ids L1 ++ ids R1) -> (forall x, x ∈ ids L1 ++ ids R1 -> x ∈ ids L ++ ids R) ->
  pair_at s1 h lo hi id A kL L1 kR R1 B P.
Proof.
  intros [Hpool Hpage Hmax Hsize Hslots Hchildren Hkey0 Hchain Hlen Hnodup]
         Hframe HrL1 HrR1 HtL HtR HwL HwR Hsome Hnd1 Hsub.
  pose proof Hframe as (Hroot & Hnext & Hpages & Hpool1).
  assert (Hrep : rep (pages_ s) (S h) (TNode id (A ++ (kL, L) :: (kR, R) :: B))).
  { exists P. repeat split; assumption. }
  assert (Hold : forall x, x ∈ ids (TNode id (A ++ (kL, L) :: (kR, R) :: B)) ->
                           x < next_page_id_ s).
  { intros x Hx. apply (rep_old_ids leaf_max_size_ internal_max_size_ _ _ _ _ Hpool Hrep Hx). }
  pose proof Hnodup as Hnd. simpl ids in Hnd, Hold.
  fold (ids_of (A ++ (kL, L) :: (kR, R) :: B)) in Hnd, Hold.
  rewrite ids_of_pair in Hnd, Hold.
  change (id :: ids_of A ++ (ids L ++ ids R) ++ ids_of B)
    with ((id :: ids_of A) ++ (ids L ++ ids R) ++ ids_of B) in Hnd, Hold.
  pose proof Hnd as Hnd'.
  apply NoDup_app in Hnd' as (HndA & HAC & Hnd').
  apply NoDup_app in Hnd' as (HndC & HCB & HndB).
  assert (HAC' : forall x, x ∈ id :: ids_of A -> x ∉ ids L ++ ids R).
  { intros x H1 H2. apply (HAC x H1). apply elem_of_app. left. exact H2. }
  apply chain_middle in Hchain as (HcA & HgL & HcB). simpl in HcB. destruct HcB as [HgR HcB].
  simpl in HgL.
  apply Forall_app in Hchildren as [HrA HrB]. apply Forall_inv_tail, Forall_inv_tail in HrB.
  constructor.
  - exact Hpool1.
  - rewrite Hpages; [exact Hpage | | apply Hold; left].
    intros Hx. apply (HAC' id); [left | exact Hx].
  - exact Hmax.
  - rewrite Hsize, !length_app. reflexivity.
  - rewrite Hslots, !map_app. simpl.
    rewrite (slot_of_same_id kL L L1 HtL), (slot_of_same_id kR R R1 HtR). reflexivity.
  - rewrite Forall_forall in *. intros kc Hin. eapply rep_frame; [|apply HrA; exact Hin].
    intros x Hx. assert (HxA : x ∈ id :: ids_of A) by (right; apply elem_of_ids_of; eauto).
    apply Hpages; [intros HxC; exact (HAC' x HxA HxC)|].
    apply Hold. apply elem_of_app. left. exact HxA.
  - exact HrL1.
  - exact HrR1.
  - rewrite Forall_forall in *. intros kc Hin. eapply rep_frame; [|apply HrB; exact Hin].
    intros x Hx. assert (HxB : x ∈ ids_of B) by (apply elem_of_ids_of; eauto).
    apply Hpages; [intros HxC; exact (HCB x HxC HxB)|].
    apply Hold. rewrite !elem_of_app. tauto.
  - eapply (key0_ok_middle lo A _ _ (kL, L)); [|exact Hkey0]. reflexivity.
  - exact HcA.
  - rewrite (lbound_fst lo A (kL, L) (kL, L1)) by reflexivity. exact HwL.
  - exact HwR.
  - exact HcB.
  - rewrite (lbound_fst lo A (kL, L) (kL, L1)) by reflexivity.
    destruct (good_bounds _ _ _ _ _ _ HgL) as (k & [Hl Hu] & _).
    unfold ble_lo. destruct (lbound lo A (kL, L)); [lia | exact I].
  - destruct (good_bounds _ _ _ _ _ _ HgR) as (k & [Hl Hu] & _).
    unfold ble_hi. destruct (next_bound hi B); [lia | exact I].
  - rewrite (lbound_fst lo A (kL, L) (kL, L1)) by reflexivity. exact Hsome.
  - rewrite !length_app in *. simpl in *. exact Hlen.
  - rewrite ids_of_pair.
    change (id :: ids_of A ++ (ids L1 ++ ids R1) ++ ids_of B)
      with ((id :: ids_of A) ++ (ids L1 ++ ids R1) ++ ids_of B).
    apply (NoDup_replace_middle _ (ids L ++ ids R)); [exact Hnd | exact Hnd1 |].
    intros x Hx. left. apply Hsub. exact Hx.
Qed.

Lemma node_pair_facts (s : BufferPool) (h : nat) (lo hi : option Z) (id : Z)
    (A : list (Z * tree)) (kL : Z) (L : tree) (kR : Z) (R : tree) (B : list (Z * tree))
    (P : InternalPage.t) :
  node_at s h lo hi id A (kL, L) ((kR, R) :: B) P ->
  rep (pages_ s) h L /\ rep (pages_ s) h R /\
  good h (lbound lo A (kL, L)) (Some kR) L /\ good h (Some kR) (next_bound hi B) R /\
  NoDup (ids L ++ ids R) /\
  (forall x, x ∈ ids L ++ ids R -> 0 <= x < next_page_id_ s).
Proof.
  intros [Hpool Hpage Hmax Hsize Hslots Hchildren Hkey0 Hchain Hlen Hnodup].
  assert (Hrep : rep (pages_ s) (S h) (TNode id (A ++ (kL, L) :: (kR, R) :: B))).
  { exists P. repeat split; assumption. }
  apply chain_middle in Hchain as (HcA & HgL & HcB). simpl in HcB. destruct HcB as [HgR HcB].
  apply Forall_app in Hchildren as [HrA HrB].
  pose proof (Forall_inv HrB) as HrL. apply Forall_inv_tail in HrB.
  pose proof (Forall_inv HrB) as HrR.
  simpl ids in Hnodup. fold (ids_of (A ++ (kL, L) :: (kR, R) :: B)) in Hnodup.
  rewrite ids_of_pair in Hnodup. apply NoDup_cons in Hnodup as [_ Hnd].
  apply NoDup_app in Hnd as (_ & _ & Hnd). apply NoDup_app in Hnd as (Hnd & _ & _).
  split; [exact HrL|]. split; [exact HrR|]. split; [exact HgL|]. split; [exact HgR|].
  split; [exact Hnd|].
  intros x Hx. apply (rep_old_ids leaf_max_size_ internal_max_size_ _ _ _ _ Hpool Hrep).
  simpl. fold (ids_of (A ++ (kL, L) :: (kR, R) :: B)). rewrite ids_of_pair. right.
  rewrite !elem_of_app in *. tauto.
Qed.

(** The shrunken child is the left one of the pair. *)
Lemma pair_right (s s1 : BufferPool) (h : nat) (lo hi : option Z) (id : Z)
    (A : list (Z * tree)) (kL : Z) (c : tree) (kR : Z) (R : tree) (B : list (Z * tree))
    (P : InternalPage.t) (key : Z) (c1 : tree) :
  node_at s h lo hi id A (kL, c) ((kR, R) :: B) P ->
  rem_core s s1 h c key c1 ->
  weak h (lbound lo A (kL, c)) (Some kR) c1 ->
  pair_at s1 h lo hi id A kL c1 kR R B P.
Proof.
  intros N (Hr1 & Ht1 & Hnd1 & Hsub1 & _ & Hframe) Hw1.
  destruct (node_pair_facts _ _ _ _ _ _ _ _ _ _ _ _ N) as (HrL & HrR & HgL & HgR & Hnd & Hold).
  pose proof Hframe as (_ & _ & Hpages & _).
  apply NoDup_app in Hnd as (HndL & HLR & HndR).
  apply (pair_intro s s1 h lo hi id A kL c kR R B c1 R P N).
  - eapply frame_weaken; [|exact Hframe]. intros x Hx. apply elem_of_app. left. exact Hx.
  - exact Hr1.
  - eapply rep_frame; [|exact HrR]. intros x Hx. apply Hpages.
    + intros HxL. exact (HLR x HxL Hx).
    + apply Hold. apply elem_of_app. right. exact Hx.
  - exact Ht1.
  - reflexivity.
  - exact Hw1.
  - apply good_weak. exact HgR.
  - right. exact HgR.
  - apply NoDup_app. split; [exact Hnd1|]. split; [|exact HndR].
    intros x Hx HxR. exact (HLR x (Hsub1 x Hx) HxR).
  - intros x Hx. rewrite !elem_of_app in *. destruct Hx as [Hx|Hx]; [left; auto | right; exact Hx].
Qed.

(** The shrunken child is the right one of the pair. *)
Lemma pair_left (s s1 : BufferPool) (h : nat) (lo hi : option Z) (id : Z)
    (A : list (Z * tree)) (kL : Z) (L : tree) (kR : Z) (c : tree) (B : list (Z * tree))
    (P : InternalPage.t) (key : Z) (c1 : tree) :
  node_at s h lo hi id A (kL, L) ((kR, c) :: B) P ->
  rem_core s s1 h c key c1 ->
  weak h (Some kR) (next_bound hi B) c1 ->
  pair_at s1 h lo hi id A kL L kR c1 B P.
Proof.
  intros N (Hr1 & Ht1 & Hnd1 & Hsub1 & _ & Hframe) Hw1.
  destruct (node_pair_facts _ _ _ _ _ _ _ _ _ _ _ _ N) as (HrL & HrR & HgL & HgR & Hnd & Hold).
  pose proof Hframe as (_ & _ & Hpages & _).
  apply NoDup_app in Hnd as (HndL & HLR & HndR).
  apply (pair_intro s s1 h lo hi id A kL L kR c B L c1 P N).
  - eapply frame_weaken; [|exact Hframe]. intros x Hx. apply elem_of_app. right. exact Hx.
  - eapply rep_frame; [|exact HrL]. intros x Hx. apply Hpages.
    + intros HxR. exact (HLR x Hx HxR).
    + apply Hold. apply elem_of_app. left. exact Hx.
  - exact Hr1.
  - reflexivity.
  - exact Ht1.
  - apply good_weak. exact HgL.
  - exact Hw1.
  - left. exact HgL.
  - apply NoDup_app. split; [exact HndL|]. split; [|exact Hnd1].
    intros x Hx HxR. exact (HLR x Hx (Hsub1 x HxR)).
  - intros x Hx. rewrite !elem_of_app in *. destruct Hx as [Hx|Hx]; [left; exact Hx | right; auto].
Qed.

(** A result for the node with the shrunken child is a result for the
    node before the removal. *)
Lemma lift_core (s s1 s' : BufferPool) (h : nat) (lo hi : option Z) (id : Z)
    (spre : list (Z * tree)) (kc : Z * tree) (spost : list (Z * tree)) (P : InternalPage.t)
    (key : Z) (c1 t' : tree) :
  node_at s h lo hi id spre kc spost P ->
  rem_core s s1 h (snd kc) key c1 ->
  rep (pages_ s') (S h) t' -> tid t' = id -> NoDup (ids t') ->
  (forall x, x ∈ ids t' -> x ∈ id :: ids_of (spre ++ (fst kc, c1) :: spost)) ->
  t_kvs t' = kvs_of (spre ++ (fst kc, c1) :: spost) ->
  frame (id :: ids_of (spre ++ (fst kc, c1) :: spost)) s1 s' ->
  rem_core s s' (S h) (TNode id (spre ++ kc :: spost)) key t'.
Proof.
  intros N (Hr1 & Ht1 & Hnd1 & Hsub1 & [v Hperm] & Hframe1) Hrep' Htid' Hnd' Hsub' Hkvs' Hframe'.
  destruct (node_child_facts _ _ _ _ _ _ _ _ _ _ _ N) as (_ & _ & _ & _ & Hin & _).
  assert (Hids : forall x, x ∈ id :: ids_of (spre ++ (fst kc, c1) :: spost) ->
                           x ∈ ids (TNode id (spre ++ kc :: spost))).
  { intros x Hx. rewrite ids_node_middle. rewrite ids_of_app, ids_of_cons in Hx. simpl snd in Hx.
    change (id :: ids_of spre ++ ids c1 ++ ids_of spost)
      with ((id :: ids_of spre) ++ ids c1 ++ ids_of spost) in Hx.
    rewrite !elem_of_app in *. destruct Hx as [Hx|[Hx|Hx]]; [tauto | | tauto].
    right. left. apply Hsub1. exact Hx. }
  split; [exact Hrep'|]. split; [exact Htid'|]. split; [exact Hnd'|].
  split; [intros x Hx; apply Hids, Hsub'; exact Hx|].
  split.
  { exists v. rewrite Hkvs', kvs_node_middle, kvs_of_app, kvs_of_cons. simpl snd.
    rewrite Hperm. simpl. rewrite <- Permutation_middle. reflexivity. }
  eapply frame_trans.
  - eapply frame_weaken; [|exact Hframe1]. exact Hin.
  - eapply frame_weaken; [|exact Hframe']. exact Hids.
Qed.

(** The two ways a removal can leave the node above a shrunken child. *)
Definition step_result (s : BufferPool) (run : Result BufferPool) (h : nat) (lo hi : option Z)
    (t : tree) (key : Z) (n : nat) (ctx : Context) (held : list Z) (P : InternalPage.t) : Prop :=
  (exists s', run = Ok s' /\ rem_done s s' (S h) lo hi t key) \/
  (exists s3 t1 P', IsSafePage (Internal P) OpRemove false = false /\
     run = internal_underflow n s3 ctx held (tid t) P' /\
     rem_under s s3 (S h) lo hi t key t1 (Internal P') /\
     InternalPage.size_ P' = InternalPage.size_ P - 1).

Lemma merge_finish (s s1 s2 : BufferPool) (h : nat) (lo hi : option Z) (id : Z)
    (spre : list (Z * tree)) (kc : Z * tree) (spost : list (Z * tree)) (P : InternalPage.t)
    (key : Z) (c1 : tree)
    (A : list (Z * tree)) (kL : Z) (L : tree) (kR : Z) (R : tree) (B : list (Z * tree))
    (cm : tree) (n : nat) (ctx : Context) (held : list Z) :
  node_at s h lo hi id spre kc spost P ->
  rem_core s s1 h (snd kc) key c1 ->
  spre ++ (fst kc, c1) :: spost = A ++ (kL, L) :: (kR, R) :: B ->
  pair_at s1 h lo hi id A kL L kR R B P ->
  frame (ids L ++ ids R) s1 s2 ->
  rep (pages_ s2) h cm -> tid cm = tid L ->
  good h (lbound lo A (kL, L)) (next_bound hi B) cm ->
  NoDup (ids cm) -> (forall x, x ∈ ids cm -> x ∈ ids L ++ ids R) ->
  t_kvs cm = t_kvs L ++ t_kvs R ->
  write_set_ ctx !! n = Some id ->
  step_result s (RemoveFromParent n s2 (Z.of_nat (length A) + 1) ctx held) h lo hi
    (TNode id (spre ++ kc :: spost)) key n ctx held P.
Proof.
  intros N Hcore E PA Hframe Hrcm Htid Hgcm Hndcm Hsub Hkvs Hws.
  destruct (merge_parent s1 s2 h lo hi id A kL L kR R B P cm n ctx held
              PA Hframe Hrcm Htid Hgcm Hndcm Hsub Hkvs Hws)
    as (P' & Hrep' & Hweak' & Hnd' & Hsub' & Hkvs' & Hframe' & Hs' & Hm' & Hrun).
  rewrite <- E in Hsub', Hkvs', Hframe'.
  pose proof (lift_core s s1 _ h lo hi id spre kc spost P key c1 _ N Hcore
                Hrep' eq_refl Hnd' Hsub' Hkvs' Hframe') as Hcore'.
  pose proof (min_size_internal internal_max_size_ internal_max_ge) as Hmin.
  pose proof Hrep' as (P0 & HP0 & _ & Hsz0 & _).
  simpl in HP0. rewrite lookup_insert_eq in HP0. injection HP0 as <-.
  rewrite Hrun. unfold step_result.
  destruct (Z.leb_spec (min_size_of internal_max_size_) (InternalPage.size_ P')) as [Hok|Hlow].
  - left. eexists. split; [reflexivity|]. eexists. split; [exact Hcore'|].
    destruct Hweak' as (Hk0 & Hch & Hlen). split; [exact Hk0|]. split; [exact Hch|]. lia.
  - right. eexists _, _, P'. split.
    { simpl. unfold InternalPage.GetMinSize, InternalPage.GetSize.
      destruct PA. rewrite pa_max0. apply Z.ltb_ge. lia. }
    split; [reflexivity|]. split; [|exact Hs'].
    split; [exact Hcore'|]. split; [exact Hweak'|].
    split; [simpl; apply lookup_insert_eq|].
    simpl. unfold InternalPage.GetMinSize, InternalPage.GetSize. rewrite Hm'. exact Hlow.
Qed.

Lemma borrow_finish (s s1 s2 : BufferPool) (h : nat) (lo hi : option Z) (id : Z)
    (spre : list (Z * tree)) (kc : Z * tree) (spost : list (Z * tree)) (P : InternalPage.t)
    (key : Z) (c1 : tree)
    (A : list (Z * tree)) (kL : Z) (L : tree) (kR : Z) (R : tree) (B : list (Z * tree))
    (L' R' : tree) (k' : Z) :
  node_at s h lo hi id spre kc spost P ->
  rem_core s s1 h (snd kc) key c1 ->
  spre ++ (fst kc, c1) :: spost = A ++ (kL, L) :: (kR, R) :: B ->
  pair_at s1 h lo hi id A kL L kR R B P ->
  frame (ids L ++ ids R) s1 s2 ->
  rep (pages_ s2) h L' -> rep (pages_ s2) h R' -> tid L' = tid L -> tid R' = tid R ->
  good h (lbound lo A (kL, L)) (Some k') L' -> good h (Some k') (next_bound hi B) R' ->
  ids L' ++ ids R' ≡ₚ ids L ++ ids R ->
  t_kvs L' ++ t_kvs R' = t_kvs L ++ t_kvs R ->
  exists P', InternalPage.SetKeyAt P (Z.of_nat (length A) + 1) k' = Ok P' /\
    rem_done s (put_page s2 id (Internal P')) (S h) lo hi (TNode id (spre ++ kc :: spost)) key.
Proof.
  intros N Hcore E PA Hframe HrL' HrR' HtL HtR HgL HgR Hperm Hkvs.
  assert (Hnd : NoDup (ids L' ++ ids R')).
  { rewrite Hperm. destruct PA. apply NoDup_cons in pa_nodup0 as [_ H].
    rewrite ids_of_pair in H. apply NoDup_app in H as (_ & _ & H).
    apply NoDup_app in H as (H & _ & _). exact H. }
  assert (Hsub : forall x, x ∈ ids L' ++ ids R' -> x ∈ ids L ++ ids R).
  { intros x Hx. rewrite <- Hperm. exact Hx. }
  destruct (borrow_parent s1 s2 h lo hi id A kL L kR R B P L' R' k'
              PA Hframe HrL' HrR' HtL HtR HgL HgR Hnd Hsub Hkvs)
    as (P' & Hset & Hrep' & Hgood' & Hnd' & Hsub' & Hkvs' & Hframe').
  exists P'. split; [exact Hset|].
  rewrite <- E in Hsub', Hkvs', Hframe'.
  eexists. split; [|exact Hgood'].
  exact (lift_core s s1 _ h lo hi id spre kc spost P key c1 _ N Hcore
           Hrep' eq_refl Hnd' Hsub' Hkvs' Hframe').
Qed.

(** ** Two neighbouring leaves *)

Lemma leaf_pair_merge_good (lbL nb : option Z) (kR a b : Z) (kvsL kvsR : list (Z * Z)) :
  weak 0 lbL (Some kR) (TLeaf a kvsL) -> weak 0 (Some kR) nb (TLeaf b kvsR) ->
  ble_lo lbL kR -> ble_hi kR nb ->
  1 <= Z.of_nat (length kvsL) + Z.of_nat (length kvsR) <= leaf_max_size_ - 1 ->
  good 0 lbL nb (TLeaf a (kvsL ++ kvsR)).
Proof.
  intros [HoL _] [HoR _] Hlo Hhi Hlen. split; [|rewrite length_app; lia].
  eapply keys_ord_join; eassumption.
Qed.

Lemma leaf_pair_split_good (lbL nb : option Z) (kR a b : Z) (kvsL kvsR : list (Z * Z))
    (j : nat) (kv : Z * Z) (rest : list (Z * Z)) :
  weak 0 lbL (Some kR) (TLeaf a kvsL) -> weak 0 (Some kR) nb (TLeaf b kvsR) ->
  ble_lo lbL kR -> ble_hi kR nb ->
  drop j (kvsL ++ kvsR) = kv :: rest ->
  1 <= Z.of_nat j <= leaf_max_size_ - 1 ->
  Z.of_nat (length kvsL) + Z.of_nat (length kvsR) - Z.of_nat j <= leaf_max_size_ - 1 ->
  good 0 lbL (Some (fst kv)) (TLeaf a (take j (kvsL ++ kvsR))) /\
  good 0 (Some (fst kv)) nb (TLeaf b (drop j (kvsL ++ kvsR))).
Proof.
  intros [HoL _] [HoR _] Hlo Hhi Hdrop Hj Hlen.
  assert (Hord : keys_ord lbL nb (kvsL ++ kvsR)) by (eapply keys_ord_join; eassumption).
  assert (Hl : (j < length (kvsL ++ kvsR))%nat).
  { apply (f_equal length) in Hdrop. rewrite length_drop in Hdrop. simpl in Hdrop. lia. }
  rewrite <- (take_drop j (kvsL ++ kvsR)) in Hord. rewrite Hdrop in Hord.
  apply keys_ord_split in Hord as [H1 H2]. rewrite <- Hdrop in H2.
  rewrite length_app in Hl.
  split; (split; [assumption|]).
  - rewrite length_take, length_app. lia.
  - rewrite length_drop, length_app. lia.
Qed.

Lemma lbound_snoc (lo : option Z) (A : list (Z * tree)) (x y : Z * tree) :
  lbound lo (A ++ [x]) y = Some (fst y).
Proof. destruct A; reflexivity. Qed.

Lemma node_at_snoc (s : BufferPool) (h : nat) (lo hi : option Z) (id : Z)
    (A : list (Z * tree)) (x y : Z * tree) (l : list (Z * tree)) (P : InternalPage.t) :
  node_at s h lo hi id (A ++ [x]) y l P -> node_at s h lo hi id A x (y :: l) P.
Proof.
  intros [H1 H2 H3 H4 H5 H6 H7 H8 H9 H10].
  rewrite <- app_assoc in H4, H5, H6, H7, H8, H9, H10. simpl in H4, H5, H6, H7, H8, H9, H10.
  constructor; assumption.
Qed.

Lemma second_slot (P : InternalPage.t) (A B : list (Z * tree)) (x y : Z * tree) :
  InternalPage.size_ P = Z.of_nat (length (A ++ x :: y :: B)) ->
  internal_slots P = map slot_of (A ++ x :: y :: B) ->
  get (InternalPage.array_ P) (Z.of_nat (length A) + 1) = slot_of y.
Proof.
  intros Hs Hsl. replace (Z.of_nat (length A) + 1) with (Z.of_nat (S (length A))) by lia.
  apply (node_slot P _ _ y Hs Hsl).
  rewrite lookup_app_r by lia. replace (S (length A) - length A)%nat with 1%nat by lia.
  reflexivity.
Qed.

Lemma first_slot (P : InternalPage.t) (A B : list (Z * tree)) (x : Z * tree) :
  InternalPage.size_ P = Z.of_nat (length (A ++ x :: B)) ->
  internal_slots P = map slot_of (A ++ x :: B) ->
  get (InternalPage.array_ P) (Z.of_nat (length A)) = slot_of x.
Proof. intros Hs Hsl. apply (node_slot P _ _ x Hs Hsl). apply app_lookup_middle. Qed.

Lemma take_app_succ {A : Type} (l1 l2 : list A) :
  take (length l1 + 1) (l1 ++ l2) = l1 ++ take 1 l2.
Proof. rewrite take_app_ge by lia. replace (length l1 + 1 - length l1)%nat with 1%nat by lia.
       reflexivity. Qed.

Lemma drop_app_succ {A : Type} (l1 l2 : list A) :
  drop (length l1 + 1) (l1 ++ l2) = drop 1 l2.
Proof. rewrite drop_app_ge by lia. replace (length l1 + 1 - length l1)%nat with 1%nat by lia.
       reflexivity. Qed.

Lemma take_app_pred {A : Type} (l1 l2 : list A) :
  take (length l1 - 1) (l1 ++ l2) = take (length l1 - 1) l1.
Proof. apply take_app_le. lia. Qed.

Lemma drop_app_pred {A : Type} (l1 l2 : list A) :
  drop (length l1 - 1) (l1 ++ l2) = drop (length l1 - 1) l1 ++ l2.
Proof. apply drop_app_le. lia. Qed.

Lemma rep_leaf_page (m : gmap Z Page) (t : tree) :
  rep m 0 t -> exists kvs p, t = TLeaf (tid t) kvs /\ m !! tid t = Some (Leaf p) /\
    LeafPage.max_size_ p = leaf_max_size_ /\
    LeafPage.size_ p = Z.of_nat (length kvs) /\ leaf_slots p = kvs.
Proof.
  destruct t as [id kvs|id sl]; simpl; [|tauto].
  intros (p & H). exists kvs, p. split; [reflexivity | exact H].
Qed.

Lemma FetchPageWrite_Ok (s : BufferPool) (held : list Z) (id : Z) (p : Page) :
  id ∉ held -> pages_ s !! id = Some p -> FetchPageWrite s held id = Ok p.
Proof.
  intros Hh Hp. unfold FetchPageWrite. rewrite bool_decide_eq_false_2 by exact Hh.
  apply guarded_page_Ok. exact Hp.
Qed.

(** The leaf under slot [length spre] of the node has underflowed. *)
Lemma leaf_underflow_step (s s1 : BufferPool) (lo hi : option Z) (id : Z)
    (spre : list (Z * tree)) (kc : Z * tree) (spost : list (Z * tree)) (P : InternalPage.t)
    (key : Z) (c1 : tree) (p1 : LeafPage.t) (hdr : option Z) (root : Z) (pre : list Z) :
  node_at s 0 lo hi id spre kc spost P ->
  BinaryFind_internal P key = Ok (Z.of_nat (length spre)) ->
  rem_under s s1 0 (lbound lo spre kc) (next_bound hi spost) (snd kc) key c1 (Leaf p1) ->
  (forall x, x ∈ pre -> x ∉ ids (TNode id (spre ++ kc :: spost))) ->
  tid (snd kc) <> root ->
  exists held,
    (forall x, x ∈ held -> x ∈ ids (TNode id (spre ++ kc :: spost)) /\ x <> id) /\
    step_result s
      (leaf_underflow s1 key
         {| header_page_ := hdr; root_page_id_ := root;
            write_set_ := pre ++ [id; tid (snd kc)]; read_set_ := [] |} (tid (snd kc)) p1)
      0 lo hi (TNode id (spre ++ kc :: spost)) key (length pre)
      {| header_page_ := hdr; root_page_id_ := root;
         write_set_ := pre ++ [id; tid (snd kc)]; read_set_ := [] |} held P.
Proof.
  intros N Hroute (Hcore & Hweak & Hpg1 & Hsz1) Hpre Hroot.
  set (ctx := {| header_page_ := hdr; root_page_id_ := root;
                 write_set_ := pre ++ [id; tid (snd kc)]; read_set_ := [] |}).
  pose proof Hcore as (Hr1 & Ht1 & Hnd1 & Hsub1 & _ & Hframe1).
  destruct (siblings_kept _ _ _ _ _ _ _ _ _ _ _ _ N Hframe1) as (HpP & _ & _).
  destruct (node_child_facts _ _ _ _ _ _ _ _ _ _ _ N) as (_ & _ & _ & Hidc & Hin & Hdisj & _).
  pose proof (min_size_leaf leaf_max_size_ leaf_max_ge) as Hmin.
  assert (Hws : write_set_ ctx !! length pre = Some id) by apply app_lookup_middle.
  assert (Hrun : leaf_underflow s1 key ctx (tid (snd kc)) p1
    = let index := Z.of_nat (length spre) in
      if index <? InternalPage.GetSize P - 1 then
          right_brother_page_id ← InternalPage.ValueAt P (index + 1);
          right ← FetchPageWrite s1 (write_set_ ctx) right_brother_page_id;
          right_brother_page ← AsLeaf right;
          let merge_size := LeafPage.GetSize right_brother_page + LeafPage.GetSize p1 in
          if merge_size <? LeafPage.GetMaxSize p1 then
            leaf_page ← leaf_merge p1 right_brother_page merge_size;
            let s := put_page s1 (tid (snd kc)) (Leaf leaf_page) in
            RemoveFromParent (length pre) s (index + 1) ctx [right_brother_page_id]
          else
            '(leaf_page, right_brother_page) ← leaf_borrow_right p1 right_brother_page;
            k ← LeafPage.KeyAt right_brother_page 0;
            parent_page ← InternalPage.SetKeyAt P (index + 1) k;
            let s := put_page s1 (tid (snd kc)) (Leaf leaf_page) in
            let s := put_page s right_brother_page_id (Leaf right_brother_page) in
            Ok (put_page s id (Internal parent_page))
        else
          left_brother_page_id ← InternalPage.ValueAt P (index - 1);
          left ← FetchPageWrite s1 (write_set_ ctx) left_brother_page_id;
          left_brother_page ← AsLeaf left;
          let merge_size := LeafPage.GetSize left_brother_page + LeafPage.GetSize p1 in
          if merge_size <? LeafPage.GetMaxSize left_brother_page then
            left_brother_page ← leaf_merge left_brother_page p1 merge_size;
            let s := put_page s1 left_brother_page_id (Leaf left_brother_page) in
            RemoveFromParent (length pre) s index ctx [left_brother_page_id]
          else
            '(leaf_page, left_brother_page) ← leaf_borrow_left p1 left_brother_page;
            k ← LeafPage.KeyAt leaf_page 0;
            parent_page ← InternalPage.SetKeyAt P index k;
            let s := put_page s1 (tid (snd kc)) (Leaf leaf_page) in
            let s := put_page s left_brother_page_id (Leaf left_brother_page) in
            Ok (put_page s id (Internal parent_page))).
  { unfold leaf_underflow, IsRootPage. simpl root_page_id_.
    destruct (Z.eqb_spec (tid (snd kc)) root) as [E|_]; [contradiction|].
    replace (length (write_set_ ctx)) with (S (S (length pre)))
      by (simpl; rewrite length_app; simpl; lia).
    rewrite (guard_at_Ok _ _ _ Hws), bind_Ok_l.
    rewrite (guarded_page_Ok _ _ _ HpP), bind_Ok_l. simpl AsInternal. rewrite bind_Ok_l.
    rewrite Hroute, bind_Ok_l. reflexivity. }
  rewrite Hrun. clear Hrun. cbv zeta.
  destruct kc as [kL c]. simpl fst in *. simpl snd in *.
  destruct (rep_leaf_page _ _ Hr1) as (kvs1 & p1' & Ec1 & Hp1' & Hm1 & Hs1 & Hsl1).
  rewrite Ht1 in Ec1, Hp1'. assert (p1' = p1) as -> by congruence.
  subst c1. simpl in Hsz1. unfold LeafPage.GetSize, LeafPage.GetMinSize in Hsz1.
  rewrite Hm1, Hs1 in Hsz1.
  assert (Hpre1 : forall x, x ∈ ids (TNode id (spre ++ (kL, c) :: spost)) ->
                            x ∉ write_set_ ctx \/ x = id \/ x = tid c).
  { intros x Hx. destruct (decide (x = id)) as [->|?]; [tauto|].
    destruct (decide (x = tid c)) as [->|?]; [tauto|]. left. simpl. intros Hin'.
    apply elem_of_app in Hin' as [Hin'|Hin']; [exact (Hpre x Hin' Hx)|].
    apply elem_of_cons in Hin' as [?|Hin']; [contradiction|].
    apply list_elem_of_singleton in Hin'. contradiction. }
  destruct spost as [|[kR R] B].
  - (* the last child: the left brother helps *)
    simpl next_bound in Hweak.
    assert (Hspre : spre <> []).
    { destruct N as [_ _ _ _ _ _ _ _ Hlen _]. intros ->. simpl in Hlen. lia. }
    destruct (exists_last Hspre) as (A & [kL0 L] & ->).
    rewrite lbound_snoc in Hweak. simpl fst in Hweak.
    pose proof (node_at_snoc _ _ _ _ _ _ _ _ _ _ N) as N'.
    pose proof (pair_left s s1 0 lo hi id A kL0 L kL c [] P key (TLeaf (tid c) kvs1)
                  N' Hcore Hweak) as PA.
    pose proof PA as [Hpool1 _ _ HsizeP HslotsP _ HrL _ _ _ _ HwL HwR _ Hlo Hhi Hsome HlenP HndP].
    destruct (rep_leaf_page _ _ HrL) as (kvsL & pL & EL & HpL & HmL & HsL & HslL).
    rewrite EL in PA, HwL, HrL, Hsome. rewrite EL in HndP, HsizeP, HslotsP.
    assert (Htot : 1 <= Z.of_nat (length kvsL) + Z.of_nat (length kvs1)).
    { destruct Hsome as [[_ H]|[_ H]]; destruct HwL as [_ ?], HwR as [_ ?]; lia. }
    assert (Hne : tid L <> tid c /\ tid L <> id).
    { rewrite ids_of_pair in HndP. simpl ids in HndP.
      apply NoDup_cons in HndP as [Hid HndP]. apply NoDup_app in HndP as (_ & _ & HndP).
      apply NoDup_app in HndP as (HndP & _ & _).
      apply NoDup_cons in HndP as [Hc _]. rewrite list_elem_of_singleton in Hc.
      split; [congruence|]. intros E. apply Hid. rewrite E, !elem_of_app. right. left.
      left. left. }
    assert (HinL : tid L ∈ ids (TNode id ((A ++ [(kL0, L)]) ++ [(kL, c)]))).
    { simpl. right. fold (ids_of ((A ++ [(kL0, L)]) ++ [(kL, c)])).
      rewrite <- app_assoc. simpl app. rewrite ids_of_pair.
      rewrite !elem_of_app. right. left. left. apply tid_in_ids. }
    unfold InternalPage.GetSize. rewrite HsizeP, !length_app. simpl length.
    destruct (Z.ltb_spec (Z.of_nat (length A + 1)) (Z.of_nat (length A + 2) - 1)); [lia|].
    replace (Z.of_nat (length A + 1) - 1) with (Z.of_nat (length A)) by lia.
    replace (Z.of_nat (length A + 1)) with (Z.of_nat (length A) + 1) by lia.
    rewrite InternalPage_ValueAt_Ok by len_lia.
    rewrite (first_slot P A _ _ HsizeP HslotsP). simpl snd. rewrite bind_Ok_l.
    rewrite (FetchPageWrite_Ok s1 _ _ (Leaf pL)); [|destruct (Hpre1 _ HinL); tauto | exact HpL].
    rewrite bind_Ok_l. simpl AsLeaf. rewrite bind_Ok_l.
    unfold LeafPage.GetSize, LeafPage.GetMaxSize. rewrite HmL, Hs1, HsL.
    exists [tid L]. split.
    { intros x Hx. apply list_elem_of_singleton in Hx as ->. tauto. }
    pose proof (pool_ok_lookup _ _ _ Hpool1 Hp1') as Hidc1.
    pose proof (pool_ok_lookup _ _ _ Hpool1 HpL) as HidL1.
    pose proof HwL as [HoL HlL]. pose proof HwR as [HoR HlR].
    assert (E : (A ++ [(kL0, L)]) ++ [(kL, TLeaf (tid c) kvs1)]
                = A ++ [(kL0, TLeaf (tid L) kvsL); (kL, TLeaf (tid c) kvs1)]).
    { rewrite <- app_assoc, EL. reflexivity. }
    destruct (Z.ltb_spec (Z.of_nat (length kvsL) + Z.of_nat (length kvs1)) leaf_max_size_)
      as [Hmerge|Hborrow].
    + destruct (leaf_merge_spec pL p1) as (pm & Hm & Hms & Hmm & _ & Hmsl); [lia | lia | lia |].
      rewrite Hs1, HsL, Z.add_comm in Hm. rewrite Hm, bind_Ok_l. cbv zeta.
      rewrite Hs1, HsL in Hms. rewrite HmL in Hmm. rewrite Hsl1, HslL in Hmsl.
      apply (merge_finish s s1 _ 0 lo hi id (A ++ [(kL0, L)]) (kL, c) [] P key
               (TLeaf (tid c) kvs1)
               A kL0 (TLeaf (tid L) kvsL) kL (TLeaf (tid c) kvs1) []
               (TLeaf (tid L) (kvsL ++ kvs1)) (length pre) ctx [tid L] N Hcore).
      * exact E.
      * exact PA.
      * apply frame_put; [apply frame_refl; exact Hpool1 | left | exact HidL1].
      * exists pm. simpl. rewrite lookup_insert_eq. repeat split; try assumption.
        rewrite Hms, length_app. lia.
      * reflexivity.
      * apply (leaf_pair_merge_good _ _ kL _ (tid c));
          [exact HwL | exact HwR | exact Hlo | exact Hhi | lia].
      * apply NoDup_singleton.
      * intros x Hx. apply elem_of_app. left. exact Hx.
      * reflexivity.
      * exact Hws.
    + destruct (leaf_borrow_left_spec p1 pL)
        as (p1n & pLn & Hb & Hbs & Hbm & _ & Hbsl & Hls & Hlm & _ & Hlsl); [lia | lia |].
      rewrite Hb, bind_Ok_l. cbv beta iota zeta.
      rewrite LeafPage_KeyAt_Ok, bind_Ok_l by len_lia.
      rewrite Hs1 in Hbs. rewrite Hm1 in Hbm. rewrite HsL in Hls. rewrite HmL in Hlm.
      rewrite HsL, Hsl1, HslL in Hbsl. rewrite HsL, HslL in Hlsl.
      replace (Z.to_nat (Z.of_nat (length kvsL) - 1)) with (length kvsL - 1)%nat in Hbsl, Hlsl
        by lia.
      rewrite <- drop_app_pred in Hbsl. rewrite <- (take_app_pred kvsL kvs1) in Hlsl.
      destruct (drop (length kvsL - 1) (kvsL ++ kvs1)) as [|kv rest] eqn:Hdrop.
      { apply (f_equal length) in Hdrop. rewrite length_drop, length_app in Hdrop.
        simpl in Hdrop. lia. }
      assert (Hk0 : get (LeafPage.array_ p1n) 0 = kv).
      { apply (leaf_slot p1n (kv :: rest) 0 kv); [|exact Hbsl | reflexivity].
        rewrite Hbs. apply (f_equal length) in Hdrop.
        rewrite length_drop, length_app in Hdrop. simpl. simpl in Hdrop. lia. }
      rewrite Hk0.
      destruct (leaf_pair_split_good _ _ kL (tid L) (tid c) kvsL kvs1 (length kvsL - 1) kv rest
                  HwL HwR Hlo Hhi Hdrop) as [HgL' HgR']; [lia | lia |].
      rewrite Hdrop in HgR'.
      destruct (borrow_finish s s1
                  (put_page (put_page s1 (tid c) (Leaf p1n)) (tid L) (Leaf pLn))
                  0 lo hi id (A ++ [(kL0, L)]) (kL, c) [] P key (TLeaf (tid c) kvs1)
                  A kL0 (TLeaf (tid L) kvsL) kL (TLeaf (tid c) kvs1) []
                  (TLeaf (tid L) (take (length kvsL - 1) (kvsL ++ kvs1)))
                  (TLeaf (tid c) (kv :: rest)) (fst kv) N Hcore)
        as (P' & Hset & Hdone).
      * exact E.
      * exact PA.
      * apply frame_put; [apply frame_put; [apply frame_refl; exact Hpool1 | |] | |];
          simpl; rewrite ?elem_of_cons; try tauto; lia.
      * exists pLn. simpl. rewrite lookup_insert_eq. repeat split; try assumption.
        rewrite Hls, length_take, length_app. lia.
      * exists p1n. simpl. rewrite lookup_insert_ne by (intros ?; tauto).
        rewrite lookup_insert_eq. repeat split; try assumption.
        rewrite Hbs. apply (f_equal length) in Hdrop.
        rewrite length_drop, length_app in Hdrop. simpl in Hdrop. lia.
      * reflexivity.
      * reflexivity.
      * exact HgL'.
      * exact HgR'.
      * reflexivity.
      * simpl. rewrite <- Hdrop. apply take_drop.
      * rewrite Hset, bind_Ok_l. left. eexists. split; [reflexivity | exact Hdone].
  - (* the right brother helps *)
    simpl next_bound in Hweak.
    pose proof (pair_right s s1 0 lo hi id spre kL c kR R B P key (TLeaf (tid c) kvs1)
                  N Hcore Hweak) as PA.
    pose proof PA as [Hpool1 _ _ HsizeP HslotsP _ _ HrR _ _ _ HwL HwR _ Hlo Hhi Hsome HlenP HndP].
    destruct (rep_leaf_page _ _ HrR) as (kvsR & pR & ER & HpR & HmR & HsR & HslR).
    rewrite ER in PA, HwR, HrR, Hsome. rewrite ER in HndP, HsizeP, HslotsP.
    assert (Htot : 1 <= Z.of_nat (length kvs1) + Z.of_nat (length kvsR)).
    { destruct Hsome as [[_ H]|[_ H]]; destruct HwL as [_ ?], HwR as [_ ?]; lia. }
    assert (Hne : tid R <> tid c /\ tid R <> id).
    { rewrite ids_of_pair in HndP. simpl ids in HndP.
      apply NoDup_cons in HndP as [Hid HndP]. apply NoDup_app in HndP as (_ & _ & HndP).
      apply NoDup_app in HndP as (HndP & _ & _).
      apply NoDup_cons in HndP as [Hc _]. rewrite list_elem_of_singleton in Hc.
      split; [congruence|]. intros E. apply Hid. rewrite E, !elem_of_app. right. left.
      right. left. }
    assert (HinR : tid R ∈ ids (TNode id (spre ++ (kL, c) :: (kR, R) :: B))).
    { simpl. right. fold (ids_of (spre ++ (kL, c) :: (kR, R) :: B)). rewrite ids_of_pair.
      rewrite !elem_of_app. right. left. right. apply tid_in_ids. }
    unfold InternalPage.GetSize. rewrite HsizeP, length_app. simpl length.
    destruct (Z.ltb_spec (Z.of_nat (length spre)) (Z.of_nat (length spre + S (S (length B))) - 1));
      [|lia].
    rewrite InternalPage_ValueAt_Ok by len_lia.
    rewrite (second_slot P spre B _ _ HsizeP HslotsP). simpl snd. rewrite bind_Ok_l.
    rewrite (FetchPageWrite_Ok s1 _ _ (Leaf pR)); [|destruct (Hpre1 _ HinR); tauto | exact HpR].
    rewrite bind_Ok_l. simpl AsLeaf. rewrite bind_Ok_l.
    unfold LeafPage.GetSize, LeafPage.GetMaxSize. rewrite Hm1, Hs1, HsR.
    exists [tid R]. split.
    { intros x Hx. apply list_elem_of_singleton in Hx as ->. tauto. }
    pose proof (pool_ok_lookup _ _ _ Hpool1 Hp1') as Hidc1.
    pose proof (pool_ok_lookup _ _ _ Hpool1 HpR) as HidR1.
    pose proof HwL as [HoL HlL]. pose proof HwR as [HoR HlR].
    destruct (Z.ltb_spec (Z.of_nat (length kvsR) + Z.of_nat (length kvs1)) leaf_max_size_)
      as [Hmerge|Hborrow].
    + destruct (leaf_merge_spec p1 pR) as (pm & Hm & Hms & Hmm & _ & Hmsl); [lia | lia | lia |].
      rewrite Hs1, HsR in Hm. rewrite Hm, bind_Ok_l. cbv zeta.
      rewrite Hs1, HsR in Hms. rewrite Hm1 in Hmm. rewrite Hsl1, HslR in Hmsl.
      apply (merge_finish s s1 _ 0 lo hi id spre (kL, c) ((kR, R) :: B) P key (TLeaf (tid c) kvs1)
               spre kL (TLeaf (tid c) kvs1) kR (TLeaf (tid R) kvsR) B
               (TLeaf (tid c) (kvs1 ++ kvsR)) (length pre) ctx [tid R] N Hcore).
      * rewrite ER. reflexivity.
      * exact PA.
      * apply frame_put; [apply frame_refl; exact Hpool1 | left | exact Hidc1].
      * exists pm. simpl. rewrite lookup_insert_eq. repeat split; try assumption.
        rewrite Hms, length_app. lia.
      * reflexivity.
      * apply (leaf_pair_merge_good _ _ kR _ (tid R)); [exact HwL | exact HwR | exact Hlo | exact Hhi | lia].
      * apply NoDup_singleton.
      * intros x Hx. apply elem_of_app. left. exact Hx.
      * reflexivity.
      * exact Hws.
    + destruct (leaf_borrow_right_spec p1 pR)
        as (p1n & pRn & Hb & Hbs & Hbm & _ & Hbsl & Hrs & Hrm & _ & Hrsl); [lia | lia |].
      rewrite Hb, bind_Ok_l. cbv beta iota zeta.
      rewrite LeafPage_KeyAt_Ok, bind_Ok_l by len_lia.
      rewrite Hs1 in Hbs. rewrite Hm1 in Hbm. rewrite HsR in Hrs. rewrite HmR in Hrm.
      rewrite Hsl1, HslR in Hbsl. rewrite HslR in Hrsl.
      rewrite <- take_app_succ in Hbsl. rewrite <- (drop_app_succ kvs1) in Hrsl.
      destruct (drop (length kvs1 + 1) (kvs1 ++ kvsR)) as [|kv rest] eqn:Hdrop.
      { apply (f_equal length) in Hdrop. rewrite length_drop, length_app in Hdrop.
        simpl in Hdrop. lia. }
      assert (Hk0 : get (LeafPage.array_ pRn) 0 = kv).
      { apply (leaf_slot pRn (kv :: rest) 0 kv); [|exact Hrsl | reflexivity].
        rewrite Hrs. apply (f_equal length) in Hdrop.
        rewrite length_drop, length_app in Hdrop. lia. }
      rewrite Hk0.
      destruct (leaf_pair_split_good _ _ kR (tid c) (tid R) kvs1 kvsR (length kvs1 + 1) kv rest
                  HwL HwR Hlo Hhi Hdrop) as [HgL' HgR']; [lia | lia |].
      rewrite Hdrop in HgR'.
      destruct (borrow_finish s s1
                  (put_page (put_page s1 (tid c) (Leaf p1n)) (tid R) (Leaf pRn))
                  0 lo hi id spre (kL, c) ((kR, R) :: B) P key (TLeaf (tid c) kvs1)
                  spre kL (TLeaf (tid c) kvs1) kR (TLeaf (tid R) kvsR) B
                  (TLeaf (tid c) (take (length kvs1 + 1) (kvs1 ++ kvsR)))
                  (TLeaf (tid R) (kv :: rest)) (fst kv) N Hcore)
        as (P' & Hset & Hdone).
      * rewrite ER. reflexivity.
      * exact PA.
      * apply frame_put; [apply frame_put; [apply frame_refl; exact Hpool1 | |] | |];
          simpl; rewrite ?elem_of_cons; try tauto; lia.
      * exists p1n. simpl. rewrite lookup_insert_ne by tauto. rewrite lookup_insert_eq.
        repeat split; try assumption.
        rewrite Hbs, length_take, length_app. lia.
      * exists pRn. simpl. rewrite lookup_insert_eq. repeat split; try assumption.
        rewrite Hrs. apply (f_equal length) in Hdrop.
        rewrite length_drop, length_app in Hdrop. simpl in Hdrop. lia.
      * reflexivity.
      * reflexivity.
      * exact HgL'.
      * exact HgR'.
      * reflexivity.
      * simpl. rewrite <- Hdrop. apply take_drop.
      * rewrite Hset, bind_Ok_l. left. eexists. split; [reflexivity | exact Hdone].
Qed.

(** ** Two neighbouring internal nodes *)

Lemma node_pair_chain (h : nat) (lbL nb : option Z) (kR a b : Z) (slL slR : list (Z * tree)) :
  weak (S h) lbL (Some kR) (TNode a slL) -> weak (S h) (Some kR) nb (TNode b slR) ->
  key0_ok lbL (slL ++ slR) /\ chain (good h) lbL nb (slL ++ slR).
Proof.
  intros (Hk0L & HcL & HlL) (Hk0R & HcR & HlR).
  destruct slL as [|x slL]; [simpl in HlL; lia|].
  destruct slR as [|y slR]; [simpl in HlR; lia|].
  split; [exact Hk0L|].
  apply chain_app. simpl in Hk0R. simpl next_bound. rewrite Hk0R. split; assumption.
Qed.

Lemma node_pair_merge_good (h : nat) (lbL nb : option Z) (kR a b : Z)
    (slL slR : list (Z * tree)) :
  weak (S h) lbL (Some kR) (TNode a slL) -> weak (S h) (Some kR) nb (TNode b slR) ->
  2 <= Z.of_nat (length slL) + Z.of_nat (length slR) <= internal_max_size_ ->
  good (S h) lbL nb (TNode a (slL ++ slR)).
Proof.
  intros HwL HwR Hlen. destruct (node_pair_chain h lbL nb kR a b slL slR HwL HwR) as [H1 H2].
  split; [exact H1|]. split; [exact H2|]. rewrite length_app. lia.
Qed.

Lemma node_pair_split_good (h : nat) (lbL nb : option Z) (kR a b : Z)
    (slL slR : list (Z * tree)) (j : nat) (kd : Z * tree) (rest : list (Z * tree)) :
  weak (S h) lbL (Some kR) (TNode a slL) -> weak (S h) (Some kR) nb (TNode b slR) ->
  drop j (slL ++ slR) = kd :: rest ->
  2 <= Z.of_nat j <= internal_max_size_ ->
  2 <= Z.of_nat (length slL) + Z.of_nat (length slR) - Z.of_nat j <= internal_max_size_ ->
  good (S h) lbL (Some (fst kd)) (TNode a (take j (slL ++ slR))) /\
  good (S h) (Some (fst kd)) nb (TNode b (drop j (slL ++ slR))).
Proof.
  intros HwL HwR Hdrop Hj Hlen.
  destruct (node_pair_chain h lbL nb kR a b slL slR HwL HwR) as [H1 H2].
  assert (Hl : (j < length (slL ++ slR))%nat).
  { apply (f_equal length) in Hdrop. rewrite length_drop in Hdrop. simpl in Hdrop. lia. }
  assert (Htake : take j (slL ++ slR) <> []).
  { intros E. apply (f_equal length) in E. rewrite length_take in E. simpl in E. lia. }
  rewrite <- (take_drop j (slL ++ slR)) in H2. rewrite Hdrop in H2.
  apply chain_split in H2 as [H2 H3]; [|exact Htake].
  rewrite length_app in Hl.
  split.
  - split.
    + destruct (slL ++ slR) as [|x l] eqn:E.
      { apply (f_equal length) in E. rewrite length_app in E. simpl in E. lia. }
      destruct j; [lia|]. exact H1.
    + split; [exact H2|]. rewrite length_take, length_app. lia.
  - rewrite Hdrop. split; [reflexivity|]. split; [exact H3|].
    rewrite <- Hdrop, length_drop, length_app. lia.
Qed.

Lemma rep_internal_page (m : gmap Z Page) (h : nat) (t : tree) :
  rep m (S h) t -> exists sl p, t = TNode (tid t) sl /\ m !! tid t = Some (Internal p) /\
    InternalPage.max_size_ p = internal_max_size_ /\
    InternalPage.size_ p = Z.of_nat (length sl) /\ internal_slots p = map slot_of sl /\
    Forall (fun kc => rep m h (snd kc)) sl.
Proof.
  destruct t as [id kvs|id sl]; simpl; [tauto|].
  intros (p & H). exists sl, p. split; [reflexivity | exact H].
Qed.

Lemma node_pair_perm (a b : Z) (slL slR : list (Z * tree)) (j : nat) :
  ids (TNode a (take j (slL ++ slR))) ++ ids (TNode b (drop j (slL ++ slR)))
  ≡ₚ ids (TNode a slL) ++ ids (TNode b slR).
Proof.
  simpl. fold (ids_of (take j (slL ++ slR))) (ids_of (drop j (slL ++ slR)))
              (ids_of slL) (ids_of slR).
  rewrite <- !Permutation_middle. do 2 f_equiv.
  rewrite <- !ids_of_app, take_drop. reflexivity.
Qed.

Lemma node_pair_children (s1 s2 : BufferPool) (h : nat) (a b : Z) (slL slR : list (Z * tree)) :
  NoDup (ids (TNode a slL) ++ ids (TNode b slR)) ->
  Forall (fun kc => rep (pages_ s1) h (snd kc)) slL ->
  Forall (fun kc => rep (pages_ s1) h (snd kc)) slR ->
  (forall x, x <> a -> x <> b -> pages_ s2 !! x = pages_ s1 !! x) ->
  Forall (fun kc => rep (pages_ s2) h (snd kc)) (slL ++ slR).
Proof.
  intros Hnd HL HR Hsame.
  simpl in Hnd. fold (ids_of slL) (ids_of slR) in Hnd.
  apply NoDup_cons in Hnd as [Ha Hnd]. rewrite elem_of_app, elem_of_cons in Ha.
  apply NoDup_app in Hnd as (_ & Hdisj & Hnd). apply NoDup_cons in Hnd as [Hb _].
  apply Forall_app. split.
  - rewrite Forall_forall in *. intros kc Hin. eapply rep_frame; [|apply HL; exact Hin].
    intros x Hx. assert (HxL : x ∈ ids_of slL) by (apply elem_of_ids_of; eauto).
    apply Hsame; intros ->; [tauto|]. apply (Hdisj b HxL). left.
  - rewrite Forall_forall in *. intros kc Hin. eapply rep_frame; [|apply HR; exact Hin].
    intros x Hx. assert (HxR : x ∈ ids_of slR) by (apply elem_of_ids_of; eauto).
    apply Hsame; intros ->; [|tauto]. apply Ha. right. right. exact HxR.
Qed.

Lemma kvs_take_drop (sl : list (Z * tree)) (j : nat) :
  kvs_of (take j sl) ++ kvs_of (drop j sl) = kvs_of sl.
Proof. rewrite <- kvs_of_app, take_drop. reflexivity. Qed.

Lemma merged_ids (a b : Z) (slL slR : list (Z * tree)) :
  ids (TNode a slL) ++ ids (TNode b slR) ≡ₚ b :: ids (TNode a (slL ++ slR)).
Proof.
  simpl. fold (ids_of slL) (ids_of slR) (ids_of (slL ++ slR)).
  rewrite <- Permutation_middle, ids_of_app. apply perm_swap.
Qed.

Lemma map_take_succ (sl1 slR : list (Z * tree)) :
  map slot_of sl1 ++ take 1 (map slot_of slR)
  = map slot_of (take (length sl1 + 1) (sl1 ++ slR)).
Proof.
  rewrite take_app_succ, map_app. f_equal.
  change (map slot_of slR) with (slot_of <$> slR).
  change (map slot_of (take 1 slR)) with (slot_of <$> take 1 slR).
  rewrite fmap_take. reflexivity.
Qed.

Lemma map_drop_succ (sl1 slR : list (Z * tree)) :
  drop 1 (map slot_of slR) = map slot_of (drop (length sl1 + 1) (sl1 ++ slR)).
Proof.
  rewrite drop_app_succ.
  change (map slot_of slR) with (slot_of <$> slR).
  change (map slot_of (drop 1 slR)) with (slot_of <$> drop 1 slR).
  rewrite fmap_drop. reflexivity.
Qed.

Lemma map_take_pred (slL sl1 : list (Z * tree)) :
  take (length slL - 1) (map slot_of slL)
  = map slot_of (take (length slL - 1) (slL ++ sl1)).
Proof.
  rewrite take_app_pred.
  change (map slot_of slL) with (slot_of <$> slL).
  change (map slot_of (take (length slL - 1) slL)) with (slot_of <$> take (length slL - 1) slL).
  rewrite fmap_take. reflexivity.
Qed.

Lemma map_drop_pred (slL sl1 : list (Z * tree)) :
  drop (length slL - 1) (map slot_of slL) ++ map slot_of sl1
  = map slot_of (drop (length slL - 1) (slL ++ sl1)).
Proof.
  rewrite drop_app_pred, map_app. f_equal.
  change (map slot_of slL) with (slot_of <$> slL).
  change (map slot_of (drop (length slL - 1) slL)) with (slot_of <$> drop (length slL - 1) slL).
  rewrite fmap_drop. reflexivity.
Qed.

(** The internal node under slot [length spre] of the node has underflowed. *)
Lemma internal_underflow_step (s s1 : BufferPool) (h : nat) (lo hi : option Z) (id : Z)
    (spre : list (Z * tree)) (kc : Z * tree) (spost : list (Z * tree)) (P : InternalPage.t)
    (key : Z) (c1 : tree) (p1 : InternalPage.t) (hdr : option Z) (root : Z)
    (pre rest held : list Z) :
  node_at s (S h) lo hi id spre kc spost P ->
  rem_under s s1 (S h) (lbound lo spre kc) (next_bound hi spost) (snd kc) key c1 (Internal p1) ->
  (forall x, x ∈ pre -> x ∉ ids (TNode id (spre ++ kc :: spost))) ->
  (forall x, x ∈ rest ++ held -> x ∈ ids (snd kc)) ->
  tid (snd kc) <> root ->
  exists held',
    (forall x, x ∈ held' -> x ∈ ids (TNode id (spre ++ kc :: spost)) /\ x <> id) /\
    step_result s
      (internal_underflow (S (length pre)) s1
         {| header_page_ := hdr; root_page_id_ := root;
            write_set_ := pre ++ id :: tid (snd kc) :: rest; read_set_ := [] |}
         held (tid (snd kc)) p1)
      (S h) lo hi (TNode id (spre ++ kc :: spost)) key (length pre)
      {| header_page_ := hdr; root_page_id_ := root;
         write_set_ := pre ++ id :: tid (snd kc) :: rest; read_set_ := [] |} held' P.
Proof.
  intros N (Hcore & Hweak & Hpg1 & Hsz1) Hpre Hrest Hroot.
  set (ctx := {| header_page_ := hdr; root_page_id_ := root;
                 write_set_ := pre ++ id :: tid (snd kc) :: rest; read_set_ := [] |}).
  pose proof Hcore as (Hr1 & Ht1 & Hnd1 & Hsub1 & _ & Hframe1).
  destruct (siblings_kept _ _ _ _ _ _ _ _ _ _ _ _ N Hframe1) as (HpP & _ & _).
  destruct (node_child_facts _ _ _ _ _ _ _ _ _ _ _ N) as (_ & _ & _ & Hidc & Hin & Hdisj & _).
  pose proof (min_size_internal internal_max_size_ internal_max_ge) as Hmin.
  assert (Hws : write_set_ ctx !! length pre = Some id) by apply app_lookup_middle.
  assert (Hpos : InternalPage.ValueIndex P (tid (snd kc)) = Z.of_nat (length spre)).
  { destruct N as [_ _ _ Hsize Hslots _ _ _ _ Hnodup].
    apply (ValueIndex_spec P spre spost kc Hsize Hslots).
    simpl in Hnodup. apply NoDup_cons in Hnodup as [_ H]. exact H. }
  assert (Hrun : internal_underflow (S (length pre)) s1 ctx held (tid (snd kc)) p1
    = let pos := Z.of_nat (length spre) in
        if pos <? InternalPage.GetSize P - 1 then
          right_brother_page_id ← InternalPage.ValueAt P (pos + 1);
          right ← FetchPageWrite s1 (write_set_ ctx ++ held) right_brother_page_id;
          right_brother_page ← AsInternal right;
          let merge_size := InternalPage.GetSize right_brother_page + InternalPage.GetSize p1 in
          if merge_size <=? InternalPage.GetMaxSize p1 then
            page ← internal_merge p1 right_brother_page merge_size;
            let s := put_page s1 (tid (snd kc)) (Internal page) in
            RemoveFromParent (length pre) s (pos + 1) ctx (right_brother_page_id :: held)
          else
            '(page, right_brother_page) ← internal_borrow_right p1 right_brother_page;
            k ← InternalPage.KeyAt right_brother_page 0;
            parent_page ← InternalPage.SetKeyAt P (pos + 1) k;
            let s := put_page s1 (tid (snd kc)) (Internal page) in
            let s := put_page s right_brother_page_id (Internal right_brother_page) in
            Ok (put_page s id (Internal parent_page))
        else
          left_brother_page_id ← InternalPage.ValueAt P (pos - 1);
          left ← FetchPageWrite s1 (write_set_ ctx ++ held) left_brother_page_id;
          left_brother_page ← AsInternal left;
          let merge_size := InternalPage.GetSize left_brother_page + InternalPage.GetSize p1 in
          if merge_size <=? InternalPage.GetMaxSize left_brother_page then
            left_brother_page ← internal_merge left_brother_page p1 merge_size;
            let s := put_page s1 left_brother_page_id (Internal left_brother_page) in
            RemoveFromParent (length pre) s pos ctx (left_brother_page_id :: held)
          else
            '(page, left_brother_page) ← internal_borrow_left p1 left_brother_page;
            k ← InternalPage.KeyAt page 0;
            parent_page ← InternalPage.SetKeyAt P pos k;
            let s := put_page s1 (tid (snd kc)) (Internal page) in
            let s := put_page s left_brother_page_id (Internal left_brother_page) in
            Ok (put_page s id (Internal parent_page))).
  { unfold internal_underflow, IsRootPage. simpl root_page_id_.
    destruct (Z.eqb_spec (tid (snd kc)) root) as [E|_]; [contradiction|].
    rewrite (guard_at_Ok _ _ _ Hws), bind_Ok_l.
    rewrite (guarded_page_Ok _ _ _ HpP), bind_Ok_l. simpl AsInternal. rewrite bind_Ok_l.
    rewrite Hpos. reflexivity. }
  rewrite Hrun. clear Hrun. cbv zeta.
  destruct kc as [kL c]. simpl fst in *. simpl snd in *.
  destruct (rep_internal_page _ _ _ Hr1) as (sl1 & p1' & Ec1 & Hp1' & Hm1 & Hs1 & Hsl1 & Hch1).
  rewrite Ht1 in Ec1, Hp1'. assert (p1' = p1) as -> by congruence.
  subst c1. simpl in Hsz1. unfold InternalPage.GetSize, InternalPage.GetMinSize in Hsz1.
  rewrite Hm1, Hs1 in Hsz1.
  assert (Hpre1 : forall x, x ∈ ids (TNode id (spre ++ (kL, c) :: spost)) ->
                            x ∉ write_set_ ctx ++ held \/ x = id \/ x ∈ ids c).
  { intros x Hx. destruct (decide (x = id)) as [->|?]; [tauto|].
    destruct (decide (x ∈ ids c)) as [?|Hxc]; [tauto|]. left. simpl. intros Hin'.
    rewrite <- app_assoc in Hin'. simpl in Hin'.
    apply elem_of_app in Hin' as [Hin'|Hin']; [exact (Hpre x Hin' Hx)|].
    apply elem_of_cons in Hin' as [?|Hin']; [contradiction|].
    apply elem_of_cons in Hin' as [->|Hin']; [apply Hxc, tid_in_ids|].
    apply Hxc, Hrest. exact Hin'. }
  destruct spost as [|[kR R] B].
  - (* the last child: the left brother helps *)
    simpl next_bound in Hweak.
    assert (Hspre : spre <> []).
    { destruct N as [_ _ _ _ _ _ _ _ Hlen _]. intros ->. simpl in Hlen. lia. }
    destruct (exists_last Hspre) as (A & [kL0 L] & ->).
    rewrite lbound_snoc in Hweak. simpl fst in Hweak.
    pose proof (node_at_snoc _ _ _ _ _ _ _ _ _ _ N) as N'.
    pose proof (pair_left s s1 (S h) lo hi id A kL0 L kL c [] P key (TNode (tid c) sl1)
                  N' Hcore Hweak) as PA.
    pose proof PA as [Hpool1 _ _ HsizeP HslotsP _ HrL _ _ _ _ HwL HwR _ Hlo Hhi Hsome HlenP HndP].
    destruct (rep_internal_page _ _ _ HrL) as (slL & pL & EL & HpL & HmL & HsL & HslL & HchL).
    rewrite EL in PA, HwL, HrL, Hsome. rewrite EL in HndP, HsizeP, HslotsP.
    assert (Hndpair : NoDup (ids (TNode (tid L) slL) ++ ids (TNode (tid c) sl1))).
    { rewrite ids_of_pair in HndP. apply NoDup_cons in HndP as [_ HndP].
      apply NoDup_app in HndP as (_ & _ & HndP). apply NoDup_app in HndP as (HndP & _ & _).
      exact HndP. }
    assert (Hne : tid L <> tid c /\ tid L <> id /\ (tid L ∉ ids c)).
    { pose proof Hndpair as Hp. rewrite merged_ids in Hp. apply NoDup_cons in Hp as [Hp _].
      split; [intros E; apply Hp; rewrite <- E; left|].
      rewrite ids_of_pair in HndP. apply NoDup_cons in HndP as [Hid _].
      split.
      - intros E. apply Hid. rewrite <- E, !elem_of_app. right. left. left. left.
      - destruct N' as [_ _ _ _ _ _ _ _ _ Hnodup]. rewrite EL in Hnodup.
        simpl in Hnodup. fold (ids_of (A ++ (kL0, TNode (tid L) slL) :: (kL, c) :: [])) in Hnodup.
        rewrite ids_of_pair in Hnodup. apply NoDup_cons in Hnodup as [_ Hnodup].
        apply NoDup_app in Hnodup as (_ & _ & Hnodup).
        apply NoDup_app in Hnodup as (Hnodup & _ & _).
        apply NoDup_app in Hnodup as (_ & Hd & _).
        intros Hx. apply (Hd (tid L)); [left | exact Hx]. }
    assert (HinL : tid L ∈ ids (TNode id ((A ++ [(kL0, L)]) ++ [(kL, c)]))).
    { simpl. right. fold (ids_of ((A ++ [(kL0, L)]) ++ [(kL, c)])).
      rewrite <- app_assoc. simpl app. rewrite ids_of_pair.
      rewrite !elem_of_app. right. left. left. apply tid_in_ids. }
    unfold InternalPage.GetSize. rewrite HsizeP, !length_app. simpl length.
    destruct (Z.ltb_spec (Z.of_nat (length A + 1)) (Z.of_nat (length A + 2) - 1)); [lia|].
    replace (Z.of_nat (length A + 1) - 1) with (Z.of_nat (length A)) by lia.
    replace (Z.of_nat (length A + 1)) with (Z.of_nat (length A) + 1) by lia.
    rewrite InternalPage_ValueAt_Ok by len_lia.
    rewrite (first_slot P A _ _ HsizeP HslotsP). simpl snd. rewrite bind_Ok_l.
    rewrite (FetchPageWrite_Ok s1 _ _ (Internal pL));
      [|destruct (Hpre1 _ HinL) as [?|[?|?]]; tauto | exact HpL].
    rewrite bind_Ok_l. simpl AsInternal. rewrite bind_Ok_l.
    unfold InternalPage.GetMaxSize. rewrite HmL, Hs1, HsL.
    exists (tid L :: held). split.
    { intros x Hx. apply elem_of_cons in Hx as [->|Hx]; [tauto|].
      split; [apply Hin, Hrest, elem_of_app; right; exact Hx|].
      intros ->. apply Hidc, Hrest, elem_of_app. right. exact Hx. }
    pose proof (pool_ok_lookup _ _ _ Hpool1 Hp1') as Hidc1.
    pose proof (pool_ok_lookup _ _ _ Hpool1 HpL) as HidL1.
    pose proof HwL as (_ & _ & HlL). pose proof HwR as (_ & _ & HlR).
    assert (E : (A ++ [(kL0, L)]) ++ [(kL, TNode (tid c) sl1)]
                = A ++ [(kL0, TNode (tid L) slL); (kL, TNode (tid c) sl1)]).
    { rewrite <- app_assoc, EL. reflexivity. }
    destruct (Z.leb_spec (Z.of_nat (length slL) + Z.of_nat (length sl1)) internal_max_size_)
      as [Hmerge|Hborrow].
    + destruct (internal_merge_spec pL p1) as (pm & Hm & Hms & Hmm & Hmsl); [lia | lia | lia |].
      rewrite Hs1, HsL, Z.add_comm in Hm. rewrite Hm, bind_Ok_l. cbv zeta.
      rewrite Hs1, HsL in Hms. rewrite HmL in Hmm. rewrite Hsl1, HslL, <- map_app in Hmsl.
      apply (merge_finish s s1 _ (S h) lo hi id (A ++ [(kL0, L)]) (kL, c) [] P key
               (TNode (tid c) sl1)
               A kL0 (TNode (tid L) slL) kL (TNode (tid c) sl1) []
               (TNode (tid L) (slL ++ sl1)) (length pre) ctx (tid L :: held) N Hcore).
      * exact E.
      * exact PA.
      * apply frame_put; [apply frame_refl; exact Hpool1 | left | exact HidL1].
      * exists pm. simpl pages_. rewrite lookup_insert_eq.
        split; [reflexivity|]. split; [exact Hmm|].
        split; [rewrite Hms, length_app; lia|]. split; [exact Hmsl|].
        apply (node_pair_children s1 (put_page s1 (tid L) (Internal pm)) h (tid L) (tid c));
          try assumption.
        intros x Hx _. simpl. apply lookup_insert_ne. congruence.
      * reflexivity.
      * apply (node_pair_merge_good h _ _ kL _ (tid c)); [exact HwL | exact HwR | lia].
      * pose proof Hndpair as Hp. rewrite merged_ids in Hp.
        apply NoDup_cons in Hp as [_ Hp]. exact Hp.
      * intros x Hx. rewrite merged_ids. right. exact Hx.
      * simpl. fold (kvs_of (slL ++ sl1)) (kvs_of sl1) (kvs_of slL). apply kvs_of_app.
      * exact Hws.
    + destruct (internal_borrow_left_spec p1 pL)
        as (p1n & pLn & Hb & Hbs & Hbm & Hbsl & Hls & Hlm & Hlsl); [lia | lia |].
      rewrite Hb, bind_Ok_l. cbv beta iota zeta.
      rewrite InternalPage_KeyAt_Ok, bind_Ok_l by len_lia.
      rewrite Hs1 in Hbs. rewrite Hm1 in Hbm. rewrite HsL in Hls. rewrite HmL in Hlm.
      rewrite HsL, Hsl1, HslL in Hbsl. rewrite HsL, HslL in Hlsl.
      replace (Z.to_nat (Z.of_nat (length slL) - 1)) with (length slL - 1)%nat in Hbsl, Hlsl
        by lia.
      rewrite map_drop_pred in Hbsl. rewrite (map_take_pred slL sl1) in Hlsl.
      destruct (drop (length slL - 1) (slL ++ sl1)) as [|kd rest'] eqn:Hdrop.
      { apply (f_equal length) in Hdrop. rewrite length_drop, length_app in Hdrop.
        simpl in Hdrop. lia. }
      assert (Hlenr : Z.of_nat (length (kd :: rest')) = Z.of_nat (length sl1) + 1).
      { rewrite <- Hdrop, length_drop, length_app. lia. }
      assert (Hk0 : get (InternalPage.array_ p1n) 0 = slot_of kd).
      { apply (node_slot p1n (kd :: rest') 0 kd); [|exact Hbsl | reflexivity]. lia. }
      rewrite Hk0. simpl fst.
      destruct (node_pair_split_good h _ _ kL (tid L) (tid c) slL sl1 (length slL - 1) kd rest'
                  HwL HwR Hdrop) as [HgL' HgR']; [lia | lia |].
      assert (Hch2 : Forall (fun kc => rep (pages_ (put_page (put_page s1 (tid c) (Internal p1n))
                                                       (tid L) (Internal pLn))) h (snd kc))
                       (slL ++ sl1)).
      { apply (node_pair_children s1 _ h (tid L) (tid c)); try assumption.
        intros x Hx1 Hx2. simpl. rewrite !lookup_insert_ne by congruence. reflexivity. }
      rewrite <- (take_drop (length slL - 1) (slL ++ sl1)) in Hch2.
      apply Forall_app in Hch2 as [Hch2a Hch2b].
      destruct (borrow_finish s s1
                  (put_page (put_page s1 (tid c) (Internal p1n)) (tid L) (Internal pLn))
                  (S h) lo hi id (A ++ [(kL0, L)]) (kL, c) [] P key (TNode (tid c) sl1)
                  A kL0 (TNode (tid L) slL) kL (TNode (tid c) sl1) []
                  (TNode (tid L) (take (length slL - 1) (slL ++ sl1)))
                  (TNode (tid c) (drop (length slL - 1) (slL ++ sl1))) (fst kd) N Hcore)
        as (P' & Hset & Hdone).
      * exact E.
      * exact PA.
      * apply frame_put; [apply frame_put; [apply frame_refl; exact Hpool1 | |] | |];
          simpl; rewrite ?elem_of_cons, ?elem_of_app, ?elem_of_cons; try tauto; lia.
      * exists pLn. simpl pages_. rewrite lookup_insert_eq.
        split; [reflexivity|]. split; [exact Hlm|].
        split; [rewrite Hls, length_take, length_app; lia|]. split; [exact Hlsl | exact Hch2a].
      * exists p1n. simpl pages_. rewrite lookup_insert_ne by (intros ?; tauto).
        rewrite lookup_insert_eq.
        split; [reflexivity|]. split; [exact Hbm|].
        split; [rewrite Hdrop; lia|]. split; [rewrite Hdrop; exact Hbsl | exact Hch2b].
      * reflexivity.
      * reflexivity.
      * exact HgL'.
      * exact HgR'.
      * apply node_pair_perm.
      * simpl. fold (kvs_of (take (length slL - 1) (slL ++ sl1)))
                    (kvs_of (drop (length slL - 1) (slL ++ sl1))) (kvs_of sl1) (kvs_of slL).
        rewrite kvs_take_drop. apply kvs_of_app.
      * rewrite Hset, bind_Ok_l. left. eexists. split; [reflexivity | exact Hdone].
  - (* the right brother helps *)
    simpl next_bound in Hweak.
    pose proof (pair_right s s1 (S h) lo hi id spre kL c kR R B P key (TNode (tid c) sl1)
                  N Hcore Hweak) as PA.
    pose proof PA as [Hpool1 _ _ HsizeP HslotsP _ _ HrR _ _ _ HwL HwR _ Hlo Hhi Hsome HlenP HndP].
    destruct (rep_internal_page _ _ _ HrR) as (slR & pR & ER & HpR & HmR & HsR & HslR & HchR).
    rewrite ER in PA, HwR, HrR, Hsome. rewrite ER in HndP, HsizeP, HslotsP.
    assert (Hndpair : NoDup (ids (TNode (tid c) sl1) ++ ids (TNode (tid R) slR))).
    { rewrite ids_of_pair in HndP. apply NoDup_cons in HndP as [_ HndP].
      apply NoDup_app in HndP as (_ & _ & HndP). apply NoDup_app in HndP as (HndP & _ & _).
      exact HndP. }
    assert (Hne : tid R <> tid c /\ tid R <> id /\ (tid R ∉ ids c)).
    { pose proof Hndpair as Hp. rewrite merged_ids in Hp. apply NoDup_cons in Hp as [Hp _].
      split; [intros E; apply Hp; rewrite E; left|].
      rewrite ids_of_pair in HndP. apply NoDup_cons in HndP as [Hid _].
      split.
      - intros E. apply Hid. rewrite <- E, !elem_of_app. right. left. right. left.
      - destruct N as [_ _ _ _ _ _ _ _ _ Hnodup]. rewrite ER in Hnodup.
        simpl in Hnodup. fold (ids_of (spre ++ (kL, c) :: (kR, TNode (tid R) slR) :: B)) in Hnodup.
        rewrite ids_of_pair in Hnodup. apply NoDup_cons in Hnodup as [_ Hnodup].
        apply NoDup_app in Hnodup as (_ & _ & Hnodup).
        apply NoDup_app in Hnodup as (Hnodup & _ & _).
        apply NoDup_app in Hnodup as (_ & Hd & _).
        intros Hx. apply (Hd _ Hx). left. }
    assert (HinR : tid R ∈ ids (TNode id (spre ++ (kL, c) :: (kR, R) :: B))).
    { simpl. right. fold (ids_of (spre ++ (kL, c) :: (kR, R) :: B)). rewrite ids_of_pair.
      rewrite !elem_of_app. right. left. right. apply tid_in_ids. }
    unfold InternalPage.GetSize. rewrite HsizeP, length_app. simpl length.
    destruct (Z.ltb_spec (Z.of_nat (length spre)) (Z.of_nat (length spre + S (S (length B))) - 1));
      [|lia].
    rewrite InternalPage_ValueAt_Ok by len_lia.
    rewrite (second_slot P spre B _ _ HsizeP HslotsP). simpl snd. rewrite bind_Ok_l.
    rewrite (FetchPageWrite_Ok s1 _ _ (Internal pR));
      [|destruct (Hpre1 _ HinR) as [?|[?|?]]; tauto | exact HpR].
    rewrite bind_Ok_l. simpl AsInternal. rewrite bind_Ok_l.
    unfold InternalPage.GetMaxSize. rewrite Hm1, Hs1, HsR.
    exists (tid R :: held). split.
    { intros x Hx. apply elem_of_cons in Hx as [->|Hx]; [tauto|].
      split; [apply Hin, Hrest, elem_of_app; right; exact Hx|].
      intros ->. apply Hidc, Hrest, elem_of_app. right. exact Hx. }
    pose proof (pool_ok_lookup _ _ _ Hpool1 Hp1') as Hidc1.
    pose proof (pool_ok_lookup _ _ _ Hpool1 HpR) as HidR1.
    pose proof HwL as (_ & _ & HlL). pose proof HwR as (_ & _ & HlR).
    destruct (Z.leb_spec (Z.of_nat (length slR) + Z.of_nat (length sl1)) internal_max_size_)
      as [Hmerge|Hborrow].
    + destruct (internal_merge_spec p1 pR) as (pm & Hm & Hms & Hmm & Hmsl); [lia | lia | lia |].
      rewrite Hs1, HsR in Hm. rewrite Hm, bind_Ok_l. cbv zeta.
      rewrite Hs1, HsR in Hms. rewrite Hm1 in Hmm. rewrite Hsl1, HslR, <- map_app in Hmsl.
      apply (merge_finish s s1 _ (S h) lo hi id spre (kL, c) ((kR, R) :: B) P key
               (TNode (tid c) sl1)
               spre kL (TNode (tid c) sl1) kR (TNode (tid R) slR) B
               (TNode (tid c) (sl1 ++ slR)) (length pre) ctx (tid R :: held) N Hcore).
      * rewrite ER. reflexivity.
      * exact PA.
      * apply frame_put; [apply frame_refl; exact Hpool1 | left | exact Hidc1].
      * exists pm. simpl pages_. rewrite lookup_insert_eq.
        split; [reflexivity|]. split; [exact Hmm|].
        split; [rewrite Hms, length_app; lia|]. split; [exact Hmsl|].
        apply (node_pair_children s1 (put_page s1 (tid c) (Internal pm)) h (tid c) (tid R));
          try assumption.
        intros x Hx _. simpl. apply lookup_insert_ne. congruence.
      * reflexivity.
      * apply (node_pair_merge_good h _ _ kR _ (tid R)); [exact HwL | exact HwR | lia].
      * pose proof Hndpair as Hp. rewrite merged_ids in Hp.
        apply NoDup_cons in Hp as [_ Hp]. exact Hp.
      * intros x Hx. rewrite merged_ids. right. exact Hx.
      * simpl. fold (kvs_of (sl1 ++ slR)) (kvs_of sl1) (kvs_of slR). apply kvs_of_app.
      * exact Hws.
    + destruct (internal_borrow_right_spec p1 pR)
        as (p1n & pRn & Hb & Hbs & Hbm & Hbsl & Hrs & Hrm & Hrsl); [lia | lia |].
      rewrite Hb, bind_Ok_l. cbv beta iota zeta.
      rewrite InternalPage_KeyAt_Ok, bind_Ok_l by len_lia.
      rewrite Hs1 in Hbs. rewrite Hm1 in Hbm. rewrite HsR in Hrs. rewrite HmR in Hrm.
      rewrite Hsl1, HslR, map_take_succ in Hbsl. rewrite HslR, (map_drop_succ sl1) in Hrsl.
      destruct (drop (length sl1 + 1) (sl1 ++ slR)) as [|kd rest'] eqn:Hdrop.
      { apply (f_equal length) in Hdrop. rewrite length_drop, length_app in Hdrop.
        simpl in Hdrop. lia. }
      assert (Hlenr : Z.of_nat (length (kd :: rest')) = Z.of_nat (length slR) - 1).
      { rewrite <- Hdrop, length_drop, length_app. lia. }
      assert (Hk0 : get (InternalPage.array_ pRn) 0 = slot_of kd).
      { apply (node_slot pRn (kd :: rest') 0 kd); [|exact Hrsl | reflexivity]. lia. }
      rewrite Hk0. simpl fst.
      destruct (node_pair_split_good h _ _ kR (tid c) (tid R) sl1 slR (length sl1 + 1) kd rest'
                  HwL HwR Hdrop) as [HgL' HgR']; [lia | lia |].
      assert (Hch2 : Forall (fun kc => rep (pages_ (put_page (put_page s1 (tid c) (Internal p1n))
                                                       (tid R) (Internal pRn))) h (snd kc))
                       (sl1 ++ slR)).
      { apply (node_pair_children s1 _ h (tid c) (tid R)); try assumption.
        intros x Hx1 Hx2. simpl. rewrite !lookup_insert_ne by congruence. reflexivity. }
      rewrite <- (take_drop (length sl1 + 1) (sl1 ++ slR)) in Hch2.
      apply Forall_app in Hch2 as [Hch2a Hch2b].
      destruct (borrow_finish s s1
                  (put_page (put_page s1 (tid c) (Internal p1n)) (tid R) (Internal pRn))
                  (S h) lo hi id spre (kL, c) ((kR, R) :: B) P key (TNode (tid c) sl1)
                  spre kL (TNode (tid c) sl1) kR (TNode (tid R) slR) B
                  (TNode (tid c) (take (length sl1 + 1) (sl1 ++ slR)))
                  (TNode (tid R) (drop (length sl1 + 1) (sl1 ++ slR))) (fst kd) N Hcore)
        as (P' & Hset & Hdone).
      * rewrite ER. reflexivity.
      * exact PA.
      * apply frame_put; [apply frame_put; [apply frame_refl; exact Hpool1 | |] | |];
          simpl; rewrite ?elem_of_cons, ?elem_of_app, ?elem_of_cons; try tauto; lia.
      * exists p1n. simpl pages_. rewrite lookup_insert_ne by tauto. rewrite lookup_insert_eq.
        split; [reflexivity|]. split; [exact Hbm|].
        split; [rewrite Hbs, length_take, length_app; lia|]. split; [exact Hbsl | exact Hch2a].
      * exists pRn. simpl pages_. rewrite lookup_insert_eq.
        split; [reflexivity|]. split; [exact Hrm|].
        split; [rewrite Hdrop; lia|]. split; [rewrite Hdrop; exact Hrsl | exact Hch2b].
      * reflexivity.
      * reflexivity.
      * exact HgL'.
      * exact HgR'.
      * apply node_pair_perm.
      * simpl. fold (kvs_of (take (length sl1 + 1) (sl1 ++ slR)))
                    (kvs_of (drop (length sl1 + 1) (sl1 ++ slR))) (kvs_of sl1) (kvs_of slR).
        rewrite kvs_take_drop. apply kvs_of_app.
      * rewrite Hset, bind_Ok_l. left. eexists. split; [reflexivity | exact Hdone].
Qed.

(** ** The removal below a node *)

Lemma rem_done_lift (s s' : BufferPool) (h : nat) (lo hi : option Z) (id : Z)
    (spre : list (Z * tree)) (kc : Z * tree) (spost : list (Z * tree)) (P : InternalPage.t)
    (key : Z) :
  node_at s h lo hi id spre kc spost P ->
  rem_done s s' h (lbound lo spre kc) (next_bound hi spost) (snd kc) key ->
  rem_done s s' (S h) lo hi (TNode id (spre ++ kc :: spost)) key.
Proof.
  intros N (c' & Hcore & Hgood').
  pose proof Hcore as (Hrep' & Htid & Hnd' & Hsub & _ & Hframe).
  destruct (node_update leaf_max_size_ internal_max_size_ s s' h lo hi id spre kc spost P c'
              N Hrep' Htid Hgood' Hnd' ltac:(intros x Hx; left; apply Hsub; exact Hx) Hframe)
    as (H1 & H2 & H3 & _ & H5).
  exists (TNode id (spre ++ (fst kc, c') :: spost)). split; [|exact H2].
  apply (lift_core s s' s' h lo hi id spre kc spost P key c' _ N Hcore H1 eq_refl H3).
  - intros x Hx. exact Hx.
  - reflexivity.
  - apply frame_refl. destruct Hframe as (_ & _ & _ & Hp). exact Hp.
Qed.

Lemma remove_from_spec (h : nat) :
  forall (fuel : nat) (s : BufferPool) (key : Z) (hdr : option Z) (root : Z)
         (pre : list Z) (lo hi : option Z) (t : tree),
  (h <= fuel)%nat -> pool_ok s -> rep (pages_ s) h t -> good h lo hi t -> NoDup (ids t) ->
  in_range lo hi key -> (forall x, x ∈ pre -> x ∉ ids t) ->
  (root ∈ ids t -> root = tid t) ->
  remove_outcome fuel s key hdr root pre h lo hi t.
Proof.
  induction h as [|h IH];
    intros fuel s key hdr root pre lo hi t Hfuel Hpool Hrep Hgood Hnd Hkey Hpre Hroot.
  - destruct t as [id kvs|id sl]; [|simpl in Hrep; tauto].
    apply remove_leaf_spec; assumption.
  - destruct t as [id kvs|id sl]; [simpl in Hrep; tauto|].
    destruct fuel as [|fuel]; [lia|].
    assert (Hne : sl <> []).
    { destruct Hgood as (_ & _ & Hlen). destruct sl; [simpl in Hlen; lia | discriminate]. }
    pose proof Hrep as (P0 & Hp0 & _ & Hs0 & Hsl0 & _).
    destruct (route_spec P0 h lo hi sl key Hs0 ltac:(destruct Hgood as (_ & _ & ?); lia)
                Hsl0 Hne Hkey)
      as (spre & kc & spost & -> & Hroute & Hrange).
    destruct (node_at_intro leaf_max_size_ internal_max_size_ s h lo hi id spre kc spost
                Hpool Hrep Hgood Hnd) as (P & N).
    assert (P0 = P) as -> by (destruct N; congruence).
    destruct (node_child_facts _ _ _ _ _ _ _ _ _ _ _ N)
      as (Hrepc & Hgoodc & Hndc & Hid & Hin & Hdisj & _).
    destruct (FindLeafPage_write_step leaf_max_size_ internal_max_size_ fuel s key OpRemove
                hdr root pre h lo hi id spre kc spost P N Hroute Hpre) as (pc & Hpc & Hstep).
    pose proof (route_member leaf_max_size_ internal_max_size_ h lo hi spre spost kc key
                  ltac:(destruct N; assumption) Hrange) as Hmem.
    assert (Hrootc : root ∉ ids (snd kc)).
    { intros Hx. specialize (Hroot (Hin _ Hx)). simpl in Hroot. subst root. exact (Hid Hx). }
    unfold remove_outcome. simpl tid. cbv zeta.
    change ((t_kvs (TNode id (spre ++ kc :: spost))).*1)
      with ((kvs_of (spre ++ kc :: spost)).*1).
    unfold remove_from at 1 2 3. rewrite Hstep.
    fold (remove_from fuel s key
            {| header_page_ := hdr; root_page_id_ := root;
               write_set_ := (if IsSafePage pc OpRemove false then [] else pre ++ [id])
                             ++ [tid (snd kc)];
               read_set_ := [] |}).
    assert (Hpre' : forall x, x ∈ (if IsSafePage pc OpRemove false then [] else pre ++ [id]) ->
                              x ∉ ids (snd kc)).
    { intros x Hx Hxc. destruct (IsSafePage pc OpRemove false); [inversion Hx|].
      apply elem_of_app in Hx as [Hx|Hx].
      - apply (Hpre _ Hx). apply Hin. exact Hxc.
      - apply list_elem_of_singleton in Hx as ->. exact (Hid Hxc). }
    destruct (IH fuel s key hdr root
                (if IsSafePage pc OpRemove false then [] else pre ++ [id])
                (lbound lo spre kc) (next_bound hi spost) (snd kc)
                ltac:(lia) Hpool Hrepc Hgoodc Hndc Hrange Hpre'
                ltac:(intros Hx; contradiction)) as [Habsent Hfound].
    split.
    + intros Hk. apply Habsent. intros Hkc. apply Hk. apply Hmem. exact Hkc.
    + intros Hk. apply Hmem in Hk.
      destruct (Hfound Hk) as [(s' & Hrun & Hdone)
                              |(s1 & c1 & rest & held & page & page1 & Hpage & Hunsafe & Hrun
                                & Hunder & Hsz & Hrest0 & Hrh)].
      * left. exists s'. split; [exact Hrun|]. eapply rem_done_lift; eassumption.
      * assert (page = pc) as -> by congruence. rewrite Hunsafe in *.
        rewrite Hrun. clear Hrun.
        assert (Htidc : tid (snd kc) <> root).
        { intros E. apply Hrootc. rewrite <- E. apply tid_in_ids. }
        assert (Hfin : forall held',
                  (forall x, x ∈ held' -> x ∈ ids (TNode id (spre ++ kc :: spost)) /\ x <> id) ->
                  forall x, x ∈ (tid (snd kc) :: rest) ++ held' ->
                    x ∈ ids (TNode id (spre ++ kc :: spost)) /\ x <> id).
        { intros held' Hh x Hx. apply elem_of_app in Hx as [Hx|Hx]; [|apply Hh; exact Hx].
          assert (Hxc : x ∈ ids (snd kc)).
          { apply elem_of_cons in Hx as [->|Hx]; [apply tid_in_ids|].
            apply Hrh. apply elem_of_app. left. exact Hx. }
          split; [apply Hin; exact Hxc | intros ->; exact (Hid Hxc)]. }
        pose proof Hunder as ((Hr1 & Ht1 & _) & _ & Hpg1 & _).
        destruct h as [|h].
        -- rewrite (Hrest0 eq_refl) in *.
           destruct (rep_leaf_page _ _ Hr1) as (kvs1 & p1 & _ & Hp1 & _).
           rewrite Ht1 in Hp1. assert (page1 = Leaf p1) as -> by congruence.
           simpl underflow. rewrite <- app_assoc. simpl app.
           destruct (leaf_underflow_step s s1 lo hi id spre kc spost P key c1 p1 hdr root pre
                       N Hroute Hunder Hpre Htidc) as (held' & Hh' & Hres).
           destruct Hres as [(s' & Hrun & Hdone)|(s3 & t1 & P' & HunsafeP & Hrun & Hunder' & HszP)].
           ++ left. exists s'. split; [exact Hrun | exact Hdone].
           ++ right. exists s3, t1, [tid (snd kc)], held', (Internal P), (Internal P').
              split; [destruct N; assumption|]. split; [exact HunsafeP|].
              split; [exact Hrun|]. split; [exact Hunder'|].
              split; [simpl; unfold InternalPage.GetSize; exact HszP|].
              split; [discriminate|]. apply Hfin. exact Hh'.
        -- destruct (rep_internal_page _ _ _ Hr1) as (sl1 & p1 & _ & Hp1 & _).
           rewrite Ht1 in Hp1. assert (page1 = Internal p1) as -> by congruence.
           simpl underflow. rewrite <- app_assoc. simpl app.
           replace (length (pre ++ [id])) with (S (length pre))
             by (rewrite length_app; simpl; lia).
           destruct (internal_underflow_step s s1 h lo hi id spre kc spost P key c1 p1 hdr root
                       pre rest held N Hunder Hpre
                       ltac:(intros x Hx; apply (Hrh x Hx)) Htidc) as (held' & Hh' & Hres).
           destruct Hres as [(s' & Hrun & Hdone)|(s3 & t1 & P' & HunsafeP & Hrun & Hunder' & HszP)].
           ++ left. exists s'. split; [exact Hrun | exact Hdone].
           ++ right. exists s3, t1, (tid (snd kc) :: rest), held', (Internal P), (Internal P').
              split; [destruct N; assumption|]. split; [exact HunsafeP|].
              split; [exact Hrun|]. split; [exact Hunder'|].
              split; [simpl; unfold InternalPage.GetSize; exact HszP|].
              split; [discriminate|]. apply Hfin. exact Hh'.
Qed.

End RemoveProof.

Section RemoveTop.

Variable leaf_max_size_ : Z.
Variable internal_max_size_ : Z.
Variable header_page_id_ : Z.
Hypothesis leaf_max_ge : (2 <=? leaf_max_size_) && (leaf_max_size_ <? LEAF_PAGE_SIZE) = true.
Hypothesis internal_max_ge :
  (3 <=? internal_max_size_) && (internal_max_size_ <=? INTERNAL_PAGE_SIZE) = true.

Local Abbreviation good := (good leaf_max_size_ internal_max_size_).
Local Abbreviation weak := (weak leaf_max_size_ internal_max_size_).
Local Abbreviation rep := (rep leaf_max_size_ internal_max_size_).
Local Abbreviation Inv := (Inv leaf_max_size_ internal_max_size_).

Lemma kvs_remove (lo hi : option Z) (h : nat) (t t' : tree) (key v : Z) :
  good h lo hi t -> t_kvs t ≡ₚ (key, v) :: t_kvs t' ->
  (list_to_map (t_kvs t') : gmap Z Z) = delete key (list_to_map (t_kvs t)).
Proof.
  intros Hg Hperm.
  assert (Hnd : NoDup ((t_kvs t).*1)).
  { eapply keys_ord_NoDup. eapply good_keys. exact Hg. }
  rewrite (list_to_map_proper (t_kvs t) ((key, v) :: t_kvs t') Hnd Hperm).
  rewrite list_to_map_cons. rewrite delete_insert_id; [reflexivity|].
  apply not_elem_of_list_to_map. rewrite Hperm in Hnd. simpl in Hnd.
  apply NoDup_cons in Hnd as [Hnd _]. exact Hnd.
Qed.

Lemma pool_ok_set_root (s : BufferPool) (r : Z) : pool_ok s -> pool_ok (set_root s r).
Proof. intros H. exact H. Qed.

Lemma Remove_nonempty (s : BufferPool) (key : Z) (rp : Page) :
  header_root_page_id_ s <> INVALID_PAGE_ID ->
  pages_ s !! header_root_page_id_ s = Some rp ->
  Remove header_page_id_ s key
  = remove_from (descent_fuel s) s key
      {| header_page_ := if IsSafePage rp OpRemove true then None else Some header_page_id_;
         root_page_id_ := header_root_page_id_ s;
         write_set_ := [] ++ [header_root_page_id_ s]; read_set_ := [] |}.
Proof.
  intros Hne Hrp. rewrite Remove_unfold.
  destruct (Z.eqb_spec (header_root_page_id_ s) INVALID_PAGE_ID) as [E|_]; [contradiction|].
  rewrite (FetchPageWrite_Ok s [] _ rp); [|intros Hx; inversion Hx | exact Hrp].
  rewrite bind_Ok_l. cbv zeta. destruct (IsSafePage rp OpRemove true); reflexivity.
Qed.

(** Removing a key that is not stored changes nothing. *)
Theorem Remove_absent (s : BufferPool) (M : gmap Z Z) (key : Z) :
  Inv s M -> M !! key = None -> Remove header_page_id_ s key = Ok s.
Proof.
  intros [Hpool [[Hroot ->]|(h & t & Hroot & Hrep & Hgood & Hnd & HM)]] Hk.
  { rewrite Remove_unfold, Hroot. reflexivity. }
  destruct (Inv_root leaf_max_size_ internal_max_size_ s h t Hpool Hrep) as (Hne & rp & Hrp).
  rewrite <- Hroot in Hne, Hrp.
  rewrite (Remove_nonempty s key rp Hne Hrp). rewrite Hroot.
  destruct (remove_from_spec leaf_max_size_ internal_max_size_ leaf_max_ge internal_max_ge h
              (descent_fuel s) s key
              (if IsSafePage rp OpRemove true then None else Some header_page_id_)
              (tid t) [] None None t
              (descent_fuel_enough _ _ _ _ _ _ _ Hrep Hgood Hnd) Hpool Hrep Hgood Hnd
              (conj I I) ltac:(intros x Hx; inversion Hx) ltac:(reflexivity)) as [Habsent _].
  apply Habsent. intros Hin. apply (kvs_lookup leaf_max_size_ internal_max_size_ None None h) in Hin;
    [|exact Hgood].
  rewrite HM, Hk in Hin. destruct Hin; discriminate.
Qed.

(** Removing a stored key yields the tree of the map without it. *)
Theorem Remove_present (s : BufferPool) (M : gmap Z Z) (key : Z) :
  Inv s M -> is_Some (M !! key) ->
  exists s', Remove header_page_id_ s key = Ok s' /\ Inv s' (delete key M).
Proof.
  intros [Hpool [[Hroot ->]|(h & t & Hroot & Hrep & Hgood & Hnd & HM)]] Hk.
  { rewrite lookup_empty in Hk. destruct Hk; discriminate. }
  destruct (Inv_root leaf_max_size_ internal_max_size_ s h t Hpool Hrep) as (Hne & rp & Hrp).
  rewrite <- Hroot in Hne, Hrp.
  rewrite (Remove_nonempty s key rp Hne Hrp). rewrite Hroot.
  destruct (remove_from_spec leaf_max_size_ internal_max_size_ leaf_max_ge internal_max_ge h
              (descent_fuel s) s key
              (if IsSafePage rp OpRemove true then None else Some header_page_id_)
              (tid t) [] None None t
              (descent_fuel_enough _ _ _ _ _ _ _ Hrep Hgood Hnd) Hpool Hrep Hgood Hnd
              (conj I I) ltac:(intros x Hx; inversion Hx) ltac:(reflexivity)) as [_ Hfound].
  assert (Hin : key ∈ (t_kvs t).*1).
  { apply (kvs_lookup leaf_max_size_ internal_max_size_ None None h); [exact Hgood|].
    rewrite HM. exact Hk. }
  destruct (Hfound Hin) as [(s' & Hrun & Hdone)
                           |(s1 & t1 & rest & held & page & page1 & Hpage & Hunsafe & Hrun
                             & Hunder & Hsz & _ & _)].
  - exists s'. split; [exact Hrun|].
    destruct Hdone as (t' & (Hrep' & Htid & Hnd' & _ & [v Hperm] & Hframe) & Hgood').
    destruct Hframe as (Hroot' & _ & _ & Hpool').
    split; [exact Hpool'|]. right. exists h, t'.
    split; [congruence|]. split; [exact Hrep'|]. split; [exact Hgood'|]. split; [exact Hnd'|].
    rewrite <- HM. eapply kvs_remove; eassumption.
  - rewrite Hroot in Hrp. assert (page = rp) as -> by congruence.
    rewrite Hrun. clear Hrun.
    destruct Hunder as ((Hrep1 & Htid1 & Hnd1 & _ & [v Hperm] & Hframe) & Hweak & Hpg1 & Hlow).
    destruct Hframe as (Hroot1 & _ & _ & Hpool1).
    pose proof (kvs_remove None None h t t1 key v Hgood Hperm) as HM1. rewrite HM in HM1.
    simpl app.
    destruct h as [|h].
    + (* the root is a leaf *)
      destruct (rep_leaf_page leaf_max_size_ internal_max_size_ _ _ Hrep1)
        as (kvs1 & p1 & Et1 & Hp1 & Hm1 & Hs1 & Hsl1).
      rewrite Htid1 in Hp1. assert (page1 = Leaf p1) as -> by congruence.
      destruct (rep_leaf_page leaf_max_size_ internal_max_size_ _ _ Hrep)
        as (kvs0 & p0 & _ & Hp0 & _).
      assert (rp = Leaf p0) as -> by congruence.
      simpl in Hsz. cbn [underflow]. unfold leaf_underflow, IsRootPage. cbn [root_page_id_].
      rewrite Z.eqb_refl. cbn [header_page_].
      destruct (Z.eqb_spec (LeafPage.GetSize p1) 0) as [Hzero|Hpos].
      * assert (Hsafe : IsSafePage (Leaf p0) OpRemove true = false).
        { simpl. apply Z.ltb_ge. lia. }
        rewrite Hsafe. eexists. split; [reflexivity|].
        split; [apply pool_ok_set_root; exact Hpool1|]. left. split; [reflexivity|].
        rewrite <- HM1, Et1. simpl.
        destruct kvs1; [reflexivity|]. unfold LeafPage.GetSize in Hzero.
        rewrite Hs1 in Hzero. simpl in Hzero. lia.
      * eexists. split; [reflexivity|]. split; [exact Hpool1|]. right. exists 0%nat, t1.
        split; [congruence|]. split; [exact Hrep1|]. split; [|split; [exact Hnd1 | exact HM1]].
        rewrite Et1 in Hweak |- *. destruct Hweak as [Ho Hl]. split; [exact Ho|].
        unfold LeafPage.GetSize in Hpos. lia.
    + (* the root is an internal page *)
      destruct (rep_internal_page leaf_max_size_ internal_max_size_ _ _ _ Hrep1)
        as (sl1 & p1 & Et1 & Hp1 & Hm1 & Hs1 & Hsl1 & Hch1).
      rewrite Htid1 in Hp1. assert (page1 = Internal p1) as -> by congruence.
      destruct (rep_internal_page leaf_max_size_ internal_max_size_ _ _ _ Hrep)
        as (sl0 & p0 & _ & Hp0 & _).
      assert (rp = Internal p0) as -> by congruence.
      simpl in Hsz. cbn [underflow]. unfold internal_underflow, IsRootPage. cbn [root_page_id_].
      rewrite Z.eqb_refl.
      rewrite Et1 in Hweak. destruct Hweak as (Hk0 & Hchain & Hlen).
      destruct (Z.eqb_spec (InternalPage.GetSize p1) 1) as [Hone|Hmore].
      * assert (Hsafe : IsSafePage (Internal p0) OpRemove true = false).
        { simpl. apply Z.ltb_ge. lia. }
        rewrite Hsafe. unfold header_deref. cbn [header_page_]. rewrite bind_Ok_l.
        unfold InternalPage.GetSize in Hone. rewrite Hs1 in Hone.
        destruct sl1 as [|[k0 c0] [|? ?]]; simpl in Hone; try lia.
        rewrite InternalPage_ValueAt_Ok by len_lia.
        pose proof (node_slot p1 [(k0, c0)] 0 (k0, c0) Hs1 Hsl1 eq_refl) as Hg0.
        change (Z.of_nat 0) with 0 in Hg0. rewrite Hg0. simpl snd.
        rewrite bind_Ok_l. eexists. split; [reflexivity|].
        split; [apply pool_ok_set_root; exact Hpool1|]. right. exists h, c0.
        split; [reflexivity|]. split; [exact (Forall_inv Hch1)|].
        split; [simpl in Hchain; tauto|]. split.
        { rewrite Et1 in Hnd1. simpl in Hnd1. rewrite app_nil_r in Hnd1.
          apply NoDup_cons in Hnd1 as [_ H]. exact H. }
        rewrite <- HM1, Et1. simpl. rewrite app_nil_r. reflexivity.
      * eexists. split; [reflexivity|]. split; [exact Hpool1|]. right. exists (S h), t1.
        split; [congruence|]. split; [exact Hrep1|]. split; [|split; [exact Hnd1 | exact HM1]].
        rewrite Et1. split; [exact Hk0|]. split; [exact Hchain|].
        unfold InternalPage.GetSize in Hmore. lia.
Qed.

End RemoveTop.

(** * Searches *)

Section ReadProof.

Variable leaf_max_size_ : Z.
Variable internal_max_size_ : Z.

Local Abbreviation good := (good leaf_max_size_ internal_max_size_).
Local Abbreviation rep := (rep leaf_max_size_ internal_max_size_).
Local Abbreviation Inv := (Inv leaf_max_size_ internal_max_size_).
Local Abbreviation node_at := (node_at leaf_max_size_ internal_max_size_).

Lemma same_key_same_entry (l : list (Z * Z)) (kv kv' : Z * Z) :
  NoDup (l.*1) -> kv ∈ l -> kv' ∈ l -> fst kv = fst kv' -> kv = kv'.
Proof.
  intros Hnd H1 H2 E. destruct kv as [k v], kv' as [k' v']. simpl in E. subst k'.
  pose proof (elem_of_list_to_map_1 (M := gmap Z) l k v Hnd H1) as E1.
  pose proof (elem_of_list_to_map_1 (M := gmap Z) l k v' Hnd H2) as E2.
  congruence.
Qed.

(** An entry of the node whose key falls in the range of a child is an
    entry of that child. *)
Lemma route_entry (h : nat) (lo hi : option Z) (id : Z) (pre post : list (Z * tree))
    (kc : Z * tree) (kv : Z * Z) :
  good (S h) lo hi (TNode id (pre ++ kc :: post)) ->
  kv ∈ kvs_of (pre ++ kc :: post) ->
  in_range (lbound lo pre kc) (next_bound hi post) (fst kv) ->
  kv ∈ t_kvs (snd kc).
Proof.
  intros Hg Hin Hr.
  assert (Hnd : NoDup ((kvs_of (pre ++ kc :: post)).*1)).
  { eapply keys_ord_NoDup. apply (good_keys _ _ _ _ _ _ Hg). }
  destruct Hg as (_ & Hchain & _).
  pose proof (route_member leaf_max_size_ internal_max_size_ h lo hi pre post kc (fst kv)
                Hchain Hr) as Hmem.
  assert (Hk : fst kv ∈ (t_kvs (snd kc)).*1).
  { apply Hmem. apply list_elem_of_fmap. exists kv. split; [reflexivity | exact Hin]. }
  apply list_elem_of_fmap in Hk as (kv' & E & Hin').
  assert (Hin'' : kv' ∈ kvs_of (pre ++ kc :: post)).
  { rewrite kvs_of_app, kvs_of_cons, !elem_of_app. right. left. exact Hin'. }
  rewrite (same_key_same_entry _ kv kv' Hnd Hin Hin'' E). exact Hin'.
Qed.

(** The leaf that the descent on [key] reaches in the tree [t]: page [id]
    holds the entries [kvs]; they are entries of [t], among them any entry
    of [key], and every entry of [t] with a key up to [key] is in the leaf
    or below all keys of the leaf. *)
Definition leaf_reached (m : gmap Z Page) (key : Z) (t : tree) (id : Z) (p : LeafPage.t)
    (kvs : list (Z * Z)) : Prop :=
  m !! id = Some (Leaf p) /\
  LeafPage.max_size_ p = leaf_max_size_ /\
  LeafPage.size_ p = Z.of_nat (length kvs) /\ leaf_slots p = kvs /\
  StronglySorted Z.lt (kvs.*1) /\
  1 <= Z.of_nat (length kvs) <= Z.min (leaf_max_size_ - 1) (LEAF_PAGE_SIZE - 2) /\
  (forall kv, kv ∈ kvs -> kv ∈ t_kvs t) /\
  (forall kv, kv ∈ t_kvs t -> fst kv = key -> kv ∈ kvs) /\
  (forall kv, kv ∈ t_kvs t -> fst kv <= key ->
     kv ∈ kvs \/ forall kv', kv' ∈ kvs -> fst kv < fst kv') /\
  id ∈ ids t.

Lemma leaf_reached_leaf (m : gmap Z Page) (key : Z) (lo hi : option Z) (id : Z)
    (kvs : list (Z * Z)) :
  rep m 0 (TLeaf id kvs) -> good 0 lo hi (TLeaf id kvs) ->
  exists p, leaf_reached m key (TLeaf id kvs) id p kvs.
Proof.
  intros (p & Hp & Hm & Hs & Hsl) [[Hsort _] Hlen]. exists p.
  split; [exact Hp|]. split; [exact Hm|]. split; [exact Hs|]. split; [exact Hsl|].
  split; [exact Hsort|]. split; [exact Hlen|].
  split; [auto|]. split; [auto|]. split; [intros kv Hkv _; left; exact Hkv|]. simpl. left.
Qed.

Lemma leaf_reached_lift (m : gmap Z Page) (key : Z) (h : nat) (lo hi : option Z) (id : Z)
    (pre post : list (Z * tree)) (kc : Z * tree) (idl : Z) (p : LeafPage.t)
    (kvs : list (Z * Z)) :
  good (S h) lo hi (TNode id (pre ++ kc :: post)) ->
  in_range (lbound lo pre kc) (next_bound hi post) key ->
  leaf_reached m key (snd kc) idl p kvs ->
  leaf_reached m key (TNode id (pre ++ kc :: post)) idl p kvs.
Proof.
  intros Hg Hr (H1 & H2 & H3 & H4 & H5 & H6 & H7 & H8 & H9 & H10).
  split; [exact H1|]. split; [exact H2|]. split; [exact H3|]. split; [exact H4|].
  split; [exact H5|]. split; [exact H6|].
  split.
  { intros kv Hkv. simpl. fold (kvs_of (pre ++ kc :: post)).
    rewrite kvs_of_app, kvs_of_cons, !elem_of_app. right. left. apply H7. exact Hkv. }
  split.
  { intros kv Hkv E. apply H8; [|exact E].
    apply (route_entry h lo hi id pre post kc kv Hg Hkv). rewrite E. exact Hr. }
  split.
  { intros kv Hkv Hle.
    pose proof Hg as (_ & Hchain & _). apply chain_middle in Hchain as (_ & Hgc & _).
    destruct (good_keys _ _ _ _ _ _ Hgc) as [[_ Hrange] _].
    destruct (lbound lo pre kc) as [l|] eqn:El.
    - destruct (Z.le_gt_cases l (fst kv)) as [Hge|Hlt].
      + apply H9; [|exact Hle].
        apply (route_entry h lo hi id pre post kc kv Hg Hkv). rewrite El.
        split; [exact Hge|]. destruct Hr as [_ Hu].
        destruct (next_bound hi post); [lia | exact I].
      + right. intros kv' Hkv'. apply H7 in Hkv'.
        rewrite Forall_forall in Hrange. destruct (Hrange _ Hkv') as [Hl _]. simpl in Hl. lia.
    - apply H9; [|exact Hle].
      apply (route_entry h lo hi id pre post kc kv Hg Hkv). rewrite El.
      split; [exact I|]. destruct Hr as [_ Hu].
      destruct (next_bound hi post); [lia | exact I]. }
  rewrite ids_node_middle, !elem_of_app. right. left. exact H10.
Qed.

(** ** [GetValue] *)

Lemma FindLeafPage_read_S (fuel : nat) (s : BufferPool) (key : Z) (ctx : Context) :
  FindLeafPage_read (S fuel) s key ctx
  = (id ← back (read_set_ ctx);
     page ← guarded_page s id;
     match page with
     | Leaf _ => Ok ctx
     | Internal internal =>
         slot ← BinaryFind_internal internal key;
         next_page_id ← InternalPage.ValueAt internal slot;
         _ ← FetchPageRead s next_page_id;
         FindLeafPage_read fuel s key (set_read_set ctx (read_set_ ctx ++ [next_page_id]))
     end).
Proof. reflexivity. Qed.

Lemma FindLeafPage_read_spec (h : nat) :
  forall (fuel : nat) (s : BufferPool) (key : Z) (ctx : Context) (rs : list Z)
         (lo hi : option Z) (t : tree),
  (h <= fuel)%nat -> pool_ok s -> rep (pages_ s) h t -> good h lo hi t -> NoDup (ids t) ->
  in_range lo hi key -> read_set_ ctx = rs ++ [tid t] ->
  exists ctx' id p kvs,
    FindLeafPage_read fuel s key ctx = Ok ctx' /\ back (read_set_ ctx') = Ok id /\
    leaf_reached (pages_ s) key t id p kvs.
Proof.
  induction h as [|h IH]; intros fuel s key ctx rs lo hi t Hfuel Hpool Hrep Hgood Hnd Hkey Hrs.
  - destruct t as [id kvs|id sl]; [|simpl in Hrep; tauto].
    destruct (leaf_reached_leaf _ key lo hi id kvs Hrep Hgood) as (p & Hreach).
    exists ctx, id, p, kvs.
    assert (Hback : back (read_set_ ctx) = Ok id) by (rewrite Hrs; apply back_snoc).
    split; [|split; [exact Hback | exact Hreach]].
    destruct Hreach as (Hp & _).
    destruct fuel; simpl; rewrite Hback; simpl; rewrite (guarded_page_Ok _ _ _ Hp); reflexivity.
  - destruct t as [id kvs|id sl]; [simpl in Hrep; tauto|].
    destruct fuel as [|fuel]; [lia|].
    assert (Hne : sl <> []).
    { destruct Hgood as (_ & _ & Hlen). destruct sl; [simpl in Hlen; lia | discriminate]. }
    pose proof Hrep as (P0 & Hp0 & _ & Hs0 & Hsl0 & _).
    destruct (route_spec P0 h lo hi sl key Hs0 ltac:(destruct Hgood as (_ & _ & ?); lia)
                Hsl0 Hne Hkey)
      as (spre & kc & spost & -> & Hroute & Hrange).
    destruct (node_at_intro leaf_max_size_ internal_max_size_ s h lo hi id spre kc spost
                Hpool Hrep Hgood Hnd) as (P & N).
    assert (P0 = P) as -> by (destruct N; congruence).
    destruct (node_child_facts _ _ _ _ _ _ _ _ _ _ _ N)
      as (Hrepc & Hgoodc & Hndc & Hid & Hin & Hdisj & Hval).
    destruct (rep_in_dom _ _ _ _ _ _ Hrepc (tid_in_ids _)) as [pc Hpc].
    destruct (IH fuel s key (set_read_set ctx (read_set_ ctx ++ [tid (snd kc)]))
                (rs ++ [id]) (lbound lo spre kc) (next_bound hi spost) (snd kc)
                ltac:(lia) Hpool Hrepc Hgoodc Hndc Hrange ltac:(simpl; rewrite Hrs; reflexivity))
      as (ctx' & idl & p & kvs & Hrun & Hback & Hreach).
    exists ctx', idl, p, kvs. split; [|split; [exact Hback|]].
    + rewrite FindLeafPage_read_S.
      replace (back (read_set_ ctx)) with (Ok id : Result Z)
        by (rewrite Hrs; symmetry; apply back_snoc).
      rewrite bind_Ok_l, (guarded_page_Ok _ _ _ Hp0), bind_Ok_l.
      rewrite Hroute, bind_Ok_l, Hval, bind_Ok_l.
      unfold FetchPageRead. rewrite (guarded_page_Ok _ _ _ Hpc), bind_Ok_l.
      exact Hrun.
    + eapply leaf_reached_lift; eassumption.
Qed.

(** The lookup in the leaf that the descent reached. *)
Lemma leaf_lookup (m : gmap Z Page) (key : Z) (h : nat) (lo hi : option Z) (t : tree) (id : Z)
    (p : LeafPage.t) (kvs : list (Z * Z)) (result : list Z) :
  good h lo hi t ->
  leaf_reached m key t id p kvs ->
  (index ← BinaryFind_leaf p key;
   if index =? -1 then Ok (false, result)
   else
     k ← LeafPage.KeyAt p index;
     if negb (comparator_ k key =? 0) then Ok (false, result)
     else v ← LeafPage.ValueAt p index; Ok (true, result ++ [v]))
  = Ok (match (list_to_map (t_kvs t) : gmap Z Z) !! key with
        | Some v => (true, result ++ [v])
        | None => (false, result)
        end).
Proof.
  intros Hgood (Hp & Hm & Hs & Hsl & Hsort & Hlen & Hsub & Hkey & _ & _).
  assert (Hnd : NoDup ((t_kvs t).*1)).
  { eapply keys_ord_NoDup. apply (good_keys _ _ _ _ _ _ Hgood). }
  destruct (leaf_search p kvs key Hs ltac:(lia) Hsl Hsort) as (r & Hfind & Hr & Hat & Htake & Hdrop).
  assert (Hat' : r = -1 \/ exists kv, 0 <= r /\ kvs !! Z.to_nat r = Some kv /\ fst kv <= key).
  { destruct Hat as [->|(kv & ? & ? & _ & _ & ?)]; [left; reflexivity | right; eauto]. }
  pose proof (leaf_search_found p kvs key r Hsort Htake Hdrop Hat') as Hfound.
  assert (Hnone : key ∉ kvs.*1 -> (list_to_map (t_kvs t) : gmap Z Z) !! key = None).
  { intros Hn. apply not_elem_of_list_to_map. intros Hin.
    apply list_elem_of_fmap in Hin as (kv & E & Hin). apply Hn.
    apply list_elem_of_fmap. exists kv. split; [exact E|]. apply Hkey; [exact Hin | auto]. }
  rewrite Hfind, bind_Ok_l.
  destruct Hat as [->|(kv & Hr0 & Hkv & HK & HV & Hle)].
  - simpl. rewrite Hnone; [reflexivity|]. intros Hin. apply Hfound in Hin as (? & ? & _). lia.
  - destruct (Z.eqb_spec r (-1)); [lia|]. rewrite HK, bind_Ok_l, comparator_eq.
    destruct (Z.eqb_spec (fst kv) key) as [E|E]; simpl negb; cbv iota.
    + rewrite HV, bind_Ok_l.
      rewrite (elem_of_list_to_map_1 (t_kvs t) key (snd kv) Hnd); [reflexivity|].
      apply Hsub. rewrite <- E. apply list_elem_of_lookup. exists (Z.to_nat r).
      destruct kv; exact Hkv.
    + rewrite Hnone; [reflexivity|]. intros Hin. apply Hfound in Hin as (kv' & _ & Hkv' & E').
      congruence.
Qed.

(** [GetValue] answers with the entry of the map. *)
Theorem GetValue_spec (s : BufferPool) (M : gmap Z Z) (key : Z) (result : list Z) :
  Inv s M ->
  GetValue s key result
  = Ok (match M !! key with Some v => (true, result ++ [v]) | None => (false, result) end).
Proof.
  intros [Hpool [[Hroot ->]|(h & t & Hroot & Hrep & Hgood & Hnd & HM)]].
  { unfold GetValue. rewrite Hroot. simpl. rewrite lookup_empty. reflexivity. }
  destruct (Inv_root leaf_max_size_ internal_max_size_ s h t Hpool Hrep) as (Hne & rp & Hrp).
  unfold GetValue. rewrite Hroot.
  destruct (Z.eqb_spec (tid t) INVALID_PAGE_ID) as [E|_]; [contradiction|].
  unfold FetchPageRead. rewrite (guarded_page_Ok _ _ _ Hrp), bind_Ok_l. cbv zeta.
  destruct (FindLeafPage_read_spec h (descent_fuel s) s key
              {| header_page_ := None; root_page_id_ := tid t;
                 write_set_ := []; read_set_ := [tid t] |} [] None None t
              (descent_fuel_enough _ _ _ _ _ _ _ Hrep Hgood Hnd) Hpool Hrep Hgood Hnd
              (conj I I) eq_refl) as (ctx' & id & p & kvs & Hrun & Hback & Hreach).
  unfold FindLeafPage. rewrite Hrun, bind_Ok_l, Hback, bind_Ok_l.
  pose proof Hreach as (Hp & _).
  rewrite (guarded_page_Ok _ _ _ Hp), bind_Ok_l. simpl AsLeaf. rewrite bind_Ok_l.
  rewrite <- HM. apply (leaf_lookup (pages_ s) key h None None t id p kvs result Hgood Hreach).
Qed.

(** ** [Begin(key)] *)

Lemma Begin_key_loop_S (fuel : nat) (s : BufferPool) (key : Z) (id : Z) :
  Begin_key_loop (S fuel) s key id
  = (page ← guarded_page s id;
     match page with
     | Leaf leaf_page => Ok (inr (id, leaf_page))
     | Internal internal =>
         slot_num ← BinaryFind_internal internal key;
         if slot_num =? -1 then Ok (inl End)
         else
           next ← InternalPage.ValueAt internal slot_num;
           _ ← FetchPageRead s next;
           Begin_key_loop fuel s key next
     end).
Proof. reflexivity. Qed.

Lemma Begin_key_loop_spec (h : nat) :
  forall (fuel : nat) (s : BufferPool) (key : Z) (lo hi : option Z) (t : tree),
  (h <= fuel)%nat -> pool_ok s -> rep (pages_ s) h t -> good h lo hi t -> NoDup (ids t) ->
  in_range lo hi key ->
  exists id p kvs,
    Begin_key_loop fuel s key (tid t) = Ok (inr (id, p)) /\
    leaf_reached (pages_ s) key t id p kvs.
Proof.
  induction h as [|h IH]; intros fuel s key lo hi t Hfuel Hpool Hrep Hgood Hnd Hkey.
  - destruct t as [id kvs|id sl]; [|simpl in Hrep; tauto].
    destruct (leaf_reached_leaf _ key lo hi id kvs Hrep Hgood) as (p & Hreach).
    exists id, p, kvs. split; [|exact Hreach].
    destruct Hreach as (Hp & _).
    destruct fuel; simpl; rewrite (guarded_page_Ok _ _ _ Hp); reflexivity.
  - destruct t as [id kvs|id sl]; [simpl in Hrep; tauto|].
    destruct fuel as [|fuel]; [lia|].
    assert (Hne : sl <> []).
    { destruct Hgood as (_ & _ & Hlen). destruct sl; [simpl in Hlen; lia | discriminate]. }
    pose proof Hrep as (P0 & Hp0 & _ & Hs0 & Hsl0 & _).
    destruct (route_spec P0 h lo hi sl key Hs0 ltac:(destruct Hgood as (_ & _ & ?); lia)
                Hsl0 Hne Hkey)
      as (spre & kc & spost & -> & Hroute & Hrange).
    destruct (node_at_intro leaf_max_size_ internal_max_size_ s h lo hi id spre kc spost
                Hpool Hrep Hgood Hnd) as (P & N).
    assert (P0 = P) as -> by (destruct N; congruence).
    destruct (node_child_facts _ _ _ _ _ _ _ _ _ _ _ N)
      as (Hrepc & Hgoodc & Hndc & Hid & Hin & Hdisj & Hval).
    destruct (rep_in_dom _ _ _ _ _ _ Hrepc (tid_in_ids _)) as [pc Hpc].
    destruct (IH fuel s key (lbound lo spre kc) (next_bound hi spost) (snd kc)
                ltac:(lia) Hpool Hrepc Hgoodc Hndc Hrange)
      as (idl & p & kvs & Hrun & Hreach).
    exists idl, p, kvs. split.
    + rewrite Begin_key_loop_S. simpl tid.
      rewrite (guarded_page_Ok _ _ _ Hp0), bind_Ok_l.
      rewrite Hroute, bind_Ok_l.
      destruct (Z.eqb_spec (Z.of_nat (length spre)) (-1)); [lia|].
      rewrite Hval, bind_Ok_l.
      unfold FetchPageRead. rewrite (guarded_page_Ok _ _ _ Hpc), bind_Ok_l.
      exact Hrun.
    + eapply leaf_reached_lift; eassumption.
Qed.

(** [Begin(key)] goes down to the leaf of [key] and stops at the last entry
    of that leaf whose key is at most [key]; it is the end iterator when
    the leaf has no such entry. *)
Theorem Begin_key_spec (s : BufferPool) (M : gmap Z Z) (key : Z) :
  Inv s M -> header_root_page_id_ s <> INVALID_PAGE_ID ->
  exists id p r,
    Begin_key_loop (descent_fuel s) s key (header_root_page_id_ s) = Ok (inr (id, p)) /\
    BinaryFind_leaf p key = Ok r /\
    Begin_key s key
    = Ok (if r =? -1 then End else {| iter_page_id := id; iter_index := r |}) /\
    (r = -1 <-> forall kv, kv ∈ leaf_slots p -> key < fst kv) /\
    (r <> -1 ->
       0 <= r < LeafPage.GetSize p /\
       exists k v, LeafPage.KeyAt p r = Ok k /\ LeafPage.ValueAt p r = Ok v /\
         k <= key /\ M !! k = Some v /\
         forall k', is_Some (M !! k') -> k' <= key -> k' <= k) /\
    ((forall k', is_Some (M !! k') -> key < k') -> r = -1).
Proof.
  intros [Hpool [[Hroot _]|(h & t & Hroot & Hrep & Hgood & Hnd & HM)]] Hne; [contradiction|].
  destruct (Inv_root leaf_max_size_ internal_max_size_ s h t Hpool Hrep) as (_ & rp & Hrp).
  destruct (Begin_key_loop_spec h (descent_fuel s) s key None None t
              (descent_fuel_enough _ _ _ _ _ _ _ Hrep Hgood Hnd) Hpool Hrep Hgood Hnd
              (conj I I)) as (id & p & kvs & Hrun & Hreach).
  destruct Hreach as (Hp & Hm & Hs & Hsl & Hsort & Hlen & Hsub & Hkey & Hbelow & Hid).
  assert (HndM : NoDup ((t_kvs t).*1)).
  { eapply keys_ord_NoDup. apply (good_keys _ _ _ _ _ _ Hgood). }
  destruct (leaf_search p kvs key Hs ltac:(lia) Hsl Hsort) as (r & Hfind & Hr & Hat & Htake & Hdrop).
  exists id, p, r. rewrite Hroot.
  split; [exact Hrun|]. split; [exact Hfind|].
  split.
  { unfold Begin_key. rewrite Hroot.
    destruct (Z.eqb_spec (tid t) INVALID_PAGE_ID) as [E|_]; [congruence|].
    unfold FetchPageRead. rewrite (guarded_page_Ok _ _ _ Hrp), bind_Ok_l.
    rewrite Hrun, bind_Ok_l. cbv beta iota. rewrite Hfind, bind_Ok_l.
    destruct (r =? -1); reflexivity. }
  assert (Hstored : forall kv, kv ∈ t_kvs t <-> M !! fst kv = Some (snd kv)).
  { intros [k v]. simpl. rewrite <- HM. apply elem_of_list_to_map. exact HndM. }
  assert (Hlast : r <> -1 -> exists kv, 0 <= r /\ kvs !! Z.to_nat r = Some kv /\
            LeafPage.KeyAt p r = Ok (fst kv) /\ LeafPage.ValueAt p r = Ok (snd kv) /\
            fst kv <= key).
  { intros Hr1. destruct Hat as [->|H]; [contradiction | exact H]. }
  assert (Hnokey : r = -1 -> forall kv, kv ∈ kvs -> key < fst kv).
  { intros -> kv Hkv. simpl in Hdrop. rewrite drop_0 in Hdrop.
    rewrite Forall_forall in Hdrop. apply Hdrop. exact Hkv. }
  split.
  { rewrite Hsl. split; [exact Hnokey|]. intros Hall.
    destruct (decide (r = -1)) as [E|E]; [exact E|].
    destruct (Hlast E) as (kv & _ & Hkv & _ & _ & Hle).
    assert (key < fst kv); [|lia]. apply Hall. apply list_elem_of_lookup. eauto. }
  split.
  { intros Hr1. destruct (Hlast Hr1) as (kv & Hr0 & Hkv & HK & HV & Hle).
    split; [unfold LeafPage.GetSize; lia|].
    assert (Hkvin : kv ∈ kvs) by (apply list_elem_of_lookup; eauto).
    exists (fst kv), (snd kv). split; [exact HK|]. split; [exact HV|]. split; [exact Hle|].
    split; [apply Hstored, Hsub; exact Hkvin|].
    intros k' [v' Hk'] Hle'.
    assert (Hin' : (k', v') ∈ t_kvs t) by (apply Hstored; exact Hk').
    destruct (Hbelow _ Hin' Hle') as [Hleaf|Hlow].
    - apply list_elem_of_lookup in Hleaf as [i Hi].
      destruct (decide (i <= Z.to_nat r)%nat) as [Hir|Hir].
      + destruct (decide (i = Z.to_nat r)) as [->|Hne'].
        { assert (kv = (k', v')) as -> by congruence. simpl. lia. }
        assert (k' < fst kv); [|lia].
        eapply (StronglySorted_lookup_lt (kvs.*1) i (Z.to_nat r)); [exact Hsort | lia | |].
        * rewrite list_lookup_fmap, Hi. reflexivity.
        * rewrite list_lookup_fmap, Hkv. reflexivity.
      + exfalso. rewrite Forall_forall in Hdrop.
        assert (key < fst (k', v')); [|simpl in *; lia].
        apply Hdrop. apply list_elem_of_lookup. exists (i - Z.to_nat (r + 1))%nat.
        rewrite lookup_drop. rewrite <- Hi. f_equal. lia.
    - specialize (Hlow _ Hkvin). simpl in Hlow. lia. }
  intros Hall. destruct (decide (r = -1)) as [E|E]; [exact E|].
  destruct (Hlast E) as (kv & _ & Hkv & _ & _ & Hle).
  assert (Hkvin : kv ∈ kvs) by (apply list_elem_of_lookup; eauto).
  assert (key < fst kv); [|lia]. apply Hall. exists (snd kv). apply Hstored, Hsub. exact Hkvin.
Qed.

End ReadProof.

(** * Reachable states *)

(** The pages of the tree: the root page, and every child named by a slot
    of an internal page of the tree. *)
Inductive in_tree (s : BufferPool) : page_id_t -> Prop :=
  | in_tree_root :
      header_root_page_id_ s <> INVALID_PAGE_ID -> in_tree s (header_root_page_id_ s)
  | in_tree_child (id : page_id_t) (P : InternalPage.t) (i : Z) (child : page_id_t) :
      in_tree s id -> pages_ s !! id = Some (Internal P) ->
      0 <= i < InternalPage.GetSize P -> InternalPage.ValueAt P i = Ok child ->
      in_tree s child.

(** The states of a tree: the freshly constructed one, and those that a
    completed [Insert] or [Remove] makes of a state. *)
Inductive reachable (leaf_max_size_ internal_max_size_ header_page_id_ : Z)
    : BufferPool -> Prop :=
  | reachable_new : reachable leaf_max_size_ internal_max_size_ header_page_id_ fresh_tree
  | reachable_Insert (s : BufferPool) (key value : Z) (b : bool) (s' : BufferPool) :
      reachable leaf_max_size_ internal_max_size_ header_page_id_ s ->
      Insert leaf_max_size_ internal_max_size_ header_page_id_ s key value = Ok (b, s') ->
      reachable leaf_max_size_ internal_max_size_ header_page_id_ s'
  | reachable_Remove (s : BufferPool) (key : Z) (s' : BufferPool) :
      reachable leaf_max_size_ internal_max_size_ header_page_id_ s ->
      Remove header_page_id_ s key = Ok s' ->
      reachable leaf_max_size_ internal_max_size_ header_page_id_ s'.

(** ** Runs of operations *)

(** [Insert] called on every key of a list in turn, each key with the
    record id made from it, and [Remove] called on every key of a list in
    turn. *)
Fixpoint InsertAll (leaf_max_size_ internal_max_size_ header_page_id_ : Z) (keys : list Z)
    (s : BufferPool) : Result BufferPool :=
  match keys with
  | [] => Ok s
  | key :: keys' =>
      '(_, s') ← Insert leaf_max_size_ internal_max_size_ header_page_id_ s key key;
      InsertAll leaf_max_size_ internal_max_size_ header_page_id_ keys' s'
  end.

Fixpoint RemoveAll (header_page_id_ : Z) (keys : list Z) (s : BufferPool) : Result BufferPool :=
  match keys with
  | [] => Ok s
  | key :: keys' => s' ← Remove header_page_id_ s key; RemoveAll header_page_id_ keys' s'
  end.

(** The keys that [while (input >> key)] reads from a file: its numerals
    up to the first one that does not fit an [int64_t]. *)
Fixpoint read_keys (file : list Z) : list Z :=
  match file with
  | [] => []
  | key :: file' => if fits_int64 key then key :: read_keys file' else []
  end.

Lemma InsertFromFile_read (leaf_max_size_ internal_max_size_ header_page_id_ : Z)
    (file : list Z) (s : BufferPool) :
  InsertFromFile leaf_max_size_ internal_max_size_ header_page_id_ file s
  = InsertAll leaf_max_size_ internal_max_size_ header_page_id_ (read_keys file) s.
Proof.
  revert s. induction file as [|key file IH]; intros s; simpl; [reflexivity|].
  destruct (fits_int64 key); simpl; [|reflexivity].
  destruct (Insert _ _ _ s key key) as [[b s']|e]; simpl; [apply IH | reflexivity].
Qed.

Lemma RemoveFromFile_read (header_page_id_ : Z) (file : list Z) (s : BufferPool) :
  RemoveFromFile header_page_id_ file s = RemoveAll header_page_id_ (read_keys file) s.
Proof.
  revert s. induction file as [|key file IH]; intros s; simpl; [reflexivity|].
  destruct (fits_int64 key); simpl; [|reflexivity].
  destruct (Remove _ s key) as [s'|e]; simpl; [apply IH | reflexivity].
Qed.

Lemma read_keys_all (keys : list Z) :
  Forall (fun key => fits_int64 key = true) keys -> read_keys keys = keys.
Proof.
  induction 1 as [|key keys Hk _ IH]; simpl; [reflexivity|]. rewrite Hk, IH. reflexivity.
Qed.

Section Reachable.

Variable leaf_max_size_ : Z.
Variable internal_max_size_ : Z.
Variable header_page_id_ : Z.
Hypothesis leaf_max_ge : (2 <=? leaf_max_size_) && (leaf_max_size_ <? LEAF_PAGE_SIZE) = true.
Hypothesis internal_max_ge :
  (3 <=? internal_max_size_) && (internal_max_size_ <=? INTERNAL_PAGE_SIZE) = true.

Local Abbreviation good := (good leaf_max_size_ internal_max_size_).
Local Abbreviation rep := (rep leaf_max_size_ internal_max_size_).
Local Abbreviation Inv := (Inv leaf_max_size_ internal_max_size_).
Local Abbreviation reachable := (reachable leaf_max_size_ internal_max_size_ header_page_id_).
Local Abbreviation Insert := (Insert leaf_max_size_ internal_max_size_ header_page_id_).
Local Abbreviation Remove := (Remove header_page_id_).

Lemma fresh_tree_Inv : Inv fresh_tree ∅.
Proof.
  split.
  - split; [simpl; lia|]. intros id p H. simpl in H. rewrite lookup_empty in H. discriminate.
  - left. split; reflexivity.
Qed.

Lemma Insert_Inv (s : BufferPool) (M : gmap Z Z) (key value : Z) :
  Inv s M ->
  exists b s', Insert s key value = Ok (b, s') /\
    Inv s' (match M !! key with Some _ => M | None => <[key := value]> M end).
Proof.
  intros HI. destruct (M !! key) as [v|] eqn:E.
  - exists false, s. split; [|exact HI].
    apply (Insert_dup leaf_max_size_ internal_max_size_ header_page_id_ leaf_max_ge
             internal_max_ge s M key value HI). rewrite E. eauto.
  - destruct (Insert_new leaf_max_size_ internal_max_size_ header_page_id_ leaf_max_ge
                internal_max_ge s M key value HI E) as (s' & H1 & H2).
    exists true, s'. split; assumption.
Qed.

Lemma Remove_Inv (s : BufferPool) (M : gmap Z Z) (key : Z) :
  Inv s M -> exists s', Remove s key = Ok s' /\ Inv s' (delete key M).
Proof.
  intros HI. destruct (M !! key) as [v|] eqn:E.
  - apply (Remove_present leaf_max_size_ internal_max_size_ header_page_id_ leaf_max_ge
             internal_max_ge s M key HI). rewrite E. eauto.
  - exists s. split.
    + apply (Remove_absent leaf_max_size_ internal_max_size_ header_page_id_ leaf_max_ge
               internal_max_ge s M key HI E).
    + rewrite delete_id by exact E. exact HI.
Qed.

(** Every reachable state holds a well-formed tree. *)
Lemma reachable_Inv (s : BufferPool) : reachable s -> exists M, Inv s M.
Proof.
  induction 1 as [|s key value b s' _ [M HI] Hrun|s key s' _ [M HI] Hrun].
  - exists ∅. apply fresh_tree_Inv.
  - destruct (Insert_Inv s M key value HI) as (b' & s'' & Hrun' & HI').
    rewrite Hrun in Hrun'. injection Hrun' as _ <-. eauto.
  - destruct (Remove_Inv s M key HI) as (s'' & Hrun' & HI').
    rewrite Hrun in Hrun'. injection Hrun' as <-. eauto.
Qed.

(** The key is stored iff [GetValue] finds it. *)
Lemma absent_iff (s : BufferPool) (M : gmap Z Z) (key : Z) (result : list Z) :
  Inv s M -> (GetValue s key result = Ok (false, result) <-> M !! key = None).
Proof.
  intros HI. rewrite (GetValue_spec leaf_max_size_ internal_max_size_ s M key result HI).
  destruct (M !! key); split; intros H; try discriminate; try reflexivity.
Qed.

Lemma Inv_empty_iff (s : BufferPool) (M : gmap Z Z) :
  Inv s M -> (M = ∅ <-> header_root_page_id_ s = INVALID_PAGE_ID).
Proof.
  intros [Hpool [[Hroot ->]|(h & t & Hroot & Hrep & Hgood & Hnd & HM)]].
  - tauto.
  - destruct (Inv_root leaf_max_size_ internal_max_size_ s h t Hpool Hrep) as (Hne & _).
    split; [|congruence]. intros ->. exfalso.
    destruct (good_bounds _ _ _ _ _ _ Hgood) as (k & _ & Hk).
    apply (kvs_lookup leaf_max_size_ internal_max_size_ None None h t k Hgood) in Hk.
    rewrite HM, lookup_empty in Hk. destruct Hk; discriminate.
Qed.

(** ** The test drivers *)

Fixpoint insert_keys (keys : list Z) (M : gmap Z Z) : gmap Z Z :=
  match keys with
  | [] => M
  | key :: keys' =>
      insert_keys keys' (match M !! key with Some _ => M | None => <[key := key]> M end)
  end.

Fixpoint remove_keys (keys : list Z) (M : gmap Z Z) : gmap Z Z :=
  match keys with
  | [] => M
  | key :: keys' => remove_keys keys' (delete key M)
  end.

Lemma lookup_insert_keys (keys : list Z) (M : gmap Z Z) (k : Z) :
  is_Some (insert_keys keys M !! k) <-> is_Some (M !! k) \/ k ∈ keys.
Proof.
  revert M. induction keys as [|k0 keys IH]; intros M; simpl.
  - split; [tauto|]. intros [H|H]; [exact H | inversion H].
  - rewrite IH, elem_of_cons. destruct (M !! k0) as [v|] eqn:E.
    + split; [tauto|]. intros [H|[->|H]]; [tauto | left; rewrite E; eauto | tauto].
    + destruct (decide (k = k0)) as [->|Hne].
      * rewrite lookup_insert_eq. split; [tauto|]. intros _. left. eauto.
      * rewrite lookup_insert_ne by congruence. tauto.
Qed.

Lemma remove_keys_None (keys : list Z) (M : gmap Z Z) (k : Z) :
  M !! k = None -> remove_keys keys M !! k = None.
Proof.
  revert M. induction keys as [|k0 keys IH]; intros M H; simpl; [exact H|].
  apply IH. destruct (decide (k0 = k)) as [->|Hne].
  - apply lookup_delete_eq.
  - rewrite lookup_delete_ne by exact Hne. exact H.
Qed.

Lemma lookup_remove_keys (keys : list Z) (M : gmap Z Z) (k : Z) :
  k ∈ keys -> remove_keys keys M !! k = None.
Proof.
  revert M. induction keys as [|k0 keys IH]; intros M Hin; [inversion Hin|].
  simpl. apply elem_of_cons in Hin as [->|Hin]; [|apply IH; exact Hin].
  apply remove_keys_None. apply lookup_delete_eq.
Qed.

Lemma remove_inserted_keys (keys keys' : list Z) :
  (forall k, k ∈ keys -> k ∈ keys') -> remove_keys keys' (insert_keys keys ∅) = ∅.
Proof.
  intros Hsub. apply map_empty. intros k.
  destruct (insert_keys keys ∅ !! k) as [v|] eqn:E.
  - apply lookup_remove_keys. apply Hsub.
    destruct (proj1 (lookup_insert_keys keys ∅ k) ltac:(rewrite E; eauto)) as [H|H];
      [|exact H]. rewrite lookup_empty in H. destruct H; discriminate.
  - apply remove_keys_None. exact E.
Qed.

Lemma InsertAll_Inv (keys : list Z) (s : BufferPool) (M : gmap Z Z) :
  Inv s M ->
  exists s', InsertAll leaf_max_size_ internal_max_size_ header_page_id_ keys s = Ok s' /\
    Inv s' (insert_keys keys M).
Proof.
  revert s M. induction keys as [|k keys IH]; intros s M HI; simpl.
  - eauto.
  - destruct (Insert_Inv s M k k HI) as (b & s1 & Hrun & HI1).
    rewrite Hrun, bind_Ok_l. apply IH. exact HI1.
Qed.

Lemma RemoveAll_Inv (keys : list Z) (s : BufferPool) (M : gmap Z Z) :
  Inv s M ->
  exists s', RemoveAll header_page_id_ keys s = Ok s' /\ Inv s' (remove_keys keys M).
Proof.
  revert s M. induction keys as [|k keys IH]; intros s M HI; simpl.
  - eauto.
  - destruct (Remove_Inv s M k HI) as (s1 & Hrun & HI1).
    rewrite Hrun, bind_Ok_l. apply IH. exact HI1.
Qed.

Lemma reachable_InsertAll (keys : list Z) (s s' : BufferPool) :
  reachable s ->
  InsertAll leaf_max_size_ internal_max_size_ header_page_id_ keys s = Ok s' ->
  reachable s'.
Proof.
  revert s. induction keys as [|k keys IH]; intros s Hr H; simpl in H.
  - injection H as <-. exact Hr.
  - apply bind_Ok in H as ([b s1] & Hrun & H). apply (IH s1); [|exact H].
    eapply reachable_Insert; eassumption.
Qed.

Lemma reachable_RemoveAll (keys : list Z) (s s' : BufferPool) :
  reachable s -> RemoveAll header_page_id_ keys s = Ok s' -> reachable s'.
Proof.
  revert s. induction keys as [|k keys IH]; intros s Hr H; simpl in H.
  - injection H as <-. exact Hr.
  - apply bind_Ok in H as (s1 & Hrun & H). apply (IH s1); [|exact H].
    eapply reachable_Remove; eassumption.
Qed.

Lemma InsertFromFile_Inv (file : list Z) (s : BufferPool) (M : gmap Z Z) :
  Inv s M ->
  exists s', InsertFromFile leaf_max_size_ internal_max_size_ header_page_id_ file s = Ok s' /\
    Inv s' (insert_keys (read_keys file) M).
Proof. rewrite InsertFromFile_read. apply InsertAll_Inv. Qed.

Lemma RemoveFromFile_Inv (file : list Z) (s : BufferPool) (M : gmap Z Z) :
  Inv s M ->
  exists s', RemoveFromFile header_page_id_ file s = Ok s' /\
    Inv s' (remove_keys (read_keys file) M).
Proof. rewrite RemoveFromFile_read. apply RemoveAll_Inv. Qed.

Lemma reachable_InsertFromFile (file : list Z) (s s' : BufferPool) :
  reachable s ->
  InsertFromFile leaf_max_size_ internal_max_size_ header_page_id_ file s = Ok s' ->
  reachable s'.
Proof. rewrite InsertFromFile_read. apply reachable_InsertAll. Qed.

Lemma reachable_RemoveFromFile (file : list Z) (s s' : BufferPool) :
  reachable s -> RemoveFromFile header_page_id_ file s = Ok s' -> reachable s'.
Proof. rewrite RemoveFromFile_read. apply reachable_RemoveAll. Qed.

(** ** The pages of the tree *)

Lemma chain_lookup (P : option Z -> option Z -> tree -> Prop) (lo hi : option Z)
    (sl : list (Z * tree)) (i : nat) (kc : Z * tree) :
  chain P lo hi sl -> sl !! i = Some kc -> exists lo' hi', P lo' hi' (snd kc).
Proof.
  intros Hc Hi. rewrite <- (take_drop_middle sl i kc Hi) in Hc.
  apply chain_middle in Hc as (_ & H & _). eauto.
Qed.

Lemma in_tree_subtree (s : BufferPool) (h : nat) (t : tree) (x : Z) :
  header_root_page_id_ s = tid t -> rep (pages_ s) h t -> good h None None t ->
  in_tree s x ->
  exists h' lo' hi' t', tid t' = x /\ rep (pages_ s) h' t' /\ good h' lo' hi' t'.
Proof.
  intros Hroot Hrep Hgood Hin.
  induction Hin as [_|id P i child _ IH Hp Hi Hval].
  - exists h, None, None, t. split; [symmetry; exact Hroot | split; assumption].
  - destruct IH as (h' & lo' & hi' & t' & Htid & Hrep' & Hgood').
    rewrite <- Htid in Hp.
    destruct (rep_internal_inv _ _ _ _ _ _ Hrep' Hp) as (h'' & sl & -> & Et & _ & Hs & Hsl & Hch).
    rewrite Et in Hgood'. destruct Hgood' as (_ & Hchain & Hlen).
    unfold InternalPage.GetSize in Hi. rewrite Hs in Hi.
    destruct (lookup_lt_is_Some_2 sl (Z.to_nat i) ltac:(lia)) as [kc Hkc].
    rewrite InternalPage_ValueAt_Ok in Hval by len_lia. injection Hval as <-.
    pose proof (node_slot P sl (Z.to_nat i) kc Hs Hsl Hkc) as Hg.
    rewrite Z2Nat.id in Hg by lia. rewrite Hg. simpl.
    destruct (chain_lookup _ _ _ _ _ _ Hchain Hkc) as (lo'' & hi'' & Hgc).
    exists h'', lo'', hi'', (snd kc). split; [reflexivity|]. split; [|exact Hgc].
    rewrite Forall_forall in Hch. apply Hch. apply list_elem_of_lookup. eauto.
Qed.

Lemma Inv_leaf_size (s : BufferPool) (M : gmap Z Z) (id : Z) (p : LeafPage.t) :
  Inv s M -> in_tree s id -> pages_ s !! id = Some (Leaf p) ->
  1 <= LeafPage.GetSize p <= leaf_max_size_ - 1 /\ LeafPage.GetMaxSize p = leaf_max_size_.
Proof.
  intros [Hpool [[Hroot _]|(h & t & Hroot & Hrep & Hgood & _)]] Hin Hp.
  - exfalso. clear Hp. induction Hin; [contradiction | assumption].
  - destruct (in_tree_subtree s h t id Hroot Hrep Hgood Hin)
      as (h' & lo' & hi' & t' & Htid & Hrep' & Hgood').
    rewrite <- Htid in Hp.
    destruct (rep_leaf_inv _ _ _ _ _ _ Hrep' Hp) as (-> & kvs & Et & Hm & Hs & _).
    rewrite Et in Hgood'. destruct Hgood' as [_ Hlen].
    unfold LeafPage.GetSize, LeafPage.GetMaxSize. rewrite Hs. split; [lia | exact Hm].
Qed.

(** ** The header guard at a change of root *)

Lemma Insert_root_change (s : BufferPool) (M : gmap Z Z) (key value : Z) (rp : Page)
    (b : bool) (s' : BufferPool) :
  Inv s M -> header_root_page_id_ s <> INVALID_PAGE_ID ->
  pages_ s !! header_root_page_id_ s = Some rp ->
  Insert s key value = Ok (b, s') ->
  header_root_page_id_ s' <> header_root_page_id_ s ->
  IsSafePage rp OpInsert true = false.
Proof.
  intros [Hpool [[Hroot _]|(h & t & Hroot & Hrep & Hgood & Hnd & HM)]] Hne Hrp Hrun Hchg;
    [contradiction|].
  rewrite IsSafePage_insert_root.
  destruct (IsSafePage rp OpInsert false) eqn:Hsafe; [exfalso | reflexivity].
  rewrite (Insert_nonempty leaf_max_size_ internal_max_size_ header_page_id_ s key value rp
             Hne Hrp) in Hrun.
  rewrite Hsafe, Hroot in Hrun.
  destruct (insert_from_spec leaf_max_size_ internal_max_size_ leaf_max_ge internal_max_ge h
              (descent_fuel s) s key value None (tid t) [] None None t
              (descent_fuel_enough _ _ _ _ _ _ _ Hrep Hgood Hnd) Hpool Hrep Hgood Hnd
              (conj I I) ltac:(intros x Hx; inversion Hx)) as [Hfound Hnew].
  destruct (decide (key ∈ (t_kvs t).*1)) as [Hin|Hnin].
  - rewrite (Hfound Hin) in Hrun. injection Hrun as _ <-. congruence.
  - destruct (Hnew Hnin) as [(s'' & Hrun' & Hdone)
                            |(s1 & sk & t2 & rest & page & Hpage & Hunsafe & _)].
    + rewrite Hrun' in Hrun. injection Hrun as _ <-.
      destruct Hdone as (_ & _ & _ & _ & _ & _ & _ & Hframe).
      destruct Hframe as (Hroot' & _). congruence.
    + rewrite Hroot in Hrp. congruence.
Qed.

Lemma Remove_root_change (s : BufferPool) (M : gmap Z Z) (key : Z) (rp : Page)
    (s' : BufferPool) :
  Inv s M -> header_root_page_id_ s <> INVALID_PAGE_ID ->
  pages_ s !! header_root_page_id_ s = Some rp ->
  Remove s key = Ok s' ->
  header_root_page_id_ s' <> header_root_page_id_ s ->
  IsSafePage rp OpRemove true = false.
Proof.
  intros [Hpool [[Hroot _]|(h & t & Hroot & Hrep & Hgood & Hnd & HM)]] Hne Hrp Hrun Hchg;
    [contradiction|].
  destruct (IsSafePage rp OpRemove true) eqn:Hsafe; [exfalso | reflexivity].
  rewrite (Remove_nonempty header_page_id_ s key rp Hne Hrp) in Hrun.
  rewrite Hsafe, Hroot in Hrun.
  destruct (remove_from_spec leaf_max_size_ internal_max_size_ leaf_max_ge internal_max_ge h
              (descent_fuel s) s key None (tid t) [] None None t
              (descent_fuel_enough _ _ _ _ _ _ _ Hrep Hgood Hnd) Hpool Hrep Hgood Hnd
              (conj I I) ltac:(intros x Hx; inversion Hx) ltac:(reflexivity))
    as [Habsent Hfound].
  destruct (decide (key ∈ (t_kvs t).*1)) as [Hin|Hnin].
  2:{ rewrite (Habsent Hnin) in Hrun. injection Hrun as <-. congruence. }
  destruct (Hfound Hin) as [(s'' & Hrun' & Hdone)
                           |(s1 & t1 & rest & held & page & page1 & Hpage & Hunsafe & Hrun'
                             & Hunder & Hsz & _ & _)].
  - rewrite Hrun' in Hrun. injection Hrun as <-.
    destruct Hdone as (_ & (_ & _ & _ & _ & _ & Hframe) & _).
    destruct Hframe as (Hroot' & _). congruence.
  - rewrite Hroot in Hrp. assert (page = rp) as -> by congruence.
    rewrite Hrun' in Hrun. clear Hrun'.
    destruct Hunder as ((Hrep1 & Htid1 & _ & _ & _ & Hframe) & _ & Hpg1 & _).
    destruct Hframe as (Hroot1 & _).
    simpl app in Hrun.
    destruct h as [|h].
    + destruct (rep_leaf_page leaf_max_size_ internal_max_size_ _ _ Hrep1)
        as (kvs1 & p1 & _ & Hp1 & _).
      rewrite Htid1 in Hp1. assert (page1 = Leaf p1) as -> by congruence.
      destruct (rep_leaf_page leaf_max_size_ internal_max_size_ _ _ Hrep)
        as (kvs0 & p0 & _ & Hp0 & _).
      assert (rp = Leaf p0) as -> by congruence.
      simpl in Hsz, Hsafe. apply Z.ltb_lt in Hsafe.
      cbn [underflow] in Hrun. unfold leaf_underflow, IsRootPage in Hrun.
      cbn [root_page_id_] in Hrun. rewrite Z.eqb_refl in Hrun.
      destruct (Z.eqb_spec (LeafPage.GetSize p1) 0) as [Hzero|_]; [lia|].
      injection Hrun as <-. congruence.
    + destruct (rep_internal_page leaf_max_size_ internal_max_size_ _ _ _ Hrep1)
        as (sl1 & p1 & _ & Hp1 & _).
      rewrite Htid1 in Hp1. assert (page1 = Internal p1) as -> by congruence.
      destruct (rep_internal_page leaf_max_size_ internal_max_size_ _ _ _ Hrep)
        as (sl0 & p0 & _ & Hp0 & _).
      assert (rp = Internal p0) as -> by congruence.
      simpl in Hsz, Hsafe. apply Z.ltb_lt in Hsafe.
      cbn [underflow] in Hrun. unfold internal_underflow, IsRootPage in Hrun.
      cbn [root_page_id_] in Hrun. rewrite Z.eqb_refl in Hrun.
      destruct (Z.eqb_spec (InternalPage.GetSize p1) 1) as [Hone|_]; [lia|].
      injection Hrun as <-. congruence.
Qed.

End Reachable.

(** * When an insertion splits *)

(** [InsertIntoParent] only ever allocates. *)
Lemma InsertIntoParent_next (internal_max_size_ : Z) (n : nat) :
  forall (s : BufferPool) (key c : Z) (ctx : Context) (s' : BufferPool),
  InsertIntoParent internal_max_size_ n s key c ctx = Ok s' ->
  next_page_id_ s <= next_page_id_ s'.
Proof.
  induction n as [|n IH]; intros s key c ctx s' H.
  - rewrite InsertIntoParent_O in H. unfold NewPageGuarded in H. cbv beta iota zeta in H.
    apply bind_Ok in H as (old & _ & H). apply bind_Ok in H as (nr & _ & H).
    apply bind_Ok in H as (hd & _ & H). injection H as <-. simpl. lia.
  - rewrite InsertIntoParent_S in H.
    apply bind_Ok in H as (pid & _ & H). apply bind_Ok in H as (pg & _ & H).
    apply bind_Ok in H as (P & _ & H).
    destruct (negb (InternalPage.GetSize P =? InternalPage.GetMaxSize P)).
    + apply bind_Ok in H as (P' & _ & H). injection H as <-. simpl. lia.
    + unfold NewPageGuarded in H. cbv beta iota zeta in H.
      apply bind_Ok in H as ([P1 P2] & _ & H). apply bind_Ok in H as (up & _ & H).
      apply IH in H. simpl in H. lia.
Qed.

(** The descent of a writer ends on the leaf that the routing on [key]
    leads to, the one [Begin(key)] reaches. *)
Lemma write_descent_leaf (fuel : nat) :
  forall (s : BufferPool) (key : Z) (op : Operation) (ctx ctx' : Context) (id0 id : Z)
         (p : LeafPage.t),
  back (write_set_ ctx) = Ok id0 ->
  Begin_key_loop fuel s key id0 = Ok (inr (id, p)) ->
  FindLeafPage_write fuel s key op ctx = Ok ctx' ->
  back (write_set_ ctx') = Ok id.
Proof.
  induction fuel as [|fuel IH]; intros s key op ctx ctx' id0 id p Hback Hloop Hrun.
  - simpl in Hloop, Hrun. rewrite Hback in Hrun. rewrite bind_Ok_l in Hrun.
    destruct (guarded_page s id0) as [[l|i]|]; simpl in Hloop, Hrun; try discriminate.
    injection Hrun as <-. injection Hloop as <- _. exact Hback.
  - rewrite Begin_key_loop_S in Hloop. simpl in Hrun. rewrite Hback in Hrun.
    rewrite bind_Ok_l in Hrun.
    destruct (guarded_page s id0) as [[l|i]|]; simpl in Hloop, Hrun; try discriminate.
    + injection Hrun as <-. injection Hloop as <- _. exact Hback.
    + destruct (BinaryFind_internal i key) as [slot|]; simpl in Hloop, Hrun; [|discriminate].
      destruct (slot =? -1); [discriminate|].
      destruct (InternalPage.ValueAt i slot) as [next|]; simpl in Hloop, Hrun; [|discriminate].
      destruct (FetchPageRead s next) as [pg|]; simpl in Hloop; [|discriminate].
      destruct (FetchPageWrite s (write_set_ ctx) next) as [child|]; simpl in Hrun;
        [|discriminate].
      refine (IH s key op _ ctx' next id p _ Hloop Hrun).
      simpl. destruct (IsSafePage child op false).
      * rewrite pop_front_to_one_snoc. reflexivity.
      * apply back_snoc.
Qed.

Section SplitCriterion.

Variable leaf_max_size_ : Z.
Variable internal_max_size_ : Z.
Variable header_page_id_ : Z.
Hypothesis leaf_max_ge : (2 <=? leaf_max_size_) && (leaf_max_size_ <? LEAF_PAGE_SIZE) = true.
Hypothesis internal_max_ge :
  (3 <=? internal_max_size_) && (internal_max_size_ <=? INTERNAL_PAGE_SIZE) = true.

Local Abbreviation Inv := (Inv leaf_max_size_ internal_max_size_).
Local Abbreviation Insert := (Insert leaf_max_size_ internal_max_size_ header_page_id_).

(** An insertion of a new key allocates a page exactly when the leaf it
    goes to was one entry short of [leaf_max_size]. *)
Theorem Insert_split_iff (s : BufferPool) (M : gmap Z Z) (key value : Z) :
  Inv s M -> header_root_page_id_ s <> INVALID_PAGE_ID -> M !! key = None ->
  exists id p s',
    Begin_key_loop (descent_fuel s) s key (header_root_page_id_ s) = Ok (inr (id, p)) /\
    pages_ s !! id = Some (Leaf p) /\
    Insert s key value = Ok (true, s') /\
    (next_page_id_ s' = next_page_id_ s <-> LeafPage.GetSize p + 1 < leaf_max_size_) /\
    (next_page_id_ s < next_page_id_ s' <-> LeafPage.GetSize p + 1 = leaf_max_size_).
Proof.
  intros HI Hne Hk.
  destruct (Insert_new leaf_max_size_ internal_max_size_ header_page_id_ leaf_max_ge
              internal_max_ge s M key value HI Hk) as (s' & Hrun & _).
  destruct HI as [Hpool [[Hroot _]|(h & t & Hroot & Hrep & Hgood & Hnd & HM)]]; [contradiction|].
  destruct (Begin_key_loop_spec leaf_max_size_ internal_max_size_ h (descent_fuel s) s key
              None None t (descent_fuel_enough _ _ _ _ _ _ _ Hrep Hgood Hnd) Hpool Hrep Hgood Hnd
              (conj I I)) as (id & p & kvs & Hloop & Hreach).
  destruct Hreach as (Hp & Hmax & Hsize & Hslots & Hsort & Hlen & _).
  rewrite <- Hroot in Hloop.
  exists id, p, s'. split; [exact Hloop|]. split; [exact Hp|]. split; [exact Hrun|].
  destruct (Inv_root leaf_max_size_ internal_max_size_ s h t Hpool Hrep) as (_ & rp & Hrp).
  rewrite <- Hroot in Hrp.
  rewrite (Insert_nonempty leaf_max_size_ internal_max_size_ header_page_id_ s key value rp
             Hne Hrp) in Hrun.
  unfold insert_from in Hrun. apply bind_Ok in Hrun as (ctx' & Hdesc & Hat).
  pose proof (fun Hb => write_descent_leaf (descent_fuel s) s key OpInsert _ ctx'
                          (header_root_page_id_ s) id p Hb Hloop Hdesc) as Hback.
  specialize (Hback (back_snoc [] _)).
  unfold Insert_at_leaf in Hat. rewrite Hback, bind_Ok_l in Hat.
  rewrite (guarded_page_Ok _ _ _ Hp), bind_Ok_l in Hat.
  change (AsLeaf (Leaf p)) with (Ok p : Result LeafPage.t) in Hat. rewrite bind_Ok_l in Hat.
  destruct (BinaryFind_leaf_spec p key ltac:(lia)) as (r & Hr & Hrange & _).
  rewrite Hr, bind_Ok_l in Hat.
  apply bind_Ok in Hat as (found & _ & Hat).
  destruct found; [discriminate|].
  destruct (leaf_insert_at_spec p (r + 1) key value ltac:(lia) ltac:(lia))
    as (p' & Hins & Hsize' & Hmax' & _).
  cbv zeta in Hat. rewrite Hins, bind_Ok_l in Hat.
  unfold LeafPage.GetSize, LeafPage.GetMaxSize in *. rewrite Hsize', Hmax', Hmax in Hat.
  destruct (Z.ltb_spec (LeafPage.size_ p + 1) leaf_max_size_) as [Hroom|Hfull].
  - injection Hat as <-. simpl. lia.
  - unfold NewPageGuarded in Hat. cbv beta iota zeta in Hat.
    apply bind_Ok in Hat as ([pl pr] & _ & Hat). apply bind_Ok in Hat as (sk & _ & Hat).
    apply bind_Ok in Hat as (s2 & Hpar & Hat). injection Hat as <-.
    apply InsertIntoParent_next in Hpar. simpl in Hpar. lia.
Qed.

End SplitCriterion.

(** * What the engines write *)

(** ** Pages written by [InsertIntoParent] *)

(** [InsertIntoParent] writes the pages of the write set up to [index] and
    pages that it allocates, and no other page. *)
Lemma InsertIntoParent_frame (internal_max_size_ : Z) (n : nat) :
  forall (s : BufferPool) (key c : Z) (ctx : Context) (s' : BufferPool) (id : Z),
  InsertIntoParent internal_max_size_ n s key c ctx = Ok s' ->
  id ∉ take n (write_set_ ctx) -> id < next_page_id_ s ->
  pages_ s' !! id = pages_ s !! id.
Proof.
  induction n as [|n IH]; intros s key c ctx s' id H Hid Hlt.
  - rewrite InsertIntoParent_O in H. unfold NewPageGuarded in H. cbv beta iota zeta in H.
    apply bind_Ok in H as (old & _ & H). apply bind_Ok in H as (nr & _ & H).
    apply bind_Ok in H as (hd & _ & H). injection H as <-. simpl.
    apply lookup_insert_ne. lia.
  - rewrite InsertIntoParent_S in H.
    apply bind_Ok in H as (pid & Hpid & H). apply bind_Ok in H as (pg & _ & H).
    apply bind_Ok in H as (P & _ & H).
    assert (Hne : pid <> id).
    { intros ->. apply Hid. unfold guard_at in Hpid.
      destruct (write_set_ ctx !! n) as [x|] eqn:E; [|discriminate]. injection Hpid as ->.
      apply list_elem_of_lookup. exists n. rewrite lookup_take_lt by lia. exact E. }
    assert (Hid' : id ∉ take n (write_set_ ctx)).
    { intros Hin. apply Hid. apply list_elem_of_lookup in Hin as [i Hi].
      apply list_elem_of_lookup. exists i.
      destruct (decide (i < n)%nat) as [Hi'|Hi'].
      - rewrite lookup_take_lt in Hi by exact Hi'. rewrite lookup_take_lt by lia. exact Hi.
      - rewrite lookup_take_ge in Hi by lia. discriminate. }
    destruct (negb (InternalPage.GetSize P =? InternalPage.GetMaxSize P)).
    + apply bind_Ok in H as (P' & _ & H). injection H as <-. simpl.
      apply lookup_insert_ne. exact Hne.
    + unfold NewPageGuarded in H. cbv beta iota zeta in H.
      apply bind_Ok in H as ([P1 P2] & _ & H). apply bind_Ok in H as (up & _ & H).
      rewrite (IH _ _ _ _ _ id H Hid') by (simpl; lia). simpl.
      rewrite lookup_insert_ne by lia. apply lookup_insert_ne. exact Hne.
Qed.

(** ** Header fields of a leaf page *)

(** Writing slots changes neither the size nor the maximum size of a
    leaf. *)
Definition same_header (p p' : LeafPage.t) : Prop :=
  LeafPage.size_ p' = LeafPage.size_ p /\ LeafPage.max_size_ p' = LeafPage.max_size_ p.

Lemma for_up_n_inv {S : Type} (I : S -> Prop) (body : Z -> S -> Result S) (n : nat) :
  (forall i s s', body i s = Ok s' -> I s -> I s') ->
  forall lo s s', for_up_n n lo body s = Ok s' -> I s -> I s'.
Proof.
  intros Hb. induction n as [|n IH]; intros lo s s' H Hs; simpl in H.
  - injection H as <-. exact Hs.
  - apply bind_Ok in H as (s1 & H1 & H). apply (IH _ _ _ H). apply (Hb _ _ _ H1 Hs).
Qed.

Lemma for_down_n_inv {S : Type} (I : S -> Prop) (body : Z -> S -> Result S) (n : nat) :
  (forall i s s', body i s = Ok s' -> I s -> I s') ->
  forall hi s s', for_down_n n hi body s = Ok s' -> I s -> I s'.
Proof.
  intros Hb. induction n as [|n IH]; intros hi s s' H Hs; simpl in H.
  - injection H as <-. exact Hs.
  - apply bind_Ok in H as (s1 & H1 & H). apply (IH _ _ _ H). apply (Hb _ _ _ H1 Hs).
Qed.

Lemma copy_leaf_slot_header (src : LeafPage.t) (j : Z) (dst : LeafPage.t) (i : Z)
    (d : LeafPage.t) :
  copy_leaf_slot src j dst i = Ok d -> same_header dst d.
Proof.
  unfold copy_leaf_slot. intros H.
  apply bind_Ok in H as (k & _ & H). apply bind_Ok in H as (v & _ & H).
  unfold LeafPage.SetAt in H. apply bind_Ok in H as (a & _ & H). injection H as <-.
  split; reflexivity.
Qed.

Lemma same_header_trans (p q r : LeafPage.t) : same_header p q -> same_header q r -> same_header p r.
Proof. intros [H1 H2] [H3 H4]. split; congruence. Qed.

Lemma leaf_remove_at_header (p : LeafPage.t) (pos : Z) (p' : LeafPage.t) :
  leaf_remove_at p pos = Ok p' ->
  LeafPage.size_ p' = LeafPage.size_ p - 1 /\ LeafPage.max_size_ p' = LeafPage.max_size_ p.
Proof.
  unfold leaf_remove_at. intros H. apply bind_Ok in H as (q & Hq & H). injection H as <-.
  assert (Hh : same_header p q).
  { apply (for_up_n_inv (same_header p) _ _
             (fun i s s' Hb Hs => same_header_trans _ _ _ Hs (copy_leaf_slot_header _ _ _ _ _ Hb))
             _ _ _ Hq).
    split; reflexivity. }
  destruct Hh as [Hs Hm]. unfold LeafPage.GetSize. simpl. split; [lia | exact Hm].
Qed.

Lemma leaf_merge_header (l r : LeafPage.t) (merge_size : Z) (m : LeafPage.t) :
  leaf_merge l r merge_size = Ok m ->
  LeafPage.size_ m = merge_size /\ LeafPage.max_size_ m = LeafPage.max_size_ l.
Proof.
  unfold leaf_merge. intros H. apply bind_Ok in H as (q & Hq & H). injection H as <-.
  assert (Hh : same_header (LeafPage.SetSize l merge_size) q).
  { apply (for_up_n_inv (same_header (LeafPage.SetSize l merge_size)) _ _
             (fun i s s' Hb Hs => same_header_trans _ _ _ Hs (copy_leaf_slot_header _ _ _ _ _ Hb))
             _ _ _ Hq).
    split; reflexivity. }
  destruct Hh as [Hs Hm]. simpl in *. split; assumption.
Qed.

Lemma leaf_borrow_right_header (p q p' q' : LeafPage.t) :
  leaf_borrow_right p q = Ok (p', q') ->
  LeafPage.size_ p' = LeafPage.size_ p + 1 /\ LeafPage.size_ q' = LeafPage.size_ q - 1.
Proof.
  unfold leaf_borrow_right. intros H.
  apply bind_Ok in H as (p1 & Hp1 & H). apply bind_Ok in H as (q1 & Hq1 & H).
  injection H as <- <-.
  apply copy_leaf_slot_header in Hp1 as [Hs1 _].
  assert (Hh : same_header q q1).
  { apply (for_up_n_inv (same_header q) _ _
             (fun i s s' Hb Hs => same_header_trans _ _ _ Hs (copy_leaf_slot_header _ _ _ _ _ Hb))
             _ _ _ Hq1).
    split; reflexivity. }
  destruct Hh as [Hs Hm]. unfold LeafPage.GetSize. simpl in *. split; lia.
Qed.

Lemma leaf_borrow_left_header (p q p' q' : LeafPage.t) :
  leaf_borrow_left p q = Ok (p', q') ->
  LeafPage.size_ p' = LeafPage.size_ p + 1 /\ LeafPage.size_ q' = LeafPage.size_ q - 1.
Proof.
  unfold leaf_borrow_left. intros H.
  apply bind_Ok in H as (p1 & Hp1 & H). apply bind_Ok in H as (p2 & Hp2 & H).
  injection H as <- <-.
  assert (Hh : same_header (LeafPage.IncreaseSize p 1) p1).
  { apply (for_down_n_inv (same_header (LeafPage.IncreaseSize p 1)) _ _
             (fun i s s' Hb Hs => same_header_trans _ _ _ Hs (copy_leaf_slot_header _ _ _ _ _ Hb))
             _ _ _ Hp1).
    split; reflexivity. }
  apply copy_leaf_slot_header in Hp2 as [Hs2 _].
  destruct Hh as [Hs Hm]. unfold LeafPage.GetSize. simpl in *. split; lia.
Qed.

(** ** Leaf pages under [RemoveFromParent] and [Remove] *)

Lemma put_internal_keeps_leaf (s : BufferPool) (id : Z) (P : InternalPage.t) (pg : Page)
    (Q : InternalPage.t) (x : Z) (p : LeafPage.t) :
  guarded_page s id = Ok pg -> AsInternal pg = Ok Q ->
  pages_ s !! x = Some (Leaf p) -> pages_ (put_page s id (Internal P)) !! x = Some (Leaf p).
Proof.
  intros Hpg HQ Hx. simpl. rewrite lookup_insert_ne; [exact Hx|]. intros ->.
  unfold guarded_page in Hpg. rewrite Hx in Hpg. injection Hpg as <-. discriminate HQ.
Qed.

Lemma fetch_guarded (s : BufferPool) (held : list Z) (id : Z) (pg : Page) :
  FetchPageWrite s held id = Ok pg -> guarded_page s id = Ok pg /\ id ∉ held.
Proof.
  unfold FetchPageWrite. destruct (bool_decide (id ∈ held)) eqn:E; [discriminate|].
  intros H. split; [exact H|]. apply bool_decide_eq_false in E. exact E.
Qed.

(** [RemoveFromParent] writes internal pages only. *)
Lemma RemoveFromParent_keeps_leaves (index : nat) :
  forall (s : BufferPool) (valueIndex : Z) (ctx : Context) (held : list Z) (s' : BufferPool)
         (x : Z) (p : LeafPage.t),
  RemoveFromParent index s valueIndex ctx held = Ok s' ->
  pages_ s !! x = Some (Leaf p) -> pages_ s' !! x = Some (Leaf p).
Proof.
  induction index as [|index IH]; intros s valueIndex ctx held s' x p H Hx;
    rewrite RemoveFromParent_unfold in H;
    apply bind_Ok in H as (page_id & _ & H); apply bind_Ok in H as (pg & Hpg & H);
    apply bind_Ok in H as (P & HP & H); apply bind_Ok in H as (P' & _ & H);
    cbv zeta in H;
    pose proof (put_internal_keeps_leaf s page_id P' pg P x p Hpg HP Hx) as Hx1;
    (destruct (InternalPage.GetMinSize P' <=? InternalPage.GetSize P');
       [injection H as <-; exact Hx1|]);
    unfold internal_underflow in H;
    (destruct (IsRootPage ctx page_id);
       [destruct (InternalPage.GetSize P' =? 1);
          [apply bind_Ok in H as (hd & _ & H); apply bind_Ok in H as (child & _ & H);
           injection H as <-; exact Hx1
          |injection H as <-; exact Hx1]|]).
  - discriminate.
  - apply bind_Ok in H as (parent_id & _ & H). apply bind_Ok in H as (parent & Hparent & H).
    apply bind_Ok in H as (PP & HPP & H). cbv zeta in H.
    set (s1 := put_page s page_id (Internal P')) in *.
    assert (Hpg1 : guarded_page s1 page_id = Ok (Internal P')).
    { unfold guarded_page, s1. simpl. rewrite lookup_insert_eq. reflexivity. }
    destruct (InternalPage.ValueIndex PP page_id <? InternalPage.GetSize PP - 1).
    + apply bind_Ok in H as (bid & _ & H). apply bind_Ok in H as (bro & Hbro & H).
      apply bind_Ok in H as (B & HB & H). apply fetch_guarded in Hbro as [Hbro _].
      destruct (InternalPage.GetSize B + InternalPage.GetSize P' <=? InternalPage.GetMaxSize P').
      * apply bind_Ok in H as (P2 & _ & H).
        apply (IH _ _ _ _ _ x p H).
        exact (put_internal_keeps_leaf s1 page_id P2 _ P' x p Hpg1 eq_refl Hx1).
      * apply bind_Ok in H as ([P2 B2] & _ & H). apply bind_Ok in H as (k & _ & H).
        apply bind_Ok in H as (PP2 & _ & H). injection H as <-.
        simpl. rewrite lookup_insert_ne.
        2:{ intros ->. unfold guarded_page in Hparent. rewrite Hx1 in Hparent.
            injection Hparent as <-. discriminate HPP. }
        rewrite lookup_insert_ne.
        2:{ intros ->. unfold guarded_page in Hbro. rewrite Hx1 in Hbro.
            injection Hbro as <-. discriminate HB. }
        exact (put_internal_keeps_leaf s1 page_id P2 _ P' x p Hpg1 eq_refl Hx1).
    + apply bind_Ok in H as (bid & _ & H). apply bind_Ok in H as (bro & Hbro & H).
      apply bind_Ok in H as (B & HB & H). apply fetch_guarded in Hbro as [Hbro _].
      destruct (InternalPage.GetSize B + InternalPage.GetSize P' <=? InternalPage.GetMaxSize B).
      * apply bind_Ok in H as (B2 & _ & H).
        apply (IH _ _ _ _ _ x p H).
        exact (put_internal_keeps_leaf s1 bid B2 _ B x p Hbro HB Hx1).
      * apply bind_Ok in H as ([P2 B2] & _ & H). apply bind_Ok in H as (k & _ & H).
        apply bind_Ok in H as (PP2 & _ & H). injection H as <-.
        simpl. rewrite lookup_insert_ne.
        2:{ intros ->. unfold guarded_page in Hparent. rewrite Hx1 in Hparent.
            injection Hparent as <-. discriminate HPP. }
        rewrite lookup_insert_ne.
        2:{ intros ->. unfold guarded_page in Hbro. rewrite Hx1 in Hbro.
            injection Hbro as <-. discriminate HB. }
        exact (put_internal_keeps_leaf s1 page_id P2 _ P' x p Hpg1 eq_refl Hx1).
Qed.

Lemma back_elem (q : list Z) (x : Z) : back q = Ok x -> x ∈ q.
Proof.
  unfold back. destruct (last q) as [y|] eqn:E; [|discriminate]. intros H. injection H as ->.
  apply last_Some in E as [l' ->]. apply elem_of_app. right. left.
Qed.

(** A leaf page that is larger after [Remove] than it was before is the
    product of a merge: the page and another leaf page of the pool, one of
    them without the removed entry, went through [leaf_merge], left one
    first, and their sizes together were below the maximum size of the left
    one.  No other path of [Remove] makes a leaf page larger. *)
Lemma Remove_grown_leaf (header_page_id_ : Z) (s : BufferPool) (key : Z) (s' : BufferPool)
    (id : Z) (p p' : LeafPage.t) :
  Remove header_page_id_ s key = Ok s' ->
  pages_ s !! id = Some (Leaf p) -> pages_ s' !! id = Some (Leaf p') ->
  LeafPage.GetSize p < LeafPage.GetSize p' ->
  exists id2 q pos l r,
    id2 <> id /\ pages_ s !! id2 = Some (Leaf q) /\
    ((leaf_remove_at p pos = Ok l /\ r = q) \/ (l = p /\ leaf_remove_at q pos = Ok r)) /\
    LeafPage.GetSize l + LeafPage.GetSize r < LeafPage.GetMaxSize l /\
    leaf_merge l r (LeafPage.GetSize l + LeafPage.GetSize r) = Ok p'.
Proof.
  intros H Hp Hp' Hgrow.
  assert (Hsame : forall s0, Ok s0 = Ok s' -> pages_ s0 !! id = Some (Leaf p) -> False).
  { intros s0 E Hs0. injection E as ->. rewrite Hp' in Hs0. injection Hs0 as ->. lia. }
  rewrite Remove_unfold in H.
  destruct (header_root_page_id_ s =? INVALID_PAGE_ID); [exfalso; exact (Hsame _ H Hp)|].
  apply bind_Ok in H as (rp & _ & H). cbv zeta in H.
  unfold remove_from in H. apply bind_Ok in H as (ctx & _ & H).
  unfold Remove_at_leaf in H.
  apply bind_Ok in H as (leaf_id & Hback & H). apply bind_Ok in H as (pg & Hpg & H).
  apply bind_Ok in H as (L & HL & H). apply bind_Ok in H as (pos & _ & H).
  apply bind_Ok in H as (found & _ & H).
  destruct (negb found); [exfalso; exact (Hsame _ H Hp)|].
  apply bind_Ok in H as (L' & Hrem & H). cbv zeta in H.
  destruct pg as [L0|]; [|discriminate HL]. injection HL as ->.
  unfold guarded_page in Hpg. destruct (pages_ s !! leaf_id) as [pl|] eqn:Hleaf; [|discriminate].
  injection Hpg as ->.
  destruct (leaf_remove_at_header _ _ _ Hrem) as [HsL' HmL'].
  set (s1 := put_page s leaf_id (Leaf L')) in *.
  (* the page of [id] in [s1] is not larger than [p] *)
  assert (Hs1 : exists p1, pages_ s1 !! id = Some (Leaf p1) /\
                  LeafPage.GetSize p1 <= LeafPage.GetSize p /\
                  (id = leaf_id -> p1 = L' /\ p = L) /\ (id <> leaf_id -> p1 = p)).
  { unfold s1. simpl. destruct (decide (id = leaf_id)) as [->|Hne].
    - rewrite lookup_insert_eq. exists L'. rewrite Hleaf in Hp. injection Hp as <-.
      split; [reflexivity|]. split; [unfold LeafPage.GetSize; lia|]. tauto.
    - rewrite lookup_insert_ne by congruence. exists p. split; [exact Hp|].
      split; [lia|]. tauto. }
  assert (Hsmall : forall s0, Ok s0 = Ok s' ->
            (exists p0, pages_ s0 !! id = Some (Leaf p0) /\
                        LeafPage.GetSize p0 <= LeafPage.GetSize p) -> False).
  { intros s0 E (p0 & Hs0 & Hle). injection E as ->. rewrite Hp' in Hs0. injection Hs0 as ->. lia. }
  destruct Hs1 as (p1 & Hp1 & Hle1 & Heq1 & Hne1).
  destruct (LeafPage.GetMinSize L' <=? LeafPage.GetSize L');
    [exfalso; apply (Hsmall _ H); eauto|].
  unfold leaf_underflow in H.
  destruct (IsRootPage ctx leaf_id).
  { exfalso. destruct (LeafPage.GetSize L' =? 0); [|apply (Hsmall _ H); eauto].
    destruct (header_page_ ctx); [|discriminate]. apply (Hsmall _ H). simpl. eauto. }
  destruct (length (write_set_ ctx)) as [|[|parent_index]]; try discriminate.
  apply bind_Ok in H as (parent_id & _ & H). apply bind_Ok in H as (parent & Hparent & H).
  apply bind_Ok in H as (PP & HPP & H). apply bind_Ok in H as (index & _ & H).
  destruct parent as [|PP0]; [discriminate HPP|]. injection HPP as ->.
  unfold guarded_page in Hparent.
  destruct (pages_ s1 !! parent_id) as [pp|] eqn:Hpar; [|discriminate]. injection Hparent as ->.
  pose proof (back_elem _ _ Hback) as Hheld.
  destruct (index <? InternalPage.GetSize PP - 1).
  - apply bind_Ok in H as (bid & _ & H). apply bind_Ok in H as (bro & Hbro & H).
    apply bind_Ok in H as (B & HB & H). cbv zeta in H.
    apply fetch_guarded in Hbro as [Hbro Hnheld].
    destruct bro as [B0|]; [|discriminate HB]. injection HB as ->.
    unfold guarded_page in Hbro.
    destruct (pages_ s1 !! bid) as [pb|] eqn:Hb1; [|discriminate]. injection Hbro as ->.
    assert (Hbne : bid <> leaf_id) by (intros ->; contradiction).
    assert (Hb : pages_ s !! bid = Some (Leaf B)).
    { unfold s1 in Hb1. simpl in Hb1. rewrite lookup_insert_ne in Hb1 by congruence. exact Hb1. }
    destruct (Z.ltb_spec (LeafPage.GetSize B + LeafPage.GetSize L') (LeafPage.GetMaxSize L'))
      as [Htest|Htest].
    + apply bind_Ok in H as (L2 & Hmerge & H).
      destruct (decide (id = leaf_id)) as [->|Hne].
      * destruct (Heq1 eq_refl) as [-> ->].
        pose proof (RemoveFromParent_keeps_leaves _ _ _ _ _ _ leaf_id L2 H
                      ltac:(simpl; apply lookup_insert_eq)) as Hend.
        rewrite Hp' in Hend. injection Hend as ->.
        exists bid, B, pos, L', B. split; [exact Hbne|]. split; [exact Hb|].
        split; [left; split; [exact Hrem | reflexivity]|].
        split; [lia|]. rewrite (Z.add_comm (LeafPage.GetSize L')). exact Hmerge.
      * exfalso. rewrite (Hne1 Hne) in Hp1.
        pose proof (RemoveFromParent_keeps_leaves _ _ _ _ _ _ id p H
                      ltac:(simpl; rewrite lookup_insert_ne by congruence; exact Hp1)) as Hend.
        rewrite Hp' in Hend. injection Hend as ->. lia.
    + exfalso. apply bind_Ok in H as ([L2 B2] & Hbor & H). apply bind_Ok in H as (k & _ & H).
      apply bind_Ok in H as (PP2 & _ & H).
      destruct (leaf_borrow_right_header _ _ _ _ Hbor) as [Hs2 Hsb2].
      apply (Hsmall _ H). simpl.
      destruct (decide (id = parent_id)) as [->|Hnp].
      { clear - Hpar Hp1. subst s1. simpl in *. congruence. }
      rewrite lookup_insert_ne by congruence.
      destruct (decide (id = bid)) as [->|Hnb].
      { rewrite lookup_insert_eq. exists B2. split; [reflexivity|].
        rewrite Hb in Hp. injection Hp as <-. unfold LeafPage.GetSize. lia. }
      rewrite lookup_insert_ne by congruence.
      destruct (decide (id = leaf_id)) as [->|Hnl].
      { rewrite lookup_insert_eq. exists L2. split; [reflexivity|].
        destruct (Heq1 eq_refl) as [_ ->]. unfold LeafPage.GetSize. lia. }
      rewrite lookup_insert_ne by congruence. rewrite (Hne1 Hnl) in Hp1.
      exists p. split; [exact Hp1 | lia].
  - apply bind_Ok in H as (bid & _ & H). apply bind_Ok in H as (bro & Hbro & H).
    apply bind_Ok in H as (B & HB & H). cbv zeta in H.
    apply fetch_guarded in Hbro as [Hbro Hnheld].
    destruct bro as [B0|]; [|discriminate HB]. injection HB as ->.
    unfold guarded_page in Hbro.
    destruct (pages_ s1 !! bid) as [pb|] eqn:Hb1; [|discriminate]. injection Hbro as ->.
    assert (Hbne : bid <> leaf_id) by (intros ->; contradiction).
    assert (Hb : pages_ s !! bid = Some (Leaf B)).
    { unfold s1 in Hb1. simpl in Hb1. rewrite lookup_insert_ne in Hb1 by congruence. exact Hb1. }
    destruct (Z.ltb_spec (LeafPage.GetSize B + LeafPage.GetSize L') (LeafPage.GetMaxSize B))
      as [Htest|Htest].
    + apply bind_Ok in H as (B2 & Hmerge & H).
      destruct (decide (id = bid)) as [->|Hne].
      * rewrite Hb in Hp. injection Hp as <-.
        pose proof (RemoveFromParent_keeps_leaves _ _ _ _ _ _ bid B2 H
                      ltac:(simpl; apply lookup_insert_eq)) as Hend.
        rewrite Hp' in Hend. injection Hend as ->.
        exists leaf_id, L, pos, B, L'. split; [congruence|]. split; [exact Hleaf|].
        split; [right; split; [reflexivity | exact Hrem]|].
        split; [lia | exact Hmerge].
      * exfalso.
        pose proof (RemoveFromParent_keeps_leaves _ _ _ _ _ _ id p1 H
                      ltac:(simpl; rewrite lookup_insert_ne by congruence; exact Hp1)) as Hend.
        rewrite Hp' in Hend. injection Hend as ->. lia.
    + exfalso. apply bind_Ok in H as ([L2 B2] & Hbor & H). apply bind_Ok in H as (k & _ & H).
      apply bind_Ok in H as (PP2 & _ & H).
      destruct (leaf_borrow_left_header _ _ _ _ Hbor) as [Hs2 Hsb2].
      apply (Hsmall _ H). simpl.
      destruct (decide (id = parent_id)) as [->|Hnp].
      { clear - Hpar Hp1. subst s1. simpl in *. congruence. }
      rewrite lookup_insert_ne by congruence.
      destruct (decide (id = bid)) as [->|Hnb].
      { rewrite lookup_insert_eq. exists B2. split; [reflexivity|].
        rewrite Hb in Hp. injection Hp as <-. unfold LeafPage.GetSize. lia. }
      rewrite lookup_insert_ne by congruence.
      destruct (decide (id = leaf_id)) as [->|Hnl].
      { rewrite lookup_insert_eq. exists L2. split; [reflexivity|].
        destruct (Heq1 eq_refl) as [_ ->]. unfold LeafPage.GetSize. lia. }
      rewrite lookup_insert_ne by congruence. rewrite (Hne1 Hnl) in Hp1.
      exists p. split; [exact Hp1 | lia].
Qed.

(** * The claims *)

(** The tree with the keys 10, 20, ..., 70 and leaves of at most three
    entries: an internal root, page 3, with three slots over the leaves of
    the pages 1 (keys 10, 20), 2 (keys 30, 40) and 4 (keys 50, 60, 70). *)
Definition tree_10_70 : BufferPool :=
  Eval vm_compute in
    match InsertFromFile 4 4 0 [10; 20; 30; 40; 50; 60; 70] fresh_tree with
    | Ok s => s
    | Err _ => fresh_tree
    end.

Lemma tree_10_70_reachable :
  InsertFromFile 4 4 0 [10; 20; 30; 40; 50; 60; 70] fresh_tree = Ok tree_10_70 /\
  reachable 4 4 0 tree_10_70.
Proof.
  assert (H : InsertFromFile 4 4 0 [10; 20; 30; 40; 50; 60; 70] fresh_tree = Ok tree_10_70)
    by (vm_compute; reflexivity).
  split; [exact H|].
  exact (reachable_InsertFromFile 4 4 0 _ fresh_tree tree_10_70 (reachable_new 4 4 0) H).
Defined.

Lemma tree_10_70_root : in_tree tree_10_70 3.
Proof. apply (in_tree_root tree_10_70). vm_compute. discriminate. Defined.

Lemma tree_10_70_leaf (i child : Z) :
  (0 <=? i) && (i <? 3) = true ->
  InternalPage.ValueAt (InternalPage.mk 3 4 [(0, 1); (30, 2); (50, 4)]) i = Ok child ->
  in_tree tree_10_70 child.
Proof.
  intros Hi Hv.
  apply (in_tree_child tree_10_70 3 (InternalPage.mk 3 4 [(0, 1); (30, 2); (50, 4)]) i child);
    [exact tree_10_70_root | vm_compute; reflexivity | simpl; lia | exact Hv].
Defined.

(** ** C6: the partition made by an internal split *)

(** C6.  When [InsertIntoParent] meets a full parent [P] (size equal to the
    maximum size, which the page can hold), with the new entry at logical
    position [pos] (one past the slot found by the routing search) and [m]
    the minimum size, then in every case for [pos] the split of lines 247-289,
    [internal_split], returns the pages [P1] and [P2]: [P1] has the first [m]
    slots of the combined sequence and size [m], [P2] has the other
    [max_size + 1 - m] slots from index 0 on and that size.  The call
    continues one level up with the key at slot 0 of [P2] and the id of the
    new page, on the pool in which [P1] is stored under the id of the parent
    and [P2] under the new id; and when the call returns, the pool it returns
    has [P1] and [P2] under these ids (the guards held being distinct pages
    of the pool). *)
Theorem internal_split_partition (internal_max_size_ : Z) (index : nat) (s : BufferPool)
    (key new_child_id : Z) (ctx : Context) (parent_id : page_id_t) (P : InternalPage.t) :
  write_set_ ctx !! index = Some parent_id ->
  pages_ s !! parent_id = Some (Internal P) ->
  1 <= InternalPage.max_size_ P <= INTERNAL_PAGE_SIZE ->
  InternalPage.size_ P = InternalPage.max_size_ P ->
  exists pos P1 P2 up_key,
    BinaryFind_internal P key = Ok (pos - 1) /\
    internal_split internal_max_size_ P key new_child_id = Ok (P1, P2) /\
    let m := InternalPage.GetMinSize P in
    let combined := insert_slot (internal_slots P) pos (key, new_child_id) in
    Z.of_nat (length combined) = InternalPage.max_size_ P + 1 /\
    InternalPage.size_ P1 = m /\
    internal_slots P1 = take (Z.to_nat m) combined /\
    InternalPage.size_ P2 = InternalPage.max_size_ P + 1 - m /\
    internal_slots P2 = drop (Z.to_nat m) combined /\
    InternalPage.KeyAt P2 0 = Ok up_key /\
    fst <$> combined !! Z.to_nat m = Some up_key /\
    InsertIntoParent internal_max_size_ (S index) s key new_child_id ctx
    = InsertIntoParent internal_max_size_ index
        (put_page (put_page (fst (NewPageGuarded s)) parent_id (Internal P1))
           (next_page_id_ s) (Internal P2))
        up_key (next_page_id_ s) ctx /\
    forall s',
      InsertIntoParent internal_max_size_ (S index) s key new_child_id ctx = Ok s' ->
      NoDup (write_set_ ctx) ->
      (forall id, id ∈ write_set_ ctx -> id < next_page_id_ s) ->
      pages_ s' !! parent_id = Some (Internal P1) /\
      pages_ s' !! next_page_id_ s = Some (Internal P2).
Proof.
  intros Hws Hpage Hmax Hfull.
  destruct (internal_split_spec internal_max_size_ P key new_child_id Hmax Hfull)
    as (r & P1 & P2 & Hr & Hsplit & Hs1 & Hm1 & Hsl1 & Hs2 & Hm2 & Hsl2).
  pose proof (min_size_of_bounds _ (proj1 Hmax)) as Hm.
  destruct (BinaryFind_internal_spec P key) as (r' & Hr' & Hr0 & Hr1 & _); [lia|].
  assert (r' = r) as -> by congruence.
  exists (r + 1), P1, P2, (internal_key P2 0).
  replace (r + 1 - 1) with r by lia. split; [exact Hr|]. split; [exact Hsplit|]. cbv zeta.
  assert (Hlen : Z.of_nat (length (insert_slot (internal_slots P) (r + 1) (key, new_child_id)))
                 = InternalPage.max_size_ P + 1).
  { unfold insert_slot. rewrite length_app. simpl. rewrite length_take, length_drop.
    unfold internal_slots. rewrite length_slots. lia. }
  assert (Hstep : InsertIntoParent internal_max_size_ (S index) s key new_child_id ctx
                  = InsertIntoParent internal_max_size_ index
                      (put_page (put_page (fst (NewPageGuarded s)) parent_id (Internal P1))
                         (next_page_id_ s) (Internal P2))
                      (internal_key P2 0) (next_page_id_ s) ctx).
  { rewrite InsertIntoParent_S.
    rewrite (guard_at_Ok _ _ _ Hws), bind_Ok_l.
    rewrite (guarded_page_Ok _ _ _ Hpage), bind_Ok_l. simpl AsInternal. rewrite bind_Ok_l.
    unfold InternalPage.GetSize, InternalPage.GetMaxSize. rewrite Hfull, Z.eqb_refl.
    simpl negb. cbv iota. unfold NewPageGuarded at 1. cbv beta iota zeta.
    rewrite Hsplit, bind_Ok_l. cbv beta iota zeta.
    rewrite InternalPage_KeyAt_Ok, bind_Ok_l by len_lia. reflexivity. }
  split; [exact Hlen|]. split; [exact Hs1|]. split; [exact Hsl1|].
  split; [exact Hs2|]. split; [exact Hsl2|].
  split; [apply InternalPage_KeyAt_Ok; len_lia|].
  split; [|split; [exact Hstep|]].
  - unfold InternalPage.GetMinSize in *.
    assert (E : internal_slots P2 !! 0%nat = Some (get (InternalPage.array_ P2) 0)).
    { unfold internal_slots. apply (lookup_slots _ _ 0). lia. }
    rewrite Hsl2, lookup_drop, Nat.add_0_r in E. exact (f_equal (fmap fst) E).
  - intros s' Hrun Hnodup Hbelow. rewrite Hstep in Hrun.
    assert (Hparent : parent_id < next_page_id_ s).
    { apply Hbelow. apply (list_elem_of_lookup_2 _ index). exact Hws. }
    assert (Hout : forall id, id = parent_id \/ id = next_page_id_ s ->
                     id ∉ take index (write_set_ ctx)).
    { intros id Hid Hin. apply list_elem_of_lookup in Hin as [j Hj].
      pose proof (lookup_lt_Some _ _ _ Hj) as Hjlt. rewrite length_take in Hjlt.
      rewrite lookup_take_lt in Hj by lia.
      destruct Hid as [->| ->].
      - pose proof (NoDup_lookup _ _ _ _ Hnodup Hj Hws). lia.
      - pose proof (Hbelow _ (list_elem_of_lookup_2 _ _ _ Hj)). lia. }
    split.
    + rewrite (InsertIntoParent_frame _ _ _ _ _ _ _ parent_id Hrun
                 (Hout _ (or_introl eq_refl)) ltac:(simpl; lia)).
      simpl. rewrite lookup_insert_ne by lia. apply lookup_insert_eq.
    + rewrite (InsertIntoParent_frame _ _ _ _ _ _ _ (next_page_id_ s) Hrun
                 (Hout _ (or_intror eq_refl)) ltac:(simpl; lia)).
      simpl. apply lookup_insert_eq.
Qed.

Lemma internal_split_partition_witness :
  let P := InternalPage.mk 4 4 [(0, 1); (10, 2); (20, 3); (30, 4)] in
  let s := {| pages_ := {[ 5 := Internal P ]}; next_page_id_ := 6; header_root_page_id_ := 5 |} in
  let ctx := {| header_page_ := Some 0; root_page_id_ := 5; write_set_ := [5]; read_set_ := [] |} in
  (exists s' P1 P2,
     InsertIntoParent 4 1 s 5 9 ctx = Ok s' /\ internal_split 4 P 5 9 = Ok (P1, P2) /\
     pages_ s' !! 5 = Some (Internal P1) /\ pages_ s' !! 6 = Some (Internal P2) /\
     InternalPage.size_ P1 = 2 /\ internal_slots P1 = [(0, 1); (5, 9)] /\
     InternalPage.size_ P2 = 3 /\ internal_slots P2 = [(10, 2); (20, 3); (30, 4)]) /\
  (exists s' P1 P2,
     InsertIntoParent 4 1 s 15 9 ctx = Ok s' /\ internal_split 4 P 15 9 = Ok (P1, P2) /\
     pages_ s' !! 5 = Some (Internal P1) /\ pages_ s' !! 6 = Some (Internal P2) /\
     InternalPage.size_ P1 = 2 /\ internal_slots P1 = [(0, 1); (10, 2)] /\
     InternalPage.size_ P2 = 3 /\ internal_slots P2 = [(15, 9); (20, 3); (30, 4)]) /\
  (exists s' P1 P2,
     InsertIntoParent 4 1 s 25 9 ctx = Ok s' /\ internal_split 4 P 25 9 = Ok (P1, P2) /\
     pages_ s' !! 5 = Some (Internal P1) /\ pages_ s' !! 6 = Some (Internal P2) /\
     InternalPage.size_ P1 = 2 /\ internal_slots P1 = [(0, 1); (10, 2)] /\
     InternalPage.size_ P2 = 3 /\ internal_slots P2 = [(20, 3); (25, 9); (30, 4)]).
Proof.
  intros P s ctx.
  assert (Hnodup : NoDup (write_set_ ctx)) by (apply NoDup_singleton).
  assert (Hbelow : forall id, id ∈ write_set_ ctx -> id < next_page_id_ s).
  { intros id Hid. apply list_elem_of_singleton in Hid as ->. simpl. lia. }
  split; [|split];
    match goal with
    | |- exists s' P1 P2, InsertIntoParent 4 1 _ ?k _ _ = Ok s' /\ _ =>
        destruct (internal_split_partition 4 0 s k 9 ctx 5 P eq_refl eq_refl
                    ltac:(simpl; config) eq_refl)
          as (pos & P1 & P2 & up_key & Hr & Hsplit & _ & Hs1 & Hsl1 & Hs2 & Hsl2 & _ & _ & _
              & Hstored);
        assert (Hrun : exists s', InsertIntoParent 4 1 s k 9 ctx = Ok s')
          by (eexists; vm_compute; reflexivity);
        destruct Hrun as [s' Hrun];
        destruct (Hstored s' Hrun Hnodup Hbelow) as [H5 H6];
        let r := eval vm_compute in (BinaryFind_internal P k) in
        match r with
        | Ok ?r0 =>
            assert (Hpos : pos = r0 + 1)
              by (assert (E : BinaryFind_internal P k = Ok r0) by (vm_compute; reflexivity);
                  rewrite E in Hr; injection Hr; lia)
        end;
        subst pos;
        exists s', P1, P2;
        split; [exact Hrun|]; split; [exact Hsplit|];
        split; [exact H5|]; split; [exact H6|];
        split; [exact Hs1|]; split; [exact Hsl1|]; split; [exact Hs2 | exact Hsl2]
    end.
Defined.

(** ** C1 and C2: the leaf list after a split *)

(** C1.  The claim asks for [R.next = old L.next] and [L.next = R.page_id].
    The source first overwrites [L.next] with the id of [R] and then copies
    [L.next] into [R]: after the split of the single leaf [1,2,3,4] the new
    leaf (page 2) is its own successor, while the successor of the old leaf
    was [INVALID_PAGE_ID] before the split. *)
Theorem leaf_split_next_page_id_slip :
  exists s3 s4 L L' R,
    InsertFromFile 4 4 0 [1; 2; 3] fresh_tree = Ok s3 /\
    pages_ s3 !! 1 = Some (Leaf L) /\
    pages_ s3 !! 2 = None /\
    Insert 4 4 0 s3 4 4 = Ok (true, s4) /\
    pages_ s4 !! 1 = Some (Leaf L') /\
    pages_ s4 !! 2 = Some (Leaf R) /\
    leaf_slots L' = [(1, 1); (2, 2)] /\
    leaf_slots R = [(3, 3); (4, 4)] /\
    LeafPage.next_page_id_ L = INVALID_PAGE_ID /\
    LeafPage.next_page_id_ L' = 2 /\
    LeafPage.next_page_id_ R = 2.
Proof.
  eexists _, _, _, _, _.
  split; [vm_compute; reflexivity|].
  split; [vm_compute; reflexivity|].
  split; [vm_compute; reflexivity|].
  split; [vm_compute; reflexivity|].
  split; [vm_compute; reflexivity|].
  split; [vm_compute; reflexivity|].
  repeat split.
Qed.

(** C2.  After the four inserts that split the first leaf, the walk along
    [next_page_id] from the leftmost leaf (page 1) sits on page 2 after every
    positive number of steps: the last leaf is visited again and again and
    [INVALID_PAGE_ID] is never reached. *)
Theorem leaf_list_never_ends :
  exists s4,
    InsertFromFile 4 4 0 [1; 2; 3; 4] fresh_tree = Ok s4 /\
    Begin s4 = Ok {| iter_page_id := 1; iter_index := 0 |} /\
    forall n, walk_leaves (S n) s4 1 = Ok 2.
Proof.
  eexists. split; [vm_compute; reflexivity|]. split; [vm_compute; reflexivity|].
  assert (H2 : forall n s, next_leaf s 2 = Ok 2 -> walk_leaves n s 2 = Ok 2).
  { induction n as [|n IH]; intros s Hs; simpl; [reflexivity|].
    rewrite Hs. simpl. apply IH. exact Hs. }
  intros n. cbn [walk_leaves].
  match goal with |- context [next_leaf ?s 1] =>
    replace (next_leaf s 1) with (Ok 2 : Result page_id_t) by (vm_compute; reflexivity);
    simpl; apply H2; vm_compute; reflexivity
  end.
Qed.

(** ** C4: guards released during the writer descent *)

(** C4.  The source does not release the header guard in the descent.
    [FindLeafPage] with a write operation hands the header guard back as it
    got it, whatever pages it found safe: lines 103-107 release the page
    guards below the tail of the write set and nothing else.  Only the
    callers release the header guard, and only when the root page is safe
    (lines 169-171 and 315-317).  On the tree with the keys 1..5 the root
    (page 3, two children) is not safe for a removal, so [Remove] starts the
    descent with the header guard held; the leaf reached for key 5 (page 2,
    three keys) is safe, it ends alone in the write set, and the header guard
    is still held. *)
Theorem descent_keeps_header_guard :
  (forall fuel s key op ctx ctx', op <> Search ->
     FindLeafPage fuel s key op ctx = Ok ctx' -> header_page_ ctx' = header_page_ ctx) /\
  exists s5 root leaf,
    InsertFromFile 4 4 0 [1; 2; 3; 4; 5] fresh_tree = Ok s5 /\
    header_root_page_id_ s5 = 3 /\
    guarded_page s5 3 = Ok root /\
    IsSafePage root OpRemove true = false /\
    Remove 0 s5 5
    = remove_from (descent_fuel s5) s5 5
        {| header_page_ := Some 0; root_page_id_ := 3; write_set_ := [3]; read_set_ := [] |} /\
    guarded_page s5 2 = Ok leaf /\
    IsSafePage leaf OpRemove false = true /\
    FindLeafPage (descent_fuel s5) s5 5 OpRemove
      {| header_page_ := Some 0; root_page_id_ := 3; write_set_ := [3]; read_set_ := [] |}
    = Ok {| header_page_ := Some 0; root_page_id_ := 3; write_set_ := [2]; read_set_ := [] |}.
Proof.
  split.
  - intros fuel s key op ctx ctx' Hop H. destruct op; [congruence | |];
      unfold FindLeafPage in H; apply FindLeafPage_write_header in H; apply H.
  - eexists _, _, _. split; [vm_compute; reflexivity|].
    split; [reflexivity|].
    split; [vm_compute; reflexivity|].
    split; [vm_compute; reflexivity|].
    split; [apply Remove_nonempty with (rp := Internal (InternalPage.mk 2 4 [(0, 1); (3, 2)]));
            [vm_compute; discriminate | vm_compute; reflexivity]|].
    split; [vm_compute; reflexivity|].
    split; vm_compute; reflexivity.
Qed.

(** ** The operations on reachable states *)

Lemma stored_iff (leaf_max_size_ internal_max_size_ : Z) (s : BufferPool) (M : gmap Z Z)
    (key v : Z) :
  Inv leaf_max_size_ internal_max_size_ s M ->
  (GetValue s key [] = Ok (true, [v]) <-> M !! key = Some v).
Proof.
  intros HI. rewrite (GetValue_spec leaf_max_size_ internal_max_size_ s M key [] HI).
  destruct (M !! key) as [w|]; simpl; split; intros H; try discriminate; congruence.
Qed.



(** C5, as the code has it. On a reachable state with a root, [Begin(key)]
    goes down by internal routing on [key] to a leaf and returns the
    iterator at the slot that [BinaryFind] gives in that leaf: the slot of
    the largest stored key that is at most [key]. It returns the end
    iterator exactly when the reached leaf has no key that is at most
    [key], as it is when [key] is below every stored key. *)
Theorem Begin_key_position (leaf_max_size_ internal_max_size_ header_page_id_ : Z)
    (s : BufferPool) (key : Z) :
  3 <= leaf_max_size_ < LEAF_PAGE_SIZE -> 3 <= internal_max_size_ <= INTERNAL_PAGE_SIZE ->
  reachable leaf_max_size_ internal_max_size_ header_page_id_ s ->
  header_root_page_id_ s <> INVALID_PAGE_ID ->
  exists id p r,
    Begin_key_loop (descent_fuel s) s key (header_root_page_id_ s) = Ok (inr (id, p)) /\
    BinaryFind_leaf p key = Ok r /\
    Begin_key s key
    = Ok (if r =? -1 then End else {| iter_page_id := id; iter_index := r |}) /\
    (r = -1 <-> forall kv, kv ∈ leaf_slots p -> key < fst kv) /\
    (r <> -1 ->
       0 <= r < LeafPage.GetSize p /\
       exists k v, LeafPage.KeyAt p r = Ok k /\ LeafPage.ValueAt p r = Ok v /\
         k <= key /\ GetValue s k [] = Ok (true, [v]) /\
         forall k' v', GetValue s k' [] = Ok (true, [v']) -> k' <= key -> k' <= k) /\
    ((forall k' v', GetValue s k' [] = Ok (true, [v']) -> key < k') ->
     Begin_key s key = Ok End).
Proof.
  intros Hl Hi Hreach Hne.
  destruct (reachable_Inv leaf_max_size_ internal_max_size_ header_page_id_
              ltac:(lia) ltac:(lia) s Hreach) as [M HI].
  destruct (Begin_key_spec leaf_max_size_ internal_max_size_ s M key HI Hne)
    as (id & p & r & Hloop & Hfind & Hrun & Hend & Hpos & Hlow).
  exists id, p, r. split; [exact Hloop|]. split; [exact Hfind|]. split; [exact Hrun|].
  split; [exact Hend|]. split.
  - intros Hr. destruct (Hpos Hr) as (Hrange & k & v & HK & HV & Hle & HM & Hmax).
    split; [exact Hrange|]. exists k, v.
    split; [exact HK|]. split; [exact HV|]. split; [exact Hle|].
    split; [apply (stored_iff leaf_max_size_ internal_max_size_ s M k v HI); exact HM|].
    intros k' v' Hk'. apply Hmax.
    apply (stored_iff leaf_max_size_ internal_max_size_ s M k' v' HI) in Hk'. rewrite Hk'. eauto.
  - intros Hall. rewrite Hrun.
    assert (r = -1) as ->; [|reflexivity].
    apply Hlow. intros k' [v' Hk']. apply (Hall k' v').
    apply (stored_iff leaf_max_size_ internal_max_size_ s M k' v' HI). exact Hk'.
Qed.

Lemma reachable_123 :
  exists s, InsertFromFile 4 4 0 [1; 2; 3] fresh_tree = Ok s /\ reachable 4 4 0 s /\
    header_root_page_id_ s = 1.
Proof.
  eexists. split; [vm_compute; reflexivity|]. split; [|reflexivity].
  eapply (reachable_InsertFromFile 4 4 0 [1; 2; 3] fresh_tree); [apply reachable_new|].
  vm_compute. reflexivity.
Defined.

Lemma Begin_key_position_witness :
  exists s, InsertFromFile 4 4 0 [1; 2; 3] fresh_tree = Ok s /\
  exists id p r,
    Begin_key_loop (descent_fuel s) s 5 (header_root_page_id_ s) = Ok (inr (id, p)) /\
    BinaryFind_leaf p 5 = Ok r /\
    Begin_key s 5
    = Ok (if r =? -1 then End else {| iter_page_id := id; iter_index := r |}) /\
    (r = -1 <-> forall kv, kv ∈ leaf_slots p -> 5 < fst kv) /\
    (r <> -1 ->
       0 <= r < LeafPage.GetSize p /\
       exists k v, LeafPage.KeyAt p r = Ok k /\ LeafPage.ValueAt p r = Ok v /\
         k <= 5 /\ GetValue s k [] = Ok (true, [v]) /\
         forall k' v', GetValue s k' [] = Ok (true, [v']) -> k' <= 5 -> k' <= k) /\
    ((forall k' v', GetValue s k' [] = Ok (true, [v']) -> 5 < k') ->
     Begin_key s 5 = Ok End).
Proof.
  destruct reachable_123 as (s & Hrun & Hreach & Hroot).
  exists s. split; [exact Hrun|].
  apply (Begin_key_position 4 4 0 s 5); [config | config | exact Hreach|].
  rewrite Hroot. unfold INVALID_PAGE_ID. lia.
Defined.

(** C5 as stated fails: in the tree with the keys 1, 2 and 3, all in the
    root leaf (page 1), the key 5 is greater than every key of the tree,
    yet [Begin(5)] is the iterator at the last entry, not the end
    iterator; and [Begin(0)] is the end iterator although 0 is not beyond
    the rightmost leaf. *)
Lemma Begin_key_end_is_below_not_beyond :
  exists s p,
    InsertFromFile 4 4 0 [1; 2; 3] fresh_tree = Ok s /\
    header_root_page_id_ s = 1 /\ pages_ s !! 1 = Some (Leaf p) /\
    leaf_slots p = [(1, 1); (2, 2); (3, 3)] /\
    Begin_key s 5 = Ok {| iter_page_id := 1; iter_index := 2 |} /\
    Begin_key s 5 <> Ok End /\
    Begin_key s 0 = Ok End.
Proof.
  eexists _, _. split; [vm_compute; reflexivity|].
  split; [reflexivity|]. split; [vm_compute; reflexivity|].
  split; [vm_compute; reflexivity|]. split; [vm_compute; reflexivity|].
  split; [vm_compute; discriminate | vm_compute; reflexivity].
Qed.

(** C7. On a reachable state with a root page, [Insert] and [Remove]
    return without error, and whenever one of them changes the root page
    id of the header (the split went past the old root, or the root
    collapsed), the context that the descent returned still holds the
    header guard: the guard was kept because the root was not safe. *)
Theorem root_change_holds_header_guard
    (leaf_max_size_ internal_max_size_ header_page_id_ : Z) (s : BufferPool) (key value : Z) :
  3 <= leaf_max_size_ < LEAF_PAGE_SIZE -> 3 <= internal_max_size_ <= INTERNAL_PAGE_SIZE ->
  reachable leaf_max_size_ internal_max_size_ header_page_id_ s ->
  header_root_page_id_ s <> INVALID_PAGE_ID ->
  exists rp, pages_ s !! header_root_page_id_ s = Some rp /\
    (exists b s' ctx',
       Insert leaf_max_size_ internal_max_size_ header_page_id_ s key value = Ok (b, s') /\
       FindLeafPage (descent_fuel s) s key OpInsert
         {| header_page_ := if IsSafePage rp OpInsert true then None else Some header_page_id_;
            root_page_id_ := header_root_page_id_ s;
            write_set_ := [header_root_page_id_ s]; read_set_ := [] |} = Ok ctx' /\
       (header_root_page_id_ s' <> header_root_page_id_ s ->
        header_page_ ctx' = Some header_page_id_)) /\
    (exists s' ctx',
       Remove header_page_id_ s key = Ok s' /\
       FindLeafPage (descent_fuel s) s key OpRemove
         {| header_page_ := if IsSafePage rp OpRemove true then None else Some header_page_id_;
            root_page_id_ := header_root_page_id_ s;
            write_set_ := [header_root_page_id_ s]; read_set_ := [] |} = Ok ctx' /\
       (header_root_page_id_ s' <> header_root_page_id_ s ->
        header_page_ ctx' = Some header_page_id_)).
Proof.
  intros Hl Hi Hreach Hne.
  destruct (reachable_Inv leaf_max_size_ internal_max_size_ header_page_id_
              ltac:(lia) ltac:(lia) s Hreach) as [M HI].
  assert (Hrp : exists rp, pages_ s !! header_root_page_id_ s = Some rp).
  { destruct HI as [Hpool [[Hroot _]|(h & t & Hroot & Hrep & _)]]; [contradiction|].
    rewrite Hroot. apply (Inv_root leaf_max_size_ internal_max_size_ s h t Hpool Hrep). }
  destruct Hrp as [rp Hrp]. exists rp. split; [exact Hrp|]. split.
  - destruct (Insert_Inv leaf_max_size_ internal_max_size_ header_page_id_
                ltac:(lia) ltac:(lia) s M key value HI) as (b & s' & Hrun & _).
    pose proof Hrun as Hrun'.
    rewrite (Insert_nonempty leaf_max_size_ internal_max_size_ header_page_id_ s key value rp
               Hne Hrp) in Hrun'.
    apply bind_Ok in Hrun' as (ctx' & Hdesc & _).
    exists b, s', ctx'. split; [exact Hrun|]. split; [exact Hdesc|].
    intros Hchg.
    rewrite (proj1 (FindLeafPage_write_header _ _ _ _ _ _ Hdesc)). cbn [header_page_].
    pose proof (Insert_root_change leaf_max_size_ internal_max_size_ header_page_id_
                  ltac:(lia) ltac:(lia) s M key value rp b s' HI Hne Hrp Hrun Hchg) as Hunsafe.
    rewrite IsSafePage_insert_root in Hunsafe. rewrite Hunsafe. reflexivity.
  - destruct (Remove_Inv leaf_max_size_ internal_max_size_ header_page_id_
                ltac:(lia) ltac:(lia) s M key HI) as (s' & Hrun & _).
    pose proof Hrun as Hrun'.
    rewrite (Remove_nonempty header_page_id_ s key rp Hne Hrp) in Hrun'.
    apply bind_Ok in Hrun' as (ctx' & Hdesc & _).
    exists s', ctx'. split; [exact Hrun|]. split; [exact Hdesc|].
    intros Hchg.
    rewrite (proj1 (FindLeafPage_write_header _ _ _ _ _ _ Hdesc)). cbn [header_page_].
    rewrite (Remove_root_change leaf_max_size_ internal_max_size_ header_page_id_
               ltac:(lia) ltac:(lia) s M key rp s' HI Hne Hrp Hrun Hchg). reflexivity.
Qed.

Lemma root_change_holds_header_guard_witness :
  exists s, InsertFromFile 4 4 0 [1; 2; 3] fresh_tree = Ok s /\
  exists rp, pages_ s !! header_root_page_id_ s = Some rp /\
    (exists b s' ctx',
       Insert 4 4 0 s 4 4 = Ok (b, s') /\
       FindLeafPage (descent_fuel s) s 4 OpInsert
         {| header_page_ := if IsSafePage rp OpInsert true then None else Some 0;
            root_page_id_ := header_root_page_id_ s;
            write_set_ := [header_root_page_id_ s]; read_set_ := [] |} = Ok ctx' /\
       (header_root_page_id_ s' <> header_root_page_id_ s -> header_page_ ctx' = Some 0)) /\
    (exists s' ctx',
       Remove 0 s 4 = Ok s' /\
       FindLeafPage (descent_fuel s) s 4 OpRemove
         {| header_page_ := if IsSafePage rp OpRemove true then None else Some 0;
            root_page_id_ := header_root_page_id_ s;
            write_set_ := [header_root_page_id_ s]; read_set_ := [] |} = Ok ctx' /\
       (header_root_page_id_ s' <> header_root_page_id_ s -> header_page_ ctx' = Some 0)).
Proof.
  destruct reachable_123 as (s & Hrun & Hreach & Hroot).
  exists s. split; [exact Hrun|].
  apply (root_change_holds_header_guard 4 4 0 s 4 4); [config | config | exact Hreach|].
  rewrite Hroot. unfold INVALID_PAGE_ID. lia.
Defined.

(** C8. On a reachable state, [GetValue] finds no key at all iff the
    header names no root page; and inserting the keys of a list into the
    fresh tree, then removing them in any order, is possible and leaves the
    header without a root page. *)
Theorem empty_iff_no_root (leaf_max_size_ internal_max_size_ header_page_id_ : Z) :
  3 <= leaf_max_size_ < LEAF_PAGE_SIZE -> 3 <= internal_max_size_ <= INTERNAL_PAGE_SIZE ->
  (forall s, reachable leaf_max_size_ internal_max_size_ header_page_id_ s ->
     ((forall k, GetValue s k [] = Ok (false, []))
      <-> header_root_page_id_ s = INVALID_PAGE_ID)) /\
  (forall keys keys', keys ≡ₚ keys' ->
     exists s1 s2,
       InsertAll leaf_max_size_ internal_max_size_ header_page_id_ keys fresh_tree = Ok s1 /\
       RemoveAll header_page_id_ keys' s1 = Ok s2 /\
       header_root_page_id_ s2 = INVALID_PAGE_ID).
Proof.
  intros Hl Hi. split.
  - intros s Hreach.
    destruct (reachable_Inv leaf_max_size_ internal_max_size_ header_page_id_
                ltac:(lia) ltac:(lia) s Hreach) as [M HI].
    rewrite <- (Inv_empty_iff leaf_max_size_ internal_max_size_ s M HI). split.
    + intros Hnone. apply map_empty. intros k.
      apply (absent_iff leaf_max_size_ internal_max_size_ s M k [] HI). apply Hnone.
    + intros -> k.
      apply (absent_iff leaf_max_size_ internal_max_size_ s ∅ k [] HI). apply lookup_empty.
  - intros keys keys' Hperm.
    destruct (InsertAll_Inv leaf_max_size_ internal_max_size_ header_page_id_
                ltac:(lia) ltac:(lia) keys fresh_tree ∅
                (fresh_tree_Inv leaf_max_size_ internal_max_size_)) as (s1 & Hrun1 & HI1).
    destruct (RemoveAll_Inv leaf_max_size_ internal_max_size_ header_page_id_
                ltac:(lia) ltac:(lia) keys' s1 _ HI1) as (s2 & Hrun2 & HI2).
    exists s1, s2. split; [exact Hrun1|]. split; [exact Hrun2|].
    apply (Inv_empty_iff leaf_max_size_ internal_max_size_ s2 _ HI2).
    apply remove_inserted_keys. intros k Hk. rewrite <- Hperm. exact Hk.
Qed.

Lemma empty_iff_no_root_witness :
  exists s1 s2,
    InsertAll 4 4 0 [1; 2; 3; 4; 5; 6; 7; 8; 9; 10] fresh_tree = Ok s1 /\
    RemoveAll 0 [10; 9; 8; 7; 6; 5; 4; 3; 2; 1] s1 = Ok s2 /\
    header_root_page_id_ s2 = INVALID_PAGE_ID.
Proof.
  apply (proj2 (empty_iff_no_root 4 4 0 ltac:(config) ltac:(config))
           [1; 2; 3; 4; 5; 6; 7; 8; 9; 10] [10; 9; 8; 7; 6; 5; 4; 3; 2; 1]).
  apply (Permutation_rev [1; 2; 3; 4; 5; 6; 7; 8; 9; 10]).
Defined.

(** C9. On a reachable state, [Remove] of a key that [GetValue] does not
    find returns without error and returns the state it was given: the
    header and every page are as before. The state with no root page is
    one such case. *)
Theorem Remove_absent_key (leaf_max_size_ internal_max_size_ header_page_id_ : Z)
    (s : BufferPool) (key : Z) :
  3 <= leaf_max_size_ < LEAF_PAGE_SIZE -> 3 <= internal_max_size_ <= INTERNAL_PAGE_SIZE ->
  reachable leaf_max_size_ internal_max_size_ header_page_id_ s ->
  GetValue s key [] = Ok (false, []) ->
  Remove header_page_id_ s key = Ok s.
Proof.
  intros Hl Hi Hreach Habsent.
  destruct (reachable_Inv leaf_max_size_ internal_max_size_ header_page_id_
              ltac:(lia) ltac:(lia) s Hreach) as [M HI].
  apply (absent_iff leaf_max_size_ internal_max_size_ s M key [] HI) in Habsent.
  apply (Remove_absent leaf_max_size_ internal_max_size_ header_page_id_ ltac:(lia) ltac:(lia)
           s M key HI Habsent).
Qed.

Lemma Remove_absent_key_witness :
  exists s, InsertFromFile 4 4 0 [1; 2; 3] fresh_tree = Ok s /\ Remove 0 s 9 = Ok s.
Proof.
  destruct reachable_123 as (s & Hrun & Hreach & Hroot).
  exists s. split; [exact Hrun|].
  apply (Remove_absent_key 4 4 0 s 9); [config | config | exact Hreach|].
  injection Hrun as <-. vm_compute. reflexivity.
Defined.

(** C10. On a reachable state, every leaf page of the tree holds at least
    one entry and at most [leaf_max_size - 1] entries, and has
    [leaf_max_size] as its maximum size. The bound is kept by the split:
    [Insert] of a key that is not stored goes to the leaf that the routing
    on the key reaches and allocates a page (it splits) exactly when the
    new entry brings the size of that leaf up to [leaf_max_size]; otherwise
    it allocates nothing. It is kept by the merge: [Remove] returns a
    reachable state, and a leaf of the tree that is larger after [Remove]
    than before has been merged with another leaf page, one of the two
    without the removed entry, by [leaf_merge] with the left page first;
    the combined size, which is the size of the merged page, was below
    [leaf_max_size]. *)
Theorem leaf_size_below_max (leaf_max_size_ internal_max_size_ header_page_id_ : Z)
    (s : BufferPool) :
  3 <= leaf_max_size_ < LEAF_PAGE_SIZE -> 3 <= internal_max_size_ <= INTERNAL_PAGE_SIZE ->
  reachable leaf_max_size_ internal_max_size_ header_page_id_ s ->
  (forall id p, in_tree s id -> pages_ s !! id = Some (Leaf p) ->
     1 <= LeafPage.GetSize p <= leaf_max_size_ - 1 /\ LeafPage.GetMaxSize p = leaf_max_size_) /\
  (forall key value,
     header_root_page_id_ s <> INVALID_PAGE_ID -> GetValue s key [] = Ok (false, []) ->
     exists id p s',
       Begin_key_loop (descent_fuel s) s key (header_root_page_id_ s) = Ok (inr (id, p)) /\
       pages_ s !! id = Some (Leaf p) /\
       Insert leaf_max_size_ internal_max_size_ header_page_id_ s key value = Ok (true, s') /\
       reachable leaf_max_size_ internal_max_size_ header_page_id_ s' /\
       (next_page_id_ s' = next_page_id_ s <-> LeafPage.GetSize p + 1 < leaf_max_size_) /\
       (next_page_id_ s < next_page_id_ s' <-> LeafPage.GetSize p + 1 = leaf_max_size_)) /\
  (forall key, exists s',
     Remove header_page_id_ s key = Ok s' /\
     reachable leaf_max_size_ internal_max_size_ header_page_id_ s' /\
     forall id p p',
       in_tree s id -> pages_ s !! id = Some (Leaf p) -> pages_ s' !! id = Some (Leaf p') ->
       LeafPage.GetSize p < LeafPage.GetSize p' ->
       exists id2 q pos l r,
         id2 <> id /\ pages_ s !! id2 = Some (Leaf q) /\
         ((leaf_remove_at p pos = Ok l /\ r = q) \/ (l = p /\ leaf_remove_at q pos = Ok r)) /\
         leaf_merge l r (LeafPage.GetSize l + LeafPage.GetSize r) = Ok p' /\
         LeafPage.GetSize p' = LeafPage.GetSize l + LeafPage.GetSize r /\
         LeafPage.GetSize l + LeafPage.GetSize r = LeafPage.GetSize p + LeafPage.GetSize q - 1 /\
         LeafPage.GetSize l + LeafPage.GetSize r < leaf_max_size_).
Proof.
  intros Hl Hi Hreach.
  destruct (reachable_Inv leaf_max_size_ internal_max_size_ header_page_id_
              ltac:(lia) ltac:(lia) s Hreach) as [M HI].
  split; [|split].
  - intros id p Hin Hp.
    exact (Inv_leaf_size leaf_max_size_ internal_max_size_ s M id p HI Hin Hp).
  - intros key value Hne Habsent.
    apply (absent_iff leaf_max_size_ internal_max_size_ s M key [] HI) in Habsent.
    destruct (Insert_split_iff leaf_max_size_ internal_max_size_ header_page_id_
                ltac:(lia) ltac:(lia) s M key value HI Hne Habsent)
      as (id & p & s' & Hloop & Hp & Hrun & Hsame & Hgrow).
    exists id, p, s'. split; [exact Hloop|]. split; [exact Hp|]. split; [exact Hrun|].
    split; [|split; [exact Hsame | exact Hgrow]].
    exact (reachable_Insert _ _ _ s key value true s' Hreach Hrun).
  - intros key.
    destruct (Remove_Inv leaf_max_size_ internal_max_size_ header_page_id_
                ltac:(lia) ltac:(lia) s M key HI) as (s' & Hrun & _).
    exists s'. split; [exact Hrun|].
    split; [exact (reachable_Remove _ _ _ s key s' Hreach Hrun)|].
    intros id p p' Hin Hp Hp' Hgrown.
    destruct (Remove_grown_leaf header_page_id_ s key s' id p p' Hrun Hp Hp' Hgrown)
      as (id2 & q & pos & l & r & Hne & Hq & Hwho & Htest & Hmerge).
    destruct (Inv_leaf_size leaf_max_size_ internal_max_size_ s M id p HI Hin Hp) as [_ Hmax].
    destruct (leaf_merge_header _ _ _ _ Hmerge) as [Hsize _].
    exists id2, q, pos, l, r. split; [exact Hne|]. split; [exact Hq|]. split; [exact Hwho|].
    split; [exact Hmerge|]. split; [exact Hsize|].
    unfold LeafPage.GetSize, LeafPage.GetMaxSize in *.
    destruct Hwho as [[Hrem ->]|[-> Hrem]];
      destruct (leaf_remove_at_header _ _ _ Hrem) as [Hs Hm]; lia.
Qed.

Lemma leaf_size_below_max_witness :
  (exists p, pages_ tree_10_70 !! 4 = Some (Leaf p) /\
     1 <= LeafPage.GetSize p <= 4 - 1 /\ LeafPage.GetMaxSize p = 4) /\
  (exists id q s',
     Begin_key_loop (descent_fuel tree_10_70) tree_10_70 55 (header_root_page_id_ tree_10_70)
     = Ok (inr (id, q)) /\
     pages_ tree_10_70 !! id = Some (Leaf q) /\
     Insert 4 4 0 tree_10_70 55 55 = Ok (true, s') /\
     reachable 4 4 0 s' /\
     (next_page_id_ s' = next_page_id_ tree_10_70 <-> LeafPage.GetSize q + 1 < 4) /\
     (next_page_id_ tree_10_70 < next_page_id_ s' <-> LeafPage.GetSize q + 1 = 4)) /\
  (exists s' p p',
     Remove 0 tree_10_70 10 = Ok s' /\ reachable 4 4 0 s' /\
     pages_ tree_10_70 !! 1 = Some (Leaf p) /\ pages_ s' !! 1 = Some (Leaf p') /\
     LeafPage.GetSize p = 2 /\ LeafPage.GetSize p' = 3 /\
     exists id2 q pos l r,
       id2 <> 1 /\ pages_ tree_10_70 !! id2 = Some (Leaf q) /\
       ((leaf_remove_at p pos = Ok l /\ r = q) \/ (l = p /\ leaf_remove_at q pos = Ok r)) /\
       leaf_merge l r (LeafPage.GetSize l + LeafPage.GetSize r) = Ok p' /\
       LeafPage.GetSize p' = LeafPage.GetSize l + LeafPage.GetSize r /\
       LeafPage.GetSize l + LeafPage.GetSize r = LeafPage.GetSize p + LeafPage.GetSize q - 1 /\
       LeafPage.GetSize l + LeafPage.GetSize r < 4).
Proof.
  destruct (leaf_size_below_max 4 4 0 tree_10_70 ltac:(config) ltac:(config)
              (proj2 tree_10_70_reachable)) as (Hsize & Hsplit & Hmerge).
  split; [|split].
  - assert (Hp : exists p, pages_ tree_10_70 !! 4 = Some (Leaf p))
      by (eexists; vm_compute; reflexivity).
    destruct Hp as [p Hp]. exists p. split; [exact Hp|].
    apply (Hsize 4 p); [|exact Hp].
    apply (tree_10_70_leaf 2 4); reflexivity.
  - apply (Hsplit 55 55); [vm_compute; discriminate | vm_compute; reflexivity].
  - destruct (Hmerge 10) as (s' & Hrun & Hreach & Hgrown).
    assert (Hp : exists p, pages_ tree_10_70 !! 1 = Some (Leaf p) /\ LeafPage.GetSize p = 2)
      by (eexists; split; [vm_compute; reflexivity | reflexivity]).
    assert (Hp' : exists p', pages_ s' !! 1 = Some (Leaf p') /\ LeafPage.GetSize p' = 3).
    { assert (E : exists p', (s ← Remove 0 tree_10_70 10; Ok (pages_ s !! 1)) = Ok (Some (Leaf p'))
                             /\ LeafPage.GetSize p' = 3)
        by (eexists; split; [vm_compute; reflexivity | reflexivity]).
      destruct E as (p' & E & Hs). rewrite Hrun, bind_Ok_l in E. injection E as E.
      exists p'. split; [exact E | exact Hs]. }
    destruct Hp as (p & Hp & Hsp). destruct Hp' as (p' & Hp' & Hsp').
    exists s', p, p'. split; [exact Hrun|]. split; [exact Hreach|].
    split; [exact Hp|]. split; [exact Hp'|]. split; [exact Hsp|]. split; [exact Hsp'|].
    apply (Hgrown 1 p p'); [apply (tree_10_70_leaf 0 1); reflexivity | exact Hp | exact Hp' | lia].
Defined.

(** * Further properties of the operations *)

(** ** The tree as a finite map *)

(** X1. On a reachable state an [Insert] that completes leaves the answer
    of [GetValue] for every other key as it was. It returns false exactly
    when [GetValue] already finds the key, and then the state is the one it
    was given: the stored value is not overwritten. *)
Theorem Insert_keeps_other_keys (leaf_max_size_ internal_max_size_ header_page_id_ : Z)
    (s : BufferPool) (key value : Z) (b : bool) (s' : BufferPool) :
  3 <= leaf_max_size_ < LEAF_PAGE_SIZE -> 3 <= internal_max_size_ <= INTERNAL_PAGE_SIZE ->
  reachable leaf_max_size_ internal_max_size_ header_page_id_ s ->
  Insert leaf_max_size_ internal_max_size_ header_page_id_ s key value = Ok (b, s') ->
  (forall key' result, key' <> key -> GetValue s' key' result = GetValue s key' result) /\
  (b = false <-> exists v, GetValue s key [] = Ok (true, [v])) /\
  (b = false -> s' = s).
Proof.
  intros Hl Hi Hreach Hrun.
  destruct (reachable_Inv leaf_max_size_ internal_max_size_ header_page_id_
              ltac:(lia) ltac:(lia) s Hreach) as [M HI].
  destruct (Insert_Inv leaf_max_size_ internal_max_size_ header_page_id_
              ltac:(lia) ltac:(lia) s M key value HI) as (b' & s'' & Hrun' & HI').
  rewrite Hrun in Hrun'. injection Hrun' as <- <-.
  pose proof (GetValue_spec leaf_max_size_ internal_max_size_ s M key [] HI) as Hget.
  destruct (M !! key) as [v|] eqn:E.
  - pose proof (Insert_dup leaf_max_size_ internal_max_size_ header_page_id_
                  ltac:(lia) ltac:(lia) s M key value HI ltac:(rewrite E; eauto)) as Hdup.
    rewrite Hrun in Hdup. injection Hdup as -> ->.
    split; [reflexivity|]. split; [|reflexivity].
    split; [intros _; exists v; exact Hget | reflexivity].
  - destruct (Insert_new leaf_max_size_ internal_max_size_ header_page_id_
                ltac:(lia) ltac:(lia) s M key value HI E) as (s2 & Hnew & _).
    rewrite Hrun in Hnew. injection Hnew as -> _.
    split; [|split].
    + intros key' result Hne.
      rewrite (GetValue_spec leaf_max_size_ internal_max_size_ s' _ key' result HI').
      rewrite (GetValue_spec leaf_max_size_ internal_max_size_ s M key' result HI).
      rewrite lookup_insert_ne by congruence. reflexivity.
    + split; [discriminate|]. intros [v Hv]. rewrite Hget in Hv. discriminate.
    + discriminate.
Qed.

Lemma Insert_keeps_other_keys_witness :
  (exists s', Insert 4 4 0 tree_10_70 30 999 = Ok (false, s') /\
     (forall key' result,
        key' <> 30 -> GetValue s' key' result = GetValue tree_10_70 key' result) /\
     (false = false <-> exists v, GetValue tree_10_70 30 [] = Ok (true, [v])) /\
     (false = false -> s' = tree_10_70)) /\
  (exists s', Insert 4 4 0 tree_10_70 55 550 = Ok (true, s') /\
     (forall key' result,
        key' <> 55 -> GetValue s' key' result = GetValue tree_10_70 key' result) /\
     (true = false <-> exists v, GetValue tree_10_70 55 [] = Ok (true, [v])) /\
     (true = false -> s' = tree_10_70)).
Proof.
  split.
  - eexists. split; [vm_compute; reflexivity|].
    apply (Insert_keeps_other_keys 4 4 0 tree_10_70 30 999 false);
      [config | config | exact (proj2 tree_10_70_reachable) | vm_compute; reflexivity].
  - eexists. split; [vm_compute; reflexivity|].
    apply (Insert_keeps_other_keys 4 4 0 tree_10_70 55 550 true);
      [config | config | exact (proj2 tree_10_70_reachable) | vm_compute; reflexivity].
Defined.

(** X2. On a reachable state [Remove] completes; afterwards [GetValue]
    does not find the removed key, and finds for every other key what it
    found before. *)
Theorem Remove_then_GetValue (leaf_max_size_ internal_max_size_ header_page_id_ : Z)
    (s : BufferPool) (key : Z) :
  3 <= leaf_max_size_ < LEAF_PAGE_SIZE -> 3 <= internal_max_size_ <= INTERNAL_PAGE_SIZE ->
  reachable leaf_max_size_ internal_max_size_ header_page_id_ s ->
  exists s', Remove header_page_id_ s key = Ok s' /\
    (forall result, GetValue s' key result = Ok (false, result)) /\
    (forall key' result, key' <> key -> GetValue s' key' result = GetValue s key' result).
Proof.
  intros Hl Hi Hreach.
  destruct (reachable_Inv leaf_max_size_ internal_max_size_ header_page_id_
              ltac:(lia) ltac:(lia) s Hreach) as [M HI].
  destruct (Remove_Inv leaf_max_size_ internal_max_size_ header_page_id_
              ltac:(lia) ltac:(lia) s M key HI) as (s' & Hrun & HI').
  exists s'. split; [exact Hrun|]. split.
  - intros result.
    rewrite (GetValue_spec leaf_max_size_ internal_max_size_ s' _ key result HI').
    rewrite lookup_delete_eq. reflexivity.
  - intros key' result Hne.
    rewrite (GetValue_spec leaf_max_size_ internal_max_size_ s' _ key' result HI').
    rewrite (GetValue_spec leaf_max_size_ internal_max_size_ s M key' result HI).
    rewrite lookup_delete_ne by congruence. reflexivity.
Qed.

Lemma Remove_then_GetValue_witness :
  exists s, InsertFromFile 4 4 0 [1; 2; 3] fresh_tree = Ok s /\
  exists s', Remove 0 s 2 = Ok s' /\
    (forall result, GetValue s' 2 result = Ok (false, result)) /\
    (forall key' result, key' <> 2 -> GetValue s' key' result = GetValue s key' result).
Proof.
  destruct reachable_123 as (s & Hrun & Hreach & Hroot).
  exists s. split; [exact Hrun|].
  apply (Remove_then_GetValue 4 4 0 s 2); [config | config | exact Hreach].
Defined.

(** ** [Begin()] *)

Lemma Begin_loop_S (fuel : nat) (s : BufferPool) (id : Z) :
  Begin_loop (S fuel) s id
  = (page ← guarded_page s id;
     match page with
     | Leaf _ => Ok id
     | Internal internal =>
         next ← InternalPage.ValueAt internal 0;
         _ ← FetchPageRead s next;
         Begin_loop fuel s next
     end).
Proof. reflexivity. Qed.

(** The leftmost descent ends on the leaf that holds the first entries of
    the tree. *)
Lemma Begin_loop_spec (leaf_max_size_ internal_max_size_ : Z) (h : nat) :
  forall (fuel : nat) (s : BufferPool) (lo hi : option Z) (t : tree),
  (h <= fuel)%nat ->
  rep leaf_max_size_ internal_max_size_ (pages_ s) h t ->
  good leaf_max_size_ internal_max_size_ h lo hi t ->
  exists id p kv kvs rest,
    Begin_loop fuel s (tid t) = Ok id /\
    pages_ s !! id = Some (Leaf p) /\ LeafPage.size_ p < LEAF_PAGE_SIZE /\
    LeafPage.size_ p = Z.of_nat (length (kv :: kvs)) /\ leaf_slots p = kv :: kvs /\
    t_kvs t = (kv :: kvs) ++ rest.
Proof.
  induction h as [|h IH]; intros fuel s lo hi t Hfuel Hrep Hgood.
  - destruct t as [id kvs|id sl]; [|simpl in Hrep; tauto].
    destruct Hrep as (p & Hp & _ & Hs & Hsl). destruct Hgood as [_ Hlen].
    destruct kvs as [|kv kvs]; [simpl in Hlen; lia|].
    exists id, p, kv, kvs, []. rewrite app_nil_r.
    split; [|split; [exact Hp|]; split; [len_lia|]; repeat split; assumption].
    destruct fuel; simpl; rewrite (guarded_page_Ok _ _ _ Hp); reflexivity.
  - destruct t as [id kvs|id sl]; [simpl in Hrep; tauto|].
    destruct fuel as [|fuel]; [lia|].
    destruct Hrep as (P & Hp & _ & Hs & Hsl & Hch). destruct Hgood as (_ & Hchain & Hlen).
    destruct sl as [|kc sl]; [simpl in Hlen; lia|].
    destruct Hchain as [Hgc _]. apply Forall_cons in Hch as [Hrc _].
    destruct (rep_in_dom _ _ _ _ _ _ Hrc (tid_in_ids _)) as [pc Hpc].
    destruct (IH fuel s lo (next_bound hi sl) (snd kc) ltac:(lia) Hrc Hgc)
      as (idl & p & kv & kvs & rest & Hrun & Hpl & Hfit & Hsz & Hslots & Hk).
    exists idl, p, kv, kvs, (rest ++ kvs_of sl).
    split; [|split; [exact Hpl|]; split; [exact Hfit|]; split; [exact Hsz|];
             split; [exact Hslots|]].
    + rewrite Begin_loop_S. simpl tid. rewrite (guarded_page_Ok _ _ _ Hp), bind_Ok_l.
      rewrite InternalPage_ValueAt_Ok by len_lia.
      pose proof (node_slot P (kc :: sl) 0 kc Hs Hsl eq_refl) as Hg.
      change (Z.of_nat 0) with 0 in Hg. rewrite Hg, bind_Ok_l. simpl snd.
      unfold FetchPageRead. rewrite (guarded_page_Ok _ _ _ Hpc), bind_Ok_l. exact Hrun.
    + simpl t_kvs. rewrite Hk. rewrite <- app_assoc. reflexivity.
Qed.

(** [Begin()] on a tree with a root: slot 0 of the leftmost leaf, where the
    smallest key is. *)
Lemma Begin_spec (leaf_max_size_ internal_max_size_ : Z) (s : BufferPool) (M : gmap Z Z) :
  Inv leaf_max_size_ internal_max_size_ s M ->
  header_root_page_id_ s <> INVALID_PAGE_ID ->
  exists id p k v,
    Begin s = Ok {| iter_page_id := id; iter_index := 0 |} /\
    pages_ s !! id = Some (Leaf p) /\
    LeafPage.KeyAt p 0 = Ok k /\ LeafPage.ValueAt p 0 = Ok v /\
    M !! k = Some v /\
    forall k', is_Some (M !! k') -> k <= k'.
Proof.
  intros HI He.
  pose proof HI as [Hpool [[Hroot _]|(h & t & Hroot & Hrep & Hgood & Hnd & HM)]];
    [contradiction|].
  destruct (Inv_root leaf_max_size_ internal_max_size_ s h t Hpool Hrep) as (_ & rp & Hrp).
  destruct (Begin_loop_spec leaf_max_size_ internal_max_size_ h (descent_fuel s) s None None t
              (descent_fuel_enough _ _ _ _ _ _ _ Hrep Hgood Hnd) Hrep Hgood)
    as (id & p & kv & kvs & rest & Hrun & Hp & Hfit & Hsz & Hslots & Hk).
  destruct (good_keys _ _ _ _ _ _ Hgood) as [[Hsort _] _].
  assert (HndM : NoDup ((t_kvs t).*1)).
  { eapply keys_ord_NoDup. apply (good_keys _ _ _ _ _ _ Hgood). }
  assert (Hstored : forall k v, (k, v) ∈ t_kvs t <-> M !! k = Some v).
  { intros k v. rewrite <- HM. apply (elem_of_list_to_map (t_kvs t) k v). exact HndM. }
  pose proof (leaf_slot p (kv :: kvs) 0 kv Hsz Hslots eq_refl) as Hg.
  change (Z.of_nat 0) with 0 in Hg.
  exists id, p, (fst kv), (snd kv).
  split.
  { unfold Begin. rewrite (proj2 (Z.eqb_neq _ _) He). rewrite Hroot.
    unfold FetchPageRead. rewrite (guarded_page_Ok _ _ _ Hrp), bind_Ok_l.
    rewrite Hrun, bind_Ok_l. reflexivity. }
  split; [exact Hp|].
  split; [rewrite LeafPage_KeyAt_Ok by len_lia; rewrite Hg; reflexivity|].
  split; [rewrite LeafPage_ValueAt_Ok by len_lia; rewrite Hg; reflexivity|].
  split.
  { apply Hstored. rewrite Hk. destruct kv. simpl. left. }
  intros k' [v' Hk'].
  apply Hstored in Hk'. rewrite Hk in Hk'. rewrite Hk in Hsort.
  simpl in Hk', Hsort. apply elem_of_cons in Hk' as [E|Hin].
  + rewrite <- E. simpl. lia.
  + apply StronglySorted_inv in Hsort as [_ Hall]. rewrite Forall_forall in Hall.
    assert (fst kv < k'); [|lia]. apply Hall.
    apply list_elem_of_fmap. exists (k', v'). split; [reflexivity | exact Hin].
Qed.

(** X3. On a reachable state [Begin()] is the end iterator exactly when
    [IsEmpty()] holds. Otherwise it is the iterator at slot 0 of a leaf
    page, and that slot holds the smallest key of the tree with its
    value. *)
Theorem Begin_is_minimum (leaf_max_size_ internal_max_size_ header_page_id_ : Z)
    (s : BufferPool) :
  3 <= leaf_max_size_ < LEAF_PAGE_SIZE -> 3 <= internal_max_size_ <= INTERNAL_PAGE_SIZE ->
  reachable leaf_max_size_ internal_max_size_ header_page_id_ s ->
  (IsEmpty s = true -> Begin s = Ok End) /\
  (IsEmpty s = false ->
   exists id p k v,
     Begin s = Ok {| iter_page_id := id; iter_index := 0 |} /\
     {| iter_page_id := id; iter_index := 0 |} <> End /\
     pages_ s !! id = Some (Leaf p) /\
     LeafPage.KeyAt p 0 = Ok k /\ LeafPage.ValueAt p 0 = Ok v /\
     GetValue s k [] = Ok (true, [v]) /\
     forall k' v', GetValue s k' [] = Ok (true, [v']) -> k <= k').
Proof.
  intros Hl Hi Hreach.
  destruct (reachable_Inv leaf_max_size_ internal_max_size_ header_page_id_
              ltac:(lia) ltac:(lia) s Hreach) as [M HI].
  unfold IsEmpty. split.
  - intros He. unfold Begin. rewrite He. reflexivity.
  - intros He. apply Z.eqb_neq in He.
    destruct (Begin_spec leaf_max_size_ internal_max_size_ s M HI He)
      as (id & p & k & v & Hrun & Hp & HK & HV & Hk & Hmin).
    exists id, p, k, v. split; [exact Hrun|].
    split; [unfold End; intros H; discriminate H|].
    split; [exact Hp|]. split; [exact HK|]. split; [exact HV|].
    split; [apply (stored_iff leaf_max_size_ internal_max_size_ s M _ _ HI); exact Hk|].
    intros k' v' Hk'. apply Hmin.
    apply (stored_iff leaf_max_size_ internal_max_size_ s M _ _ HI) in Hk'. eauto.
Qed.

Lemma Begin_is_minimum_witness :
  exists s, InsertFromFile 4 4 0 [1; 2; 3] fresh_tree = Ok s /\
    (IsEmpty s = true -> Begin s = Ok End) /\
    (IsEmpty s = false ->
     exists id p k v,
       Begin s = Ok {| iter_page_id := id; iter_index := 0 |} /\
       {| iter_page_id := id; iter_index := 0 |} <> End /\
       pages_ s !! id = Some (Leaf p) /\
       LeafPage.KeyAt p 0 = Ok k /\ LeafPage.ValueAt p 0 = Ok v /\
       GetValue s k [] = Ok (true, [v]) /\
       forall k' v', GetValue s k' [] = Ok (true, [v']) -> k <= k').
Proof.
  destruct reachable_123 as (s & Hrun & Hreach & Hroot).
  exists s. split; [exact Hrun|].
  apply (Begin_is_minimum 4 4 0 s); [config | config | exact Hreach].
Defined.

(** ** No operation fails *)

(** X4. With a [leaf_max_size] from 3 up to [LEAF_PAGE_SIZE - 1] and an
    [internal_max_size] from 3 up to [INTERNAL_PAGE_SIZE], every entry
    point runs to completion on a reachable state, whatever its arguments:
    no slot is read or written outside its page, no page is fetched that
    the pool does not hold, no page is viewed at the wrong kind, the header
    guard is there whenever it is dereferenced, no write latch is requested
    twice, and every descent ends. *)
Theorem operations_complete (leaf_max_size_ internal_max_size_ header_page_id_ : Z)
    (s : BufferPool) (key value : Z) (result : list Z) :
  3 <= leaf_max_size_ < LEAF_PAGE_SIZE -> 3 <= internal_max_size_ <= INTERNAL_PAGE_SIZE ->
  reachable leaf_max_size_ internal_max_size_ header_page_id_ s ->
  (exists b result', GetValue s key result = Ok (b, result')) /\
  (exists b s', Insert leaf_max_size_ internal_max_size_ header_page_id_ s key value
                = Ok (b, s')) /\
  (exists s', Remove header_page_id_ s key = Ok s') /\
  (exists it, Begin s = Ok it) /\
  (exists it, Begin_key s key = Ok it).
Proof.
  intros Hl Hi Hreach.
  destruct (reachable_Inv leaf_max_size_ internal_max_size_ header_page_id_
              ltac:(lia) ltac:(lia) s Hreach) as [M HI].
  split; [|split; [|split; [|split]]].
  - rewrite (GetValue_spec leaf_max_size_ internal_max_size_ s M key result HI).
    destruct (M !! key); eauto.
  - destruct (Insert_Inv leaf_max_size_ internal_max_size_ header_page_id_
                ltac:(lia) ltac:(lia) s M key value HI) as (b & s' & Hrun & _). eauto.
  - destruct (Remove_Inv leaf_max_size_ internal_max_size_ header_page_id_
                ltac:(lia) ltac:(lia) s M key HI) as (s' & Hrun & _). eauto.
  - destruct (Z.eq_dec (header_root_page_id_ s) INVALID_PAGE_ID) as [E|E].
    + unfold Begin. rewrite (proj2 (Z.eqb_eq _ _) E). eauto.
    + destruct (Begin_spec leaf_max_size_ internal_max_size_ s M HI E)
        as (id & p & k & v & Hrun & _). eauto.
  - destruct (Z.eq_dec (header_root_page_id_ s) INVALID_PAGE_ID) as [E|E].
    + unfold Begin_key. rewrite (proj2 (Z.eqb_eq _ _) E). eauto.
    + destruct (Begin_key_spec leaf_max_size_ internal_max_size_ s M key HI E)
        as (id & p & r & _ & _ & Hrun & _). eauto.
Qed.

Lemma operations_complete_witness :
  (exists b result', GetValue tree_10_70 55 [] = Ok (b, result')) /\
  (exists b s', Insert 4 4 0 tree_10_70 55 5 = Ok (b, s')) /\
  (exists s', Remove 0 tree_10_70 55 = Ok s') /\
  (exists it, Begin tree_10_70 = Ok it) /\
  (exists it, Begin_key tree_10_70 55 = Ok it).
Proof.
  apply (operations_complete 4 4 0 tree_10_70 55 5 []);
    [config | config | exact (proj2 tree_10_70_reachable)].
Defined.

(** X27. The upper bound on [leaf_max_size] is needed for [Insert] to
    complete. The loop of [Insert] that opens the gap starts by writing the
    slot at [size + 1], [size] being the size of the leaf before the
    insertion, wherever the new entry goes: in a leaf of
    [LEAF_PAGE_SIZE - 1] entries this is a slot outside the page. With
    [leaf_max_size] equal to [LEAF_PAGE_SIZE] such a leaf is reached: the
    keys 1 to [LEAF_PAGE_SIZE - 1] are inserted into the fresh tree without
    a split, and the next [Insert] of a new key leaves the page. *)
Theorem Insert_leaves_full_page :
  (forall p index key value,
     0 <= index <= LeafPage.GetSize p -> LeafPage.GetSize p + 1 = LEAF_PAGE_SIZE ->
     leaf_insert_at p index key value = Err OutOfBounds) /\
  exists s p,
    InsertAll LEAF_PAGE_SIZE INTERNAL_PAGE_SIZE 0 (seqZ 1 (LEAF_PAGE_SIZE - 1)) fresh_tree
    = Ok s /\
    reachable LEAF_PAGE_SIZE INTERNAL_PAGE_SIZE 0 s /\
    pages_ s !! header_root_page_id_ s = Some (Leaf p) /\
    LeafPage.GetSize p = LEAF_PAGE_SIZE - 1 /\
    LeafPage.GetMaxSize p = LEAF_PAGE_SIZE /\
    GetValue s LEAF_PAGE_SIZE [] = Ok (false, []) /\
    Insert LEAF_PAGE_SIZE INTERNAL_PAGE_SIZE 0 s LEAF_PAGE_SIZE LEAF_PAGE_SIZE
    = Err OutOfBounds.
Proof.
  split.
  - intros p index key value Hindex Hfull. unfold LeafPage.GetSize in *.
    unfold leaf_insert_at, for_down, LeafPage.IncreaseSize, LeafPage.GetSize. simpl LeafPage.size_.
    destruct (Z.to_nat (LeafPage.size_ p + 1 - index)) as [|n] eqn:En; [lia|].
    cbn [for_down_n]. unfold move_leaf_slot, copy_leaf_slot.
    rewrite LeafPage_KeyAt_Ok, bind_Ok_l by lia.
    rewrite LeafPage_ValueAt_Ok, bind_Ok_l by lia.
    unfold LeafPage.SetAt, array_set. rewrite Hfull.
    replace (LEAF_PAGE_SIZE <? 0) with false by (unfold LEAF_PAGE_SIZE; reflexivity).
    rewrite Z.leb_refl. reflexivity.
  - eexists _, _. split; [vm_compute; reflexivity|].
    split.
    { eapply (reachable_InsertAll LEAF_PAGE_SIZE INTERNAL_PAGE_SIZE 0
                (seqZ 1 (LEAF_PAGE_SIZE - 1)) fresh_tree); [apply reachable_new|].
      vm_compute. reflexivity. }
    split; [vm_compute; reflexivity|].
    split; [reflexivity|]. split; [reflexivity|].
    split; vm_compute; reflexivity.
Qed.

(** ** The drivers that read a file *)

Lemma insert_keys_lookup (keys : list Z) (M : gmap Z Z) (k : Z) :
  insert_keys keys M !! k
  = match M !! k with
    | Some v => Some v
    | None => if bool_decide (k ∈ keys) then Some k else None
    end.
Proof.
  revert M. induction keys as [|k0 keys IH]; intros M.
  - simpl insert_keys. destruct (M !! k); [reflexivity|].
    rewrite bool_decide_eq_false_2; [reflexivity|]. intros H. inversion H.
  - simpl insert_keys. rewrite IH.
    assert (Hcons : bool_decide (k ∈ k0 :: keys)
                    = if decide (k = k0) then true else bool_decide (k ∈ keys)).
    { destruct (decide (k = k0)) as [->|Hne].
      - apply bool_decide_eq_true_2. left.
      - apply bool_decide_ext. rewrite elem_of_cons. tauto. }
    rewrite Hcons. clear Hcons IH.
    destruct (M !! k0) as [v0|] eqn:E0.
    + destruct (M !! k) as [v|] eqn:E; [reflexivity|].
      destruct (decide (k = k0)) as [->|Hne]; [congruence | reflexivity].
    + destruct (decide (k = k0)) as [->|Hne].
      * rewrite lookup_insert_eq, E0. reflexivity.
      * rewrite lookup_insert_ne by congruence. reflexivity.
Qed.

Lemma remove_keys_lookup (keys : list Z) (M : gmap Z Z) (k : Z) :
  remove_keys keys M !! k = if bool_decide (k ∈ keys) then None else M !! k.
Proof.
  case_bool_decide as Hin.
  - apply lookup_remove_keys. exact Hin.
  - rename Hin into Hnin. revert M. induction keys as [|k0 keys IH]; intros M; simpl; [reflexivity|].
    rewrite IH.
    + apply lookup_delete_ne. intros ->. apply Hnin. left.
    + intros Hc. apply Hnin. right. exact Hc.
Qed.

(** X5. On a reachable state [InsertFromFile] and [RemoveFromFile] run
    to completion and end in a reachable state. The keys they work on are
    the numerals of the file up to the first one that does not fit an
    [int64_t], where the reading loop ends: [read_keys]. After
    [InsertFromFile] a key that was stored has the value it had, a key read
    that was not stored has the record id made from the key itself, and no
    other key is stored. After [RemoveFromFile] the keys read are gone and
    every other key is as it was. When every numeral fits, the keys read
    are all the numerals of the file. *)
Theorem file_drivers (leaf_max_size_ internal_max_size_ header_page_id_ : Z)
    (s : BufferPool) (file : list Z) :
  3 <= leaf_max_size_ < LEAF_PAGE_SIZE -> 3 <= internal_max_size_ <= INTERNAL_PAGE_SIZE ->
  reachable leaf_max_size_ internal_max_size_ header_page_id_ s ->
  (exists s',
     InsertFromFile leaf_max_size_ internal_max_size_ header_page_id_ file s = Ok s' /\
     reachable leaf_max_size_ internal_max_size_ header_page_id_ s' /\
     forall k result,
       GetValue s' k result
       = match GetValue s k result with
         | Ok (false, _) =>
             Ok (if bool_decide (k ∈ read_keys file) then (true, result ++ [k])
                 else (false, result))
         | r => r
         end) /\
  (exists s',
     RemoveFromFile header_page_id_ file s = Ok s' /\
     reachable leaf_max_size_ internal_max_size_ header_page_id_ s' /\
     forall k result,
       GetValue s' k result
       = if bool_decide (k ∈ read_keys file) then Ok (false, result) else GetValue s k result) /\
  (Forall (fun key => INT64_MIN <= key <= INT64_MAX) file -> read_keys file = file).
Proof.
  intros Hl Hi Hreach.
  destruct (reachable_Inv leaf_max_size_ internal_max_size_ header_page_id_
              ltac:(lia) ltac:(lia) s Hreach) as [M HI].
  split; [|split].
  - destruct (InsertFromFile_Inv leaf_max_size_ internal_max_size_ header_page_id_
                ltac:(lia) ltac:(lia) file s M HI) as (s' & Hrun & HI').
    exists s'. split; [exact Hrun|]. split.
    { exact (reachable_InsertFromFile _ _ _ file s s' Hreach Hrun). }
    intros k result.
    rewrite (GetValue_spec leaf_max_size_ internal_max_size_ s' _ k result HI').
    rewrite (GetValue_spec leaf_max_size_ internal_max_size_ s M k result HI).
    rewrite insert_keys_lookup. destruct (M !! k); [reflexivity|].
    destruct (bool_decide (k ∈ read_keys file)); reflexivity.
  - destruct (RemoveFromFile_Inv leaf_max_size_ internal_max_size_ header_page_id_
                ltac:(lia) ltac:(lia) file s M HI) as (s' & Hrun & HI').
    exists s'. split; [exact Hrun|]. split.
    { exact (reachable_RemoveFromFile _ _ _ file s s' Hreach Hrun). }
    intros k result.
    rewrite (GetValue_spec leaf_max_size_ internal_max_size_ s' _ k result HI').
    rewrite (GetValue_spec leaf_max_size_ internal_max_size_ s M k result HI).
    rewrite remove_keys_lookup. destruct (bool_decide (k ∈ read_keys file)); reflexivity.
  - intros Hfit. apply read_keys_all. eapply Forall_impl; [exact Hfit|].
    intros key Hkey. cbv beta in Hkey. unfold fits_int64, INT64_MIN, INT64_MAX in *. lia.
Qed.

Lemma file_drivers_witness :
  (exists s',
     InsertFromFile 4 4 0 [30; 35; 9223372036854775808; 45] tree_10_70 = Ok s' /\
     reachable 4 4 0 s' /\
     forall k result,
       GetValue s' k result
       = match GetValue tree_10_70 k result with
         | Ok (false, _) =>
             Ok (if bool_decide (k ∈ [30; 35]) then (true, result ++ [k]) else (false, result))
         | r => r
         end) /\
  (exists s',
     RemoveFromFile 0 [10; 35; -9223372036854775809; 20] tree_10_70 = Ok s' /\
     reachable 4 4 0 s' /\
     forall k result,
       GetValue s' k result
       = if bool_decide (k ∈ [10; 35]) then Ok (false, result) else GetValue tree_10_70 k result).
Proof.
  split.
  - exact (proj1 (file_drivers 4 4 0 tree_10_70 [30; 35; 9223372036854775808; 45]
                    ltac:(config) ltac:(config) (proj2 tree_10_70_reachable))).
  - exact (proj1 (proj2 (file_drivers 4 4 0 tree_10_70 [10; 35; -9223372036854775809; 20]
                           ltac:(config) ltac:(config) (proj2 tree_10_70_reachable)))).
Defined.

(** ** The two binary searches *)

(** X7. [BinaryFind] on a leaf whose size is not negative and not above
    the slots of a page returns an index between -1 and [size - 1]; it
    reads no slot outside the page. A
    result that is not -1 is the index of a key that is at most the
    searched key. When the keys of the leaf ascend strictly, the result is
    the index of the last key that is at most the searched key: the keys up
    to the result are at most the searched key, those after it are
    greater; it is -1 exactly when every key is greater, the empty leaf
    included. *)
Theorem BinaryFind_leaf_last_le (p : LeafPage.t) (key : Z) :
  0 <= LeafPage.GetSize p <= LEAF_PAGE_SIZE ->
  exists r, BinaryFind_leaf p key = Ok r /\
    -1 <= r < LeafPage.GetSize p /\
    (r <> -1 -> exists k, LeafPage.KeyAt p r = Ok k /\ k <= key) /\
    ((forall i j ki kj, 0 <= i < j -> j < LeafPage.GetSize p ->
        LeafPage.KeyAt p i = Ok ki -> LeafPage.KeyAt p j = Ok kj -> ki < kj) ->
     forall i ki, 0 <= i < LeafPage.GetSize p -> LeafPage.KeyAt p i = Ok ki ->
       (ki <= key <-> i <= r)).
Proof.
  unfold LeafPage.GetSize. intros Hs.
  destruct (BinaryFind_leaf_spec p key Hs) as (r & Hrun & Hr & Hle & Hgt).
  exists r. split; [exact Hrun|]. split; [exact Hr|]. split.
  - intros Hne. exists (leaf_key p r). split; [apply LeafPage_KeyAt_Ok; lia | apply Hle; lia].
  - intros Hsort i ki Hi Hki.
    assert (Hkey : forall j, 0 <= j < LeafPage.size_ p ->
                     LeafPage.KeyAt p j = Ok (leaf_key p j)).
    { intros j Hj. apply LeafPage_KeyAt_Ok. lia. }
    rewrite (Hkey i ltac:(lia)) in Hki. injection Hki as <-.
    split.
    + intros Hik. destruct (Z_le_gt_dec i r) as [Hir|Hir]; [exact Hir | exfalso].
      destruct (Hgt i ltac:(lia)) as (m & Hm & Hm0 & Hkm).
      destruct (Z.eq_dec m i) as [->|Hmi]; [lia|].
      pose proof (Hsort m i _ _ ltac:(lia) ltac:(lia) (Hkey m ltac:(lia)) (Hkey i ltac:(lia))).
      lia.
    + intros Hir. destruct (Z.eq_dec i r) as [->|Hne]; [apply Hle; lia|].
      pose proof (Hsort i r _ _ ltac:(lia) ltac:(lia) (Hkey i ltac:(lia)) (Hkey r ltac:(lia))).
      specialize (Hle ltac:(lia)). lia.
Qed.

Lemma BinaryFind_leaf_last_le_witness :
  exists r,
    BinaryFind_leaf {| LeafPage.size_ := 3; LeafPage.max_size_ := 4;
                       LeafPage.next_page_id_ := -1;
                       LeafPage.array_ := [(10, 1); (20, 2); (30, 3)] |} 25 = Ok r /\
    r = 1.
Proof.
  destruct (BinaryFind_leaf_last_le
              {| LeafPage.size_ := 3; LeafPage.max_size_ := 4; LeafPage.next_page_id_ := -1;
                 LeafPage.array_ := [(10, 1); (20, 2); (30, 3)] |} 25 ltac:(simpl; config))
    as (r & Hrun & _).
  exists r. split; [exact Hrun|].
  vm_compute in Hrun. injection Hrun as <-. reflexivity.
Defined.

(** A result of the search in an internal page is never -1. *)
Lemma BinaryFind_internal_not_minus_one (p : InternalPage.t) (key r : Z) :
  BinaryFind_internal p key = Ok r -> r <> -1.
Proof.
  unfold BinaryFind_internal. intros H.
  apply bind_Ok in H as (r' & _ & H).
  destruct (Z.eqb_spec r' (-1)) as [_|Hne]; [injection H as <-; lia|].
  apply bind_Ok in H as (k & _ & H).
  destruct (comparator_ k key =? 1); injection H as <-; [lia | exact Hne].
Qed.

(** X8. [BinaryFind] on an internal page whose size is not negative and
    not above the slots of a page returns a slot between 0 and [size - 1] (slot 0 when the page has no
    slot at all), never -1. When the keys from slot 1 on ascend strictly,
    it is the last slot from 1 on whose key is at most the searched key,
    and slot 0 when there is none; the key of slot 0 plays no part. *)
Theorem BinaryFind_internal_last_le (p : InternalPage.t) (key : Z) :
  0 <= InternalPage.GetSize p <= INTERNAL_PAGE_SIZE ->
  exists r, BinaryFind_internal p key = Ok r /\
    0 <= r /\ (r < InternalPage.GetSize p \/ r = 0) /\
    ((forall i j ki kj, 1 <= i < j -> j < InternalPage.GetSize p ->
        InternalPage.KeyAt p i = Ok ki -> InternalPage.KeyAt p j = Ok kj -> ki < kj) ->
     forall i ki, 1 <= i < InternalPage.GetSize p -> InternalPage.KeyAt p i = Ok ki ->
       (ki <= key <-> i <= r)).
Proof.
  unfold InternalPage.GetSize. intros Hs.
  destruct (BinaryFind_internal_spec p key Hs) as (r & Hrun & Hr0 & Hr & Hle & Hgt).
  exists r. split; [exact Hrun|]. split; [exact Hr0|]. split; [exact Hr|].
  intros Hsort i ki Hi Hki.
  assert (Hkey : forall j, 0 <= j < InternalPage.size_ p ->
                   InternalPage.KeyAt p j = Ok (internal_key p j)).
  { intros j Hj. apply InternalPage_KeyAt_Ok. lia. }
  rewrite (Hkey i ltac:(lia)) in Hki. injection Hki as <-.
  split.
  - intros Hik. destruct (Z_le_gt_dec i r) as [Hir|Hir]; [exact Hir | exfalso].
    destruct (Hgt i ltac:(lia)) as (m & Hm & Hkm).
    destruct (Z.eq_dec m i) as [->|Hmi]; [lia|].
    pose proof (Hsort m i _ _ ltac:(lia) ltac:(lia) (Hkey m ltac:(lia)) (Hkey i ltac:(lia))). lia.
  - intros Hir. destruct (Z.eq_dec i r) as [->|Hne]; [apply Hle; lia|].
    pose proof (Hsort i r _ _ ltac:(lia) ltac:(lia) (Hkey i ltac:(lia)) (Hkey r ltac:(lia))).
    specialize (Hle ltac:(lia)). lia.
Qed.

Lemma BinaryFind_internal_last_le_witness :
  exists r,
    BinaryFind_internal {| InternalPage.size_ := 3; InternalPage.max_size_ := 4;
                           InternalPage.array_ := [(0, 7); (20, 8); (30, 9)] |} 25 = Ok r /\
    r = 1.
Proof.
  destruct (BinaryFind_internal_last_le
              {| InternalPage.size_ := 3; InternalPage.max_size_ := 4;
                 InternalPage.array_ := [(0, 7); (20, 8); (30, 9)] |} 25 ltac:(simpl; config))
    as (r & Hrun & _).
  exists r. split; [exact Hrun|].
  vm_compute in Hrun. injection Hrun as <-. reflexivity.
Defined.

Lemma Begin_key_loop_not_inl (fuel : nat) (s : BufferPool) (key id : Z) (it : IndexIterator) :
  Begin_key_loop fuel s key id <> Ok (inl it).
Proof.
  revert id. induction fuel as [|fuel IH]; intros id H.
  - simpl in H. destruct (guarded_page s id) as [[l|i]|]; simpl in H; discriminate.
  - rewrite Begin_key_loop_S in H.
    destruct (guarded_page s id) as [[l|i]|]; simpl in H; try discriminate.
    destruct (BinaryFind_internal i key) as [slot|] eqn:Hslot; simpl in H; [|discriminate].
    apply BinaryFind_internal_not_minus_one in Hslot.
    destruct (Z.eqb_spec slot (-1)) as [E|_]; [contradiction|].
    destruct (InternalPage.ValueAt i slot) as [next|]; simpl in H; [|discriminate].
    destruct (FetchPageRead s next) as [pg|]; simpl in H; [|discriminate].
    exact (IH next H).
Qed.

(** X9. The descent of [Begin(key)] never takes its early [return End()]:
    the search in an internal page does not return -1, whatever the page
    holds. Hence, on any pool with a root page id, [Begin(key)] is the end
    iterator only when the descent has reached a leaf and the search in
    that leaf has returned -1. *)
Theorem Begin_key_no_early_end (s : BufferPool) (key : Z) :
  (forall fuel id it, Begin_key_loop fuel s key id <> Ok (inl it)) /\
  (header_root_page_id_ s <> INVALID_PAGE_ID -> Begin_key s key = Ok End ->
   exists id leaf_page,
     Begin_key_loop (descent_fuel s) s key (header_root_page_id_ s) = Ok (inr (id, leaf_page)) /\
     BinaryFind_leaf leaf_page key = Ok (-1)).
Proof.
  split.
  - intros fuel id it. apply Begin_key_loop_not_inl.
  - intros Hne Hrun. unfold Begin_key in Hrun.
    destruct (Z.eqb_spec (header_root_page_id_ s) INVALID_PAGE_ID) as [E|_]; [contradiction|].
    apply bind_Ok in Hrun as (pg & _ & Hrun).
    apply bind_Ok in Hrun as (r & Hloop & Hrun).
    destruct r as [it|[id leaf_page]].
    + exfalso. exact (Begin_key_loop_not_inl _ _ _ _ _ Hloop).
    + apply bind_Ok in Hrun as (slot & Hslot & Hrun).
      exists id, leaf_page. split; [exact Hloop|].
      destruct (Z.eqb_spec slot (-1)) as [->|Hs]; [exact Hslot|].
      simpl in Hrun. unfold End in Hrun. injection Hrun as _ Hc. contradiction.
Qed.

Lemma Begin_key_no_early_end_witness :
  exists s, InsertFromFile 4 4 0 [1; 2; 3] fresh_tree = Ok s /\
  exists id leaf_page,
    Begin_key_loop (descent_fuel s) s 0 (header_root_page_id_ s) = Ok (inr (id, leaf_page)) /\
    BinaryFind_leaf leaf_page 0 = Ok (-1).
Proof.
  destruct reachable_123 as (s & Hrun & Hreach & Hroot).
  exists s. split; [exact Hrun|].
  apply (proj2 (Begin_key_no_early_end s 0)).
  - rewrite Hroot. unfold INVALID_PAGE_ID. lia.
  - injection Hrun as <-. vm_compute. reflexivity.
Defined.

(** ** The slot moves inside the pages *)

Lemma length_leaf_slots (p : LeafPage.t) :
  length (leaf_slots p) = Z.to_nat (LeafPage.size_ p).
Proof. apply length_slots. Qed.

Lemma length_internal_slots (p : InternalPage.t) :
  length (internal_slots p) = Z.to_nat (InternalPage.size_ p).
Proof. apply length_slots. Qed.

Lemma delete_inserted (l : list MappingType) (n : nat) (x : MappingType) :
  (n <= length l)%nat ->
  take n (take n l ++ x :: drop n l) ++ drop (S n) (take n l ++ x :: drop n l) = l.
Proof.
  intros Hn.
  assert (Hlen : length (take n l) = n) by (rewrite length_take; lia).
  rewrite take_app_length' by (symmetry; exact Hlen).
  rewrite (cons_middle x (take n l) (drop n l)), app_assoc.
  rewrite drop_app_length' by (rewrite length_app, Hlen; simpl; lia).
  apply take_drop.
Qed.

(** X14. The gap that [Insert] opens in a leaf and the gap that [Remove]
    closes are inverse to each other: in a leaf with [size + 1] below the
    slots of a page (the loop of [Insert] writes the slot [size + 1]),
    inserting an entry at an index between 0 and the size puts it at that
    index, with the entries before
    it in place and those after it moved up by one slot, and removing the
    slot at that index afterwards gives the entries and the size the leaf
    had. *)
Theorem leaf_insert_then_remove (p : LeafPage.t) (index key value : Z) :
  0 <= index <= LeafPage.GetSize p ->
  LeafPage.GetSize p + 1 < LEAF_PAGE_SIZE ->
  exists p' p'',
    leaf_insert_at p index key value = Ok p' /\
    LeafPage.GetSize p' = LeafPage.GetSize p + 1 /\
    leaf_slots p'
    = take (Z.to_nat index) (leaf_slots p) ++ (key, value) :: drop (Z.to_nat index) (leaf_slots p) /\
    LeafPage.KeyAt p' index = Ok key /\ LeafPage.ValueAt p' index = Ok value /\
    leaf_remove_at p' index = Ok p'' /\
    LeafPage.GetSize p'' = LeafPage.GetSize p /\
    leaf_slots p'' = leaf_slots p.
Proof.
  unfold LeafPage.GetSize. intros Hi Hfit.
  destruct (leaf_insert_at_spec p index key value Hi Hfit)
    as (p' & Hins & Hs' & Hm' & Hn' & Hsl').
  destruct (leaf_remove_at_spec p' index ltac:(lia) ltac:(lia))
    as (p'' & Hrem & Hs'' & Hm'' & Hn'' & Hsl'').
  exists p', p''. split; [exact Hins|]. split; [exact Hs'|]. split; [exact Hsl'|].
  assert (Hlen : length (take (Z.to_nat index) (leaf_slots p)) = Z.to_nat index).
  { rewrite length_take, length_leaf_slots. lia. }
  assert (Hat : get (LeafPage.array_ p') index = (key, value)).
  { pose proof (lookup_slots (LeafPage.array_ p') (LeafPage.size_ p') index ltac:(lia)) as Hl.
    fold (leaf_slots p') in Hl. rewrite Hsl' in Hl.
    rewrite lookup_app_r in Hl by lia. rewrite Hlen, Nat.sub_diag in Hl. simpl in Hl.
    congruence. }
  split; [rewrite LeafPage_KeyAt_Ok by len_lia; rewrite Hat; reflexivity|].
  split; [rewrite LeafPage_ValueAt_Ok by len_lia; rewrite Hat; reflexivity|].
  split; [exact Hrem|]. split; [lia|].
  rewrite Hsl'', Hsl'.
  replace (Z.to_nat (index + 1)) with (S (Z.to_nat index)) by lia.
  apply delete_inserted. rewrite length_leaf_slots. lia.
Qed.

Lemma leaf_insert_then_remove_witness :
  exists p' p'',
    leaf_insert_at {| LeafPage.size_ := 2; LeafPage.max_size_ := 4;
                      LeafPage.next_page_id_ := -1;
                      LeafPage.array_ := [(10, 1); (30, 3)] |} 1 20 2 = Ok p' /\
    leaf_slots p' = [(10, 1); (20, 2); (30, 3)] /\
    leaf_remove_at p' 1 = Ok p'' /\
    leaf_slots p'' = [(10, 1); (30, 3)].
Proof.
  destruct (leaf_insert_then_remove
              {| LeafPage.size_ := 2; LeafPage.max_size_ := 4; LeafPage.next_page_id_ := -1;
                 LeafPage.array_ := [(10, 1); (30, 3)] |} 1 20 2 ltac:(simpl; lia)
              ltac:(simpl; config))
    as (p' & p'' & H1 & _ & H3 & _ & _ & H6 & _ & H8).
  exists p', p''. split; [exact H1|]. split; [exact H3|]. split; [exact H6 | exact H8].
Defined.

(** X15. The split of a leaf that fits a page by [Insert] keeps the first
    [GetMinSize] entries in the old page and moves the others, in order, to the new
    page, which gets [leaf_max_size] as maximum size; the old page is
    linked to the new one. The merge of [Remove] applied to the two pages
    gives back the entries and the size of the leaf before the split. *)
Theorem leaf_split_then_merge (leaf_max_size_ : Z) (p : LeafPage.t) (new_page_id : Z) :
  0 <= LeafPage.GetMinSize p <= LeafPage.GetSize p ->
  LeafPage.GetSize p <= LEAF_PAGE_SIZE ->
  exists l r m,
    leaf_split leaf_max_size_ p new_page_id = Ok (l, r) /\
    LeafPage.GetSize l = LeafPage.GetMinSize p /\
    LeafPage.GetSize r = LeafPage.GetSize p - LeafPage.GetMinSize p /\
    leaf_slots l = take (Z.to_nat (LeafPage.GetMinSize p)) (leaf_slots p) /\
    leaf_slots r = drop (Z.to_nat (LeafPage.GetMinSize p)) (leaf_slots p) /\
    LeafPage.GetMaxSize l = LeafPage.GetMaxSize p /\
    LeafPage.GetMaxSize r = leaf_max_size_ /\
    LeafPage.GetNextPageId l = new_page_id /\
    leaf_merge l r (LeafPage.GetSize r + LeafPage.GetSize l) = Ok m /\
    LeafPage.GetSize m = LeafPage.GetSize p /\
    leaf_slots m = leaf_slots p.
Proof.
  unfold LeafPage.GetSize, LeafPage.GetMaxSize, LeafPage.GetNextPageId. intros Hm Hfit.
  destruct (leaf_split_spec leaf_max_size_ p new_page_id Hm Hfit)
    as (l & r & Hrun & Hsl & Hml & Hnl & Hslots_l & Hsr & Hmr & Hnr & Hslots_r).
  destruct (leaf_merge_spec l r ltac:(lia) ltac:(unfold LeafPage.GetSize in *; lia)
              ltac:(unfold LeafPage.GetSize in *; lia))
    as (m & Hmerge & Hsm & Hmm & Hnm & Hslots_m).
  exists l, r, m. split; [exact Hrun|]. split; [exact Hsl|]. split; [exact Hsr|].
  split; [exact Hslots_l|]. split; [exact Hslots_r|]. split; [exact Hml|].
  split; [exact Hmr|]. split; [exact Hnl|]. split; [exact Hmerge|].
  split; [lia|]. rewrite Hslots_m, Hslots_l, Hslots_r. apply take_drop.
Qed.

Lemma leaf_split_then_merge_witness :
  exists l r m,
    leaf_split 4 {| LeafPage.size_ := 4; LeafPage.max_size_ := 4;
                    LeafPage.next_page_id_ := -1;
                    LeafPage.array_ := [(1, 1); (2, 2); (3, 3); (4, 4)] |} 2 = Ok (l, r) /\
    leaf_slots l = [(1, 1); (2, 2)] /\ leaf_slots r = [(3, 3); (4, 4)] /\
    leaf_merge l r (LeafPage.GetSize r + LeafPage.GetSize l) = Ok m /\
    leaf_slots m = [(1, 1); (2, 2); (3, 3); (4, 4)].
Proof.
  destruct (leaf_split_then_merge 4
              {| LeafPage.size_ := 4; LeafPage.max_size_ := 4; LeafPage.next_page_id_ := -1;
                 LeafPage.array_ := [(1, 1); (2, 2); (3, 3); (4, 4)] |} 2
              ltac:(vm_compute; split; discriminate) ltac:(simpl; config))
    as (l & r & m & H1 & _ & _ & H4 & H5 & _ & _ & _ & H9 & _ & H11).
  exists l, r, m. split; [exact H1|]. split; [exact H4|]. split; [exact H5|].
  split; [exact H9 | exact H11].
Defined.

(** X16. A leaf with a free slot that borrows from a brother gains
    exactly one entry and the brother loses it: from the right brother its first entry, put
    behind the last entry of the leaf, from the left brother its last
    entry, put before the first entry of the leaf. The entries of the two
    pages, read from left to right, are the same before and after. *)
Theorem leaf_borrow_keeps_entries (p b : LeafPage.t) :
  0 <= LeafPage.GetSize p < LEAF_PAGE_SIZE -> 1 <= LeafPage.GetSize b <= LEAF_PAGE_SIZE ->
  (exists p' b',
     leaf_borrow_right p b = Ok (p', b') /\
     LeafPage.GetSize p' = LeafPage.GetSize p + 1 /\
     LeafPage.GetSize b' = LeafPage.GetSize b - 1 /\
     leaf_slots p' = leaf_slots p ++ take 1 (leaf_slots b) /\
     leaf_slots b' = drop 1 (leaf_slots b) /\
     leaf_slots p' ++ leaf_slots b' = leaf_slots p ++ leaf_slots b) /\
  (exists p' b',
     leaf_borrow_left p b = Ok (p', b') /\
     LeafPage.GetSize p' = LeafPage.GetSize p + 1 /\
     LeafPage.GetSize b' = LeafPage.GetSize b - 1 /\
     leaf_slots b' = take (Z.to_nat (LeafPage.GetSize b - 1)) (leaf_slots b) /\
     leaf_slots p' = drop (Z.to_nat (LeafPage.GetSize b - 1)) (leaf_slots b) ++ leaf_slots p /\
     leaf_slots b' ++ leaf_slots p' = leaf_slots b ++ leaf_slots p).
Proof.
  unfold LeafPage.GetSize. intros Hp Hb. split.
  - destruct (leaf_borrow_right_spec p b Hp Hb)
      as (p' & b' & Hrun & Hs & _ & _ & Hsl & Hsb & _ & _ & Hslb).
    exists p', b'. split; [exact Hrun|]. split; [exact Hs|]. split; [exact Hsb|].
    split; [exact Hsl|]. split; [exact Hslb|].
    rewrite Hsl, Hslb, <- app_assoc, take_drop. reflexivity.
  - destruct (leaf_borrow_left_spec p b Hp Hb)
      as (p' & b' & Hrun & Hs & _ & _ & Hsl & Hsb & _ & _ & Hslb).
    exists p', b'. split; [exact Hrun|]. split; [exact Hs|]. split; [exact Hsb|].
    split; [exact Hslb|]. split; [exact Hsl|].
    rewrite Hsl, Hslb, app_assoc, take_drop. reflexivity.
Qed.

Lemma leaf_borrow_keeps_entries_witness :
  (exists p' b',
     leaf_borrow_right
       {| LeafPage.size_ := 1; LeafPage.max_size_ := 4; LeafPage.next_page_id_ := 2;
          LeafPage.array_ := [(1, 1)] |}
       {| LeafPage.size_ := 3; LeafPage.max_size_ := 4; LeafPage.next_page_id_ := -1;
          LeafPage.array_ := [(5, 5); (6, 6); (7, 7)] |} = Ok (p', b') /\
     leaf_slots p' = [(1, 1); (5, 5)] /\ leaf_slots b' = [(6, 6); (7, 7)]) /\
  (exists p' b',
     leaf_borrow_left
       {| LeafPage.size_ := 1; LeafPage.max_size_ := 4; LeafPage.next_page_id_ := 2;
          LeafPage.array_ := [(9, 9)] |}
       {| LeafPage.size_ := 3; LeafPage.max_size_ := 4; LeafPage.next_page_id_ := -1;
          LeafPage.array_ := [(5, 5); (6, 6); (7, 7)] |} = Ok (p', b') /\
     leaf_slots b' = [(5, 5); (6, 6)] /\ leaf_slots p' = [(7, 7); (9, 9)]).
Proof.
  split.
  - destruct (proj1 (leaf_borrow_keeps_entries
        {| LeafPage.size_ := 1; LeafPage.max_size_ := 4; LeafPage.next_page_id_ := 2;
           LeafPage.array_ := [(1, 1)] |}
        {| LeafPage.size_ := 3; LeafPage.max_size_ := 4; LeafPage.next_page_id_ := -1;
           LeafPage.array_ := [(5, 5); (6, 6); (7, 7)] |}
        ltac:(simpl; config) ltac:(simpl; config)))
      as (p' & b' & H1 & _ & _ & H4 & H5 & _).
    exists p', b'. split; [exact H1|]. split; [exact H4 | exact H5].
  - destruct (proj2 (leaf_borrow_keeps_entries
        {| LeafPage.size_ := 1; LeafPage.max_size_ := 4; LeafPage.next_page_id_ := 2;
           LeafPage.array_ := [(9, 9)] |}
        {| LeafPage.size_ := 3; LeafPage.max_size_ := 4; LeafPage.next_page_id_ := -1;
           LeafPage.array_ := [(5, 5); (6, 6); (7, 7)] |}
        ltac:(simpl; config) ltac:(simpl; config)))
      as (p' & b' & H1 & _ & _ & H4 & H5 & _).
    exists p', b'. split; [exact H1|]. split; [exact H4 | exact H5].
Defined.

(** X17. In an internal page with at least one slot and a free one, the
    insertion of a
    key and child by [InsertIntoParent] puts the new slot right behind the
    slot that [BinaryFind] returns for the key, with the slots before it in
    place and the later ones moved up by one; [RemoveFromParent] of that
    slot index gives back the slots and the size the page had. *)
Theorem internal_insert_then_remove (p : InternalPage.t) (key new_child_id : Z) :
  1 <= InternalPage.GetSize p < INTERNAL_PAGE_SIZE ->
  exists r p' p'',
    BinaryFind_internal p key = Ok r /\
    internal_insert p key new_child_id = Ok p' /\
    InternalPage.GetSize p' = InternalPage.GetSize p + 1 /\
    internal_slots p'
    = take (Z.to_nat (r + 1)) (internal_slots p)
      ++ (key, new_child_id) :: drop (Z.to_nat (r + 1)) (internal_slots p) /\
    internal_remove_at p' (r + 1) = Ok p'' /\
    InternalPage.GetSize p'' = InternalPage.GetSize p /\
    internal_slots p'' = internal_slots p.
Proof.
  unfold InternalPage.GetSize. intros Hs.
  destruct (internal_insert_spec p key new_child_id Hs) as (r & p' & Hr & Hins & Hs' & _ & Hsl').
  destruct (BinaryFind_internal_spec p key ltac:(lia)) as (r0 & Hr0 & Hge & Hlt & _).
  assert (r0 = r) as -> by congruence.
  destruct (internal_remove_at_spec p' (r + 1) ltac:(lia) ltac:(lia))
    as (p'' & Hrem & Hs'' & _ & Hsl'').
  exists r, p', p''. split; [exact Hr|]. split; [exact Hins|]. split; [exact Hs'|].
  split; [exact Hsl'|]. split; [exact Hrem|]. split; [lia|].
  rewrite Hsl'', Hsl'. unfold insert_slot.
  replace (Z.to_nat (r + 1 + 1)) with (S (Z.to_nat (r + 1))) by lia.
  apply delete_inserted. rewrite length_internal_slots. lia.
Qed.

Lemma internal_insert_then_remove_witness :
  exists r p' p'',
    BinaryFind_internal {| InternalPage.size_ := 2; InternalPage.max_size_ := 4;
                           InternalPage.array_ := [(0, 1); (30, 3)] |} 20 = Ok r /\
    internal_insert {| InternalPage.size_ := 2; InternalPage.max_size_ := 4;
                       InternalPage.array_ := [(0, 1); (30, 3)] |} 20 2 = Ok p' /\
    internal_slots p' = [(0, 1); (20, 2); (30, 3)] /\
    internal_remove_at p' (r + 1) = Ok p'' /\
    internal_slots p'' = [(0, 1); (30, 3)].
Proof.
  destruct (internal_insert_then_remove
              {| InternalPage.size_ := 2; InternalPage.max_size_ := 4;
                 InternalPage.array_ := [(0, 1); (30, 3)] |} 20 2 ltac:(simpl; config))
    as (r & p' & p'' & H1 & H2 & _ & H4 & H5 & _ & H7).
  exists r, p', p''. split; [exact H1|]. split; [exact H2|].
  assert (r = 0) as -> by (vm_compute in H1; congruence).
  split; [exact H4|]. split; [exact H5 | exact H7].
Defined.

(** X18. The merge and the two borrows of [RemoveFromParent] keep the
    slots of the two internal pages, read from left to right, as they are:
    the merge, when the slots of both fit one page, appends the slots of
    the right page to those of the left one; a borrow, when the page has a
    free slot, moves one slot across, the first slot of the right brother
    or the last slot of the left brother. *)
Theorem internal_rebalance_keeps_slots (p b : InternalPage.t) :
  0 <= InternalPage.GetSize p -> 1 <= InternalPage.GetSize b ->
  (InternalPage.GetSize p + InternalPage.GetSize b <= INTERNAL_PAGE_SIZE ->
   exists m,
     internal_merge p b (InternalPage.GetSize b + InternalPage.GetSize p) = Ok m /\
     InternalPage.GetSize m = InternalPage.GetSize p + InternalPage.GetSize b /\
     internal_slots m = internal_slots p ++ internal_slots b) /\
  (InternalPage.GetSize p < INTERNAL_PAGE_SIZE -> InternalPage.GetSize b <= INTERNAL_PAGE_SIZE ->
   (exists p' b',
      internal_borrow_right p b = Ok (p', b') /\
      InternalPage.GetSize p' = InternalPage.GetSize p + 1 /\
      InternalPage.GetSize b' = InternalPage.GetSize b - 1 /\
      internal_slots p' = internal_slots p ++ take 1 (internal_slots b) /\
      internal_slots b' = drop 1 (internal_slots b) /\
      internal_slots p' ++ internal_slots b' = internal_slots p ++ internal_slots b) /\
   (exists p' b',
      internal_borrow_left p b = Ok (p', b') /\
      InternalPage.GetSize p' = InternalPage.GetSize p + 1 /\
      InternalPage.GetSize b' = InternalPage.GetSize b - 1 /\
      internal_slots b' = take (Z.to_nat (InternalPage.GetSize b - 1)) (internal_slots b) /\
      internal_slots p'
      = drop (Z.to_nat (InternalPage.GetSize b - 1)) (internal_slots b) ++ internal_slots p /\
      internal_slots b' ++ internal_slots p' = internal_slots b ++ internal_slots p)).
Proof.
  unfold InternalPage.GetSize. intros Hp Hb. split; [|intros Hfp Hfb; split].
  - intros Hfit.
    destruct (internal_merge_spec p b Hp ltac:(lia) Hfit) as (m & Hrun & Hs & _ & Hsl).
    exists m. split; [exact Hrun|]. split; [exact Hs | exact Hsl].
  - destruct (internal_borrow_right_spec p b ltac:(lia) ltac:(lia))
      as (p' & b' & Hrun & Hs & _ & Hsl & Hsb & _ & Hslb).
    exists p', b'. split; [exact Hrun|]. split; [exact Hs|]. split; [exact Hsb|].
    split; [exact Hsl|]. split; [exact Hslb|].
    rewrite Hsl, Hslb, <- app_assoc, take_drop. reflexivity.
  - destruct (internal_borrow_left_spec p b ltac:(lia) ltac:(lia))
      as (p' & b' & Hrun & Hs & _ & Hsl & Hsb & _ & Hslb).
    exists p', b'. split; [exact Hrun|]. split; [exact Hs|]. split; [exact Hsb|].
    split; [exact Hslb|]. split; [exact Hsl|].
    rewrite Hsl, Hslb, app_assoc, take_drop. reflexivity.
Qed.

Lemma internal_rebalance_keeps_slots_witness :
  let p := {| InternalPage.size_ := 1; InternalPage.max_size_ := 4;
              InternalPage.array_ := [(0, 1)] |} in
  let b := {| InternalPage.size_ := 3; InternalPage.max_size_ := 4;
              InternalPage.array_ := [(5, 2); (7, 3); (9, 4)] |} in
  (exists m, internal_merge p b (3 + 1) = Ok m /\
     internal_slots m = [(0, 1); (5, 2); (7, 3); (9, 4)]) /\
  (exists p' b', internal_borrow_right p b = Ok (p', b') /\
     internal_slots p' = [(0, 1); (5, 2)] /\ internal_slots b' = [(7, 3); (9, 4)]) /\
  (exists p' b', internal_borrow_left p b = Ok (p', b') /\
     internal_slots b' = [(5, 2); (7, 3)] /\ internal_slots p' = [(9, 4); (0, 1)]).
Proof.
  intros p b.
  destruct (internal_rebalance_keeps_slots p b ltac:(simpl; lia) ltac:(simpl; lia))
    as [Hmerge Hborrow].
  destruct (Hmerge ltac:(simpl; config)) as (m & H1 & _ & H3).
  destruct (Hborrow ltac:(simpl; config) ltac:(simpl; config))
    as [(p1 & b1 & R1 & _ & _ & R4 & R5 & _) (p2 & b2 & L1 & _ & _ & L4 & L5 & _)].
  split; [exists m; split; [exact H1 | exact H3]|].
  split; [exists p1, b1; split; [exact R1|]; split; [exact R4 | exact R5]|].
  exists p2, b2. split; [exact L1|]. split; [exact L4 | exact L5].
Defined.

(** ** The shape of the tree *)

(** The page [id], at [d] steps below the root page. *)
Inductive at_depth (s : BufferPool) : page_id_t -> nat -> Prop :=
  | at_depth_root :
      header_root_page_id_ s <> INVALID_PAGE_ID -> at_depth s (header_root_page_id_ s) 0
  | at_depth_child (id : page_id_t) (d : nat) (P : InternalPage.t) (i : Z) (child : page_id_t) :
      at_depth s id d -> pages_ s !! id = Some (Internal P) ->
      0 <= i < InternalPage.GetSize P -> InternalPage.ValueAt P i = Ok child ->
      at_depth s child (S d).

(** The key [k] is in a leaf at or below the page [id]. *)
Inductive holds (s : BufferPool) : page_id_t -> Z -> Prop :=
  | holds_leaf (id : page_id_t) (p : LeafPage.t) (i k : Z) :
      pages_ s !! id = Some (Leaf p) ->
      0 <= i < LeafPage.GetSize p -> LeafPage.KeyAt p i = Ok k ->
      holds s id k
  | holds_child (id : page_id_t) (P : InternalPage.t) (i : Z) (child : page_id_t) (k : Z) :
      pages_ s !! id = Some (Internal P) ->
      0 <= i < InternalPage.GetSize P -> InternalPage.ValueAt P i = Ok child ->
      holds s child k ->
      holds s id k.

Lemma LeafPage_KeyAt_inv (p : LeafPage.t) (i k : Z) :
  LeafPage.KeyAt p i = Ok k -> k = fst (get (LeafPage.array_ p) i).
Proof.
  unfold LeafPage.KeyAt. intros H. apply bind_Ok in H as (x & Hx & H).
  apply array_get_inv in Hx as [_ ->]. congruence.
Qed.

Lemma LeafPage_ValueAt_inv (p : LeafPage.t) (i v : Z) :
  LeafPage.ValueAt p i = Ok v -> v = snd (get (LeafPage.array_ p) i).
Proof.
  unfold LeafPage.ValueAt. intros H. apply bind_Ok in H as (x & Hx & H).
  apply array_get_inv in Hx as [_ ->]. congruence.
Qed.

Lemma InternalPage_KeyAt_inv (p : InternalPage.t) (i k : Z) :
  InternalPage.KeyAt p i = Ok k -> k = fst (get (InternalPage.array_ p) i).
Proof.
  unfold InternalPage.KeyAt. intros H. apply bind_Ok in H as (x & Hx & H).
  apply array_get_inv in Hx as [_ ->]. congruence.
Qed.

Lemma InternalPage_ValueAt_inv (p : InternalPage.t) (i v : Z) :
  InternalPage.ValueAt p i = Ok v -> v = snd (get (InternalPage.array_ p) i).
Proof.
  unfold InternalPage.ValueAt. intros H. apply bind_Ok in H as (x & Hx & H).
  apply array_get_inv in Hx as [_ ->]. congruence.
Qed.

Section Shape.

Variable leaf_max_size_ : Z.
Variable internal_max_size_ : Z.

Local Abbreviation good := (good leaf_max_size_ internal_max_size_).
Local Abbreviation rep := (rep leaf_max_size_ internal_max_size_).
Local Abbreviation Inv := (Inv leaf_max_size_ internal_max_size_).

(** The slot [i] of the page of a node, and the child behind it. *)
Lemma node_page_slot (m : gmap Z Page) (h : nat) (id : Z) (sl : list (Z * tree))
    (P : InternalPage.t) (i : Z) :
  rep m (S h) (TNode id sl) -> m !! id = Some (Internal P) ->
  0 <= i < InternalPage.GetSize P ->
  exists kc, sl !! Z.to_nat i = Some kc /\
    get (InternalPage.array_ P) i = slot_of kc /\
    rep m h (snd kc).
Proof.
  intros (P' & Hp' & _ & Hs & Hsl & Hch) Hp Hi.
  assert (P' = P) as -> by congruence.
  unfold InternalPage.GetSize in Hi. rewrite Hs in Hi.
  destruct (lookup_lt_is_Some_2 sl (Z.to_nat i) ltac:(lia)) as [kc Hkc].
  exists kc. split; [exact Hkc|].
  pose proof (node_slot P sl (Z.to_nat i) kc Hs Hsl Hkc) as Hg.
  rewrite Z2Nat.id in Hg by lia.
  split; [exact Hg|].
  rewrite Forall_forall in Hch. apply Hch. apply list_elem_of_lookup. eauto.
Qed.

Lemma at_depth_subtree (s : BufferPool) (h : nat) (t : tree) (x : Z) (d : nat) :
  header_root_page_id_ s = tid t -> rep (pages_ s) h t -> good h None None t ->
  at_depth s x d ->
  exists h' lo' hi' t', h = (d + h')%nat /\
    tid t' = x /\ rep (pages_ s) h' t' /\ good h' lo' hi' t' /\
    (forall kv, kv ∈ t_kvs t' -> kv ∈ t_kvs t).
Proof.
  intros Hroot Hrep Hgood Hin.
  induction Hin as [_|id d P i child _ IH Hp Hi Hval].
  - exists h, None, None, t. split; [reflexivity|]. split; [symmetry; exact Hroot|].
    split; [assumption|]. split; [assumption|]. tauto.
  - destruct IH as (h' & lo' & hi' & t' & Hh & Htid & Hrep' & Hgood' & Hsub).
    rewrite <- Htid in Hp.
    destruct (rep_internal_inv _ _ _ _ _ _ Hrep' Hp) as (h'' & sl & -> & Et & _).
    rewrite Et in Hrep', Hgood', Hsub.
    destruct (node_page_slot _ _ _ _ _ _ Hrep' Hp Hi) as (kc & Hkc & Hg & Hrc).
    apply InternalPage_ValueAt_inv in Hval. rewrite Hg in Hval. simpl in Hval. subst child.
    destruct Hgood' as (_ & Hchain & _).
    destruct (chain_lookup _ _ _ _ _ _ Hchain Hkc) as (lo'' & hi'' & Hgc).
    exists h'', lo'', hi'', (snd kc). split; [lia|]. split; [reflexivity|].
    split; [exact Hrc|]. split; [exact Hgc|].
    intros kv Hkv. apply Hsub. simpl. apply list_elem_of_In, in_flat_map. exists kc.
    split; apply list_elem_of_In; [apply list_elem_of_lookup; eauto | exact Hkv].
Qed.

Lemma in_tree_at_depth (s : BufferPool) (x : Z) : in_tree s x -> exists d, at_depth s x d.
Proof.
  induction 1 as [Hne|id P i child _ [d IH] Hp Hi Hval].
  - exists 0%nat. apply at_depth_root. exact Hne.
  - exists (S d). eapply at_depth_child; eassumption.
Qed.

Lemma holds_kvs (s : BufferPool) (id k : Z) :
  holds s id k ->
  forall h t, tid t = id -> rep (pages_ s) h t -> k ∈ (t_kvs t).*1.
Proof.
  induction 1 as [id p i k Hp Hi Hk|id P i child k Hp Hi Hval _ IH]; intros h t Htid Hrep.
  - rewrite <- Htid in Hp.
    destruct (rep_leaf_inv _ _ _ _ _ _ Hrep Hp) as (_ & kvs & -> & _ & Hs & Hsl).
    unfold LeafPage.GetSize in Hi. rewrite Hs in Hi.
    destruct (lookup_lt_is_Some_2 kvs (Z.to_nat i) ltac:(lia)) as [kv Hkv].
    pose proof (leaf_slot p kvs (Z.to_nat i) kv Hs Hsl Hkv) as Hg.
    rewrite Z2Nat.id in Hg by lia.
    apply LeafPage_KeyAt_inv in Hk. rewrite Hg in Hk. subst k.
    simpl. apply list_elem_of_fmap. exists kv. split; [reflexivity|].
    apply list_elem_of_lookup. eauto.
  - rewrite <- Htid in Hp.
    destruct (rep_internal_inv _ _ _ _ _ _ Hrep Hp) as (h' & sl & -> & Et & _).
    rewrite Et in Hrep |- *.
    destruct (node_page_slot _ _ _ _ _ _ Hrep Hp Hi) as (kc & Hkc & Hg & Hrc).
    apply InternalPage_ValueAt_inv in Hval. rewrite Hg in Hval. simpl in Hval. subst child.
    pose proof (IH h' (snd kc) eq_refl Hrc) as Hin.
    apply list_elem_of_fmap in Hin as (kv & -> & Hin).
    apply list_elem_of_fmap. exists kv. split; [reflexivity|].
    simpl. apply list_elem_of_In, in_flat_map. exists kc.
    split; apply list_elem_of_In; [apply list_elem_of_lookup; eauto | exact Hin].
Qed.

(** Keys of neighbouring slots of a node, from slot 1 on, ascend. *)
Lemma chain_keys_step (h : nat) (lo hi : option Z) (sl : list (Z * tree)) (i : nat)
    (kc kc' : Z * tree) :
  chain (good h) lo hi sl -> (1 <= i)%nat ->
  sl !! i = Some kc -> sl !! S i = Some kc' -> fst kc < fst kc'.
Proof.
  intros Hchain Hi Hkc Hkc'.
  pose proof (take_drop_middle sl i kc Hkc) as E.
  assert (Hd : drop (S i) sl = kc' :: drop (S (S i)) sl).
  { apply drop_S. exact Hkc'. }
  rewrite Hd in E. rewrite <- E in Hchain.
  apply chain_middle in Hchain as (_ & Hg & _).
  assert (Hpre : take i sl <> []).
  { intros Hnil. apply (f_equal length) in Hnil. rewrite length_take in Hnil. simpl in Hnil.
    apply lookup_lt_Some in Hkc. lia. }
  unfold lbound in Hg. destruct (take i sl) eqn:Et; [contradiction|]. simpl in Hg.
  destruct (good_bounds _ _ _ _ _ _ Hg) as (k & [Hlo Hhi] & _). lia.
Qed.

Lemma chain_keys_lt (h : nat) (lo hi : option Z) (sl : list (Z * tree)) (i j : nat)
    (kc kc' : Z * tree) :
  chain (good h) lo hi sl -> (1 <= i < j)%nat ->
  sl !! i = Some kc -> sl !! j = Some kc' -> fst kc < fst kc'.
Proof.
  intros Hchain. revert kc'. induction j as [|j IH]; intros kc' Hij Hkc Hkc'; [lia|].
  destruct (lookup_lt_is_Some_2 sl j ltac:(apply lookup_lt_Some in Hkc'; lia)) as [kj Hkj].
  pose proof (chain_keys_step h lo hi sl j kj kc' Hchain ltac:(lia) Hkj Hkc') as Hstep.
  destruct (decide (i = j)) as [->|Hne].
  - assert (kc = kj) as -> by congruence. exact Hstep.
  - specialize (IH kj ltac:(lia) Hkc Hkj). lia.
Qed.

(** A tree of height [h] holds at least [2 ^ h] entries. *)
Lemma good_population (h : nat) :
  forall lo hi t, good h lo hi t -> 2 ^ Z.of_nat h <= Z.of_nat (length (t_kvs t)).
Proof.
  induction h as [|h IH]; intros lo hi t Hgood.
  - destruct t as [id kvs|id sl]; [|simpl in Hgood; tauto].
    destruct Hgood as [_ Hlen]. simpl. lia.
  - destruct t as [id kvs|id sl]; [simpl in Hgood; tauto|].
    destruct Hgood as (_ & Hchain & Hlen).
    assert (Hall : forall sl' lo' hi', chain (good h) lo' hi' sl' ->
              Z.of_nat (length sl') * 2 ^ Z.of_nat h <= Z.of_nat (length (kvs_of sl'))).
    { clear -IH. induction sl' as [|kc sl' IHs]; intros lo' hi' Hc; [simpl; lia|].
      destruct Hc as [Hg Hc]. specialize (IHs _ _ Hc). specialize (IH _ _ _ Hg).
      unfold kvs_of in *. simpl flat_map. rewrite length_app.
      change (length (kc :: sl')) with (S (length sl')). lia. }
    specialize (Hall sl lo hi Hchain). simpl t_kvs. fold (kvs_of sl).
    rewrite Nat2Z.inj_succ, Z.pow_succ_r by lia.
    assert (0 < 2 ^ Z.of_nat h) by (apply Z.pow_pos_nonneg; lia). nia.
Qed.

Lemma Inv_internal_page (s : BufferPool) (M : gmap Z Z) (id : Z) (P : InternalPage.t) :
  Inv s M -> in_tree s id -> pages_ s !! id = Some (Internal P) ->
  2 <= InternalPage.GetSize P <= internal_max_size_ /\
  InternalPage.GetMaxSize P = internal_max_size_ /\
  (forall i, 0 <= i < InternalPage.GetSize P ->
     exists child page, InternalPage.ValueAt P i = Ok child /\
       pages_ s !! child = Some page) /\
  (forall i j ki kj, 1 <= i < j -> j < InternalPage.GetSize P ->
     InternalPage.KeyAt P i = Ok ki -> InternalPage.KeyAt P j = Ok kj -> ki < kj) /\
  (forall i K child k, 1 <= i < InternalPage.GetSize P ->
     InternalPage.KeyAt P i = Ok K -> InternalPage.ValueAt P i = Ok child ->
     holds s child k -> K <= k) /\
  (forall i K child k, 1 <= i < InternalPage.GetSize P ->
     InternalPage.KeyAt P i = Ok K -> InternalPage.ValueAt P (i - 1) = Ok child ->
     holds s child k -> k < K).
Proof.
  intros [Hpool [[Hroot _]|(h & t & Hroot & Hrep & Hgood & _)]] Hin Hp.
  { exfalso. clear Hp. induction Hin; [contradiction | assumption]. }
  destruct (in_tree_at_depth s id Hin) as [d Hd].
  destruct (at_depth_subtree s h t id d Hroot Hrep Hgood Hd)
    as (h' & lo' & hi' & t' & _ & Htid & Hrep' & Hgood' & _).
  rewrite <- Htid in Hp.
  destruct (rep_internal_inv _ _ _ _ _ _ Hrep' Hp) as (h'' & sl & -> & Et & Hm & Hs & Hsl & Hch).
  rewrite Et in Hrep', Hgood'. destruct Hgood' as (_ & Hchain & Hlen).
  assert (Hslot : forall i, 0 <= i < InternalPage.GetSize P ->
            exists kc, sl !! Z.to_nat i = Some kc /\
              InternalPage.KeyAt P i = Ok (fst kc) /\
              InternalPage.ValueAt P i = Ok (tid (snd kc)) /\
              rep (pages_ s) h'' (snd kc)).
  { intros i Hi. destruct (node_page_slot _ _ _ _ _ _ Hrep' Hp Hi) as (kc & Hkc & Hg & Hrc).
    exists kc. split; [exact Hkc|]. unfold InternalPage.GetSize in Hi.
    rewrite InternalPage_KeyAt_Ok, InternalPage_ValueAt_Ok by lia. rewrite Hg.
    split; [reflexivity|]. split; [reflexivity | exact Hrc]. }
  unfold InternalPage.GetMaxSize. unfold InternalPage.GetSize in *.
  split; [lia|]. split; [exact Hm|]. split; [|split; [|split]].
  - intros i Hi. destruct (Hslot i Hi) as (kc & _ & _ & Hv & Hrc).
    destruct (rep_in_dom _ _ _ _ _ _ Hrc (tid_in_ids _)) as [pc Hpc]. eauto.
  - intros i j ki kj Hij Hj Hki Hkj.
    destruct (Hslot i ltac:(lia)) as (kc & Hkc & Hk & _).
    destruct (Hslot j ltac:(lia)) as (kc' & Hkc' & Hk' & _).
    rewrite Hk in Hki. rewrite Hk' in Hkj. injection Hki as <-. injection Hkj as <-.
    apply (chain_keys_lt h'' lo' hi' sl (Z.to_nat i) (Z.to_nat j) kc kc' Hchain);
      [lia | exact Hkc | exact Hkc'].
  - intros i K child k Hi HK Hval Hholds.
    destruct (Hslot i ltac:(lia)) as (kc & Hkc & Hk & Hv & Hrc).
    rewrite Hk in HK. rewrite Hv in Hval. injection HK as <-. injection Hval as <-.
    pose proof (holds_kvs s _ k Hholds h'' (snd kc) eq_refl Hrc) as Hkin.
    pose proof Hchain as Hc. rewrite <- (take_drop_middle sl _ kc Hkc) in Hc.
    apply chain_middle in Hc as (_ & Hg & _).
    assert (Hpre : take (Z.to_nat i) sl <> []).
    { intros Hnil. apply (f_equal length) in Hnil. rewrite length_take in Hnil. simpl in Hnil.
      lia. }
    unfold lbound in Hg. destruct (take (Z.to_nat i) sl) eqn:Et'; [contradiction|].
    destruct (good_keys _ _ _ _ _ _ Hg) as [[_ Hall] _].
    apply list_elem_of_fmap in Hkin as (kv & -> & Hkv).
    rewrite Forall_forall in Hall. destruct (Hall kv Hkv) as [Hlo _]. exact Hlo.
  - intros i K child k Hi HK Hval Hholds.
    destruct (Hslot i ltac:(lia)) as (kc & Hkc & Hk & _).
    destruct (Hslot (i - 1) ltac:(lia)) as (kc' & Hkc' & _ & Hv' & Hrc').
    rewrite Hk in HK. rewrite Hv' in Hval. injection HK as <-. injection Hval as <-.
    pose proof (holds_kvs s _ k Hholds h'' (snd kc') eq_refl Hrc') as Hkin.
    pose proof Hchain as Hc. rewrite <- (take_drop_middle sl _ kc' Hkc') in Hc.
    assert (Hdr : drop (S (Z.to_nat (i - 1))) sl = kc :: drop (S (S (Z.to_nat (i - 1)))) sl).
    { apply drop_S. rewrite <- Hkc. f_equal. lia. }
    rewrite Hdr in Hc. apply chain_middle in Hc as (_ & Hg & _). simpl next_bound in Hg.
    destruct (good_keys _ _ _ _ _ _ Hg) as [[_ Hall] _].
    apply list_elem_of_fmap in Hkin as (kv & -> & Hkv).
    rewrite Forall_forall in Hall. destruct (Hall kv Hkv) as [_ Hhi]. exact Hhi.
Qed.

Lemma Inv_leaf_page (s : BufferPool) (M : gmap Z Z) (id : Z) (p : LeafPage.t) :
  Inv s M -> in_tree s id -> pages_ s !! id = Some (Leaf p) ->
  (forall i j ki kj, 0 <= i < j -> j < LeafPage.GetSize p ->
     LeafPage.KeyAt p i = Ok ki -> LeafPage.KeyAt p j = Ok kj -> ki < kj) /\
  (forall i k v, 0 <= i < LeafPage.GetSize p ->
     LeafPage.KeyAt p i = Ok k -> LeafPage.ValueAt p i = Ok v -> M !! k = Some v).
Proof.
  intros [Hpool [[Hroot _]|(h & t & Hroot & Hrep & Hgood & Hnd & HM)]] Hin Hp.
  { exfalso. clear Hp. induction Hin; [contradiction | assumption]. }
  destruct (in_tree_at_depth s id Hin) as [d Hd].
  destruct (at_depth_subtree s h t id d Hroot Hrep Hgood Hd)
    as (h' & lo' & hi' & t' & _ & Htid & Hrep' & Hgood' & Hsub).
  rewrite <- Htid in Hp.
  destruct (rep_leaf_inv _ _ _ _ _ _ Hrep' Hp) as (-> & kvs & Et & Hm & Hs & Hsl).
  rewrite Et in Hgood', Hsub. destruct Hgood' as [[Hsort _] Hlen].
  assert (Hslot : forall i, 0 <= i < LeafPage.GetSize p ->
            exists kv, kvs !! Z.to_nat i = Some kv /\
              LeafPage.KeyAt p i = Ok (fst kv) /\ LeafPage.ValueAt p i = Ok (snd kv)).
  { intros i Hi. unfold LeafPage.GetSize in Hi. rewrite Hs in Hi.
    destruct (lookup_lt_is_Some_2 kvs (Z.to_nat i) ltac:(lia)) as [kv Hkv].
    exists kv. split; [exact Hkv|].
    pose proof (leaf_slot p kvs (Z.to_nat i) kv Hs Hsl Hkv) as Hg.
    rewrite Z2Nat.id in Hg by lia.
    rewrite LeafPage_KeyAt_Ok, LeafPage_ValueAt_Ok by lia. rewrite Hg. split; reflexivity. }
  split.
  - intros i j ki kj Hij Hj Hki Hkj.
    destruct (Hslot i ltac:(lia)) as (kv & Hkv & Hk & _).
    destruct (Hslot j ltac:(lia)) as (kv' & Hkv' & Hk' & _).
    rewrite Hk in Hki. rewrite Hk' in Hkj. injection Hki as <-. injection Hkj as <-.
    apply (StronglySorted_lookup_lt (kvs.*1) (Z.to_nat i) (Z.to_nat j)); [exact Hsort | lia | |].
    + rewrite list_lookup_fmap, Hkv. reflexivity.
    + rewrite list_lookup_fmap, Hkv'. reflexivity.
  - intros i k v Hi Hk Hv.
    destruct (Hslot i Hi) as (kv & Hkv & Hk' & Hv').
    rewrite Hk' in Hk. rewrite Hv' in Hv. injection Hk as <-. injection Hv as <-.
    rewrite <- HM. apply elem_of_list_to_map.
    { eapply keys_ord_NoDup. apply (good_keys _ _ _ _ _ _ Hgood). }
    destruct kv as [k v]. apply Hsub. simpl. apply list_elem_of_lookup. eauto.
Qed.

End Shape.

(** The tree with the keys 1 to 4 and leaves of at most three entries: an
    internal root, page 3, over the leaves of the pages 1 and 2. *)
Definition tree_1234 : BufferPool :=
  Eval vm_compute in
    match InsertFromFile 4 4 0 [1; 2; 3; 4] fresh_tree with
    | Ok s => s
    | Err _ => fresh_tree
    end.

Lemma tree_1234_reachable :
  InsertFromFile 4 4 0 [1; 2; 3; 4] fresh_tree = Ok tree_1234 /\ reachable 4 4 0 tree_1234.
Proof.
  assert (H : InsertFromFile 4 4 0 [1; 2; 3; 4] fresh_tree = Ok tree_1234)
    by (vm_compute; reflexivity).
  split; [exact H|].
  exact (reachable_InsertFromFile 4 4 0 [1; 2; 3; 4] fresh_tree tree_1234 (reachable_new 4 4 0) H).
Defined.

Lemma tree_1234_root : in_tree tree_1234 3.
Proof. apply (in_tree_root tree_1234). vm_compute. discriminate. Defined.

(** X10. On a reachable state every internal page of the tree has between
    2 and [internal_max_size] slots and [internal_max_size] as its maximum
    size, and each of its slots names a page that the pool holds. *)
Theorem internal_page_fanout (leaf_max_size_ internal_max_size_ header_page_id_ : Z)
    (s : BufferPool) (id : Z) (P : InternalPage.t) :
  3 <= leaf_max_size_ < LEAF_PAGE_SIZE -> 3 <= internal_max_size_ <= INTERNAL_PAGE_SIZE ->
  reachable leaf_max_size_ internal_max_size_ header_page_id_ s ->
  in_tree s id -> pages_ s !! id = Some (Internal P) ->
  2 <= InternalPage.GetSize P <= internal_max_size_ /\
  InternalPage.GetMaxSize P = internal_max_size_ /\
  forall i, 0 <= i < InternalPage.GetSize P ->
    exists child page, InternalPage.ValueAt P i = Ok child /\ pages_ s !! child = Some page.
Proof.
  intros Hl Hi Hreach Hin Hp.
  destruct (reachable_Inv leaf_max_size_ internal_max_size_ header_page_id_
              ltac:(lia) ltac:(lia) s Hreach) as [M HI].
  destruct (Inv_internal_page leaf_max_size_ internal_max_size_ s M id P HI Hin Hp)
    as (H1 & H2 & H3 & _).
  split; [exact H1|]. split; [exact H2 | exact H3].
Qed.

Lemma internal_page_fanout_witness :
  exists P,
    pages_ tree_1234 !! 3 = Some (Internal P) /\
    2 <= InternalPage.GetSize P <= 4 /\
    InternalPage.GetMaxSize P = 4 /\
    forall i, 0 <= i < InternalPage.GetSize P ->
      exists child page,
        InternalPage.ValueAt P i = Ok child /\ pages_ tree_1234 !! child = Some page.
Proof.
  assert (Hp : exists P, pages_ tree_1234 !! 3 = Some (Internal P)).
  { eexists. vm_compute. reflexivity. }
  destruct Hp as [P Hp]. exists P. split; [exact Hp|].
  apply (internal_page_fanout 4 4 0 tree_1234 3 P);
    [config | config | exact (proj2 tree_1234_reachable) | exact tree_1234_root | exact Hp].
Defined.

(** X11. On a reachable state the keys of every leaf page of the tree
    ascend strictly, every entry of such a leaf is an entry that
    [GetValue] finds, and the keys of every internal page of the tree
    ascend strictly from slot 1 on. *)
Theorem page_keys_ascend (leaf_max_size_ internal_max_size_ header_page_id_ : Z)
    (s : BufferPool) :
  3 <= leaf_max_size_ < LEAF_PAGE_SIZE -> 3 <= internal_max_size_ <= INTERNAL_PAGE_SIZE ->
  reachable leaf_max_size_ internal_max_size_ header_page_id_ s ->
  (forall id p, in_tree s id -> pages_ s !! id = Some (Leaf p) ->
     (forall i j ki kj, 0 <= i < j -> j < LeafPage.GetSize p ->
        LeafPage.KeyAt p i = Ok ki -> LeafPage.KeyAt p j = Ok kj -> ki < kj) /\
     (forall i k v, 0 <= i < LeafPage.GetSize p ->
        LeafPage.KeyAt p i = Ok k -> LeafPage.ValueAt p i = Ok v ->
        GetValue s k [] = Ok (true, [v]))) /\
  (forall id P, in_tree s id -> pages_ s !! id = Some (Internal P) ->
     forall i j ki kj, 1 <= i < j -> j < InternalPage.GetSize P ->
       InternalPage.KeyAt P i = Ok ki -> InternalPage.KeyAt P j = Ok kj -> ki < kj).
Proof.
  intros Hl Hi Hreach.
  destruct (reachable_Inv leaf_max_size_ internal_max_size_ header_page_id_
              ltac:(lia) ltac:(lia) s Hreach) as [M HI].
  split.
  - intros id p Hin Hp.
    destruct (Inv_leaf_page leaf_max_size_ internal_max_size_ s M id p HI Hin Hp) as [H1 H2].
    split; [exact H1|]. intros i k v Hi' Hk Hv.
    apply (stored_iff leaf_max_size_ internal_max_size_ s M k v HI). exact (H2 i k v Hi' Hk Hv).
  - intros id P Hin Hp.
    destruct (Inv_internal_page leaf_max_size_ internal_max_size_ s M id P HI Hin Hp)
      as (_ & _ & _ & H4 & _). exact H4.
Qed.

Lemma page_keys_ascend_witness :
  (exists p k0 k1 k2 v2,
     pages_ tree_10_70 !! 4 = Some (Leaf p) /\ LeafPage.GetSize p = 3 /\
     LeafPage.KeyAt p 0 = Ok k0 /\ LeafPage.KeyAt p 1 = Ok k1 /\ LeafPage.KeyAt p 2 = Ok k2 /\
     LeafPage.ValueAt p 2 = Ok v2 /\
     k0 < k1 /\ k1 < k2 /\ GetValue tree_10_70 k2 [] = Ok (true, [v2])) /\
  (exists P k1 k2,
     pages_ tree_10_70 !! 3 = Some (Internal P) /\ InternalPage.GetSize P = 3 /\
     InternalPage.KeyAt P 1 = Ok k1 /\ InternalPage.KeyAt P 2 = Ok k2 /\ k1 < k2).
Proof.
  destruct (page_keys_ascend 4 4 0 tree_10_70 ltac:(config) ltac:(config)
              (proj2 tree_10_70_reachable)) as [Hleaf Hinternal].
  split.
  - assert (Hp : exists p k0 k1 k2 v2,
              pages_ tree_10_70 !! 4 = Some (Leaf p) /\ LeafPage.GetSize p = 3 /\
              LeafPage.KeyAt p 0 = Ok k0 /\ LeafPage.KeyAt p 1 = Ok k1 /\
              LeafPage.KeyAt p 2 = Ok k2 /\ LeafPage.ValueAt p 2 = Ok v2).
    { eexists _, _, _, _, _. split; [vm_compute; reflexivity|]. split; [reflexivity|].
      split; [vm_compute; reflexivity|]. split; [vm_compute; reflexivity|].
      split; vm_compute; reflexivity. }
    destruct Hp as (p & k0 & k1 & k2 & v2 & Hp & Hs & H0 & H1 & H2 & Hv).
    destruct (Hleaf 4 p (tree_10_70_leaf 2 4 eq_refl eq_refl) Hp) as [Hsort Hfound].
    exists p, k0, k1, k2, v2. split; [exact Hp|]. split; [exact Hs|].
    split; [exact H0|]. split; [exact H1|]. split; [exact H2|]. split; [exact Hv|].
    split; [apply (Hsort 0 1 k0 k1); [lia | lia | exact H0 | exact H1]|].
    split; [apply (Hsort 1 2 k1 k2); [lia | lia | exact H1 | exact H2]|].
    apply (Hfound 2 k2 v2); [lia | exact H2 | exact Hv].
  - assert (HP : exists P k1 k2,
              pages_ tree_10_70 !! 3 = Some (Internal P) /\ InternalPage.GetSize P = 3 /\
              InternalPage.KeyAt P 1 = Ok k1 /\ InternalPage.KeyAt P 2 = Ok k2).
    { eexists _, _, _. split; [vm_compute; reflexivity|]. split; [reflexivity|].
      split; vm_compute; reflexivity. }
    destruct HP as (P & k1 & k2 & HP & Hs & H1 & H2).
    exists P, k1, k2. split; [exact HP|]. split; [exact Hs|].
    split; [exact H1|]. split; [exact H2|].
    apply (Hinternal 3 P tree_10_70_root HP 1 2 k1 k2); [lia | lia | exact H1 | exact H2].
Defined.

(** X12. On a reachable state the key of a slot of an internal page of the
    tree, from slot 1 on, separates the keys below its two neighbours: a
    key in a leaf at or below the child of that slot is at least the key
    of the slot, and a key in a leaf at or below the child of the slot
    before is less. *)
Theorem separator_keys (leaf_max_size_ internal_max_size_ header_page_id_ : Z)
    (s : BufferPool) (id : Z) (P : InternalPage.t) (i K : Z) :
  3 <= leaf_max_size_ < LEAF_PAGE_SIZE -> 3 <= internal_max_size_ <= INTERNAL_PAGE_SIZE ->
  reachable leaf_max_size_ internal_max_size_ header_page_id_ s ->
  in_tree s id -> pages_ s !! id = Some (Internal P) ->
  1 <= i < InternalPage.GetSize P -> InternalPage.KeyAt P i = Ok K ->
  (forall child k, InternalPage.ValueAt P i = Ok child -> holds s child k -> K <= k) /\
  (forall child k, InternalPage.ValueAt P (i - 1) = Ok child -> holds s child k -> k < K).
Proof.
  intros Hl Hi Hreach Hin Hp Hi' HK.
  destruct (reachable_Inv leaf_max_size_ internal_max_size_ header_page_id_
              ltac:(lia) ltac:(lia) s Hreach) as [M HI].
  destruct (Inv_internal_page leaf_max_size_ internal_max_size_ s M id P HI Hin Hp)
    as (_ & _ & _ & _ & H5 & H6).
  split.
  - intros child k Hv Hh. exact (H5 i K child k Hi' HK Hv Hh).
  - intros child k Hv Hh. exact (H6 i K child k Hi' HK Hv Hh).
Qed.

Lemma separator_keys_witness :
  exists P,
    pages_ tree_1234 !! 3 = Some (Internal P) /\ InternalPage.KeyAt P 1 = Ok 3 /\
    (forall child k, InternalPage.ValueAt P 1 = Ok child -> holds tree_1234 child k -> 3 <= k) /\
    (forall child k,
       InternalPage.ValueAt P (1 - 1) = Ok child -> holds tree_1234 child k -> k < 3).
Proof.
  assert (Hp : exists P, pages_ tree_1234 !! 3 = Some (Internal P) /\
                 1 <= 1 < InternalPage.GetSize P /\ InternalPage.KeyAt P 1 = Ok 3).
  { eexists. split; [vm_compute; reflexivity|].
    split; [vm_compute; split; [discriminate | reflexivity]|]. vm_compute. reflexivity. }
  destruct Hp as (P & Hp & Hi & HK). exists P.
  split; [exact Hp|]. split; [exact HK|].
  apply (separator_keys 4 4 0 tree_1234 3 P 1 3);
    [config | config | exact (proj2 tree_1234_reachable) | exact tree_1234_root
    | exact Hp | exact Hi | exact HK].
Defined.

(** X13. On a reachable state that is not empty all leaves of the tree are
    at one depth [h] below the root and every page above that depth is an
    internal page; and the tree stores at least [2 ^ h] keys. *)
Theorem balanced_height (leaf_max_size_ internal_max_size_ header_page_id_ : Z)
    (s : BufferPool) :
  3 <= leaf_max_size_ < LEAF_PAGE_SIZE -> 3 <= internal_max_size_ <= INTERNAL_PAGE_SIZE ->
  reachable leaf_max_size_ internal_max_size_ header_page_id_ s ->
  IsEmpty s = false ->
  exists (h : nat) (keys : list Z),
    (forall id d page, at_depth s id d -> pages_ s !! id = Some page ->
       (d <= h)%nat /\ (IsLeafPage page = true <-> d = h)) /\
    NoDup keys /\ 2 ^ Z.of_nat h <= Z.of_nat (length keys) /\
    forall k, k ∈ keys -> exists v, GetValue s k [] = Ok (true, [v]).
Proof.
  intros Hl Hi Hreach He. unfold IsEmpty in He. apply Z.eqb_neq in He.
  destruct (reachable_Inv leaf_max_size_ internal_max_size_ header_page_id_
              ltac:(lia) ltac:(lia) s Hreach) as [M HI].
  pose proof HI as [Hpool [[Hroot _]|(h & t & Hroot & Hrep & Hgood & Hnd & HM)]];
    [contradiction|].
  assert (HndM : NoDup ((t_kvs t).*1)).
  { eapply keys_ord_NoDup. apply (good_keys _ _ _ _ _ _ Hgood). }
  exists h, ((t_kvs t).*1). split; [|split; [exact HndM|split]].
  - intros id d page Hd Hpage.
    destruct (at_depth_subtree leaf_max_size_ internal_max_size_ s h t id d Hroot Hrep Hgood Hd)
      as (h' & lo' & hi' & t' & Hh & Htid & Hrep' & _).
    split; [lia|]. rewrite <- Htid in Hpage. destruct page as [p|P]; simpl.
    + destruct (rep_leaf_inv _ _ _ _ _ _ Hrep' Hpage) as (-> & _). split; [lia | reflexivity].
    + destruct (rep_internal_inv _ _ _ _ _ _ Hrep' Hpage) as (h'' & sl & -> & _).
      split; [discriminate | lia].
  - rewrite length_fmap. apply (good_population leaf_max_size_ internal_max_size_ h _ _ _ Hgood).
  - intros k Hk. apply list_elem_of_fmap in Hk as ([k' v] & -> & Hkv). exists v.
    apply (stored_iff leaf_max_size_ internal_max_size_ s M _ _ HI).
    rewrite <- HM. apply elem_of_list_to_map; [exact HndM | exact Hkv].
Qed.

Lemma balanced_height_witness :
  exists (h : nat) (keys : list Z),
    (forall id d page, at_depth tree_1234 id d -> pages_ tree_1234 !! id = Some page ->
       (d <= h)%nat /\ (IsLeafPage page = true <-> d = h)) /\
    NoDup keys /\ 2 ^ Z.of_nat h <= Z.of_nat (length keys) /\
    forall k, k ∈ keys -> exists v, GetValue tree_1234 k [] = Ok (true, [v]).
Proof.
  apply (balanced_height 4 4 0 tree_1234); [config | config | exact (proj2 tree_1234_reachable)|].
  vm_compute. reflexivity.
Defined.

(** ** Keys in the leaves and keys found *)

Section Found.

Variable leaf_max_size_ : Z.
Variable internal_max_size_ : Z.

Local Abbreviation good := (good leaf_max_size_ internal_max_size_).
Local Abbreviation rep := (rep leaf_max_size_ internal_max_size_).
Local Abbreviation Inv := (Inv leaf_max_size_ internal_max_size_).

Lemma kvs_holds (s : BufferPool) (h : nat) :
  forall lo hi t kv,
    rep (pages_ s) h t -> good h lo hi t -> kv ∈ t_kvs t -> holds s (tid t) (fst kv).
Proof.
  induction h as [|h IH]; intros lo hi t kv Hrep Hgood Hkv.
  - destruct t as [id kvs|id sl]; [|simpl in Hrep; tauto].
    destruct Hrep as (p & Hp & _ & Hs & Hsl). destruct Hgood as [_ Hlen]. simpl in Hkv.
    apply list_elem_of_lookup in Hkv as [i Hi].
    pose proof (leaf_slot p kvs i kv Hs Hsl Hi) as Hg.
    apply lookup_lt_Some in Hi.
    apply (holds_leaf s id p (Z.of_nat i) (fst kv) Hp).
    + unfold LeafPage.GetSize. lia.
    + rewrite LeafPage_KeyAt_Ok by lia. rewrite Hg. reflexivity.
  - destruct t as [id kvs|id sl]; [simpl in Hrep; tauto|].
    pose proof Hrep as (P & Hp & _ & Hs & _). destruct Hgood as (_ & Hchain & Hlen).
    simpl in Hkv. apply list_elem_of_In, in_flat_map in Hkv as (kc & Hkc & Hkv).
    apply list_elem_of_In in Hkc, Hkv. apply list_elem_of_lookup in Hkc as [i Hi].
    assert (Hrange : 0 <= Z.of_nat i < InternalPage.GetSize P).
    { apply lookup_lt_Some in Hi. unfold InternalPage.GetSize. lia. }
    destruct (node_page_slot leaf_max_size_ internal_max_size_ _ _ _ _ _ _ Hrep Hp Hrange)
      as (kc' & Hkc' & Hg & Hrc).
    rewrite Nat2Z.id, Hi in Hkc'. injection Hkc' as <-.
    destruct (chain_lookup _ _ _ _ _ _ Hchain Hi) as (lo' & hi' & Hgc).
    apply (holds_child s id P (Z.of_nat i) (tid (snd kc)) (fst kv) Hp Hrange).
    + unfold InternalPage.GetSize in Hrange.
      rewrite InternalPage_ValueAt_Ok by lia. rewrite Hg. reflexivity.
    + apply (IH lo' hi'); assumption.
Qed.

Lemma ids_in_tree (s : BufferPool) (h : nat) :
  forall lo hi t x,
    in_tree s (tid t) -> rep (pages_ s) h t -> good h lo hi t -> x ∈ ids t -> in_tree s x.
Proof.
  induction h as [|h IH]; intros lo hi t x Hroot Hrep Hgood Hx.
  - destruct t as [id kvs|id sl]; [|simpl in Hrep; tauto].
    simpl in Hx. apply list_elem_of_singleton in Hx as ->. exact Hroot.
  - destruct t as [id kvs|id sl]; [simpl in Hrep; tauto|].
    pose proof Hrep as (P & Hp & _ & Hs & _). destruct Hgood as (_ & Hchain & Hlen).
    simpl in Hx. apply elem_of_cons in Hx as [->|Hx]; [exact Hroot|].
    apply list_elem_of_In, in_flat_map in Hx as (kc & Hkc & Hx).
    apply list_elem_of_In in Hkc, Hx. apply list_elem_of_lookup in Hkc as [i Hi].
    assert (Hrange : 0 <= Z.of_nat i < InternalPage.GetSize P).
    { apply lookup_lt_Some in Hi. unfold InternalPage.GetSize. lia. }
    destruct (node_page_slot leaf_max_size_ internal_max_size_ _ _ _ _ _ _ Hrep Hp Hrange)
      as (kc' & Hkc' & Hg & Hrc).
    rewrite Nat2Z.id, Hi in Hkc'. injection Hkc' as <-.
    destruct (chain_lookup _ _ _ _ _ _ Hchain Hi) as (lo' & hi' & Hgc).
    apply (IH lo' hi' (snd kc) x); [|exact Hrc | exact Hgc | exact Hx].
    apply (in_tree_child s id P (Z.of_nat i) (tid (snd kc)) Hroot Hp Hrange).
    unfold InternalPage.GetSize in Hrange.
    rewrite InternalPage_ValueAt_Ok by lia. rewrite Hg. reflexivity.
Qed.

Lemma Inv_holds_iff (s : BufferPool) (M : gmap Z Z) (k : Z) :
  Inv s M -> (holds s (header_root_page_id_ s) k <-> is_Some (M !! k)).
Proof.
  intros [Hpool [[Hroot ->]|(h & t & Hroot & Hrep & Hgood & Hnd & HM)]].
  - rewrite lookup_empty. split; [|intros [? ?]; discriminate].
    intros Hh. exfalso. rewrite Hroot in Hh.
    assert (Hp : exists pg, pages_ s !! INVALID_PAGE_ID = Some pg).
    { inversion Hh; eauto. }
    destruct Hp as [pg Hp]. destruct Hpool as [_ Hpool]. specialize (Hpool _ _ Hp).
    unfold INVALID_PAGE_ID in Hpool. lia.
  - rewrite <- HM. rewrite <- (kvs_lookup leaf_max_size_ internal_max_size_ None None h t k Hgood).
    rewrite Hroot. split.
    + intros Hh. exact (holds_kvs leaf_max_size_ internal_max_size_ s _ k Hh h t eq_refl Hrep).
    + intros Hin. apply list_elem_of_fmap in Hin as (kv & -> & Hkv).
      apply (kvs_holds s h None None t kv Hrep Hgood Hkv).
Qed.

End Found.

(** X23. On a reachable state [GetValue] finds exactly the keys that are
    in the leaves of the tree: a key is found if and only if it is the key
    of a slot of a leaf page that the slots of the internal pages lead to
    from the root. The routing by the keys of the internal pages misses no
    key of a leaf. *)
Theorem found_iff_in_a_leaf (leaf_max_size_ internal_max_size_ header_page_id_ : Z)
    (s : BufferPool) (k : Z) :
  3 <= leaf_max_size_ < LEAF_PAGE_SIZE -> 3 <= internal_max_size_ <= INTERNAL_PAGE_SIZE ->
  reachable leaf_max_size_ internal_max_size_ header_page_id_ s ->
  (holds s (header_root_page_id_ s) k <-> exists v, GetValue s k [] = Ok (true, [v])).
Proof.
  intros Hl Hi Hreach.
  destruct (reachable_Inv leaf_max_size_ internal_max_size_ header_page_id_
              ltac:(lia) ltac:(lia) s Hreach) as [M HI].
  rewrite (Inv_holds_iff leaf_max_size_ internal_max_size_ s M k HI).
  split.
  - intros [v Hv]. exists v. apply (stored_iff leaf_max_size_ internal_max_size_ s M k v HI).
    exact Hv.
  - intros [v Hv]. apply (stored_iff leaf_max_size_ internal_max_size_ s M k v HI) in Hv. eauto.
Qed.

Lemma found_iff_in_a_leaf_witness :
  holds tree_1234 (header_root_page_id_ tree_1234) 4
  <-> exists v, GetValue tree_1234 4 [] = Ok (true, [v]).
Proof.
  apply (found_iff_in_a_leaf 4 4 0 tree_1234 4); [config | config | exact (proj2 tree_1234_reachable)].
Defined.

(** ** The read guards of a search *)

Lemma FindLeafPage_read_path (leaf_max_size_ internal_max_size_ : Z) (h : nat) :
  forall (fuel : nat) (s : BufferPool) (key : Z) (ctx : Context) (rs : list Z)
         (lo hi : option Z) (t : tree),
  (h <= fuel)%nat -> pool_ok s ->
  rep leaf_max_size_ internal_max_size_ (pages_ s) h t ->
  good leaf_max_size_ internal_max_size_ h lo hi t -> NoDup (ids t) ->
  in_range lo hi key -> read_set_ ctx = rs ++ [tid t] ->
  (forall i id, (rs ++ [tid t]) !! i = Some id -> at_depth s id i) ->
  exists ctx',
    FindLeafPage_read fuel s key ctx = Ok ctx' /\
    (forall i id, read_set_ ctx' !! i = Some id -> at_depth s id i) /\
    (exists idl p, last (read_set_ ctx') = Some idl /\ pages_ s !! idl = Some (Leaf p)) /\
    (exists more, read_set_ ctx' = read_set_ ctx ++ more) /\
    write_set_ ctx' = write_set_ ctx.
Proof.
  induction h as [|h IH]; intros fuel s key ctx rs lo hi t Hfuel Hpool Hrep Hgood Hnd Hkey Hrs Hpath.
  - destruct t as [id kvs|id sl]; [|simpl in Hrep; tauto].
    destruct Hrep as (p & Hp & _).
    assert (Hback : back (read_set_ ctx) = Ok id) by (rewrite Hrs; apply back_snoc).
    exists ctx. split; [|split; [|split; [|split]]].
    + destruct fuel; simpl; rewrite Hback; simpl; rewrite (guarded_page_Ok _ _ _ Hp);
        reflexivity.
    + rewrite Hrs. exact Hpath.
    + exists id, p. split; [|exact Hp]. rewrite Hrs. apply last_snoc.
    + exists []. rewrite app_nil_r. reflexivity.
    + reflexivity.
  - destruct t as [id kvs|id sl]; [simpl in Hrep; tauto|].
    destruct fuel as [|fuel]; [lia|].
    assert (Hne : sl <> []).
    { destruct Hgood as (_ & _ & Hlen). destruct sl; [simpl in Hlen; lia | discriminate]. }
    pose proof Hrep as (P0 & Hp0 & _ & Hs0 & Hsl0 & _).
    destruct (route_spec P0 h lo hi sl key Hs0 ltac:(destruct Hgood as (_ & _ & ?); lia)
                Hsl0 Hne Hkey)
      as (spre & kc & spost & -> & Hroute & Hrange).
    destruct (node_at_intro leaf_max_size_ internal_max_size_ s h lo hi id spre kc spost
                Hpool Hrep Hgood Hnd) as (P & N).
    assert (P0 = P) as -> by (destruct N; congruence).
    destruct (node_child_facts _ _ _ _ _ _ _ _ _ _ _ N)
      as (Hrepc & Hgoodc & Hndc & Hid & Hin & Hdisj & Hval).
    destruct (rep_in_dom _ _ _ _ _ _ Hrepc (tid_in_ids _)) as [pc Hpc].
    assert (Hd : at_depth s id (length rs)).
    { apply Hpath. simpl tid. rewrite lookup_app_r by lia. rewrite Nat.sub_diag. reflexivity. }
    assert (Hdc : at_depth s (tid (snd kc)) (S (length rs))).
    { apply (at_depth_child s id (length rs) P (Z.of_nat (length spre)) _ Hd Hp0); [|exact Hval].
      unfold InternalPage.GetSize. rewrite Hs0, length_app. simpl. lia. }
    destruct (IH fuel s key (set_read_set ctx (read_set_ ctx ++ [tid (snd kc)]))
                (rs ++ [id]) (lbound lo spre kc) (next_bound hi spost) (snd kc)
                ltac:(lia) Hpool Hrepc Hgoodc Hndc Hrange ltac:(simpl; rewrite Hrs; reflexivity))
      as (ctx' & Hrun & Hall & Hlast & [more Hmore] & Hws).
    { intros i x Hix. destruct (decide (i < length (rs ++ [id]))%nat) as [Hlt|Hge].
      - rewrite lookup_app_l in Hix by exact Hlt. apply Hpath. exact Hix.
      - rewrite lookup_app_r in Hix by lia.
        destruct (i - length (rs ++ [id]))%nat eqn:E; [|destruct n; discriminate].
        simpl in Hix. injection Hix as <-.
        replace i with (S (length rs)); [exact Hdc|].
        rewrite length_app in *. simpl in *. lia. }
    exists ctx'. split; [|split; [exact Hall|]; split; [exact Hlast|]; split].
    + rewrite FindLeafPage_read_S.
      replace (back (read_set_ ctx)) with (Ok id : Result Z)
        by (rewrite Hrs; symmetry; apply back_snoc).
      rewrite bind_Ok_l, (guarded_page_Ok _ _ _ Hp0), bind_Ok_l.
      rewrite Hroute, bind_Ok_l, Hval, bind_Ok_l.
      unfold FetchPageRead. rewrite (guarded_page_Ok _ _ _ Hpc), bind_Ok_l.
      exact Hrun.
    + exists (tid (snd kc) :: more). rewrite Hmore. simpl. rewrite <- app_assoc. reflexivity.
    + rewrite Hws. reflexivity.
Qed.

(** X25. On a reachable state with a root, [FindLeafPage] under
    [Operation::Search], started as [GetValue] starts it, ends with the
    whole path in the read set: the root page first, then page after page
    each one level below the one before, a leaf page last. No read guard
    is released on the way down. *)
Theorem FindLeafPage_search_keeps_path
    (leaf_max_size_ internal_max_size_ header_page_id_ : Z) (s : BufferPool) (key : Z) :
  3 <= leaf_max_size_ < LEAF_PAGE_SIZE -> 3 <= internal_max_size_ <= INTERNAL_PAGE_SIZE ->
  reachable leaf_max_size_ internal_max_size_ header_page_id_ s ->
  header_root_page_id_ s <> INVALID_PAGE_ID ->
  exists ctx',
    FindLeafPage (descent_fuel s) s key Search
      {| header_page_ := None; root_page_id_ := header_root_page_id_ s;
         write_set_ := []; read_set_ := [header_root_page_id_ s] |} = Ok ctx' /\
    read_set_ ctx' !! 0%nat = Some (header_root_page_id_ s) /\
    (forall i id, read_set_ ctx' !! i = Some id -> at_depth s id i) /\
    (exists id p, last (read_set_ ctx') = Some id /\ pages_ s !! id = Some (Leaf p)) /\
    write_set_ ctx' = [].
Proof.
  intros Hl Hi Hreach Hne.
  destruct (reachable_Inv leaf_max_size_ internal_max_size_ header_page_id_
              ltac:(lia) ltac:(lia) s Hreach) as [M HI].
  destruct HI as [Hpool [[Hroot _]|(h & t & Hroot & Hrep & Hgood & Hnd & HM)]]; [contradiction|].
  destruct (FindLeafPage_read_path leaf_max_size_ internal_max_size_ h (descent_fuel s) s key
              {| header_page_ := None; root_page_id_ := header_root_page_id_ s;
                 write_set_ := []; read_set_ := [header_root_page_id_ s] |}
              [] None None t
              (descent_fuel_enough _ _ _ _ _ _ _ Hrep Hgood Hnd) Hpool Hrep Hgood Hnd
              (conj I I) ltac:(simpl; rewrite Hroot; reflexivity))
    as (ctx' & Hrun & Hall & Hlast & [more Hmore] & Hws).
  { intros i id Hi'. destruct i as [|i]; [|discriminate]. simpl in Hi'. injection Hi' as <-.
    rewrite <- Hroot. apply at_depth_root. exact Hne. }
  exists ctx'. split; [exact Hrun|]. split; [rewrite Hmore; reflexivity|].
  split; [exact Hall|]. split; [exact Hlast | exact Hws].
Qed.

Lemma FindLeafPage_search_keeps_path_witness :
  exists ctx',
    FindLeafPage (descent_fuel tree_1234) tree_1234 4 Search
      {| header_page_ := None; root_page_id_ := header_root_page_id_ tree_1234;
         write_set_ := []; read_set_ := [header_root_page_id_ tree_1234] |} = Ok ctx' /\
    read_set_ ctx' !! 0%nat = Some (header_root_page_id_ tree_1234) /\
    (forall i id, read_set_ ctx' !! i = Some id -> at_depth tree_1234 id i) /\
    (exists id p, last (read_set_ ctx') = Some id /\ pages_ tree_1234 !! id = Some (Leaf p)) /\
    write_set_ ctx' = [].
Proof.
  apply (FindLeafPage_search_keeps_path 4 4 0 tree_1234 4);
    [config | config | exact (proj2 tree_1234_reachable) | vm_compute; discriminate].
Defined.

(** ** The write guards of a descent *)

(** The write set [ws] is a stretch of the path that starts [d] levels
    below the root: every page in it but the first is not safe for [op],
    and the first one is, unless it is the root. *)
Definition crabbed (s : BufferPool) (op : Operation) (d : nat) (ws : list page_id_t) : Prop :=
  (forall i id, ws !! i = Some id -> at_depth s id (d + i)) /\
  (forall i id page, (0 < i)%nat -> ws !! i = Some id -> pages_ s !! id = Some page ->
     IsSafePage page op false = false) /\
  (d <> 0%nat -> forall id page, ws !! 0%nat = Some id -> pages_ s !! id = Some page ->
     IsSafePage page op false = true).

Lemma crabbed_single (s : BufferPool) (op : Operation) (d : nat) (id : Z) (page : Page) :
  at_depth s id d -> pages_ s !! id = Some page -> IsSafePage page op false = true ->
  crabbed s op d [id].
Proof.
  intros Hd Hp Hsafe. split; [|split].
  - intros i x Hi. destruct i as [|i]; [|discriminate]. injection Hi as <-.
    rewrite Nat.add_0_r. exact Hd.
  - intros i x pg Hi Hx. destruct i as [|[|i]]; [lia | discriminate | discriminate].
  - intros _ x pg Hx Hpg. injection Hx as <-. congruence.
Qed.

Lemma crabbed_snoc (s : BufferPool) (op : Operation) (d : nat) (ws : list Z) (id : Z)
    (page : Page) :
  crabbed s op d ws -> ws <> [] -> at_depth s id (d + length ws) ->
  pages_ s !! id = Some page -> IsSafePage page op false = false ->
  crabbed s op d (ws ++ [id]).
Proof.
  intros (Ha & Hb & Hc) Hne Hd Hp Hunsafe. split; [|split].
  - intros i x Hi. destruct (decide (i < length ws)%nat) as [Hlt|Hge].
    + rewrite lookup_app_l in Hi by exact Hlt. exact (Ha i x Hi).
    + rewrite lookup_app_r in Hi by lia.
      destruct (i - length ws)%nat eqn:E; [|destruct n; discriminate].
      injection Hi as <-. replace i with (length ws) by lia. exact Hd.
  - intros i x pg Hi Hx Hpg. destruct (decide (i < length ws)%nat) as [Hlt|Hge].
    + rewrite lookup_app_l in Hx by exact Hlt. exact (Hb i x pg Hi Hx Hpg).
    + rewrite lookup_app_r in Hx by lia.
      destruct (i - length ws)%nat eqn:E; [|destruct n; discriminate].
      injection Hx as <-. congruence.
  - intros Hd0 x pg Hx Hpg. apply (Hc Hd0 x pg); [|exact Hpg].
    destruct ws; [contradiction|]. exact Hx.
Qed.

Lemma FindLeafPage_write_path (leaf_max_size_ internal_max_size_ : Z) (h : nat) :
  forall (fuel : nat) (s : BufferPool) (key : Z) (op : Operation) (hdr : option Z) (root : Z)
         (pre : list Z) (d : nat) (lo hi : option Z) (t : tree),
  (h <= fuel)%nat -> pool_ok s ->
  rep leaf_max_size_ internal_max_size_ (pages_ s) h t ->
  good leaf_max_size_ internal_max_size_ h lo hi t -> NoDup (ids t) ->
  in_range lo hi key -> (forall x, x ∈ pre -> x ∉ ids t) ->
  crabbed s op d (pre ++ [tid t]) ->
  exists ctx' d',
    FindLeafPage_write fuel s key op
      {| header_page_ := hdr; root_page_id_ := root; write_set_ := pre ++ [tid t];
         read_set_ := [] |} = Ok ctx' /\
    crabbed s op d' (write_set_ ctx') /\
    (exists id p, last (write_set_ ctx') = Some id /\ pages_ s !! id = Some (Leaf p)) /\
    header_page_ ctx' = hdr.
Proof.
  induction h as [|h IH];
    intros fuel s key op hdr root pre d lo hi t Hfuel Hpool Hrep Hgood Hnd Hkey Hpre Hcr.
  - destruct t as [id kvs|id sl]; [|simpl in Hrep; tauto].
    destruct Hrep as (p & Hp & _).
    exists {| header_page_ := hdr; root_page_id_ := root; write_set_ := pre ++ [id];
              read_set_ := [] |}, d.
    split; [|split; [exact Hcr|]; split; [|reflexivity]].
    + apply (FindLeafPage_write_leaf fuel s key op _ id p); [apply back_snoc | exact Hp].
    + exists id, p. split; [apply last_snoc | exact Hp].
  - destruct t as [id kvs|id sl]; [simpl in Hrep; tauto|].
    destruct fuel as [|fuel]; [lia|].
    assert (Hne : sl <> []).
    { destruct Hgood as (_ & _ & Hlen). destruct sl; [simpl in Hlen; lia | discriminate]. }
    pose proof Hrep as (P0 & Hp0 & _ & Hs0 & Hsl0 & _).
    destruct (route_spec P0 h lo hi sl key Hs0 ltac:(destruct Hgood as (_ & _ & ?); lia)
                Hsl0 Hne Hkey)
      as (spre & kc & spost & -> & Hroute & Hrange).
    destruct (node_at_intro leaf_max_size_ internal_max_size_ s h lo hi id spre kc spost
                Hpool Hrep Hgood Hnd) as (P & N).
    assert (P0 = P) as -> by (destruct N; congruence).
    destruct (node_child_facts _ _ _ _ _ _ _ _ _ _ _ N)
      as (Hrepc & Hgoodc & Hndc & Hid & Hin & Hdisj & Hval).
    destruct (FindLeafPage_write_step leaf_max_size_ internal_max_size_ fuel s key op hdr root
                pre h lo hi id spre kc spost P N Hroute Hpre) as (pc & Hpc & Hstep).
    simpl tid in Hcr |- *. rewrite Hstep.
    assert (Hd : at_depth s id (d + length pre)).
    { destruct Hcr as (Ha & _). apply Ha. rewrite lookup_app_r by lia.
      rewrite Nat.sub_diag. reflexivity. }
    assert (Hdc : at_depth s (tid (snd kc)) (S (d + length pre))).
    { apply (at_depth_child s id _ P (Z.of_nat (length spre)) _ Hd Hp0); [|exact Hval].
      unfold InternalPage.GetSize. rewrite Hs0, length_app. simpl. lia. }
    destruct (IsSafePage pc op false) eqn:Hsafe.
    + apply (IH fuel s key op hdr root [] (S (d + length pre))
               (lbound lo spre kc) (next_bound hi spost) (snd kc));
        [lia | exact Hpool | exact Hrepc | exact Hgoodc | exact Hndc | exact Hrange | |].
      * intros x Hx. inversion Hx.
      * simpl. exact (crabbed_single s op _ _ pc Hdc Hpc Hsafe).
    + apply (IH fuel s key op hdr root (pre ++ [id]) d
               (lbound lo spre kc) (next_bound hi spost) (snd kc));
        [lia | exact Hpool | exact Hrepc | exact Hgoodc | exact Hndc | exact Hrange | |].
      * intros x Hx Hc. apply elem_of_app in Hx as [Hx|Hx].
        -- apply (Hpre x Hx). apply Hin. exact Hc.
        -- apply list_elem_of_singleton in Hx as ->. exact (Hid Hc).
      * apply (crabbed_snoc s op d (pre ++ [id]) _ pc Hcr);
          [destruct pre; discriminate | | exact Hpc | exact Hsafe].
        rewrite length_app. simpl. replace (d + (length pre + 1))%nat with (S (d + length pre))
          by lia. exact Hdc.
Qed.

(** X26. On a reachable state with a root, [FindLeafPage] under
    [Operation::Insert] or [Operation::Remove], started with the root in
    the write set, ends with a write set that is a stretch of the path
    down to the leaf: page after page each one level below the one
    before, a leaf page last. Every page in it but the first is not safe
    for the operation, and the first is the root or a page that is safe.
    The header guard is as it was. *)
Theorem FindLeafPage_write_set (leaf_max_size_ internal_max_size_ header_page_id_ : Z)
    (s : BufferPool) (key : Z) (op : Operation) (hdr : option Z) :
  3 <= leaf_max_size_ < LEAF_PAGE_SIZE -> 3 <= internal_max_size_ <= INTERNAL_PAGE_SIZE ->
  reachable leaf_max_size_ internal_max_size_ header_page_id_ s ->
  header_root_page_id_ s <> INVALID_PAGE_ID -> op <> Search ->
  exists ctx' (d : nat),
    FindLeafPage (descent_fuel s) s key op
      {| header_page_ := hdr; root_page_id_ := header_root_page_id_ s;
         write_set_ := [header_root_page_id_ s]; read_set_ := [] |} = Ok ctx' /\
    (forall i id, write_set_ ctx' !! i = Some id -> at_depth s id (d + i)) /\
    (exists id p, last (write_set_ ctx') = Some id /\ pages_ s !! id = Some (Leaf p)) /\
    (forall i id page, (0 < i)%nat -> write_set_ ctx' !! i = Some id ->
       pages_ s !! id = Some page -> IsSafePage page op false = false) /\
    (d <> 0%nat -> forall id page, write_set_ ctx' !! 0%nat = Some id ->
       pages_ s !! id = Some page -> IsSafePage page op false = true) /\
    header_page_ ctx' = hdr.
Proof.
  intros Hl Hi Hreach Hne Hop.
  destruct (reachable_Inv leaf_max_size_ internal_max_size_ header_page_id_
              ltac:(lia) ltac:(lia) s Hreach) as [M HI].
  destruct HI as [Hpool [[Hroot _]|(h & t & Hroot & Hrep & Hgood & Hnd & HM)]]; [contradiction|].
  destruct (FindLeafPage_write_path leaf_max_size_ internal_max_size_ h (descent_fuel s) s key
              op hdr (header_root_page_id_ s) [] 0 None None t
              (descent_fuel_enough _ _ _ _ _ _ _ Hrep Hgood Hnd) Hpool Hrep Hgood Hnd
              (conj I I) ltac:(intros x Hx; inversion Hx))
    as (ctx' & d' & Hrun & (Ha & Hb & Hc) & Hlast & Hhdr).
  { split; [|split].
    - intros i id Hi'. destruct i as [|i]; [|discriminate]. simpl in Hi'. injection Hi' as <-.
      rewrite <- Hroot. apply at_depth_root. exact Hne.
    - intros i id pg Hi' Hx. destruct i as [|[|i]]; [lia | discriminate | discriminate].
    - intros Hd. contradiction. }
  exists ctx', d'. simpl app in Hrun. rewrite <- Hroot in Hrun.
  split.
  { destruct op; [contradiction | exact Hrun | exact Hrun]. }
  split; [exact Ha|]. split; [exact Hlast|]. split; [exact Hb|]. split; [exact Hc | exact Hhdr].
Qed.

Lemma FindLeafPage_write_set_witness :
  exists ctx' (d : nat),
    FindLeafPage (descent_fuel tree_1234) tree_1234 5 OpInsert
      {| header_page_ := Some 0; root_page_id_ := header_root_page_id_ tree_1234;
         write_set_ := [header_root_page_id_ tree_1234]; read_set_ := [] |} = Ok ctx' /\
    (forall i id, write_set_ ctx' !! i = Some id -> at_depth tree_1234 id (d + i)) /\
    (exists id p, last (write_set_ ctx') = Some id /\ pages_ tree_1234 !! id = Some (Leaf p)) /\
    (forall i id page, (0 < i)%nat -> write_set_ ctx' !! i = Some id ->
       pages_ tree_1234 !! id = Some page -> IsSafePage page OpInsert false = false) /\
    (d <> 0%nat -> forall id page, write_set_ ctx' !! 0%nat = Some id ->
       pages_ tree_1234 !! id = Some page -> IsSafePage page OpInsert false = true) /\
    header_page_ ctx' = Some 0.
Proof.
  apply (FindLeafPage_write_set 4 4 0 tree_1234 5 OpInsert (Some 0));
    [config | config | exact (proj2 tree_1234_reachable) | vm_compute; discriminate | discriminate].
Defined.

(** ** Operations that stay inside one leaf *)

(** X19. On a reachable state with a root, [Insert] of a key that is not
    stored, into a leaf that stays below [leaf_max_size] entries with the
    new one, writes this leaf and nothing else: the state it returns is the
    state it was given with the page of the leaf replaced, and the new
    entry sits right behind the slot that [BinaryFind] returns for the key.
    The leaf is the one that the routing on the key reaches. *)
Theorem Insert_in_place (leaf_max_size_ internal_max_size_ header_page_id_ : Z)
    (s : BufferPool) (key value id : Z) (p : LeafPage.t) :
  3 <= leaf_max_size_ < LEAF_PAGE_SIZE -> 3 <= internal_max_size_ <= INTERNAL_PAGE_SIZE ->
  reachable leaf_max_size_ internal_max_size_ header_page_id_ s ->
  header_root_page_id_ s <> INVALID_PAGE_ID ->
  GetValue s key [] = Ok (false, []) ->
  Begin_key_loop (descent_fuel s) s key (header_root_page_id_ s) = Ok (inr (id, p)) ->
  LeafPage.GetSize p + 1 < leaf_max_size_ ->
  exists r p',
    BinaryFind_leaf p key = Ok r /\
    leaf_insert_at p (r + 1) key value = Ok p' /\
    leaf_slots p'
    = take (Z.to_nat (r + 1)) (leaf_slots p) ++ (key, value) :: drop (Z.to_nat (r + 1)) (leaf_slots p) /\
    Insert leaf_max_size_ internal_max_size_ header_page_id_ s key value
    = Ok (true, put_page s id (Leaf p')).
Proof.
  intros Hl Hi Hreach Hne Habsent Hloop Hroom.
  destruct (reachable_Inv leaf_max_size_ internal_max_size_ header_page_id_
              ltac:(lia) ltac:(lia) s Hreach) as [M HI].
  apply (absent_iff leaf_max_size_ internal_max_size_ s M key [] HI) in Habsent.
  destruct (Insert_new leaf_max_size_ internal_max_size_ header_page_id_ ltac:(lia) ltac:(lia)
              s M key value HI Habsent) as (s' & Hrun & _).
  pose proof Hrun as Hrun0.
  destruct HI as [Hpool [[Hroot _]|(h & t & Hroot & Hrep & Hgood & Hnd & HM)]]; [contradiction|].
  destruct (Begin_key_loop_spec leaf_max_size_ internal_max_size_ h (descent_fuel s) s key
              None None t (descent_fuel_enough _ _ _ _ _ _ _ Hrep Hgood Hnd) Hpool Hrep Hgood Hnd
              (conj I I)) as (id' & p0 & kvs & Hloop' & Hreached).
  rewrite <- Hroot, Hloop in Hloop'. injection Hloop' as <- <-.
  destruct Hreached as (Hp & Hmax & Hsize & Hslots & Hsort & Hlen & _).
  destruct (Inv_root leaf_max_size_ internal_max_size_ s h t Hpool Hrep) as (_ & rp & Hrp).
  rewrite <- Hroot in Hrp.
  rewrite (Insert_nonempty leaf_max_size_ internal_max_size_ header_page_id_ s key value rp
             Hne Hrp) in Hrun.
  unfold insert_from in Hrun. apply bind_Ok in Hrun as (ctx' & Hdesc & Hat).
  pose proof (fun Hb => write_descent_leaf (descent_fuel s) s key OpInsert _ ctx'
                          (header_root_page_id_ s) id p Hb Hloop Hdesc) as Hback.
  specialize (Hback (back_snoc [] _)).
  unfold Insert_at_leaf in Hat. rewrite Hback, bind_Ok_l in Hat.
  rewrite (guarded_page_Ok _ _ _ Hp), bind_Ok_l in Hat.
  change (AsLeaf (Leaf p)) with (Ok p : Result LeafPage.t) in Hat. rewrite bind_Ok_l in Hat.
  destruct (BinaryFind_leaf_spec p key ltac:(lia)) as (r & Hr & Hrange & _).
  rewrite Hr, bind_Ok_l in Hat.
  apply bind_Ok in Hat as (found & _ & Hat).
  destruct found; [discriminate|].
  destruct (leaf_insert_at_spec p (r + 1) key value ltac:(lia) ltac:(lia))
    as (p' & Hins & Hsize' & Hmax' & _ & Hslots').
  cbv zeta in Hat. rewrite Hins, bind_Ok_l in Hat.
  unfold LeafPage.GetSize, LeafPage.GetMaxSize in *. rewrite Hsize', Hmax', Hmax in Hat.
  destruct (Z.ltb_spec (LeafPage.size_ p + 1) leaf_max_size_) as [_|Hfull]; [|lia].
  injection Hat as <-.
  exists r, p'. split; [exact Hr|]. split; [exact Hins|]. split; [exact Hslots'|].
  exact Hrun0.
Qed.

Lemma Insert_in_place_witness :
  exists s id p r p',
    InsertFromFile 4 4 0 [1; 3] fresh_tree = Ok s /\
    Begin_key_loop (descent_fuel s) s 2 (header_root_page_id_ s) = Ok (inr (id, p)) /\
    BinaryFind_leaf p 2 = Ok r /\
    leaf_insert_at p (r + 1) 2 20 = Ok p' /\
    leaf_slots p'
    = take (Z.to_nat (r + 1)) (leaf_slots p) ++ (2, 20) :: drop (Z.to_nat (r + 1)) (leaf_slots p) /\
    Insert 4 4 0 s 2 20 = Ok (true, put_page s id (Leaf p')).
Proof.
  assert (Hs : exists s, InsertFromFile 4 4 0 [1; 3] fresh_tree = Ok s /\ reachable 4 4 0 s /\
                 header_root_page_id_ s = 1).
  { eexists. split; [vm_compute; reflexivity|]. split; [|reflexivity].
    eapply (reachable_InsertFromFile 4 4 0 [1; 3] fresh_tree); [apply reachable_new|].
    vm_compute. reflexivity. }
  destruct Hs as (s & Hrun & Hreach & Hroot).
  assert (Hloop : exists id p,
            Begin_key_loop (descent_fuel s) s 2 (header_root_page_id_ s) = Ok (inr (id, p)) /\
            LeafPage.GetSize p + 1 < 4 /\ GetValue s 2 [] = Ok (false, [])).
  { injection Hrun as <-. eexists _, _. split; [vm_compute; reflexivity|].
    split; [vm_compute; reflexivity | vm_compute; reflexivity]. }
  destruct Hloop as (id & p & Hloop & Hroom & Habsent).
  destruct (Insert_in_place 4 4 0 s 2 20 id p ltac:(config) ltac:(config) Hreach
              ltac:(rewrite Hroot; unfold INVALID_PAGE_ID; lia) Habsent Hloop Hroom)
    as (r & p' & H1 & H2 & H3 & H4).
  exists s, id, p, r, p'. repeat split; assumption.
Defined.

(** X20. On a reachable state with a root, [Remove] of a stored key from a
    leaf that keeps at least [GetMinSize] entries without it writes this
    leaf and nothing else: the state it returns is the state it was given
    with the page of the leaf replaced, the slot that [BinaryFind] returns
    for the key being taken out. The leaf is the one that the routing on
    the key reaches. *)
Theorem Remove_in_place (leaf_max_size_ internal_max_size_ header_page_id_ : Z)
    (s : BufferPool) (key v id : Z) (p : LeafPage.t) :
  3 <= leaf_max_size_ < LEAF_PAGE_SIZE -> 3 <= internal_max_size_ <= INTERNAL_PAGE_SIZE ->
  reachable leaf_max_size_ internal_max_size_ header_page_id_ s ->
  header_root_page_id_ s <> INVALID_PAGE_ID ->
  GetValue s key [] = Ok (true, [v]) ->
  Begin_key_loop (descent_fuel s) s key (header_root_page_id_ s) = Ok (inr (id, p)) ->
  LeafPage.GetMinSize p <= LeafPage.GetSize p - 1 ->
  exists r p',
    BinaryFind_leaf p key = Ok r /\
    LeafPage.KeyAt p r = Ok key /\
    leaf_remove_at p r = Ok p' /\
    leaf_slots p' = take (Z.to_nat r) (leaf_slots p) ++ drop (Z.to_nat (r + 1)) (leaf_slots p) /\
    Remove header_page_id_ s key = Ok (put_page s id (Leaf p')).
Proof.
  intros Hl Hi Hreach Hne Hpresent Hloop Hroom.
  destruct (reachable_Inv leaf_max_size_ internal_max_size_ header_page_id_
              ltac:(lia) ltac:(lia) s Hreach) as [M HI].
  apply (stored_iff leaf_max_size_ internal_max_size_ s M key v HI) in Hpresent.
  destruct (Remove_Inv leaf_max_size_ internal_max_size_ header_page_id_ ltac:(lia) ltac:(lia)
              s M key HI) as (s' & Hrun & HI').
  pose proof Hrun as Hrun0.
  pose proof HI as [Hpool [[Hroot _]|(h & t & Hroot & Hrep & Hgood & Hnd & HM)]];
    [contradiction|].
  destruct (Begin_key_loop_spec leaf_max_size_ internal_max_size_ h (descent_fuel s) s key
              None None t (descent_fuel_enough _ _ _ _ _ _ _ Hrep Hgood Hnd) Hpool Hrep Hgood Hnd
              (conj I I)) as (id' & p0 & kvs & Hloop' & Hreached).
  rewrite <- Hroot, Hloop in Hloop'. injection Hloop' as <- <-.
  destruct Hreached as (Hp & Hmax & Hsize & Hslots & Hsort & Hlen & _).
  destruct (Inv_root leaf_max_size_ internal_max_size_ s h t Hpool Hrep) as (_ & rp & Hrp).
  rewrite <- Hroot in Hrp.
  rewrite (Remove_nonempty header_page_id_ s key rp Hne Hrp) in Hrun.
  unfold remove_from in Hrun. apply bind_Ok in Hrun as (ctx' & Hdesc & Hat).
  pose proof (fun Hb => write_descent_leaf (descent_fuel s) s key OpRemove _ ctx'
                          (header_root_page_id_ s) id p Hb Hloop Hdesc) as Hback.
  specialize (Hback (back_snoc [] _)).
  unfold Remove_at_leaf in Hat. rewrite Hback, bind_Ok_l in Hat.
  rewrite (guarded_page_Ok _ _ _ Hp), bind_Ok_l in Hat.
  change (AsLeaf (Leaf p)) with (Ok p : Result LeafPage.t) in Hat. rewrite bind_Ok_l in Hat.
  destruct (BinaryFind_leaf_spec p key ltac:(lia)) as (r & Hr & Hrange & _).
  rewrite Hr, bind_Ok_l in Hat.
  apply bind_Ok in Hat as (found & Hfound & Hat).
  destruct found; simpl negb in Hat; cbv iota in Hat.
  2:{ exfalso. injection Hat as <-.
      pose proof (GetValue_spec leaf_max_size_ internal_max_size_ s M key [] HI) as G1.
      pose proof (GetValue_spec leaf_max_size_ internal_max_size_ s _ key [] HI') as G2.
      rewrite G1, Hpresent, lookup_delete_eq in G2. discriminate. }
  destruct (Z.eqb_spec r (-1)) as [E|Hr1]; [discriminate|].
  apply bind_Ok in Hfound as (k & Hk & Hcmp). injection Hcmp as Hcmp.
  assert (k = key) as ->.
  { apply Z.eqb_eq in Hcmp. unfold comparator_ in Hcmp.
    destruct (Z.compare_spec k key); [assumption | discriminate | discriminate]. }
  destruct (leaf_remove_at_spec p r ltac:(lia) ltac:(lia)) as (p' & Hrem & Hsize' & Hmax' & _ & Hslots').
  rewrite Hrem, bind_Ok_l in Hat. cbv zeta in Hat.
  unfold LeafPage.GetSize, LeafPage.GetMinSize in *. rewrite Hsize', Hmax' in Hat.
  destruct (Z.leb_spec (min_size_of (LeafPage.max_size_ p)) (LeafPage.size_ p - 1)) as [_|Hc];
    [|lia].
  injection Hat as <-.
  exists r, p'. split; [exact Hr|]. split; [exact Hk|]. split; [exact Hrem|].
  split; [exact Hslots' | exact Hrun0].
Qed.

Lemma Remove_in_place_witness :
  exists s id p r p',
    InsertFromFile 4 4 0 [1; 2; 3] fresh_tree = Ok s /\
    Begin_key_loop (descent_fuel s) s 2 (header_root_page_id_ s) = Ok (inr (id, p)) /\
    BinaryFind_leaf p 2 = Ok r /\
    LeafPage.KeyAt p r = Ok 2 /\
    leaf_remove_at p r = Ok p' /\
    leaf_slots p' = take (Z.to_nat r) (leaf_slots p) ++ drop (Z.to_nat (r + 1)) (leaf_slots p) /\
    Remove 0 s 2 = Ok (put_page s id (Leaf p')).
Proof.
  destruct reachable_123 as (s & Hrun & Hreach & Hroot).
  assert (Hloop : exists id p,
            Begin_key_loop (descent_fuel s) s 2 (header_root_page_id_ s) = Ok (inr (id, p)) /\
            LeafPage.GetMinSize p <= LeafPage.GetSize p - 1 /\
            GetValue s 2 [] = Ok (true, [2])).
  { injection Hrun as <-. eexists _, _. split; [vm_compute; reflexivity|].
    split; [vm_compute; discriminate | vm_compute; reflexivity]. }
  destruct Hloop as (id & p & Hloop & Hroom & Hpresent).
  destruct (Remove_in_place 4 4 0 s 2 2 id p ltac:(config) ltac:(config) Hreach
              ltac:(rewrite Hroot; unfold INVALID_PAGE_ID; lia) Hpresent Hloop Hroom)
    as (r & p' & H1 & H2 & H3 & H4 & H5).
  exists s, id, p, r, p'. repeat split; assumption.
Defined.

(** ** [Remove] and the page allocator *)

(** The two states have the same allocation counter and hold pages under
    the same ids. *)
Definition same_pages (s s' : BufferPool) : Prop :=
  next_page_id_ s' = next_page_id_ s /\ dom (pages_ s') = dom (pages_ s).

Lemma same_pages_refl (s : BufferPool) : same_pages s s.
Proof. split; reflexivity. Qed.

Lemma same_pages_put (s0 s : BufferPool) (id : Z) (p : Page) :
  same_pages s0 s -> id ∈ dom (pages_ s0) -> same_pages s0 (put_page s id p).
Proof.
  intros [Hn Hd] Hin. split; [exact Hn|]. simpl. rewrite <- Hd in Hin |- *.
  apply dom_insert_lookup_L. apply elem_of_dom. exact Hin.
Qed.

Lemma same_pages_set_root (s0 s : BufferPool) (r : Z) :
  same_pages s0 s -> same_pages s0 (set_root s r).
Proof. intros H. exact H. Qed.

Lemma in_dom_guarded (s0 s : BufferPool) (id : Z) (p : Page) :
  same_pages s0 s -> guarded_page s id = Ok p -> id ∈ dom (pages_ s0).
Proof.
  intros [_ Hd] H. rewrite <- Hd. apply elem_of_dom. unfold guarded_page in H.
  destruct (pages_ s !! id); [eauto | discriminate].
Qed.

Lemma in_dom_fetch (s0 s : BufferPool) (held : list Z) (id : Z) (p : Page) :
  same_pages s0 s -> FetchPageWrite s held id = Ok p -> id ∈ dom (pages_ s0).
Proof.
  intros Hs H. unfold FetchPageWrite in H. destruct (bool_decide (id ∈ held)); [discriminate|].
  exact (in_dom_guarded s0 s id p Hs H).
Qed.

Lemma RemoveFromParent_same_pages (index : nat) :
  forall (s0 s : BufferPool) (valueIndex : Z) (ctx : Context) (held : list Z) (s' : BufferPool),
  same_pages s0 s -> RemoveFromParent index s valueIndex ctx held = Ok s' -> same_pages s0 s'.
Proof.
  induction index as [|index IH]; intros s0 s valueIndex ctx held s' Hs H;
    rewrite RemoveFromParent_unfold in H;
    apply bind_Ok in H as (page_id & _ & H); apply bind_Ok in H as (pg & Hpg & H);
    apply bind_Ok in H as (P & _ & H); apply bind_Ok in H as (P' & _ & H);
    cbv zeta in H;
    pose proof (in_dom_guarded s0 s page_id pg Hs Hpg) as Hin;
    pose proof (same_pages_put s0 s page_id (Internal P') Hs Hin) as Hs1;
    (destruct (InternalPage.GetMinSize P' <=? InternalPage.GetSize P');
       [injection H as <-; exact Hs1|]);
    unfold internal_underflow in H;
    (destruct (IsRootPage ctx page_id);
       [destruct (InternalPage.GetSize P' =? 1);
          [apply bind_Ok in H as (hd & _ & H); apply bind_Ok in H as (child & _ & H);
           injection H as <-; exact Hs1
          |injection H as <-; exact Hs1]|]).
  - discriminate.
  - apply bind_Ok in H as (parent_id & _ & H). apply bind_Ok in H as (parent & Hparent & H).
    apply bind_Ok in H as (PP & _ & H). cbv zeta in H.
    pose proof (in_dom_guarded s0 _ parent_id parent Hs1 Hparent) as Hinp.
    destruct (InternalPage.ValueIndex PP page_id <? InternalPage.GetSize PP - 1).
    + apply bind_Ok in H as (bid & _ & H). apply bind_Ok in H as (bro & Hbro & H).
      apply bind_Ok in H as (B & _ & H).
      pose proof (in_dom_fetch s0 _ _ bid bro Hs1 Hbro) as Hinb.
      destruct (InternalPage.GetSize B + InternalPage.GetSize P' <=? InternalPage.GetMaxSize P').
      * apply bind_Ok in H as (P2 & _ & H).
        apply (IH s0 _ _ _ _ s' (same_pages_put s0 _ page_id (Internal P2) Hs1 Hin) H).
      * apply bind_Ok in H as ([P2 B2] & _ & H). apply bind_Ok in H as (k & _ & H).
        apply bind_Ok in H as (PP2 & _ & H). injection H as <-.
        repeat (apply same_pages_put; [|assumption]). exact Hs.
    + apply bind_Ok in H as (bid & _ & H). apply bind_Ok in H as (bro & Hbro & H).
      apply bind_Ok in H as (B & _ & H).
      pose proof (in_dom_fetch s0 _ _ bid bro Hs1 Hbro) as Hinb.
      destruct (InternalPage.GetSize B + InternalPage.GetSize P' <=? InternalPage.GetMaxSize B).
      * apply bind_Ok in H as (B2 & _ & H).
        apply (IH s0 _ _ _ _ s' (same_pages_put s0 _ bid (Internal B2) Hs1 Hinb) H).
      * apply bind_Ok in H as ([P2 B2] & _ & H). apply bind_Ok in H as (k & _ & H).
        apply bind_Ok in H as (PP2 & _ & H). injection H as <-.
        repeat (apply same_pages_put; [|assumption]). exact Hs.
Qed.

(** X21. [Remove] never allocates a page and never gives one back: after a
    [Remove] that completes, on any pool, the allocation counter is what it
    was and the pool holds pages under exactly the ids it held before. A
    page that a merge or the collapse of the root takes out of the tree
    stays in the pool. *)
Theorem Remove_keeps_pool (header_page_id_ : Z) (s : BufferPool) (key : Z) (s' : BufferPool) :
  Remove header_page_id_ s key = Ok s' ->
  next_page_id_ s' = next_page_id_ s /\ dom (pages_ s') = dom (pages_ s).
Proof.
  intros H. change (same_pages s s'). pose proof (same_pages_refl s) as Hs.
  rewrite Remove_unfold in H.
  destruct (header_root_page_id_ s =? INVALID_PAGE_ID); [injection H as <-; exact Hs|].
  apply bind_Ok in H as (rp & _ & H). cbv zeta in H.
  unfold remove_from in H. apply bind_Ok in H as (ctx & _ & H).
  unfold Remove_at_leaf in H.
  apply bind_Ok in H as (leaf_id & _ & H). apply bind_Ok in H as (pg & Hpg & H).
  apply bind_Ok in H as (L & _ & H). apply bind_Ok in H as (pos & _ & H).
  apply bind_Ok in H as (found & _ & H).
  destruct (negb found); [injection H as <-; exact Hs|].
  apply bind_Ok in H as (L' & _ & H). cbv zeta in H.
  pose proof (in_dom_guarded s s leaf_id pg Hs Hpg) as Hin.
  pose proof (same_pages_put s s leaf_id (Leaf L') Hs Hin) as Hs1.
  destruct (LeafPage.GetMinSize L' <=? LeafPage.GetSize L'); [injection H as <-; exact Hs1|].
  unfold leaf_underflow in H.
  destruct (IsRootPage ctx leaf_id).
  { destruct (LeafPage.GetSize L' =? 0); [|injection H as <-; exact Hs1].
    destruct (header_page_ ctx); [injection H as <-; exact Hs1 | discriminate]. }
  destruct (length (write_set_ ctx)) as [|[|parent_index]]; try discriminate.
  apply bind_Ok in H as (parent_id & _ & H). apply bind_Ok in H as (parent & Hparent & H).
  apply bind_Ok in H as (PP & _ & H). apply bind_Ok in H as (index & _ & H).
  pose proof (in_dom_guarded s _ parent_id parent Hs1 Hparent) as Hinp.
  destruct (index <? InternalPage.GetSize PP - 1).
  - apply bind_Ok in H as (bid & _ & H). apply bind_Ok in H as (bro & Hbro & H).
    apply bind_Ok in H as (B & _ & H). cbv zeta in H.
    pose proof (in_dom_fetch s _ _ bid bro Hs1 Hbro) as Hinb.
    destruct (LeafPage.GetSize B + LeafPage.GetSize L' <? LeafPage.GetMaxSize L').
    + apply bind_Ok in H as (L2 & _ & H).
      apply (RemoveFromParent_same_pages _ s _ _ _ _ s'
               (same_pages_put s _ leaf_id (Leaf L2) Hs1 Hin) H).
    + apply bind_Ok in H as ([L2 B2] & _ & H). apply bind_Ok in H as (k & _ & H).
      apply bind_Ok in H as (PP2 & _ & H). injection H as <-.
      repeat (apply same_pages_put; [|assumption]). exact Hs.
  - apply bind_Ok in H as (bid & _ & H). apply bind_Ok in H as (bro & Hbro & H).
    apply bind_Ok in H as (B & _ & H). cbv zeta in H.
    pose proof (in_dom_fetch s _ _ bid bro Hs1 Hbro) as Hinb.
    destruct (LeafPage.GetSize B + LeafPage.GetSize L' <? LeafPage.GetMaxSize B).
    + apply bind_Ok in H as (B2 & _ & H).
      apply (RemoveFromParent_same_pages _ s _ _ _ _ s'
               (same_pages_put s _ bid (Leaf B2) Hs1 Hinb) H).
    + apply bind_Ok in H as ([L2 B2] & _ & H). apply bind_Ok in H as (k & _ & H).
      apply bind_Ok in H as (PP2 & _ & H). injection H as <-.
      repeat (apply same_pages_put; [|assumption]). exact Hs.
Qed.

Lemma Remove_keeps_pool_witness :
  exists s s',
    InsertFromFile 4 4 0 [1; 2; 3; 4] fresh_tree = Ok s /\
    Remove 0 s 4 = Ok s' /\
    header_root_page_id_ s = 3 /\ header_root_page_id_ s' = 1 /\
    next_page_id_ s' = next_page_id_ s /\ dom (pages_ s') = dom (pages_ s).
Proof.
  eexists _, _. split; [vm_compute; reflexivity|].
  split; [vm_compute; reflexivity|]. split; [reflexivity|]. split; [reflexivity|].
  apply (Remove_keeps_pool 0 _ 4). vm_compute. reflexivity.
Defined.

(** ** Growth at the root *)

(** X22. On a reachable state with a root, an [Insert] that changes the
    root page id has inserted the key, and the new root is an internal
    page with exactly two slots that this [Insert] has allocated: slot 0
    names the old root page, slot 1 another page allocated by this
    [Insert]. *)
Theorem Insert_grows_at_root (leaf_max_size_ internal_max_size_ header_page_id_ : Z)
    (s : BufferPool) (key value : Z) (b : bool) (s' : BufferPool) :
  3 <= leaf_max_size_ < LEAF_PAGE_SIZE -> 3 <= internal_max_size_ <= INTERNAL_PAGE_SIZE ->
  reachable leaf_max_size_ internal_max_size_ header_page_id_ s ->
  header_root_page_id_ s <> INVALID_PAGE_ID ->
  Insert leaf_max_size_ internal_max_size_ header_page_id_ s key value = Ok (b, s') ->
  header_root_page_id_ s' <> header_root_page_id_ s ->
  b = true /\
  exists P split_key new_child,
    pages_ s' !! header_root_page_id_ s' = Some (Internal P) /\
    InternalPage.GetSize P = 2 /\
    InternalPage.ValueAt P 0 = Ok (header_root_page_id_ s) /\
    InternalPage.KeyAt P 1 = Ok split_key /\
    InternalPage.ValueAt P 1 = Ok new_child /\
    next_page_id_ s <= new_child /\ next_page_id_ s <= header_root_page_id_ s'.
Proof.
  intros Hl Hi Hreach Hne Hrun Hchg.
  destruct (reachable_Inv leaf_max_size_ internal_max_size_ header_page_id_
              ltac:(lia) ltac:(lia) s Hreach) as [M HI].
  destruct HI as [Hpool [[Hroot _]|(h & t & Hroot & Hrep & Hgood & Hnd & HM)]]; [contradiction|].
  destruct (Inv_root leaf_max_size_ internal_max_size_ s h t Hpool Hrep) as (_ & rp & Hrp).
  rewrite <- Hroot in Hrp.
  rewrite (Insert_nonempty leaf_max_size_ internal_max_size_ header_page_id_ s key value rp
             Hne Hrp) in Hrun.
  rewrite Hroot in Hrun.
  destruct (insert_from_spec leaf_max_size_ internal_max_size_ ltac:(lia) ltac:(lia) h
              (descent_fuel s) s key value
              (if IsSafePage rp OpInsert false then None else Some header_page_id_)
              (tid t) [] None None t
              (descent_fuel_enough _ _ _ _ _ _ _ Hrep Hgood Hnd) Hpool Hrep Hgood Hnd
              (conj I I) ltac:(intros x Hx; inversion Hx)) as [Hfound Hnew].
  destruct (decide (key ∈ (t_kvs t).*1)) as [Hin|Hnin].
  { rewrite (Hfound Hin) in Hrun. injection Hrun as _ <-. congruence. }
  destruct (Hnew Hnin) as [(s'' & Hrun' & Hdone)
                          |(s1 & sk & t2 & rest & page & Hpage & Hunsafe & Hrun' & Hsplit)].
  { rewrite Hrun' in Hrun. injection Hrun as _ <-.
    destruct Hdone as (_ & _ & _ & _ & _ & _ & _ & Hframe).
    destruct Hframe as (Hroot' & _). congruence. }
  rewrite Hroot in Hrp. assert (page = rp) as -> by congruence.
  rewrite Hrun' in Hrun. clear Hrun'. rewrite Hunsafe in Hrun.
  destruct Hsplit as (t1 & _ & _ & Htid1 & _ & _ & _ & _ & Hnew2 & _ & Hframe).
  destruct Hframe as (_ & Hnext1 & _ & _).
  rewrite InsertIntoParent_O in Hrun. unfold NewPageGuarded in Hrun.
  cbv beta iota zeta in Hrun.
  unfold guard_at in Hrun. simpl lookup in Hrun. cbv iota in Hrun. rewrite bind_Ok_l in Hrun.
  destruct (new_root_page_spec internal_max_size_ (tid t) sk (tid t2))
    as (np & Hnp & Hnps & Hnpm & Hnpsl).
  rewrite Hnp, bind_Ok_l in Hrun. unfold header_deref in Hrun.
  cbv beta iota zeta in Hrun. simpl header_page_ in Hrun. cbv beta iota in Hrun.
  rewrite ?bind_Ok_l in Hrun. injection Hrun as <- <-.
  split; [reflexivity|]. exists np, sk, (tid t2).
  assert (Hget : forall i, 0 <= i < 2 ->
            internal_slots np !! Z.to_nat i = Some (get (InternalPage.array_ np) i)).
  { intros i Hi'. unfold internal_slots. rewrite Hnps. apply lookup_slots. exact Hi'. }
  pose proof (Hget 0 ltac:(lia)) as H0. pose proof (Hget 1 ltac:(lia)) as H1.
  rewrite Hnpsl in H0, H1. simpl in H0, H1. injection H0 as H0. injection H1 as H1.
  simpl header_root_page_id_. simpl pages_. rewrite lookup_insert_eq.
  split; [reflexivity|]. split; [exact Hnps|].
  rewrite !InternalPage_ValueAt_Ok, InternalPage_KeyAt_Ok by len_lia.
  rewrite <- H0, <- H1. simpl. rewrite Hroot.
  split; [reflexivity|]. split; [reflexivity|]. split; [reflexivity|].
  split; [exact Hnew2 | exact Hnext1].
Qed.

Lemma Insert_grows_at_root_witness :
  exists s s',
    InsertFromFile 4 4 0 [1; 2; 3] fresh_tree = Ok s /\
    Insert 4 4 0 s 4 4 = Ok (true, s') /\
    true = true /\
    exists P split_key new_child,
      pages_ s' !! header_root_page_id_ s' = Some (Internal P) /\
      InternalPage.GetSize P = 2 /\
      InternalPage.ValueAt P 0 = Ok (header_root_page_id_ s) /\
      InternalPage.KeyAt P 1 = Ok split_key /\
      InternalPage.ValueAt P 1 = Ok new_child /\
      next_page_id_ s <= new_child /\ next_page_id_ s <= header_root_page_id_ s'.
Proof.
  destruct reachable_123 as (s & Hrun & Hreach & Hroot).
  assert (Hins : exists s', Insert 4 4 0 s 4 4 = Ok (true, s') /\
                   header_root_page_id_ s' <> header_root_page_id_ s).
  { injection Hrun as <-. eexists. split; [vm_compute; reflexivity|].
    vm_compute. discriminate. }
  destruct Hins as (s' & Hins & Hchg).
  exists s, s'. split; [exact Hrun|]. split; [exact Hins|].
  apply (Insert_grows_at_root 4 4 0 s 4 4 true s'); [config | config | exact Hreach | | exact Hins | exact Hchg].
  rewrite Hroot. unfold INVALID_PAGE_ID. lia.
Defined.

(** ** Shrinking at the root *)

(** X24. On a reachable state with a root, a [Remove] that changes the
    root page id has done one of two things. Either the root was a leaf
    whose only entry had the removed key, and the tree is empty now. Or the
    root was an internal page with exactly two slots, and the new root is a
    page that was already a page of the tree. *)
Theorem Remove_shrinks_at_root (leaf_max_size_ internal_max_size_ header_page_id_ : Z)
    (s : BufferPool) (key : Z) (s' : BufferPool) :
  3 <= leaf_max_size_ < LEAF_PAGE_SIZE -> 3 <= internal_max_size_ <= INTERNAL_PAGE_SIZE ->
  reachable leaf_max_size_ internal_max_size_ header_page_id_ s ->
  header_root_page_id_ s <> INVALID_PAGE_ID ->
  Remove header_page_id_ s key = Ok s' ->
  header_root_page_id_ s' <> header_root_page_id_ s ->
  (header_root_page_id_ s' = INVALID_PAGE_ID /\
   exists p, pages_ s !! header_root_page_id_ s = Some (Leaf p) /\
     LeafPage.GetSize p = 1 /\ LeafPage.KeyAt p 0 = Ok key) \/
  (header_root_page_id_ s' <> INVALID_PAGE_ID /\
   in_tree s (header_root_page_id_ s') /\
   exists P, pages_ s !! header_root_page_id_ s = Some (Internal P) /\
     InternalPage.GetSize P = 2).
Proof.
  intros Hl Hi Hreach Hne Hrun Hchg.
  destruct (reachable_Inv leaf_max_size_ internal_max_size_ header_page_id_
              ltac:(lia) ltac:(lia) s Hreach) as [M HI].
  destruct HI as [Hpool [[Hroot _]|(h & t & Hroot & Hrep & Hgood & Hnd & HM)]]; [contradiction|].
  destruct (Inv_root leaf_max_size_ internal_max_size_ s h t Hpool Hrep) as (_ & rp & Hrp).
  rewrite <- Hroot in Hrp.
  rewrite (Remove_nonempty header_page_id_ s key rp Hne Hrp) in Hrun.
  rewrite Hroot in Hrun.
  destruct (remove_from_spec leaf_max_size_ internal_max_size_ ltac:(lia) ltac:(lia) h
              (descent_fuel s) s key
              (if IsSafePage rp OpRemove true then None else Some header_page_id_)
              (tid t) [] None None t
              (descent_fuel_enough _ _ _ _ _ _ _ Hrep Hgood Hnd) Hpool Hrep Hgood Hnd
              (conj I I) ltac:(intros x Hx; inversion Hx) ltac:(reflexivity))
    as [Habsent Hfound].
  destruct (decide (key ∈ (t_kvs t).*1)) as [Hin|Hnin].
  2:{ rewrite (Habsent Hnin) in Hrun. injection Hrun as <-. congruence. }
  destruct (Hfound Hin) as [(s'' & Hrun' & Hdone)
                           |(s1 & t1 & rest & held & page & page1 & Hpage & Hunsafe & Hrun'
                             & Hunder & Hsz & _ & _)].
  { rewrite Hrun' in Hrun. injection Hrun as <-.
    destruct Hdone as (_ & (_ & _ & _ & _ & _ & Hframe) & _).
    destruct Hframe as (Hroot' & _). congruence. }
  rewrite Hroot in Hrp. assert (page = rp) as -> by congruence.
  rewrite Hrun' in Hrun. clear Hrun'.
  destruct Hunder as ((Hrep1 & Htid1 & Hnd1 & Hsub & [v Hperm] & Hframe) & Hweak & Hpg1 & Hlow).
  destruct Hframe as (Hroot1 & _ & _ & Hpool1).
  simpl app in Hrun.
  destruct h as [|h].
  - left.
    destruct (rep_leaf_page leaf_max_size_ internal_max_size_ _ _ Hrep1)
      as (kvs1 & p1 & Et1 & Hp1 & Hm1 & Hs1 & Hsl1).
    rewrite Htid1 in Hp1. assert (page1 = Leaf p1) as -> by congruence.
    destruct (rep_leaf_page leaf_max_size_ internal_max_size_ _ _ Hrep)
      as (kvs0 & p0 & Et0 & Hp0 & Hm0 & Hs0 & Hsl0).
    assert (rp = Leaf p0) as -> by congruence.
    simpl in Hsz. cbn [underflow] in Hrun. unfold leaf_underflow, IsRootPage in Hrun.
    cbn [root_page_id_] in Hrun. rewrite Z.eqb_refl in Hrun.
    destruct (Z.eqb_spec (LeafPage.GetSize p1) 0) as [Hzero|Hpos].
    2:{ injection Hrun as <-. congruence. }
    destruct (header_page_ _) in Hrun; [|discriminate]. injection Hrun as <-.
    split; [reflexivity|]. exists p0. rewrite Hroot. split; [exact Hp0|].
    split; [lia|].
    unfold LeafPage.GetSize in *.
    assert (kvs1 = []) as -> by (destruct kvs1; [reflexivity | simpl in Hs1; lia]).
    rewrite Et0, Et1 in Hperm. simpl in Hperm.
    apply Permutation_singleton_r in Hperm. subst kvs0.
    pose proof (leaf_slot p0 [(key, v)] 0 (key, v) Hs0 Hsl0 eq_refl) as Hg.
    change (Z.of_nat 0) with 0 in Hg.
    rewrite LeafPage_KeyAt_Ok by len_lia. rewrite Hg. reflexivity.
  - right.
    destruct (rep_internal_page leaf_max_size_ internal_max_size_ _ _ _ Hrep1)
      as (sl1 & p1 & Et1 & Hp1 & Hm1 & Hs1 & Hsl1 & Hch1).
    rewrite Htid1 in Hp1. assert (page1 = Internal p1) as -> by congruence.
    destruct (rep_internal_page leaf_max_size_ internal_max_size_ _ _ _ Hrep)
      as (sl0 & p0 & Et0 & Hp0 & _).
    assert (rp = Internal p0) as -> by congruence.
    simpl in Hsz. cbn [underflow] in Hrun. unfold internal_underflow, IsRootPage in Hrun.
    cbn [root_page_id_] in Hrun. rewrite Z.eqb_refl in Hrun.
    destruct (Z.eqb_spec (InternalPage.GetSize p1) 1) as [Hone|Hmore].
    2:{ injection Hrun as <-. congruence. }
    apply bind_Ok in Hrun as (hd & _ & Hrun). apply bind_Ok in Hrun as (child & Hchild & Hrun).
    injection Hrun as <-. simpl header_root_page_id_ in *.
    unfold InternalPage.GetSize in Hone. rewrite Hs1 in Hone.
    destruct sl1 as [|[k0 c0] [|? ?]]; simpl in Hone; try lia.
    rewrite InternalPage_ValueAt_Ok in Hchild by len_lia.
    pose proof (node_slot p1 [(k0, c0)] 0 (k0, c0) Hs1 Hsl1 eq_refl) as Hg0.
    change (Z.of_nat 0) with 0 in Hg0. rewrite Hg0 in Hchild. simpl in Hchild.
    injection Hchild as <-.
    assert (Hc0 : tid c0 ∈ ids t).
    { apply Hsub. rewrite Et1. simpl. right. rewrite app_nil_r. apply tid_in_ids. }
    split.
    { pose proof (rep_in_dom _ _ _ _ _ _ Hrep Hc0) as [pc Hpc].
      destruct Hpool as [_ Hpool]. specialize (Hpool _ _ Hpc). unfold INVALID_PAGE_ID. lia. }
    split.
    { apply (ids_in_tree leaf_max_size_ internal_max_size_ s (S h) None None t (tid c0));
        [|exact Hrep | exact Hgood | exact Hc0].
      rewrite <- Hroot. apply in_tree_root. exact Hne. }
    exists p0. rewrite Hroot. split; [exact Hp0|].
    unfold InternalPage.GetSize in *. rewrite Hs1 in Hsz. simpl in Hsz. lia.
Qed.

Lemma Remove_shrinks_at_root_witness :
  exists s',
    Remove 0 tree_1234 4 = Ok s' /\
    ((header_root_page_id_ s' = INVALID_PAGE_ID /\
      exists p, pages_ tree_1234 !! header_root_page_id_ tree_1234 = Some (Leaf p) /\
        LeafPage.GetSize p = 1 /\ LeafPage.KeyAt p 0 = Ok 4) \/
     (header_root_page_id_ s' <> INVALID_PAGE_ID /\
      in_tree tree_1234 (header_root_page_id_ s') /\
      exists P, pages_ tree_1234 !! header_root_page_id_ tree_1234 = Some (Internal P) /\
        InternalPage.GetSize P = 2)).
Proof.
  eexists. split; [vm_compute; reflexivity|].
  apply (Remove_shrinks_at_root 4 4 0 tree_1234 4);
    [config | config | exact (proj2 tree_1234_reachable) | vm_compute; discriminate
    | vm_compute; reflexivity | vm_compute; discriminate].
Defined.

From Stdlib Require Import Ascii.

(** ** [BatchOpsFromFile] *)

(** What the file holds behind an instruction character: a decimal
    numeral, something that is not a numeral, or nothing (the end of the
    file). *)
Inductive KeyField : Type :=
  | Numeral (n : Z)
  | NotNumeral
  | NoKey.

(** [input >> key] behind an instruction that has been read: the new value
    of [key], and whether the stream is still good.  A numeral that fits
    an [int64_t] is stored; one that does not fit stores the nearest bound
    and fails; a field that is not a numeral stores 0 and fails; at the end
    of the file nothing is stored and the read fails. *)
Definition read_key (field : KeyField) (key : Z) : Z * bool :=
  match field with
  | Numeral n =>
      if fits_int64 n then (n, true)
      else (if n <? 0 then INT64_MIN else INT64_MAX, false)
  | NotNumeral => (0, false)
  | NoKey => (key, false)
  end.

Section BatchOps.

Variable leaf_max_size_ : Z.
Variable internal_max_size_ : Z.
Variable header_page_id_ : page_id_t.

(** The [switch] on the instruction character: ['i'] inserts the key with
    the record id made from it, ['d'] removes it, any other character does
    nothing. *)
Definition batch_instruction (s : BufferPool) (instruction : ascii) (key : Z)
    : Result BufferPool :=
  if Ascii.eqb instruction "i"%char then
    '(_, s') ← Insert leaf_max_size_ internal_max_size_ header_page_id_ s key key; Ok s'
  else if Ascii.eqb instruction "d"%char then
    Remove header_page_id_ s key
  else Ok s.

(** [BatchOpsFromFile] on a file of records, an instruction character and
    a key field each.  The loop tests the stream before it reads and runs
    its body after every read, failed or not.  After a failed read of the
    key the body runs with what [read_key] left in [key], and the loop
    ends.  After the last record of a file that ends behind a numeral the
    read of the instruction fails: the body runs once more, with
    [instruction] and [key] as the last record made them, and the loop
    ends.  The arguments [instruction] and [key] are the values of the two
    locals at the loop head; at entry they are not initialised. *)
Fixpoint BatchOpsFromFile (records : list (ascii * KeyField)) (instruction : ascii)
    (key : Z) (s : BufferPool) : Result BufferPool :=
  match records with
  | [] => batch_instruction s instruction key
  | (instruction, field) :: records' =>
      let '(key, good) := read_key field key in
      s' ← batch_instruction s instruction key;
      if good then BatchOpsFromFile records' instruction key s' else Ok s'
  end.

(** Every record of a list run once, in order. *)
Fixpoint run_records (records : list (ascii * Z)) (s : BufferPool) : Result BufferPool :=
  match records with
  | [] => Ok s
  | (instruction, key) :: records' =>
      s' ← batch_instruction s instruction key;
      run_records records' s'
  end.

End BatchOps.

(** The records of a file up to and with the first one whose key is not
    read, each with the key that the read leaves in the local. *)
Fixpoint records_read (records : list (ascii * KeyField)) (key : Z) : list (ascii * Z) :=
  match records with
  | [] => []
  | (instruction, field) :: records' =>
      let '(key, good) := read_key field key in
      (instruction, key) :: (if good then records_read records' key else [])
  end.

Lemma batch_instruction_twice (leaf_max_size_ internal_max_size_ header_page_id_ : Z)
    (s : BufferPool) (instruction : ascii) (key : Z) :
  3 <= leaf_max_size_ < LEAF_PAGE_SIZE -> 3 <= internal_max_size_ <= INTERNAL_PAGE_SIZE ->
  reachable leaf_max_size_ internal_max_size_ header_page_id_ s ->
  exists s',
    batch_instruction leaf_max_size_ internal_max_size_ header_page_id_ s instruction key
    = Ok s' /\
    reachable leaf_max_size_ internal_max_size_ header_page_id_ s' /\
    batch_instruction leaf_max_size_ internal_max_size_ header_page_id_ s' instruction key
    = Ok s'.
Proof.
  intros Hl Hi Hreach.
  destruct (reachable_Inv leaf_max_size_ internal_max_size_ header_page_id_
              ltac:(lia) ltac:(lia) s Hreach) as [M HI].
  unfold batch_instruction.
  destruct (Ascii.eqb instruction "i"%char).
  - destruct (Insert_Inv leaf_max_size_ internal_max_size_ header_page_id_
                ltac:(lia) ltac:(lia) s M key key HI) as (b & s' & Hrun & HI').
    exists s'. rewrite Hrun, bind_Ok_l. split; [reflexivity|]. split.
    { exact (reachable_Insert _ _ _ s key key b s' Hreach Hrun). }
    rewrite (Insert_dup leaf_max_size_ internal_max_size_ header_page_id_
               ltac:(lia) ltac:(lia) s' _ key key HI').
    + reflexivity.
    + destruct (M !! key) as [v|] eqn:E; [rewrite E; eauto|].
      rewrite lookup_insert_eq. eauto.
  - destruct (Ascii.eqb instruction "d"%char).
    + destruct (Remove_Inv leaf_max_size_ internal_max_size_ header_page_id_
                  ltac:(lia) ltac:(lia) s M key HI) as (s' & Hrun & HI').
      exists s'. split; [exact Hrun|]. split.
      { exact (reachable_Remove _ _ _ s key s' Hreach Hrun). }
      apply (Remove_absent leaf_max_size_ internal_max_size_ header_page_id_
               ltac:(lia) ltac:(lia) s' _ key HI').
      apply lookup_delete_eq.
    + exists s. split; [reflexivity|]. split; [exact Hreach | reflexivity].
Qed.

(** X6. On a reachable state [BatchOpsFromFile] runs to completion and
    ends in a reachable state. When the file holds a record, the state is
    the one that running every record read once, in order, gives
    ([records_read]: the records up to and with the first one whose key is
    not read; such a record is run with the key that the failed read
    leaves, the nearest bound of [int64_t] for a numeral that does not
    fit). The run of the loop body after the failed read at the end of the
    file repeats the last instruction, and a repeated insertion or removal
    changes nothing. The state does not depend on what [instruction] held
    at entry. In a file of numerals that all fit, every record is read. *)
Theorem BatchOpsFromFile_runs_each_once
    (leaf_max_size_ internal_max_size_ header_page_id_ : Z)
    (records : list (ascii * KeyField)) (instruction : ascii) (key : Z)
    (s : BufferPool) :
  3 <= leaf_max_size_ < LEAF_PAGE_SIZE -> 3 <= internal_max_size_ <= INTERNAL_PAGE_SIZE ->
  reachable leaf_max_size_ internal_max_size_ header_page_id_ s ->
  (exists s',
     BatchOpsFromFile leaf_max_size_ internal_max_size_ header_page_id_
       records instruction key s = Ok s' /\
     reachable leaf_max_size_ internal_max_size_ header_page_id_ s' /\
     (records <> [] ->
      run_records leaf_max_size_ internal_max_size_ header_page_id_
        (records_read records key) s = Ok s')) /\
  (forall rs : list (ascii * Z),
     Forall (fun r => INT64_MIN <= snd r <= INT64_MAX) rs ->
     records = map (fun r => (fst r, Numeral (snd r))) rs ->
     records_read records key = rs).
Proof.
  intros Hl Hi Hreach. split.
  - revert instruction key s Hreach.
    induction records as [|[i f] records IH]; intros instruction key s Hreach.
    + destruct (batch_instruction_twice leaf_max_size_ internal_max_size_ header_page_id_
                  s instruction key Hl Hi Hreach) as (s' & Hrun & Hreach' & _).
      exists s'. split; [exact Hrun|]. split; [exact Hreach'|]. intros H. contradiction.
    + cbn [BatchOpsFromFile records_read]. destruct (read_key f key) as [k good].
      destruct (batch_instruction_twice leaf_max_size_ internal_max_size_ header_page_id_
                  s i k Hl Hi Hreach) as (s1 & Hrun & Hreach1 & Hagain).
      rewrite Hrun, bind_Ok_l. destruct good.
      * destruct (IH i k s1 Hreach1) as (s' & Hrest & Hreach' & Honce).
        exists s'. split; [exact Hrest|]. split; [exact Hreach'|]. intros _.
        cbn [run_records]. rewrite Hrun, bind_Ok_l.
        destruct records as [|r records].
        -- simpl in Hrest |- *. rewrite Hagain in Hrest. exact Hrest.
        -- apply Honce. discriminate.
      * exists s1. split; [reflexivity|]. split; [exact Hreach1|]. intros _.
        cbn [run_records]. rewrite Hrun, bind_Ok_l. reflexivity.
  - intros rs Hfit ->. clear Hreach. revert key.
    induction Hfit as [|[i n] rs Hn _ IH]; intros key; [reflexivity|].
    cbn [map records_read fst snd read_key]. cbn [snd] in Hn.
    replace (fits_int64 n) with true
      by (unfold fits_int64, INT64_MIN, INT64_MAX in *; lia).
    rewrite IH. reflexivity.
Qed.

Lemma BatchOpsFromFile_runs_each_once_witness :
  (exists s',
     BatchOpsFromFile 4 4 0
       [("i"%char, Numeral 55); ("d"%char, Numeral 10); ("x"%char, Numeral 7)]
       "d"%char 30 tree_10_70 = Ok s' /\
     reachable 4 4 0 s' /\
     run_records 4 4 0 [("i"%char, 55); ("d"%char, 10); ("x"%char, 7)] tree_10_70 = Ok s') /\
  (exists s',
     BatchOpsFromFile 4 4 0
       [("d"%char, Numeral 10); ("i"%char, Numeral 9223372036854775808);
        ("d"%char, Numeral 20)]
       "d"%char 30 tree_10_70 = Ok s' /\
     reachable 4 4 0 s' /\
     run_records 4 4 0 [("d"%char, 10); ("i"%char, 9223372036854775807)] tree_10_70 = Ok s').
Proof.
  split.
  - destruct (proj1 (BatchOpsFromFile_runs_each_once 4 4 0
                [("i"%char, Numeral 55); ("d"%char, Numeral 10); ("x"%char, Numeral 7)]
                "d"%char 30 tree_10_70 ltac:(config) ltac:(config)
                (proj2 tree_10_70_reachable))) as (s' & Hrun & Hreach & Honce).
    exists s'. split; [exact Hrun|]. split; [exact Hreach|].
    apply Honce. discriminate.
  - destruct (proj1 (BatchOpsFromFile_runs_each_once 4 4 0
                [("d"%char, Numeral 10); ("i"%char, Numeral 9223372036854775808);
                 ("d"%char, Numeral 20)]
                "d"%char 30 tree_10_70 ltac:(config) ltac:(config)
                (proj2 tree_10_70_reachable))) as (s' & Hrun & Hreach & Honce).
    exists s'. split; [exact Hrun|]. split; [exact Hreach|].
    apply Honce. discriminate.
Defined.
